(** * Pokémon Battle Arena: a shallow embedding of [server.js]

    The development follows the layout of the server:

    - [Num]: JavaScript numbers as IEEE 754 binary64 values ([spec_float]
      with [prec = 53], [emax = 1024]) and the few [Math] functions used;
    - [Damage]: [calculateDamage];
    - [Heap], [Fetch]: the object store, [structuredClone], the two caches
      and their promise maps ([getMoveDetails], [getPokemonDetails]);
    - [Match]: the socket handlers ([findMatch], [selectTeam],
      [performAction], [disconnect]) over the server's global state;
    - [NumString], [Example], [FetchExample]: numbers as the runtime
      prints them, a match and a creature resolution played through;
    - [Lobby]: [setUsername], [getLeaderboard] and
      [initializeAvailablePokemon];
    - [Scenario]: more states of the example.

    The server's tables ([activeGames], [leaderboard], the two caches and
    the two promise maps) are plain objects used as maps.  [table[k]]
    reads a finite map for every key [k] that names no property of
    [Object.prototype] ([constructor], [toString], ...).  The caches and
    the promise maps only see such keys (printed numbers, move names of
    the remote API) and are finite maps.  [activeGames] is looked up with
    the [gameId] of a client's payload and [leaderboard] with the
    usernames the clients choose: for these two the lookup that goes on
    in [Object.prototype] is part of the embedding ([Match.inherited],
    [Match.games_get], [Match.won]).  The keys the server stores matches
    under are ids it makes itself.

    Definitions come first, the lemmas and theorems about them follow:
    [NumFacts] and [DamageFacts] for the damage formula, [CountFacts] for
    the numbers that count wins, [MatchFacts] for
    the battle, [HeapFacts] and [FetchFacts] for the caches (an invariant
    of every reachable state of the fetch layer, and what follows from
    it), [SelectFacts] for the submission of a team.  Then, handler by
    handler: [StrFacts] and [SelectionFacts] (the names and the moves a
    creature is given), [ResolutionFacts] (requests that succeed or fail,
    the creature that is built), [MatchmakingFacts] (pairing and
    leaving), [BattleFacts] (what an action does and what it keeps),
    [StartFacts] (the two teams and the first turn), [LeaderboardFacts],
    [LobbyFacts] (the names of the players), [RankingFacts] (the
    leaderboard that is sent) and [StartupFacts]. *)

From Stdlib Require Import ZArith Bool Ascii String SpecFloat DecimalString Sorted.
From stdpp Require Import gmap strings list sorting.

Local Open Scope Z_scope.

(* ===================================================================== *)
(** ** JavaScript numbers *)
(* ===================================================================== *)

Module Num.

(** A JavaScript number is a binary64 value. *)
Abbreviation jsnum := spec_float.

Definition prec : Z := 53.
Definition emax : Z := 1024.

(** The number denoted by an integer literal (correctly rounded). *)
Definition of_Z (z : Z) : jsnum := binary_normalize prec emax z 0 false.

Definition add (x y : jsnum) : jsnum := SFadd prec emax x y.
Definition sub (x y : jsnum) : jsnum := SFsub prec emax x y.
Definition mul (x y : jsnum) : jsnum := SFmul prec emax x y.
Definition div (x y : jsnum) : jsnum := SFdiv prec emax x y.

(** [x <= y], [x < y] and [x === y] on numbers; all false on NaN. *)
Definition leb (x y : jsnum) : bool := SFleb x y.
Definition ltb (x y : jsnum) : bool := SFltb x y.
Definition eqb (x y : jsnum) : bool := SFeqb x y.

Definition is_nan (x : jsnum) : bool :=
  match x with S754_nan => true | _ => false end.

Definition is_finite (x : jsnum) : bool :=
  match x with S754_zero _ | S754_finite _ _ _ => true | _ => false end.

(** Truthiness of a number: [!x] holds exactly for [+0], [-0] and [NaN]. *)
Definition truthy (x : jsnum) : bool :=
  match x with S754_zero _ | S754_nan => false | _ => true end.

(** [Math.floor]: the largest integer below [s * m * 2^e]; numbers with
    [0 <= e], zeros, infinities and NaN are returned unchanged. *)
Definition Math_floor (x : jsnum) : jsnum :=
  match x with
  | S754_finite s m e =>
      if 0 <=? e then x
      else of_Z (cond_Zopp s (Zpos m) / 2 ^ (- e))
  | _ => x
  end.

(** [Math.max(x, y)]: NaN if either argument is NaN. *)
Definition Math_max (x y : jsnum) : jsnum :=
  if is_nan x || is_nan y then S754_nan
  else if ltb x y then y else x.

(** The literals [0.15] and [0.85] (nearest binary64 values), and [8], [2],
    [1], [0]. *)
Definition c_0_15 : jsnum := S754_finite false 5404319552844595 (-55).
Definition c_0_85 : jsnum := S754_finite false 7656119366529843 (-53).
Definition zero : jsnum := S754_zero false.
Definition one : jsnum := Eval vm_compute in of_Z 1.
Definition two : jsnum := Eval vm_compute in of_Z 2.
Definition eight : jsnum := Eval vm_compute in of_Z 8.

(** A number that holds a non-negative integer. *)
Definition is_nonneg_integer (x : jsnum) : bool :=
  match x with
  | S754_zero _ => true
  | S754_finite false m e => (0 <=? e) || (Zpos m mod 2 ^ (- e) =? 0)
  | _ => false
  end.

(** The integers the server receives as base stats and move powers are
    small: well inside the range where binary64 holds every integer. *)
Definition small_int (x : jsnum) (bound : Z) : Prop :=
  exists z, 0 <= z < bound /\ x = of_Z z.

End Num.

(** Values that reach the server from outside (the remote API, a client)
    and whose type the code tests. *)
Inductive jsval :=
| JNum (x : Num.jsnum)
| JStr (s : string)
| JBool (b : bool)
| JNull
| JUndefined.

Definition typeof_number (v : jsval) : bool :=
  match v with JNum _ => true | _ => false end.

(* ===================================================================== *)
(** ** Creature data *)
(* ===================================================================== *)

(** [{ name, power }] as built by [getMoveDetails]. *)
Record Move := { move_name : string; move_power : jsval }.

(** The [formattedData] object of [getPokemonDetails].  [M] is what the
    [moves] field holds: the list of moves itself when the object is read as
    a value, a reference to the array when it lies in the object store. *)
Record PokemonOf (M : Type) := {
  pd_id : Z;
  pd_apiId : string;
  pd_name : string;
  pd_hp : Num.jsnum;
  pd_attack : Num.jsnum;
  pd_defense : Num.jsnum;
  pd_speed : Num.jsnum;
  pd_spriteUrl : option string;
  pd_moves : M;
  pd_abilityName : string
}.

Arguments pd_id {M}.
Arguments pd_apiId {M}.
Arguments pd_name {M}.
Arguments pd_hp {M}.
Arguments pd_attack {M}.
Arguments pd_defense {M}.
Arguments pd_speed {M}.
Arguments pd_spriteUrl {M}.
Arguments pd_moves {M}.
Arguments pd_abilityName {M}.

Abbreviation PokemonData := (PokemonOf (list Move)).

(** The same object with another [moves] field. *)
Definition with_moves {M N : Type} (d : PokemonOf M) (ms : N) : PokemonOf N :=
  {| pd_id := pd_id d; pd_apiId := pd_apiId d; pd_name := pd_name d; pd_hp := pd_hp d;
     pd_attack := pd_attack d; pd_defense := pd_defense d; pd_speed := pd_speed d;
     pd_spriteUrl := pd_spriteUrl d; pd_moves := ms; pd_abilityName := pd_abilityName d |}.

(** A battle instance: [{ ...baseData, maxHp, currentHp, fainted }]. *)
Record Pokemon := {
  base : PokemonData;
  maxHp : Num.jsnum;
  currentHp : Num.jsnum;
  fainted : bool
}.

(** [createPokemonInstance(baseData)] ([null] for a [null] argument). *)
Definition createPokemonInstance (baseData : option PokemonData) : option Pokemon :=
  match baseData with
  | None => None
  | Some b => Some {| base := b; maxHp := pd_hp b; currentHp := pd_hp b; fainted := false |}
  end.

(* ===================================================================== *)
(** ** Damage *)
(* ===================================================================== *)

Module Damage.
Import Num.

(** [calculateDamage(attacker, defender, move)]; [rnd] is the value that
    [Math.random()] returns in this call. *)
Definition calculateDamage (attacker defender : option Pokemon) (move : option Move)
    (rnd : jsnum) : jsnum :=
  match attacker, defender, move with
  | Some a, Some d, Some m =>
      let attack := pd_attack (base a) in
      let defense := pd_defense (base d) in
      if negb (truthy attack) || negb (truthy defense)
         || negb (typeof_number (move_power m)) || leb defense zero
      then zero
      else
        match move_power m with
        | JNum power =>
            if eqb power zero then zero
            else
              let baseDamage :=
                Math_floor (add (div (mul (div attack defense) power) eight) two) in
              let randomFactor := add (mul rnd c_0_15) c_0_85 in
              let finalDamage := Math_max one (Math_floor (mul baseDamage randomFactor)) in
              finalDamage
        | _ => zero (* not reached: [typeof move.power] is ['number'] here *)
        end
  | _, _, _ => zero
  end.

(** [baseDamage] and [randomFactor] on their own. *)
Definition baseDamage (attack defense power : jsnum) : jsnum :=
  Math_floor (add (div (mul (div attack defense) power) eight) two).

Definition randomFactor (rnd : jsnum) : jsnum := add (mul rnd c_0_15) c_0_85.

(** The damage as the specification words it, to compare with
    [calculateDamage]: [max(1, floor(base * r))] for a damaging move
    ([power > 0]), [0] for a status move. *)
Definition specified_damage (attack defense power r : jsnum) : jsnum :=
  if ltb zero power
  then Math_max one (Math_floor (mul (baseDamage attack defense power) r))
  else zero.

End Damage.

(* ===================================================================== *)
(** ** Strings *)
(* ===================================================================== *)

(** The string functions the server applies to names.  A string of the
    embedding stands for a JavaScript string of ASCII characters, one
    [ascii] for each character: that is all the identifiers and names of
    the remote API contain.  Case conversion is that of the ASCII letters;
    outside ASCII [toUpperCase] does more (it turns a sharp s into two
    letters), and the functions below say nothing about such strings. *)
Module Str.

(** The strings the functions of this module are meant for. *)
Fixpoint ascii_only (s : string) : bool :=
  match s with
  | EmptyString => true
  | String c rest => (Ascii.N_of_ascii c <? 128)%N && ascii_only rest
  end.

Definition is_lower (c : ascii) : bool :=
  let n := Ascii.N_of_ascii c in ((97 <=? n) && (n <=? 122))%N.

Definition is_upper (c : ascii) : bool :=
  let n := Ascii.N_of_ascii c in ((65 <=? n) && (n <=? 90))%N.

Definition toUpper (c : ascii) : ascii :=
  if is_lower c then Ascii.ascii_of_N (Ascii.N_of_ascii c - 32) else c.

Definition toLower (c : ascii) : ascii :=
  if is_upper c then Ascii.ascii_of_N (Ascii.N_of_ascii c + 32) else c.

(** [s.toLowerCase()]. *)
Fixpoint toLowerCase (s : string) : string :=
  match s with
  | EmptyString => EmptyString
  | String c rest => String (toLower c) (toLowerCase rest)
  end.

(** [w.charAt(0).toUpperCase() + w.slice(1)]. *)
Definition capitalize (w : string) : string :=
  match w with
  | EmptyString => EmptyString
  | String c rest => String (toUpper c) rest
  end.

(** [s.split('-')]. *)
Fixpoint split_dash (s : string) : list string :=
  match s with
  | EmptyString => [EmptyString]
  | String c rest =>
      if Ascii.eqb c "-"%char then EmptyString :: split_dash rest
      else
        match split_dash rest with
        | w :: ws => String c w :: ws
        | [] => [String c EmptyString]
        end
  end.

(** [words.join(' ')]. *)
Fixpoint join_space (words : list string) : string :=
  match words with
  | [] => EmptyString
  | [w] => w
  | w :: rest => String.append w (String " "%char (join_space rest))
  end.

(** [name.split('-').map(word => word.charAt(0).toUpperCase() +
    word.slice(1)).join(' ')], the format of a move's name. *)
Definition formatName (name : string) : string :=
  join_space (map capitalize (split_dash name)).

(** [name.split('-').map(w => w[0].toUpperCase() + w.slice(1)).join(' ')],
    the format of an ability's name: [w[0]] is [undefined] for an empty
    word and the call on it throws. *)
Definition formatAbility (name : string) : option string :=
  let words := split_dash name in
  if forallb (fun w => negb (String.eqb w EmptyString)) words
  then Some (join_space (map capitalize words))
  else None.

End Str.

(* ===================================================================== *)
(** ** The object store and [structuredClone] *)
(* ===================================================================== *)

Module Heap.

(** A reference to an object. *)
Abbreviation loc := nat.

(** The objects the fetch layer builds: a move [{ name, power }], an
    array of moves, and a creature whose [moves] field refers to such an
    array. *)
Inductive cell :=
| CMove (m : Move)
| CArray (elems : list loc)
| CPokemon (d : PokemonOf loc).

(** The store: objects are never freed, a new object takes the next
    reference. *)
Abbreviation heap := (list cell).

Definition alloc (h : heap) (c : cell) : heap * loc := (h ++ [c], length h).

(** The references an object holds. *)
Definition pointers (c : cell) : list loc :=
  match c with
  | CMove _ => []
  | CArray elems => elems
  | CPokemon d => [pd_moves d]
  end.

(** [structuredClone(value)]: a deep copy, every object of the copy new. *)
Definition clone_move (h : heap) (l : loc) : option (heap * loc) :=
  match h !! l with
  | Some (CMove m) => Some (alloc h (CMove m))
  | _ => None
  end.

Fixpoint clone_moves (h : heap) (ls : list loc) : option (heap * list loc) :=
  match ls with
  | [] => Some (h, [])
  | l :: rest =>
      match clone_move h l with
      | Some (h1, l') =>
          match clone_moves h1 rest with
          | Some (h2, rest') => Some (h2, l' :: rest')
          | None => None
          end
      | None => None
      end
  end.

Definition clone_array (h : heap) (l : loc) : option (heap * loc) :=
  match h !! l with
  | Some (CArray elems) =>
      match clone_moves h elems with
      | Some (h1, elems') => Some (alloc h1 (CArray elems'))
      | None => None
      end
  | _ => None
  end.

Definition clone_pokemon (h : heap) (l : loc) : option (heap * loc) :=
  match h !! l with
  | Some (CPokemon d) =>
      match clone_array h (pd_moves d) with
      | Some (h1, a') => Some (alloc h1 (CPokemon (with_moves d a')))
      | None => None
      end
  | _ => None
  end.

Definition structuredClone (h : heap) (l : loc) : option (heap * loc) :=
  match h !! l with
  | Some (CMove _) => clone_move h l
  | Some (CArray _) => clone_array h l
  | Some (CPokemon _) => clone_pokemon h l
  | None => None
  end.

(** The value an object holds, read through its references. *)
Definition read_move (h : heap) (l : loc) : option Move :=
  match h !! l with
  | Some (CMove m) => Some m
  | _ => None
  end.

Fixpoint read_moves (h : heap) (ls : list loc) : option (list Move) :=
  match ls with
  | [] => Some []
  | l :: rest =>
      match read_move h l, read_moves h rest with
      | Some m, Some ms => Some (m :: ms)
      | _, _ => None
      end
  end.

Definition read_array (h : heap) (l : loc) : option (list Move) :=
  match h !! l with
  | Some (CArray elems) => read_moves h elems
  | _ => None
  end.

Definition read_pokemon (h : heap) (l : loc) : option PokemonData :=
  match h !! l with
  | Some (CPokemon d) =>
      match read_array h (pd_moves d) with
      | Some ms => Some (with_moves d ms)
      | None => None
      end
  | _ => None
  end.

End Heap.

(* ===================================================================== *)
(** ** The fetch layer: caches and promise maps *)
(* ===================================================================== *)

Module Fetch.
Import Num Heap.

(** *** Configuration *)

Definition MAX_MOVES_PER_POKEMON : nat := 4.
Definition TARGET_GAME_VERSION_GROUP : string := "scarlet-violet".

(** *** What the remote API returns *)

Record VersionGroupDetail := {
  vgd_version_group : string;
  vgd_move_learn_method : string
}.

(** An element of [data.moves]: [moveInfo.move.name], [moveInfo.move.url]
    and [moveInfo.version_group_details]. *)
Record MoveInfo := {
  mi_name : string;
  mi_url : string;
  mi_version_group_details : list VersionGroupDetail
}.

Record AbilityInfo := { ab_name : string; ab_is_hidden : bool }.

(** [response.data] of the species request: [stats] pairs each
    [stat.name] with its [base_stat]; [abilities] and [sprites] may be
    absent. *)
Record ApiPokemon := {
  api_id : Z;
  api_name : string;
  api_stats : list (string * jsnum);
  api_moves : list MoveInfo;
  api_abilities : option (list AbilityInfo);
  api_front_default : option string
}.

(** *** Promises and suspended functions *)

(** A promise; a fulfilled one holds a reference or [null]. *)
Inductive promise :=
| Pending
| Fulfilled (v : option loc)
| Rejected.

(** Who called [getMoveDetails] or [getPokemonDetails]: code outside the
    fetch layer, to which the returned object escapes, or the producer of
    [getPokemonDetails], which keeps it inside [formattedData]. *)
Inductive owner := External | Internal.

(** An async function suspended at an [await]:
    - [MoveFetch]: the producer of [getMoveDetails] at
      [await axios.get(moveUrl)]; it settles the promise [p] it stored in
      [moveFetchPromises];
    - [MoveAwait]: a call of [getMoveDetails] at
      [await moveFetchPromises[moveName]]; it settles the promise [ret]
      the call returned;
    - [PokemonFetch]: the producer of [getPokemonDetails] at
      [await axios.get(...)];
    - [PokemonMoves]: the same producer at
      [await Promise.all(moveDetailPromises)];
    - [PokemonAwait]: a call of [getPokemonDetails] at
      [await pokemonFetchPromises[identifier]]. *)
Inductive task :=
| MoveFetch (moveName : string) (p : nat)
| MoveAwait (moveName : string) (p ret : nat) (o : owner)
| PokemonFetch (identifier : string) (p : nat)
| PokemonMoves (identifier : string) (p : nat) (data : ApiPokemon) (moveDetailPromises : list nat)
| PokemonAwait (identifier : string) (p ret : nat).

(** A call of [axios.get]: for a move (its name and the URL asked), or for
    [POKEAPI_BASE_URL/pokemon/identifier]. *)
Inductive request :=
| ReqMove (moveName moveUrl : string)
| ReqPokemon (identifier : string).

(** The state of the fetch layer: the object store, the four globals
    [moveDataCache], [moveFetchPromises], [pokemonDataCache] and
    [pokemonFetchPromises], every promise created, every async function
    started (its slot is [None] once it has returned), the [axios.get]
    calls made so far, and the references that have been returned to
    callers outside the layer. *)
Record State := {
  store : heap;
  moveDataCache : gmap string loc;
  moveFetchPromises : gmap string nat;
  pokemonDataCache : gmap string loc;
  pokemonFetchPromises : gmap string nat;
  promises : list promise;
  tasks : list (option task);
  requests : list request;
  escaped : gset loc
}.

Definition initial : State :=
  {| store := []; moveDataCache := ∅; moveFetchPromises := ∅; pokemonDataCache := ∅;
     pokemonFetchPromises := ∅; promises := []; tasks := []; requests := [];
     escaped := ∅ |}.

Definition set_store (s : State) (h : heap) : State :=
  {| store := h; moveDataCache := moveDataCache s; moveFetchPromises := moveFetchPromises s;
     pokemonDataCache := pokemonDataCache s; pokemonFetchPromises := pokemonFetchPromises s;
     promises := promises s; tasks := tasks s; requests := requests s; escaped := escaped s |}.

Definition set_moveDataCache (s : State) (m : gmap string loc) : State :=
  {| store := store s; moveDataCache := m; moveFetchPromises := moveFetchPromises s;
     pokemonDataCache := pokemonDataCache s; pokemonFetchPromises := pokemonFetchPromises s;
     promises := promises s; tasks := tasks s; requests := requests s; escaped := escaped s |}.

Definition set_moveFetchPromises (s : State) (m : gmap string nat) : State :=
  {| store := store s; moveDataCache := moveDataCache s; moveFetchPromises := m;
     pokemonDataCache := pokemonDataCache s; pokemonFetchPromises := pokemonFetchPromises s;
     promises := promises s; tasks := tasks s; requests := requests s; escaped := escaped s |}.

Definition set_pokemonDataCache (s : State) (m : gmap string loc) : State :=
  {| store := store s; moveDataCache := moveDataCache s; moveFetchPromises := moveFetchPromises s;
     pokemonDataCache := m; pokemonFetchPromises := pokemonFetchPromises s;
     promises := promises s; tasks := tasks s; requests := requests s; escaped := escaped s |}.

Definition set_pokemonFetchPromises (s : State) (m : gmap string nat) : State :=
  {| store := store s; moveDataCache := moveDataCache s; moveFetchPromises := moveFetchPromises s;
     pokemonDataCache := pokemonDataCache s; pokemonFetchPromises := m;
     promises := promises s; tasks := tasks s; requests := requests s; escaped := escaped s |}.

Definition set_promises (s : State) (ps : list promise) : State :=
  {| store := store s; moveDataCache := moveDataCache s; moveFetchPromises := moveFetchPromises s;
     pokemonDataCache := pokemonDataCache s; pokemonFetchPromises := pokemonFetchPromises s;
     promises := ps; tasks := tasks s; requests := requests s; escaped := escaped s |}.

Definition set_tasks (s : State) (ts : list (option task)) : State :=
  {| store := store s; moveDataCache := moveDataCache s; moveFetchPromises := moveFetchPromises s;
     pokemonDataCache := pokemonDataCache s; pokemonFetchPromises := pokemonFetchPromises s;
     promises := promises s; tasks := ts; requests := requests s; escaped := escaped s |}.

Definition set_requests (s : State) (rs : list request) : State :=
  {| store := store s; moveDataCache := moveDataCache s; moveFetchPromises := moveFetchPromises s;
     pokemonDataCache := pokemonDataCache s; pokemonFetchPromises := pokemonFetchPromises s;
     promises := promises s; tasks := tasks s; requests := rs; escaped := escaped s |}.

Definition set_escaped (s : State) (e : gset loc) : State :=
  {| store := store s; moveDataCache := moveDataCache s; moveFetchPromises := moveFetchPromises s;
     pokemonDataCache := pokemonDataCache s; pokemonFetchPromises := pokemonFetchPromises s;
     promises := promises s; tasks := tasks s; requests := requests s; escaped := e |}.

(** *** Small steps on the state *)

(** A new promise; its number is returned. *)
Definition new_promise (s : State) (p : promise) : State * nat :=
  (set_promises s (promises s ++ [p]), length (promises s)).

Definition settle (s : State) (pid : nat) (p : promise) : State :=
  set_promises s (<[pid := p]> (promises s)).

(** An async function suspends at an [await]; one that returns. *)
Definition spawn (s : State) (t : task) : State :=
  set_tasks s (tasks s ++ [Some t]).

Definition finish (s : State) (tid : nat) : State :=
  set_tasks s (<[tid := None]> (tasks s)).

Definition suspend (s : State) (tid : nat) (t : task) : State :=
  set_tasks s (<[tid := Some t]> (tasks s)).

(** The objects made for a caller outside the layer escape to it. *)
Definition hand_over (s : State) (o : owner) (h : heap) : State :=
  match o with
  | External =>
      set_escaped (set_store s h)
        (escaped s ∪ set_seq (length (store s)) (length h - length (store s)))
  | Internal => set_store s h
  end.

(** [structuredClone(object)] on behalf of the caller [o]. *)
Definition clone_for (s : State) (o : owner) (l : loc) : option (State * loc) :=
  match structuredClone (store s) l with
  | Some (h, l') => Some (hand_over s o h, l')
  | None => None
  end.

(** A new object made on behalf of the caller [o]. *)
Definition alloc_for (s : State) (o : owner) (c : cell) : State * loc :=
  let '(h, l) := alloc (store s) c in (hand_over s o h, l).

(** [{ name: moveName, power: 0 }]. *)
Definition fallbackMove (moveName : string) : Move :=
  {| move_name := moveName; move_power := JNum zero |}.

(** *** [getMoveDetails] *)

(** [getMoveDetails(moveInfo)] up to its first [await]; the result is the
    promise the call returns. *)
Definition getMoveDetails (o : owner) (s : State) (moveInfo : MoveInfo) : State * nat :=
  let moveName := mi_name moveInfo in
  let moveUrl := mi_url moveInfo in
  match moveDataCache s !! moveName with
  | Some cached =>
      match clone_for s o cached with
      | Some (s, l) => new_promise s (Fulfilled (Some l))
      | None => new_promise s Rejected
      end
  | None =>
      let s :=
        match moveFetchPromises s !! moveName with
        | Some _ => s
        | None =>
            let '(s, p) := new_promise s Pending in
            let s := set_requests s (requests s ++ [ReqMove moveName moveUrl]) in
            let s := spawn s (MoveFetch moveName p) in
            set_moveFetchPromises s (<[moveName := p]> (moveFetchPromises s))
        end in
      let '(s, ret) := new_promise s Pending in
      match moveFetchPromises s !! moveName with
      | Some p => (spawn s (MoveAwait moveName p ret o), ret)
      | None => (settle s ret (Fulfilled None), ret) (* not reached *)
      end
  end.

(** The producer of [getMoveDetails] resumes with the answer to
    [axios.get(moveUrl)]: [Some power] is a response whose
    [response.data.power] is [power], [None] a failed request. *)
Definition moveResponse (s : State) (tid : nat) (response : option jsval) : option State :=
  match tasks s !! tid with
  | Some (Some (MoveFetch moveName p)) =>
      let s := finish s tid in
      match response with
      | Some power =>
          let moveData :=
            {| move_name := Str.formatName moveName;
               move_power := match power with JNull => JNum zero | _ => power end |} in
          let '(s, l) := alloc_for s Internal (CMove moveData) in
          let s := set_moveDataCache s (<[moveName := l]> (moveDataCache s)) in
          let s := set_moveFetchPromises s (delete moveName (moveFetchPromises s)) in
          Some (settle s p (Fulfilled (Some l)))
      | None =>
          let '(s, l) := alloc_for s Internal (CMove (fallbackMove moveName)) in
          let s := set_moveFetchPromises s (delete moveName (moveFetchPromises s)) in
          Some (settle s p (Fulfilled (Some l)))
      end
  | _ => None
  end.

(** A call of [getMoveDetails] resumes once the promise it awaits is
    settled: it returns a clone of the value, or the fallback move when
    the promise is rejected or the clone fails. *)
Definition resumeMoveAwait (s : State) (tid : nat) : option State :=
  match tasks s !! tid with
  | Some (Some (MoveAwait moveName p ret o)) =>
      match promises s !! p with
      | Some (Fulfilled (Some moveData)) =>
          match clone_for s o moveData with
          | Some (s, l) => Some (settle (finish s tid) ret (Fulfilled (Some l)))
          | None =>
              let '(s, l) := alloc_for s o (CMove (fallbackMove moveName)) in
              Some (settle (finish s tid) ret (Fulfilled (Some l)))
          end
      | Some (Fulfilled None) => Some (settle (finish s tid) ret (Fulfilled None))
      | Some Rejected =>
          let '(s, l) := alloc_for s o (CMove (fallbackMove moveName)) in
          Some (settle (finish s tid) ret (Fulfilled (Some l)))
      | _ => None
      end
  | _ => None
  end.

(** *** [getPokemonDetails] *)

(** [getStat(statName)]:
    [data.stats.find(s => s.stat.name === statName)?.base_stat || 0]. *)
Definition getStat (data : ApiPokemon) (statName : string) : jsnum :=
  match List.find (fun st => String.eqb (fst st) statName) (api_stats data) with
  | Some (_, base_stat) => if truthy base_stat then base_stat else zero
  | None => zero
  end.

(** Whether [moveInfo.version_group_details] has an entry of the target
    version group learnt by level-up. *)
Definition learnsByLevelUp (moveInfo : MoveInfo) : bool :=
  existsb
    (fun vgd =>
       String.eqb (vgd_version_group vgd) TARGET_GAME_VERSION_GROUP
       && String.eqb (vgd_move_learn_method vgd) "level-up")
    (mi_version_group_details moveInfo).

(** The first loop over [data.moves]: level-up moves of the target version
    group, until there are enough. *)
Fixpoint selectLevelUp (moves selected : list MoveInfo) : list MoveInfo :=
  match moves with
  | [] => selected
  | moveInfo :: rest =>
      let selected := if learnsByLevelUp moveInfo then selected ++ [moveInfo] else selected in
      if (MAX_MOVES_PER_POKEMON <=? length selected)%nat then selected
      else selectLevelUp rest selected
  end.

(** The second loop: the first moves overall whose name is not among
    [existingNames], the names selected by the first loop. *)
Fixpoint selectFill (moves : list MoveInfo) (existingNames : list string)
    (selected : list MoveInfo) : list MoveInfo :=
  match moves with
  | [] => selected
  | moveInfo :: rest =>
      if (MAX_MOVES_PER_POKEMON <=? length selected)%nat then selected
      else
        selectFill rest existingNames
          (if bool_decide (mi_name moveInfo ∈ existingNames) then selected
           else selected ++ [moveInfo])
  end.

Definition selectMoves (data : ApiPokemon) : list MoveInfo :=
  let selected := selectLevelUp (api_moves data) [] in
  if (length selected <? MAX_MOVES_PER_POKEMON)%nat
  then selectFill (api_moves data) (map mi_name selected) selected
  else selected.

(** [selectedMoveInfos.map(moveInfo => getMoveDetails(moveInfo))]. *)
Fixpoint getMoveDetails_each (s : State) (infos : list MoveInfo) : State * list nat :=
  match infos with
  | [] => (s, [])
  | moveInfo :: rest =>
      let '(s, ret) := getMoveDetails Internal s moveInfo in
      let '(s, rets) := getMoveDetails_each s rest in
      (s, ret :: rets)
  end.

(** The ability's name: that of the first ability which is not hidden,
    formatted (the formatting may throw), or ['Unknown']. *)
Definition abilityName (data : ApiPokemon) : option string :=
  match api_abilities data with
  | Some abilities =>
      match List.find (fun a => negb (ab_is_hidden a)) abilities with
      | Some firstAbilityInfo => Str.formatAbility (ab_name firstAbilityInfo)
      | None => Some "Unknown"
      end
  | None => Some "Unknown"
  end.

(** [getPokemonDetails(idOrName)] up to its first [await]. *)
Definition getPokemonDetails (s : State) (idOrName : string) : State * nat :=
  let identifier := Str.toLowerCase idOrName in
  match pokemonDataCache s !! identifier with
  | Some cached =>
      match clone_for s External cached with
      | Some (s, l) => new_promise s (Fulfilled (Some l))
      | None => new_promise s Rejected
      end
  | None =>
      let s :=
        match pokemonFetchPromises s !! identifier with
        | Some _ => s
        | None =>
            let '(s, p) := new_promise s Pending in
            let s := set_requests s (requests s ++ [ReqPokemon identifier]) in
            let s := spawn s (PokemonFetch identifier p) in
            set_pokemonFetchPromises s (<[identifier := p]> (pokemonFetchPromises s))
        end in
      let '(s, ret) := new_promise s Pending in
      match pokemonFetchPromises s !! identifier with
      | Some p => (spawn s (PokemonAwait identifier p ret), ret)
      | None => (settle s ret (Fulfilled None), ret) (* not reached *)
      end
  end.

(** The [catch] and [finally] of the producer: the error is thrown again,
    the promise leaves [pokemonFetchPromises]. *)
Definition producerFails (s : State) (tid : nat) (identifier : string) (p : nat) : State :=
  let s := finish s tid in
  let s := set_pokemonFetchPromises s (delete identifier (pokemonFetchPromises s)) in
  settle s p Rejected.

(** The producer resumes with the answer to the species request: it
    selects the moves, calls [getMoveDetails] for each and suspends at
    [Promise.all]. *)
Definition pokemonResponse (s : State) (tid : nat) (response : option ApiPokemon)
    : option State :=
  match tasks s !! tid with
  | Some (Some (PokemonFetch identifier p)) =>
      match response with
      | Some data =>
          let selectedMoveInfos := selectMoves data in
          let '(s, moveDetailPromises) := getMoveDetails_each s selectedMoveInfos in
          Some (suspend s tid (PokemonMoves identifier p data moveDetailPromises))
      | None => Some (producerFails s tid identifier p)
      end
  | _ => None
  end.

(** [Promise.all(promises)]: rejected as soon as one of them is, fulfilled
    with all the values once all are fulfilled. *)
Inductive all_state :=
| AllPending
| AllRejected
| AllFulfilled (values : list (option loc)).

Definition is_rejected (p : option promise) : bool :=
  match p with Some Rejected => true | _ => false end.

Fixpoint fulfilled_values (ps : list (option promise)) : option (list (option loc)) :=
  match ps with
  | [] => Some []
  | Some (Fulfilled v) :: rest =>
      match fulfilled_values rest with
      | Some vs => Some (v :: vs)
      | None => None
      end
  | _ :: _ => None
  end.

Definition promise_all (s : State) (pids : list nat) : all_state :=
  let ps := map (fun pid => promises s !! pid) pids in
  if existsb is_rejected ps then AllRejected
  else
    match fulfilled_values ps with
    | Some values => AllFulfilled values
    | None => AllPending
    end.

(** [formattedMoves.filter(m => m !== null)]. *)
Definition non_null (values : list (option loc)) : list loc := omap (fun v => v) values.

(** [data.sprites?.front_default || null]. *)
Definition spriteUrl (data : ApiPokemon) : option string :=
  match api_front_default data with
  | Some url => if String.eqb url "" then None else Some url
  | None => None
  end.

(** The producer resumes after [Promise.all]: it builds [formattedData],
    stores it in [pokemonDataCache], and fulfils its promise with it. *)
Definition resumePokemonMoves (s : State) (tid : nat) : option State :=
  match tasks s !! tid with
  | Some (Some (PokemonMoves identifier p data moveDetailPromises)) =>
      match promise_all s moveDetailPromises with
      | AllPending => None
      | AllRejected => Some (producerFails s tid identifier p)
      | AllFulfilled formattedMoves =>
          match abilityName data with
          | None => Some (producerFails s tid identifier p)
          | Some abilityName =>
              let '(s, moves) := alloc_for s Internal (CArray (non_null formattedMoves)) in
              let formattedData :=
                {| pd_id := api_id data;
                   pd_apiId := identifier;
                   pd_name := Str.capitalize (api_name data);
                   pd_hp := getStat data "hp";
                   pd_attack := getStat data "attack";
                   pd_defense := getStat data "defense";
                   pd_speed := getStat data "speed";
                   pd_spriteUrl := spriteUrl data;
                   pd_moves := moves;
                   pd_abilityName := abilityName |} in
              let '(s, l) := alloc_for s Internal (CPokemon formattedData) in
              let s := set_pokemonDataCache s (<[identifier := l]> (pokemonDataCache s)) in
              let s := finish s tid in
              let s :=
                set_pokemonFetchPromises s (delete identifier (pokemonFetchPromises s)) in
              Some (settle s p (Fulfilled (Some l)))
          end
      end
  | _ => None
  end.

(** A call of [getPokemonDetails] resumes once the promise it awaits is
    settled: it returns a clone of the value, [null] when the promise is
    rejected or the clone fails. *)
Definition resumePokemonAwait (s : State) (tid : nat) : option State :=
  match tasks s !! tid with
  | Some (Some (PokemonAwait identifier p ret)) =>
      match promises s !! p with
      | Some (Fulfilled (Some data)) =>
          match clone_for s External data with
          | Some (s, l) => Some (settle (finish s tid) ret (Fulfilled (Some l)))
          | None => Some (settle (finish s tid) ret (Fulfilled None))
          end
      | Some (Fulfilled None) => Some (settle (finish s tid) ret (Fulfilled None))
      | Some Rejected => Some (settle (finish s tid) ret (Fulfilled None))
      | _ => None
      end
  | _ => None
  end.

(** *** The callers' side *)

(** Code outside the layer changes an object it holds, or makes a new one:
    it reaches only what has escaped to it, and can store only such
    references. *)
Definition mutate (s : State) (l : loc) (c : cell) : option State :=
  if decide (l ∈ escaped s ∧ (l < length (store s))%nat
             ∧ Forall (fun q => q ∈ escaped s) (pointers c))
  then Some (set_store s (<[l := c]> (store s)))
  else None.

Definition allocate (s : State) (c : cell) : option State :=
  if decide (Forall (fun q => q ∈ escaped s) (pointers c))
  then Some (fst (alloc_for s External c))
  else None.

(** *** Runs *)

(** What can happen next: a call from outside, the answer to a request,
    a suspended function that resumes, a caller that writes to an object
    it was given. *)
Inductive event :=
| CallMove (moveInfo : MoveInfo)
| CallPokemon (idOrName : string)
| MoveResponse (tid : nat) (response : option jsval)
| PokemonResponse (tid : nat) (response : option ApiPokemon)
| Resume (tid : nat)
| Mutate (l : loc) (c : cell)
| Allocate (c : cell).

Definition resume (s : State) (tid : nat) : option State :=
  match tasks s !! tid with
  | Some (Some (MoveAwait _ _ _ _)) => resumeMoveAwait s tid
  | Some (Some (PokemonMoves _ _ _ _)) => resumePokemonMoves s tid
  | Some (Some (PokemonAwait _ _ _)) => resumePokemonAwait s tid
  | _ => None
  end.

Definition step (s : State) (e : event) : option State :=
  match e with
  | CallMove moveInfo => Some (fst (getMoveDetails External s moveInfo))
  | CallPokemon idOrName => Some (fst (getPokemonDetails s idOrName))
  | MoveResponse tid response => moveResponse s tid response
  | PokemonResponse tid response => pokemonResponse s tid response
  | Resume tid => resume s tid
  | Mutate l c => mutate s l c
  | Allocate c => allocate s c
  end.

Fixpoint run (s : State) (es : list event) : option State :=
  match es with
  | [] => Some s
  | e :: rest =>
      match step s e with
      | Some s' => run s' rest
      | None => None
      end
  end.

(** The states the server can be in. *)
Definition reachable (s : State) : Prop := exists es, run initial es = Some s.

End Fetch.

(* ===================================================================== *)
(** ** The match layer: global state *)
(* ===================================================================== *)

Module Match.
Import Num.

(** [action] of [performAction]: [{type:'attack', moveName}],
    [{type:'switch', pokemonIndex}], or any other [type]. *)
Inductive Action :=
| Attack (moveName : string)
| Switch (pokemonIndex : Z)
| OtherAction.

(** Entries of [game.log].  The server renders each as a sentence; the
    embedding keeps the data the sentence is built from. *)
Inductive LogMsg :=
| LogMatchFound
| LogBattleStart
| LogVersus (username1 pokemon1 username2 pokemon2 : string)
| LogTurn (username : string)
| LogUsed (username pokemon moveName : string)
| LogEffect (username pokemon : string) (power : jsval) (damage : jsnum)
| LogFainted (username pokemon : string)
| LogSwitched (username oldPokemon newPokemon : string)
| LogGameOver (winner loser : string)
| LogMustSwitch (username : string).

(** [game.players[id]]. *)
Record Player := {
  pl_id : string;
  pl_username : string;
  pl_team : option (list Pokemon);
  pl_activePokemonIndex : Z;
  pl_hasSelected : bool;
  pl_isPlayer1 : bool
}.

(** [game.battleState.playerN]: a shallow copy of the player's record plus
    [activePokemon] and [mustSwitch].  The copy's [team] is the very array
    of [game.players[id].team], and [activePokemon] is always the element
    [team[activePokemonIndex]] of that array (index 0 at battle start, both
    set together by a switch); the embedding therefore stores the team once,
    in [Player], and reads both through it. *)
Record Side := {
  sd_id : string;
  sd_username : string;
  sd_activePokemonIndex : Z;
  sd_mustSwitch : bool
}.

Record Game := {
  g_id : string;
  g_players : gmap string Player;
  g_playerOrder : string * string;
  g_battleState : option (Side * Side);
  g_turn : option string;
  g_log : list LogMsg
}.

(** What [getSanitizedGameState] sends. *)
Record SanPokemon := {
  sp_id : Z; sp_name : string; sp_currentHp : jsnum; sp_maxHp : jsnum;
  sp_fainted : bool; sp_spriteUrl : option string; sp_abilityName : string
}.

Record SanPlayer := {
  spl_id : string;
  spl_username : string;
  spl_team : list SanPokemon;
  spl_activePokemon : option (SanPokemon * list Move);
  spl_activePokemonIndex : Z;
  spl_mustSwitch : bool
}.

Record Snapshot := {
  sn_gameId : string;
  sn_player1 : option SanPlayer;
  sn_player2 : option SanPlayer;
  sn_turn : option string;
  sn_log : list LogMsg
}.

(** Outbound events. *)
Inductive Emit :=
| EvMatchFound (gameId opponentUsername : string)
| EvWaitingForOpponent
| EvOpponentReady
| EvWaitingForOpponentSelection
| EvBattleStart (state : option Snapshot)
| EvGameStateUpdate (state : option Snapshot)
| EvForceSwitch (faintedPokemon : string)
| EvGameOver (winnerId : string) (finalState : option Snapshot)
| EvOpponentDisconnected (disconnectedUsername : string) (youWin : bool)
| EvGameError (message : string).

(** *** Plain objects looked up with a key of the client

    [activeGames] and [leaderboard] are plain objects, and the handlers
    look up in them a key the client chose: the [gameId] of a payload, a
    username.  When the object has no property of its own under the key,
    the lookup goes on in [Object.prototype]: for the names below it finds
    a function, for [__proto__] it finds [Object.prototype] itself, for
    any other key [undefined]. *)
Definition prototype_functions : list string :=
  ["constructor"; "__defineGetter__"; "__defineSetter__"; "hasOwnProperty";
   "__lookupGetter__"; "__lookupSetter__"; "isPrototypeOf"; "propertyIsEnumerable";
   "toString"; "valueOf"; "toLocaleString"].

Definition inherited (key : string) : bool :=
  bool_decide (key ∈ "__proto__" :: prototype_functions).

(** The name in the text of a function of [Object.prototype]:
    [constructor] is the function [Object], the others are named as their
    key. *)
Definition function_name (key : string) : string :=
  if decide (key = "constructor") then "Object" else key.

(** A value of [leaderboard].  The handlers store numbers, until a player
    wins whose name finds a function in [Object.prototype]:
    [(leaderboard[username] || 0) + 1] is then a string, the text of the
    function followed by [1], and each later win appends another [1].
    [Text f k] stands for [function f() { [native code] }] followed by [k]
    digits [1]. *)
Inductive score :=
| Wins (n : jsnum)
| Text (function : string) (ones : nat).

Fixpoint digits_one (k : nat) : string :=
  match k with
  | O => EmptyString
  | S k => String "1" (digits_one k)
  end.

(** The string a [Text] stands for, and the value as the client receives
    it. *)
Definition text (function : string) (ones : nat) : string :=
  String.append "function "
    (String.append function (String.append "() { [native code] }" (digits_one ones))).

Definition score_value (v : score) : jsval :=
  match v with
  | Wins n => JNum n
  | Text f k => JStr (text f k)
  end.

(** The server's globals.  [activeGames] keeps its keys in insertion order
    (the [disconnect] handler takes the first match in [Object.keys]);
    [detachedGames] holds the game objects deleted from [activeGames], which
    a suspended [selectTeam] handler still refers to; [leaderboard] holds
    the properties of the object itself; [sockets] is
    [io.sockets.sockets] with each socket's [username]; [rooms] are the
    rooms joined with [socket.join]; [outbox] lists the events of the match
    layer delivered so far, each with the receiving socket. *)
Record Server := {
  waitingPlayer : option string;
  activeGames : list (string * Game);
  detachedGames : list (string * Game);
  leaderboard : gmap string score;
  sockets : gmap string string;
  rooms : gmap string (gset string);
  outbox : list (string * Emit)
}.

Definition initial : Server :=
  {| waitingPlayer := None; activeGames := []; detachedGames := []; leaderboard := ∅;
     sockets := ∅; rooms := ∅; outbox := [] |}.

(** *** Access to the globals *)

(** [activeGames[gameId]], [activeGames[gameId] = game] and
    [delete activeGames[gameId]]. *)
Fixpoint games_lookup (gs : list (string * Game)) (gameId : string) : option Game :=
  match gs with
  | [] => None
  | (k, g) :: rest => if decide (k = gameId) then Some g else games_lookup rest gameId
  end.

Fixpoint games_set (gs : list (string * Game)) (gameId : string) (game : Game)
    : list (string * Game) :=
  match gs with
  | [] => [(gameId, game)]
  | (k, g) :: rest =>
      if decide (k = gameId) then (k, game) :: rest else (k, g) :: games_set rest gameId game
  end.

Fixpoint games_delete (gs : list (string * Game)) (gameId : string) : list (string * Game) :=
  match gs with
  | [] => []
  | (k, g) :: rest =>
      if decide (k = gameId) then games_delete rest gameId else (k, g) :: games_delete rest gameId
  end.

Definition set_games (s : Server) (gs : list (string * Game)) : Server :=
  {| waitingPlayer := waitingPlayer s; activeGames := gs; detachedGames := detachedGames s; leaderboard := leaderboard s;
     sockets := sockets s; rooms := rooms s; outbox := outbox s |}.

(** [delete activeGames[gameId]]: the object itself lives on. *)
Definition delete_game (s : Server) (gameId : string) : Server :=
  {| waitingPlayer := waitingPlayer s;
     activeGames := games_delete (activeGames s) gameId;
     detachedGames :=
       match games_lookup (activeGames s) gameId with
       | Some game => games_set (detachedGames s) gameId game
       | None => detachedGames s
       end;
     leaderboard := leaderboard s; sockets := sockets s; rooms := rooms s;
     outbox := outbox s |}.

Definition set_waitingPlayer (s : Server) (w : option string) : Server :=
  {| waitingPlayer := w; activeGames := activeGames s; detachedGames := detachedGames s; leaderboard := leaderboard s;
     sockets := sockets s; rooms := rooms s; outbox := outbox s |}.

Definition set_rooms (s : Server) (r : gmap string (gset string)) : Server :=
  {| waitingPlayer := waitingPlayer s; activeGames := activeGames s; detachedGames := detachedGames s;
     leaderboard := leaderboard s; sockets := sockets s; rooms := r; outbox := outbox s |}.

(** [leaderboard[username] = (leaderboard[username] || 0) + 1] on the
    properties [lb] of the object.
    - A number of the object is counted up; [0] and [NaN] are falsy and
      count as [0].
    - A string of the object is truthy, and [+ 1] appends [1] to it.
    - Without a property of the object, [__proto__] reads
      [Object.prototype], and the assignment of the string
      [[object Object]1] to [__proto__] is ignored (its setter takes
      objects and [null] only): nothing is stored.
    - A name of [prototype_functions] reads a function, and the text of
      the function followed by [1] is stored.
    - Any other name reads [undefined], and [0 + 1] is stored. *)
Definition won (lb : gmap string score) (username : string) : gmap string score :=
  match lb !! username with
  | Some (Wins n) => <[username := Wins (add (if truthy n then n else zero) one)]> lb
  | Some (Text f k) => <[username := Text f (S k)]> lb
  | None =>
      if decide (username = "__proto__") then lb
      else if decide (username ∈ prototype_functions)
           then <[username := Text (function_name username) 1]> lb
           else <[username := Wins (add zero one)]> lb
  end.

Definition recordWin (s : Server) (username : string) : Server :=
  {| waitingPlayer := waitingPlayer s; activeGames := activeGames s; detachedGames := detachedGames s;
     leaderboard := won (leaderboard s) username;
     sockets := sockets s; rooms := rooms s; outbox := outbox s |}.

(** The sockets an [io.to(room)] reaches: those that joined [room], and the
    socket whose id is [room] (every socket is in the room of its own id). *)
Definition room_members (s : Server) (room : string) : gset string :=
  default ∅ (rooms s !! room)
  ∪ (if decide (is_Some (sockets s !! room)) then {[room]} else ∅).

(** [socket.emit(ev)] and [io.to(room).emit(ev)]. *)
Definition emit (s : Server) (sock : string) (ev : Emit) : Server :=
  {| waitingPlayer := waitingPlayer s; activeGames := activeGames s; detachedGames := detachedGames s;
     leaderboard := leaderboard s; sockets := sockets s; rooms := rooms s;
     outbox := outbox s ++ [(sock, ev)] |}.

Definition emit_to (s : Server) (room : string) (ev : Emit) : Server :=
  {| waitingPlayer := waitingPlayer s; activeGames := activeGames s; detachedGames := detachedGames s;
     leaderboard := leaderboard s; sockets := sockets s; rooms := rooms s;
     outbox := outbox s ++ map (fun sock => (sock, ev)) (elements (room_members s room)) |}.

(** [socket.join(room)] and [socket.leave(room)]. *)
Definition join (s : Server) (sock room : string) : Server :=
  set_rooms s (<[room := {[sock]} ∪ default ∅ (rooms s !! room)]> (rooms s)).

Definition leave (s : Server) (sock room : string) : Server :=
  set_rooms s (<[room := default ∅ (rooms s !! room) ∖ {[sock]}]> (rooms s)).

(** *** Access to a game *)

Definition set_log (g : Game) (l : list LogMsg) : Game :=
  {| g_id := g_id g; g_players := g_players g; g_playerOrder := g_playerOrder g;
     g_battleState := g_battleState g; g_turn := g_turn g; g_log := l |}.

Definition push_log (g : Game) (m : LogMsg) : Game := set_log g (g_log g ++ [m]).

Definition set_turn (g : Game) (t : option string) : Game :=
  {| g_id := g_id g; g_players := g_players g; g_playerOrder := g_playerOrder g;
     g_battleState := g_battleState g; g_turn := t; g_log := g_log g |}.

Definition set_battleState (g : Game) (b : option (Side * Side)) : Game :=
  {| g_id := g_id g; g_players := g_players g; g_playerOrder := g_playerOrder g;
     g_battleState := b; g_turn := g_turn g; g_log := g_log g |}.

Definition set_players (g : Game) (ps : gmap string Player) : Game :=
  {| g_id := g_id g; g_players := ps; g_playerOrder := g_playerOrder g;
     g_battleState := g_battleState g; g_turn := g_turn g; g_log := g_log g |}.

(** Truthiness of [game.battleState]. *)
Definition battle_started (g : Game) : bool :=
  match g_battleState g with Some _ => true | None => false end.

(** [game.playerOrder.find(id => id !== me)]. *)
Definition other_player (order : string * string) (me : string) : option string :=
  if decide (order.1 ≠ me) then Some order.1
  else if decide (order.2 ≠ me) then Some order.2
  else None.

(** [playerState.team] and [playerState.activePokemon] (see [Side]). *)
Definition side_team (g : Game) (sd : Side) : option (list Pokemon) :=
  match g_players g !! sd_id sd with
  | Some p => pl_team p
  | None => None
  end.

Definition team_at (team : list Pokemon) (index : Z) : option Pokemon :=
  if index <? 0 then None else team !! Z.to_nat index.

Definition activePokemon (g : Game) (sd : Side) : option Pokemon :=
  match side_team g sd with
  | Some team => team_at team (sd_activePokemonIndex sd)
  | None => None
  end.

(** Writes through the alias: replacing the object [team[index]] of the
    side's team changes [game.players[id].team] as well. *)
Definition set_team_member (g : Game) (sd : Side) (index : Z) (p : Pokemon) : Game :=
  match g_players g !! sd_id sd with
  | Some pl =>
      match pl_team pl with
      | Some team =>
          set_players g
            (<[sd_id sd :=
                 {| pl_id := pl_id pl; pl_username := pl_username pl;
                    pl_team := Some (<[Z.to_nat index := p]> team);
                    pl_activePokemonIndex := pl_activePokemonIndex pl;
                    pl_hasSelected := pl_hasSelected pl; pl_isPlayer1 := pl_isPlayer1 pl |}]>
               (g_players g))
      | None => g
      end
  | None => g
  end.

(** *** [getSanitizedGameState] *)

Definition sanitizePokemon (p : Pokemon) : SanPokemon :=
  {| sp_id := pd_id (base p); sp_name := pd_name (base p);
     sp_currentHp := currentHp p; sp_maxHp := maxHp p; sp_fainted := fainted p;
     sp_spriteUrl := pd_spriteUrl (base p); sp_abilityName := pd_abilityName (base p) |}.

Definition sanitizePlayer (g : Game) (sd : Side) : SanPlayer :=
  {| spl_id := sd_id sd;
     spl_username := sd_username sd;
     spl_team := map sanitizePokemon (default [] (side_team g sd));
     spl_activePokemon :=
       match activePokemon g sd with
       | Some p => Some (sanitizePokemon p, pd_moves (base p))
       | None => None
       end;
     spl_activePokemonIndex := sd_activePokemonIndex sd;
     spl_mustSwitch := sd_mustSwitch sd |}.

Definition getSanitizedGameState (s : Server) (gameId : string) : option Snapshot :=
  match games_lookup (activeGames s) gameId with
  | None => None
  | Some game =>
      Some {| sn_gameId := g_id game;
              sn_player1 := match g_battleState game with
                            | Some (p1, _) => Some (sanitizePlayer game p1)
                            | None => None
                            end;
              sn_player2 := match g_battleState game with
                            | Some (_, p2) => Some (sanitizePlayer game p2)
                            | None => None
                            end;
              sn_turn := g_turn game;
              sn_log := g_log game |}
  end.

(** *** [performAction] *)

Definition is_switch (a : Action) : bool :=
  match a with Switch _ => true | _ => false end.

Definition set_mustSwitch (sd : Side) (b : bool) : Side :=
  {| sd_id := sd_id sd; sd_username := sd_username sd;
     sd_activePokemonIndex := sd_activePokemonIndex sd; sd_mustSwitch := b |}.

Definition set_activePokemonIndex (sd : Side) (i : Z) : Side :=
  {| sd_id := sd_id sd; sd_username := sd_username sd;
     sd_activePokemonIndex := i; sd_mustSwitch := sd_mustSwitch sd |}.

(** Stores the two side records back into [game.battleState]; [meIsP1]
    tells which of [player1], [player2] the acting side is. *)
Definition set_sides (g : Game) (meIsP1 : bool) (playerState opponentState : Side) : Game :=
  set_battleState g
    (Some (if meIsP1 then (playerState, opponentState) else (opponentState, playerState))).

Definition store (s : Server) (gameId : string) (game : Game) : Server :=
  set_games s (games_set (activeGames s) gameId game).

Definition set_hp (p : Pokemon) (hp : jsnum) (f : bool) : Pokemon :=
  {| base := base p; maxHp := maxHp p; currentHp := hp; fainted := f |}.

(** [if (p1Socket) p1Socket.leave(gameId)]. *)
Definition leave_if_connected (s : Server) (sock room : string) : Server :=
  if decide (is_Some (sockets s !! sock)) then leave s sock room else s.

Definition emit_to_opt (s : Server) (room : option string) (ev : Emit) : Server :=
  match room with Some r => emit_to s r ev | None => s end.

(** The [catch] block of [performAction]. *)
Definition action_failed (s : Server) (sock gameId : string) : Server :=
  let s := emit s sock (EvGameError "Internal server error processing action.") in
  emit_to s gameId (EvGameStateUpdate (getSanitizedGameState s gameId)).

(** [if (gameOver) { ... }]: the game object [game] has already been
    changed by the action. *)
Definition game_over (s : Server) (sock gameId : string) (game : Game)
    (winnerId : string) (opponentId : option string) : Server :=
  match g_players game !! winnerId, opponentId ≫= (fun o => g_players game !! o) with
  | Some winner, Some loser =>
      let game := push_log game (LogGameOver (pl_username winner) (pl_username loser)) in
      let s := store s gameId game in
      let s := recordWin s (pl_username winner) in
      let s := emit_to s gameId (EvGameStateUpdate (getSanitizedGameState s gameId)) in
      let s := emit_to s gameId (EvGameOver winnerId (getSanitizedGameState s gameId)) in
      let s := delete_game s gameId in
      let s := leave_if_connected s (g_playerOrder game).1 gameId in
      leave_if_connected s (g_playerOrder game).2 gameId
  | _, _ => action_failed (store s gameId game) sock gameId
  end.

(** [else if (turnEnded) { ... }]. *)
Definition turn_ended (s : Server) (gameId : string) (game : Game) (meIsP1 : bool)
    (playerState opponentState : Side) (opponentId : option string)
    (opponentPokemon : Pokemon) : Server :=
  if negb (sd_mustSwitch opponentState) then
    let game := set_turn game opponentId in
    let game := push_log game (LogTurn (sd_username opponentState)) in
    let s := store s gameId (set_sides game meIsP1 playerState opponentState) in
    emit_to s gameId (EvGameStateUpdate (getSanitizedGameState s gameId))
  else
    let game := push_log game (LogMustSwitch (sd_username opponentState)) in
    let s := store s gameId (set_sides game meIsP1 playerState opponentState) in
    let s := emit_to s gameId (EvGameStateUpdate (getSanitizedGameState s gameId)) in
    emit_to_opt s opponentId (EvForceSwitch (pd_name (base opponentPokemon))).

(** The [attack] branch.  [game] has its log already reset. *)
Definition attack (s : Server) (sock gameId : string) (game : Game) (meIsP1 : bool)
    (playerState opponentState : Side) (opponentId : option string)
    (playerPokemon opponentPokemon : Pokemon) (moveName : string) (rnd : jsnum) : Server :=
  match List.find (fun m => bool_decide (move_name m = moveName)) (pd_moves (base playerPokemon)) with
  | None => store s gameId game
  | Some move =>
      if fainted playerPokemon then store s gameId game
      else
        let game :=
          push_log game
            (LogUsed (sd_username playerState) (pd_name (base playerPokemon)) (move_name move)) in
        let damage :=
          Damage.calculateDamage (Some playerPokemon) (Some opponentPokemon) (Some move) rnd in
        let game :=
          push_log game
            (LogEffect (sd_username opponentState) (pd_name (base opponentPokemon))
               (move_power move) damage) in
        let hp := sub (currentHp opponentPokemon) damage in
        if leb hp zero then
          let game :=
            set_team_member game opponentState (sd_activePokemonIndex opponentState)
              (set_hp opponentPokemon zero true) in
          let game :=
            push_log game
              (LogFainted (sd_username opponentState) (pd_name (base opponentPokemon))) in
          let availableOpponentPokemon :=
            filter (fun p => fainted p = false) (default [] (side_team game opponentState)) in
          if decide (length availableOpponentPokemon = 0%nat) then
            game_over s sock gameId game sock opponentId
          else
            let game := set_turn game opponentId in
            let opponentState := set_mustSwitch opponentState true in
            turn_ended s gameId game meIsP1 playerState opponentState opponentId opponentPokemon
        else
          let game :=
            set_team_member game opponentState (sd_activePokemonIndex opponentState)
              (set_hp opponentPokemon hp (fainted opponentPokemon)) in
          turn_ended s gameId game meIsP1 playerState opponentState opponentId opponentPokemon
  end.

(** The [switch] branch.  [game] has its log already reset. *)
Definition switch (s : Server) (gameId : string) (game : Game) (meIsP1 : bool)
    (playerState opponentState : Side) (opponentId : option string)
    (playerPokemon opponentPokemon : Pokemon) (targetIndex : Z) : Server :=
  let team := default [] (side_team game playerState) in
  match team_at team targetIndex with
  | None => store s gameId game
  | Some target =>
      if (targetIndex <? 0) || (Z.of_nat (length team) <=? targetIndex)
         || fainted target || bool_decide (pd_id (base target) = pd_id (base playerPokemon))
      then store s gameId game
      else
        let oldPokemonName := pd_name (base playerPokemon) in
        let playerState := set_activePokemonIndex playerState targetIndex in
        let game :=
          push_log game
            (LogSwitched (sd_username playerState) oldPokemonName (pd_name (base target))) in
        let playerState :=
          if sd_mustSwitch playerState then set_mustSwitch playerState false else playerState in
        turn_ended s gameId game meIsP1 playerState opponentState opponentId opponentPokemon
  end.

(** [socket.on('performAction', ({ gameId, action }) => ...)] for the
    socket [sock].  For a [gameId] that names no match but a property of
    [Object.prototype], [game] is the inherited value; it has no
    [battleState] and the handler returns, as it does for an unknown
    match. *)
Definition performAction (s : Server) (sock gameId : string) (action : Action)
    (rnd : jsnum) : Server :=
  match games_lookup (activeGames s) gameId with
  | None => s
  | Some game =>
      match g_battleState game with
      | None => s
      | Some (player1, player2) =>
          if decide (g_turn game ≠ Some sock) then s
          else
            let opponentId := other_player (g_playerOrder game) sock in
            let meIsP1 := bool_decide (sd_id player1 = sock) in
            let playerState := if meIsP1 then player1 else player2 in
            let opponentState := if meIsP1 then player2 else player1 in
            match activePokemon game playerState, activePokemon game opponentState with
            | Some playerPokemon, Some opponentPokemon =>
                if sd_mustSwitch playerState && negb (is_switch action) then s
                else
                  let game := set_log game [] in
                  match action with
                  | Attack moveName =>
                      attack s sock gameId game meIsP1 playerState opponentState opponentId
                        playerPokemon opponentPokemon moveName rnd
                  | Switch targetIndex =>
                      switch s gameId game meIsP1 playerState opponentState opponentId
                        playerPokemon opponentPokemon targetIndex
                  | OtherAction =>
                      emit (store s gameId game) sock (EvGameError "Unknown action type.")
                  end
            | _, _ => s
            end
      end
  end.

(** *** Connection, [findMatch] and [disconnect] *)

(** [x || fallback] on strings: the empty string is falsy. *)
Definition or_string (x : option string) (fallback : string) : string :=
  match x with
  | Some v => if decide (v = "") then fallback else v
  | None => fallback
  end.

(** [io.on('connection', socket => ...)]: the socket [sock] appears with
    the username [Anon_] followed by the first four characters of its id. *)
Definition connection (s : Server) (sock : string) : Server :=
  {| waitingPlayer := waitingPlayer s; activeGames := activeGames s; detachedGames := detachedGames s;
     leaderboard := leaderboard s;
     sockets := <[sock := String.append "Anon_" (String.substring 0 4 sock)]> (sockets s);
     rooms := rooms s; outbox := outbox s |}.

(** The record of a freshly paired player. *)
Definition new_player (sock username : string) (isPlayer1 : bool) : Player :=
  {| pl_id := sock; pl_username := username; pl_team := None;
     pl_activePokemonIndex := 0; pl_hasSelected := false; pl_isPlayer1 := isPlayer1 |}.

(** [socket.on('findMatch', ...)]; [gameId] is the value of [uuidv4()]. *)
Definition findMatch (s : Server) (sock gameId : string) : Server :=
  if decide (or_string (sockets s !! sock) "" = "") then
    emit s sock (EvGameError "Please set a username first.")
  else
    let s := join s sock "lobby" in
    match waitingPlayer s with
    | Some player1 =>
        if decide (player1 ≠ sock) then
          let player2 := sock in
          let username1 := or_string (sockets s !! player1) "" in
          let username2 := or_string (sockets s !! player2) "" in
          if decide (username1 = "" ∨ username2 = "") then s
          else
            let s := set_waitingPlayer s None in
            let s := leave (leave s player1 "lobby") player2 "lobby" in
            let s := join (join s player1 gameId) player2 gameId in
            let game :=
              {| g_id := gameId;
                 g_players :=
                   <[player2 := new_player player2 username2 false]>
                     (<[player1 := new_player player1 username1 true]> ∅);
                 g_playerOrder := (player1, player2);
                 g_battleState := None;
                 g_turn := None;
                 g_log := [LogMatchFound] |} in
            let s := store s gameId game in
            let s := emit s player1 (EvMatchFound gameId username2) in
            emit s player2 (EvMatchFound gameId username1)
        else
          emit (set_waitingPlayer s (Some sock)) sock EvWaitingForOpponent
    | None => emit (set_waitingPlayer s (Some sock)) sock EvWaitingForOpponent
    end.

(** [Object.keys(activeGames).find(id => activeGames[id]?.players[sock])]. *)
Fixpoint find_game (gs : list (string * Game)) (sock : string) : option string :=
  match gs with
  | [] => None
  | (k, g) :: rest =>
      if decide (is_Some (g_players g !! sock)) then Some k else find_game rest sock
  end.

(** The transport drops a disconnected socket from [io.sockets.sockets] and
    from every room before the [disconnect] handler runs. *)
Definition drop_socket (s : Server) (sock : string) : Server :=
  {| waitingPlayer := waitingPlayer s; activeGames := activeGames s; detachedGames := detachedGames s;
     leaderboard := leaderboard s; sockets := delete sock (sockets s);
     rooms := (fun members => members ∖ {[sock]}) <$> rooms s; outbox := outbox s |}.

(** [socket.on('disconnect', ...)] for the socket [sock]. *)
Definition disconnect (s : Server) (sock : string) : Server :=
  let s := drop_socket s sock in
  let s := if decide (waitingPlayer s = Some sock) then set_waitingPlayer s None else s in
  match find_game (activeGames s) sock with
  | None => s
  | Some gameId =>
      match games_lookup (activeGames s) gameId with
      | None => s
      | Some game =>
          let disconnectedUsername :=
            or_string (pl_username <$> g_players game !! sock) "Player" in
          let opponentId := other_player (g_playerOrder game) sock in
          let s := delete_game s gameId in
          match opponentId with
          | Some opp =>
              if decide (opp ≠ "" ∧ is_Some (sockets s !! opp)) then
                let opponentUsername :=
                  or_string (pl_username <$> g_players game !! opp) "Opponent" in
                let s := if battle_started game then recordWin s opponentUsername else s in
                let s :=
                  emit s opp
                    (EvOpponentDisconnected disconnectedUsername (battle_started game)) in
                leave s opp gameId
              else s
          | None => s
          end
      end
  end.

(** *** [selectTeam] *)

(** The server and its fetch layer, with the [selectTeam] handlers
    suspended at [await Promise.all(fetchPromises)] (a slot is [None] once
    its handler has returned). *)
Inductive handler :=
| SelectTeam (sock gameId : string) (fetchPromises : list nat).

Record World := {
  server : Server;
  fetch : Fetch.State;
  handlers : list (option handler)
}.

Definition initial_world : World :=
  {| server := initial; fetch := Fetch.initial; handlers := [] |}.

Definition set_server (w : World) (s : Server) : World :=
  {| server := s; fetch := fetch w; handlers := handlers w |}.

Definition set_fetch (w : World) (f : Fetch.State) : World :=
  {| server := server w; fetch := f; handlers := handlers w |}.

(** The game object a handler captured before it suspended: still in
    [activeGames], or deleted since. *)
Definition captured_game (s : Server) (gameId : string) : option Game :=
  match games_lookup (activeGames s) gameId with
  | Some game => Some game
  | None => games_lookup (detachedGames s) gameId
  end.

(** A write to the captured game object. *)
Definition update_captured (s : Server) (gameId : string) (game : Game) : Server :=
  match games_lookup (activeGames s) gameId with
  | Some _ => store s gameId game
  | None =>
      {| waitingPlayer := waitingPlayer s; activeGames := activeGames s;
         detachedGames := games_set (detachedGames s) gameId game;
         leaderboard := leaderboard s; sockets := sockets s; rooms := rooms s;
         outbox := outbox s |}
  end.

(** [game.players[sock].team = team; game.players[sock].hasSelected = true]. *)
Definition set_team (g : Game) (sock : string) (team : list Pokemon) : Game :=
  match g_players g !! sock with
  | Some pl =>
      set_players g
        (<[sock :=
             {| pl_id := pl_id pl; pl_username := pl_username pl; pl_team := Some team;
                pl_activePokemonIndex := pl_activePokemonIndex pl;
                pl_hasSelected := true; pl_isPlayer1 := pl_isPlayer1 pl |}]>
           (g_players g))
  | None => g
  end.

(** [{ ...playerData, activePokemon: playerData.team[0] }]. *)
Definition side_of (pl : Player) : Side :=
  {| sd_id := pl_id pl; sd_username := pl_username pl;
     sd_activePokemonIndex := pl_activePokemonIndex pl; sd_mustSwitch := false |}.

(** What a call of a handler comes to: it returns (suspended at its
    [await], perhaps), or it throws outside of every [try].  The handler
    is an async function: the promise of the call is rejected, nobody
    handles the rejection, and the runtime ends the process (Node.js does
    from version 15 on). *)
Inductive outcome :=
| Returns (w : World)
| Throws.

(** [activeGames[gameId]] for the [gameId] of a payload. *)
Inductive found :=
| Registered (game : Game)
| Inherited
| Unknown.

Definition games_get (gs : list (string * Game)) (gameId : string) : found :=
  match games_lookup gs gameId with
  | Some game => Registered game
  | None => if inherited gameId then Inherited else Unknown
  end.

Section SelectTeam.

(** [String(id)] for a number [id], as the runtime prints it. *)
Variable Number_toString : jsnum -> string.

(** [String(idOrName)], the first step of [getPokemonDetails], for the
    values a client can send. *)
Definition String_ (v : jsval) : string :=
  match v with
  | JNum x => Number_toString x
  | JStr s => s
  | JBool true => "true"
  | JBool false => "false"
  | JNull => "null"
  | JUndefined => "undefined"
  end.

(** The test on [teamIds] ([None] stands for a value that is no array):
    [Array.isArray(teamIds) && teamIds.length === 3
     && teamIds.every(id => typeof id === 'number')]. *)
Definition validTeamIds (teamIds : option (list jsval)) : bool :=
  match teamIds with
  | Some ids => (length ids =? 3)%nat && forallb typeof_number ids
  | None => false
  end.

(** [teamIds.map(id => getPokemonDetails(id))]. *)
Fixpoint getPokemonDetails_each (f : Fetch.State) (ids : list jsval) : Fetch.State * list nat :=
  match ids with
  | [] => (f, [])
  | id :: rest =>
      let '(f, ret) := Fetch.getPokemonDetails f (String_ id) in
      let '(f, rets) := getPokemonDetails_each f rest in
      (f, ret :: rets)
  end.

(** [socket.on('selectTeam', async ({ gameId, teamIds }) => ...)] up to its
    [await].  The first test, [!game || !game.players[socket.id] || ...],
    stands before the [try]: for a [gameId] that names no match but a
    property of [Object.prototype], [game] is the inherited value, which
    is truthy and has no [players], and [game.players[socket.id]]
    throws. *)
Definition selectTeam (w : World) (sock gameId : string) (teamIds : option (list jsval))
    : outcome :=
  match games_get (activeGames (server w)) gameId with
  | Unknown => Returns w
  | Inherited => Throws
  | Registered game =>
      match g_players game !! sock with
      | None => Returns w
      | Some pl =>
          if pl_hasSelected pl then Returns w
          else if negb (validTeamIds teamIds) then Returns w
          else
            let '(f, fetchPromises) := getPokemonDetails_each (fetch w) (default [] teamIds) in
            Returns
              {| server := server w; fetch := f;
                 handlers := handlers w ++ [Some (SelectTeam sock gameId fetchPromises)] |}
      end
  end.

End SelectTeam.

(** The handler returns. *)
Definition handler_done (w : World) (hid : nat) : World :=
  {| server := server w; fetch := fetch w; handlers := <[hid := None]> (handlers w) |}.

(** The [catch] block of [selectTeam]. *)
Definition selection_failed (w : World) (hid : nat) (sock : string) : World :=
  handler_done
    (set_server w
       (emit (server w) sock
          (EvGameError "An internal error occurred during team selection.")))
    hid.

(** [pokemonBaseDataArray.map(baseData => createPokemonInstance(baseData))],
    each [baseData] read from the store. *)
Fixpoint instantiate (h : Heap.heap) (ls : list Heap.loc) : option (list Pokemon) :=
  match ls with
  | [] => Some []
  | l :: rest =>
      match createPokemonInstance (Heap.read_pokemon h l), instantiate h rest with
      | Some p, Some ps => Some (p :: ps)
      | _, _ => None
      end
  end.

(** The battle starts: [game.battleState], [game.turn] and [game.log] are
    set from the two players' records. *)
Definition startBattle (game : Game) (player1Data player2Data : Player)
    (active1 active2 : Pokemon) : Game :=
  let game := set_battleState game (Some (side_of player1Data, side_of player2Data)) in
  let p1Speed := pd_speed (base active1) in
  let p2Speed := pd_speed (base active2) in
  let turn := if leb p2Speed p1Speed then pl_id player1Data else pl_id player2Data in
  let game := set_turn game (Some turn) in
  set_log game
    [LogBattleStart;
     LogVersus (pl_username player1Data) (pd_name (base active1))
       (pl_username player2Data) (pd_name (base active2));
     LogTurn (or_string (pl_username <$> g_players game !! turn) "")].

(** The part of [selectTeam] after the teams are stored. *)
Definition afterSelection (s : Server) (sock gameId : string) (game : Game) : option Server :=
  match g_players game !! (g_playerOrder game).1, g_players game !! (g_playerOrder game).2 with
  | Some player1Data, Some player2Data =>
      if pl_hasSelected player1Data && pl_hasSelected player2Data then
        match pl_team player1Data, pl_team player2Data with
        | Some team1, Some team2 =>
            match team1 !! 0%nat, team2 !! 0%nat with
            | Some active1, Some active2 =>
                if bool_decide (length team1 = 3%nat ∧ length team2 = 3%nat) then
                  let game := startBattle game player1Data player2Data active1 active2 in
                  let s := update_captured s gameId game in
                  Some (emit_to s gameId (EvBattleStart (getSanitizedGameState s gameId)))
                else Some (update_captured s gameId game)
            | _, _ => Some (update_captured s gameId game)
            end
        | _, _ => Some (update_captured s gameId game)
        end
      else
        let opponentId := other_player (g_playerOrder game) sock in
        let s := update_captured s gameId game in
        let s := emit_to_opt s opponentId EvOpponentReady in
        Some (emit s sock EvWaitingForOpponentSelection)
  | _, _ => None
  end.

(** [selectTeam] resumes after [await Promise.all(fetchPromises)]. *)
Definition resumeSelectTeam (w : World) (hid : nat) : option World :=
  match handlers w !! hid with
  | Some (Some (SelectTeam sock gameId fetchPromises)) =>
      match Fetch.promise_all (fetch w) fetchPromises with
      | Fetch.AllPending => None
      | Fetch.AllRejected => Some (selection_failed w hid sock)
      | Fetch.AllFulfilled pokemonBaseDataArray =>
          if existsb (fun data => bool_decide (data = None)) pokemonBaseDataArray
          then Some (handler_done w hid)
          else
            match instantiate (Fetch.store (fetch w)) (Fetch.non_null pokemonBaseDataArray),
                  captured_game (server w) gameId with
            | Some team, Some game =>
                match g_players game !! sock with
                | Some _ =>
                    let game := set_team game sock team in
                    match afterSelection (server w) sock gameId game with
                    | Some s => Some (handler_done (set_server w s) hid)
                    | None =>
                        Some (selection_failed
                                (set_server w (update_captured (server w) gameId game)) hid sock)
                    end
                | None => Some (selection_failed w hid sock)
                end
            | _, _ => Some (selection_failed w hid sock)
            end
      end
  | _ => None
  end.


(** *** Runs of the whole server *)

(** What can happen next: a client event, a step of the fetch layer (the
    answer to a request, a suspended call that resumes), a [selectTeam]
    handler that resumes.  There is no next state when the event cannot
    happen, and when the handler throws and the process ends. *)
Inductive event :=
| Connection (sock : string)
| FindMatch (sock gameId : string)
| SelectTeamOf (sock gameId : string) (teamIds : option (list jsval))
| PerformAction (sock gameId : string) (action : Action) (rnd : jsnum)
| Disconnect (sock : string)
| FetchStep (e : Fetch.event)
| ResumeSelectTeam (hid : nat).

Section Run.

Variable Number_toString : jsnum -> string.

Definition step (w : World) (e : event) : option World :=
  match e with
  | Connection sock => Some (set_server w (connection (server w) sock))
  | FindMatch sock gameId => Some (set_server w (findMatch (server w) sock gameId))
  | SelectTeamOf sock gameId teamIds =>
      match selectTeam Number_toString w sock gameId teamIds with
      | Returns w' => Some w'
      | Throws => None
      end
  | PerformAction sock gameId action rnd =>
      Some (set_server w (performAction (server w) sock gameId action rnd))
  | Disconnect sock => Some (set_server w (disconnect (server w) sock))
  | FetchStep e =>
      match Fetch.step (fetch w) e with
      | Some f => Some (set_fetch w f)
      | None => None
      end
  | ResumeSelectTeam hid => resumeSelectTeam w hid
  end.

Fixpoint run (w : World) (es : list event) : option World :=
  match es with
  | [] => Some w
  | e :: rest =>
      match step w e with
      | Some w' => run w' rest
      | None => None
      end
  end.

End Run.

End Match.

(* ===================================================================== *)
(** ** Numbers as strings *)
(* ===================================================================== *)

Module NumString.
Import Num.

(** [Number::toString] of ECMAScript, radix 10.  For a finite [x] above 0
    it takes the integers [k], [s] and [n] with [k] as small as possible
    such that [s] has [k] digits and [s * 10^(n-k)] is a decimal that
    reads back as [x]; where several [s] qualify the engine takes the one
    whose decimal is closest to [x].  The decimals that read back as
    [x = m * 2^e] are those between the midpoints to the two neighbours of
    [x], the midpoints included when [m] is even. *)

(** Fractions with a positive denominator. *)
Definition Qle (a b : Z * Z) : bool := fst a * snd b <=? fst b * snd a.
Definition Qlt (a b : Z * Z) : bool := fst a * snd b <? fst b * snd a.

(** [z * base^e]. *)
Definition scaled (base z e : Z) : Z * Z :=
  if 0 <=? e then (z * base ^ e, 1) else (z, base ^ (- e)).

Section Digits.
Variables (m : positive) (e : Z).

Definition value : Z * Z := scaled 2 (4 * Zpos m) (e - 2).

(** The neighbour below is half as far when [m] is the least mantissa of
    its exponent. *)
Definition low : Z * Z :=
  scaled 2 (4 * Zpos m - (if (Zpos m =? 2 ^ 52) && (-1074 <? e) then 1 else 2)) (e - 2).

Definition high : Z * Z := scaled 2 (4 * Zpos m + 2) (e - 2).

Definition reads_back (c : Z * Z) : bool :=
  if Z.even (Zpos m) then Qle low c && Qle c high else Qlt low c && Qlt c high.

(** The [g] with [10^g <= x < 10^(g+1)], counted up from an estimate
    that is below it. *)
Definition floor_log10 : Z :=
  let g0 := (Z.log2 (Zpos m) + e) * 30103 / 100000 - 2 in
  g0 + Z.of_nat (length (filter (fun j => Qle (scaled 10 1 (g0 + j)) value) [1; 2; 3; 4; 5])).

(** The decimals of [k] digits next to [x]: the two around [x] among
    those with the exponent of [x], the greatest with the exponent below
    and the least with the exponent above. *)
Definition candidates (n0 k : Z) : list (Z * Z) :=
  let t := n0 - k in
  let v := if 0 <=? t then fst value / (snd value * 10 ^ t)
           else fst value * 10 ^ (- t) / snd value in
  filter (fun c => (10 ^ (k - 1) <=? fst c) && (fst c <? 10 ^ k)) [(v, n0); (v + 1, n0)]
  ++ [(10 ^ k - 1, n0 - 1); (10 ^ (k - 1), n0 + 1)].

(** How far the decimal [s * 10^(n-k)] is from [x]. *)
Definition distance (k : Z) (c : Z * Z) : Z * Z :=
  let d := scaled 10 (fst c) (snd c - k) in
  (Z.abs (fst d * snd value - fst value * snd d), snd d * snd value).

(** The closest of the candidates that read back as [x]; of two equally
    close ones the even one. *)
Definition closest (k : Z) (cs : list (Z * Z)) : option (Z * Z) :=
  fold_left
    (fun best c =>
       if reads_back (scaled 10 (fst c) (snd c - k)) then
         match best with
         | None => Some c
         | Some b =>
             if Qlt (distance k c) (distance k b)
                || (negb (Qlt (distance k b) (distance k c))
                    && Z.even (fst c) && Z.odd (fst b))
             then Some c else best
         end
       else best)
    cs None.

(** [(k, s, n)], trying [k], [k + 1], ...; seventeen digits always read
    back. *)
Fixpoint shortest (fuel : nat) (k : Z) : Z * Z * Z :=
  match closest k (candidates (floor_log10 + 1) k) with
  | Some (s, n) => (k, s, n)
  | None =>
      match fuel with
      | O => (k, 0, 0)
      | S fuel => shortest fuel (k + 1)
      end
  end.

End Digits.

Definition decimal (z : Z) : string := NilZero.string_of_int (Z.to_int z).

Fixpoint zeros (n : nat) : string :=
  match n with O => EmptyString | S n => String "0" (zeros n) end.

(** The text for the digits [s] (there are [k]) and the exponent [n]. *)
Definition notation (k s n : Z) : string :=
  let digits := decimal s in
  if (k <=? n) && (n <=? 21) then String.append digits (zeros (Z.to_nat (n - k)))
  else if (0 <? n) && (n <=? 21) then
    String.append (String.substring 0 (Z.to_nat n) digits)
      (String "." (String.substring (Z.to_nat n) (Z.to_nat (k - n)) digits))
  else if (-6 <? n) && (n <=? 0) then
    String.append "0." (String.append (zeros (Z.to_nat (- n))) digits)
  else
    let exponent :=
      String.append (if 0 <=? n - 1 then "e+" else "e-") (decimal (Z.abs (n - 1))) in
    if k =? 1 then String.append digits exponent
    else
      String.append (String.substring 0 1 digits)
        (String "." (String.append (String.substring 1 (Z.to_nat (k - 1)) digits) exponent)).

Definition toString (x : jsnum) : string :=
  match x with
  | S754_zero _ => "0"
  | S754_infinity s => if s then "-Infinity" else "Infinity"
  | S754_nan => "NaN"
  | S754_finite s m e =>
      let '(k, digits, n) := shortest m e 17 1 in
      String.append (if s then "-" else "") (notation k digits n)
  end.

End NumString.

(* ===================================================================== *)
(** ** A worked example *)
(* ===================================================================== *)

Module Example.
Import Num Fetch Match.

(** A match played through: two sessions are paired, each submits a team,
    the remote API answers, and the first player's Mewtwo knocks out the
    second player's creatures one after the other. *)

(** [String(x)], as the runtime prints a number. *)
Definition Number_toString (x : jsnum) : string := NumString.toString x.

(** *** What the remote API answers *)

Definition levelUp : list VersionGroupDetail :=
  [{| vgd_version_group := "scarlet-violet"; vgd_move_learn_method := "level-up" |}].

Definition moveInfo (name : string) : MoveInfo :=
  {| mi_name := name; mi_url := String.append "https://pokeapi.co/api/v2/move/" name;
     mi_version_group_details := levelUp |}.

Definition species (id : Z) (name : string) (hp attack defense speed : Z)
    (moves : list string) (ability : string) : ApiPokemon :=
  {| api_id := id; api_name := name;
     api_stats := [("hp", of_Z hp); ("attack", of_Z attack); ("defense", of_Z defense);
                   ("speed", of_Z speed)];
     api_moves := map moveInfo moves;
     api_abilities := Some [{| ab_name := ability; ab_is_hidden := false |}];
     api_front_default := Some (String.append name ".png") |}.

Definition mewtwo := species 150 "mewtwo" 106 110 90 130 ["psystrike"; "recover"] "pressure".
Definition charmander := species 4 "charmander" 39 52 43 65 ["scratch"; "growl"] "blaze".
Definition magikarp := species 129 "magikarp" 20 10 55 80 ["splash"; "tackle"] "swift-swim".
Definition shedinja := species 292 "shedinja" 1 90 45 40 ["scratch"; "harden"] "wonder-guard".
Definition diglett := species 50 "diglett" 10 55 25 95 ["scratch"; "growl"] "sand-veil".

(** A species record without an [attack] stat. *)
Definition statless : ApiPokemon :=
  {| api_id := 0; api_name := "missingno"; api_stats := [("defense", of_Z 50)];
     api_moves := []; api_abilities := None; api_front_default := None |}.

(** *** The events *)

Definition ids (l : list Z) : option (list jsval) := Some (map (fun z => JNum (of_Z z)) l).

(** [Math.random()] returns 0.5. *)
Definition half : jsnum := S754_finite false 4503599627370496 (-53).

Definition paired : list Match.event :=
  [Connection "alice"; Connection "bob"; FindMatch "alice" "g0"; FindMatch "bob" "g1"].

(** The first player picks Mewtwo twice and Charmander. *)
Definition aliceSelects : list Match.event :=
  [SelectTeamOf "alice" "g1" (ids [150; 150; 4]);
   FetchStep (PokemonResponse 0 (Some mewtwo));
   FetchStep (MoveResponse 5 (Some (JNum (of_Z 100))));
   FetchStep (MoveResponse 7 (Some JNull));
   FetchStep (Resume 6); FetchStep (Resume 8); FetchStep (Resume 0);
   FetchStep (Resume 1); FetchStep (Resume 2);
   FetchStep (PokemonResponse 3 (Some charmander));
   FetchStep (MoveResponse 9 (Some (JNum (of_Z 40))));
   FetchStep (MoveResponse 11 (Some JNull));
   FetchStep (Resume 10); FetchStep (Resume 12); FetchStep (Resume 3);
   FetchStep (Resume 4);
   ResumeSelectTeam 0].

(** The second player picks Magikarp, Shedinja and Diglett. *)
Definition bobSelects : list Match.event :=
  [SelectTeamOf "bob" "g1" (ids [129; 292; 50]);
   FetchStep (PokemonResponse 13 (Some magikarp));
   FetchStep (PokemonResponse 15 (Some shedinja));
   FetchStep (PokemonResponse 17 (Some diglett));
   FetchStep (MoveResponse 19 (Some JNull));
   FetchStep (MoveResponse 21 (Some (JNum (of_Z 40))));
   FetchStep (MoveResponse 23 (Some JNull));
   FetchStep (Resume 20); FetchStep (Resume 22); FetchStep (Resume 24);
   FetchStep (Resume 13); FetchStep (Resume 15); FetchStep (Resume 17);
   FetchStep (Resume 14); FetchStep (Resume 16); FetchStep (Resume 18);
   ResumeSelectTeam 1].

(** *** The states on the way *)

Definition world_after (es : list Match.event) : World :=
  default initial_world (Match.run Number_toString initial_world es).

(** Paired, no team submitted yet. *)
Definition selecting : Server := Eval vm_compute in server (world_after paired).

(** Both teams submitted: the battle has started, the first player is to
    move. *)
Definition battling : Server :=
  Eval vm_compute in server (world_after (paired ++ aliceSelects ++ bobSelects)).

Definition psystrike (s : Server) : Server :=
  performAction s "alice" "g1" (Attack "Psystrike") half.

(** Magikarp has fainted, the second player has to switch. *)
Definition forced : Server := Eval vm_compute in psystrike battling.

(** Shedinja has fainted too; Diglett is the last one standing. *)
Definition lastStand : Server :=
  Eval vm_compute in
    performAction
      (psystrike (performAction forced "bob" "g1" (Switch 1) half)) "bob" "g1" (Switch 2) half.

(** The two sides of the battle. *)
Definition alice : Side :=
  {| sd_id := "alice"; sd_username := "Anon_alic"; sd_activePokemonIndex := 0;
     sd_mustSwitch := false |}.

Definition bob (index : Z) : Side :=
  {| sd_id := "bob"; sd_username := "Anon_bob"; sd_activePokemonIndex := index;
     sd_mustSwitch := false |}.

(** *** Creatures for the damage formula *)

Definition creature (attack defense : jsnum) : Pokemon :=
  {| base := {| pd_id := 1; pd_apiId := "1"; pd_name := "Bulbasaur"; pd_hp := of_Z 45;
                pd_attack := attack; pd_defense := defense; pd_speed := of_Z 45;
                pd_spriteUrl := None; pd_moves := []; pd_abilityName := "Overgrow" |};
     maxHp := of_Z 45; currentHp := of_Z 45; fainted := false |}.

Definition move40 : Move := {| move_name := "Tackle"; move_power := JNum (of_Z 40) |}.

(** *** A submission that fails *)

(** The two players are paired; no team has been submitted. *)
Definition lobby : World := Eval vm_compute in world_after paired.

(** The first player submits a team; the remote API has no creature 150
    but answers for creature 4 and its moves; every call resumes. *)
Definition failedSelection : list Match.event :=
  [SelectTeamOf "alice" "g1" (ids [150; 150; 4]%Z);
   FetchStep (Fetch.PokemonResponse 0 None);
   FetchStep (Fetch.PokemonResponse 3 (Some charmander));
   FetchStep (Fetch.MoveResponse 5 (Some (JNum (of_Z 40))));
   FetchStep (Fetch.MoveResponse 7 (Some JNull));
   FetchStep (Fetch.Resume 6); FetchStep (Fetch.Resume 8); FetchStep (Fetch.Resume 3);
   FetchStep (Fetch.Resume 1); FetchStep (Fetch.Resume 2); FetchStep (Fetch.Resume 4)].

(** The handler of the submission is about to resume. *)
Definition stalled : World := Eval vm_compute in world_after (paired ++ failedSelection).

End Example.

(* ===================================================================== *)
(** ** Example: a creature is resolved *)
(* ===================================================================== *)

Module FetchExample.
Import Num Heap Fetch Example.

(** Two callers ask for creature 129; the remote API has not answered. *)
Definition waiting : State :=
  Eval vm_compute in
    from_option id initial (run initial [CallPokemon "129"; CallPokemon "129"]).

(** Two callers ask for creature 129; the remote API answers with the
    species: the producer has asked for its two moves and waits. *)
Definition asked : list event :=
  [CallPokemon "129"; CallPokemon "129"; PokemonResponse 0 (Some magikarp)].

Definition fetching : State :=
  Eval vm_compute in from_option id initial (run initial asked).

(** The request for [splash] is answered (a status move, power [null]),
    the one for [tackle] fails; the calls of [getMoveDetails] and the
    producer resume. *)
Definition answered : list event :=
  [MoveResponse 3 (Some JNull); Resume 4; Resume 6; Resume 0].

(** Both requests are answered, then everybody resumes: the creature is
    cached and each caller has its copy. *)
Definition delivered : list event :=
  [MoveResponse 3 (Some JNull); MoveResponse 5 (Some (JNum (of_Z 40)));
   Resume 4; Resume 6; Resume 0; Resume 1; Resume 2].

Definition cached : State :=
  Eval vm_compute in from_option id initial (run fetching delivered).

(** Both requests are answered and the calls of [getMoveDetails] have
    resumed: the producer can resume. *)
Definition ready : State :=
  Eval vm_compute in
    from_option id initial
      (run fetching [MoveResponse 3 (Some JNull); MoveResponse 5 (Some (JNum (of_Z 40)));
                     Resume 4; Resume 6]).

(** While the producer waits for its two moves, a caller outside asks for
    [tackle] as well. *)
Definition sharing : State :=
  Eval vm_compute in from_option id initial (run fetching [CallMove (moveInfo "tackle")]).

(** The producer has returned, its two callers have not resumed yet. *)
Definition settled : State :=
  Eval vm_compute in
    from_option id initial
      (run fetching [MoveResponse 3 (Some JNull); MoveResponse 5 (Some (JNum (of_Z 40)));
                     Resume 4; Resume 6; Resume 0]).

(** A caller that has its copy of the creature overwrites the first move
    of the copy. *)
Definition boosted : cell := CMove {| move_name := "Splash"; move_power := JNum (of_Z 999) |}.

(** The creature resolved although the request for [tackle] failed. *)
Definition degraded : State :=
  Eval vm_compute in
    from_option id initial (run fetching (MoveResponse 5 None :: answered ++ [Resume 1])).

End FetchExample.

(* ===================================================================== *)
(** ** The lobby: usernames, the leaderboard, the selection screen *)
(* ===================================================================== *)

(** The handlers of [server.js] outside the match layer.  What a handler
    sends to its socket ([usernameSet], [leaderboardData]) is returned as
    its result.  A string is a sequence of code units below 256. *)
Module Lobby.
Import Num Heap Match.

(** *** [setUsername] *)

(** White space and line terminators, as [String.prototype.trim] removes
    them, among the code units below 256: TAB, LF, VT, FF, CR, SP and
    NBSP. *)
Definition is_space (c : ascii) : bool :=
  let n := Ascii.N_of_ascii c in
  ((9 <=? n) && (n <=? 13) || (n =? 32) || (n =? 160))%N.

Fixpoint trimStart (s : string) : string :=
  match s with
  | EmptyString => EmptyString
  | String c rest => if is_space c then trimStart rest else s
  end.

(** [s.trimEnd()]: what is kept of the rest is empty exactly when the
    rest is white space only. *)
Fixpoint trimEnd (s : string) : string :=
  match s with
  | EmptyString => EmptyString
  | String c rest =>
      match trimEnd rest with
      | EmptyString => if is_space c then EmptyString else String c EmptyString
      | keep => String c keep
      end
  end.

(** [s.trim()]. *)
Definition trim (s : string) : string := trimEnd (trimStart s).

(** [username.trim().slice(0, 16) || `Anon_${socket.id.substring(0, 4)}`]. *)
Definition cleanUsername (sock username : string) : string :=
  or_string (Some (String.substring 0 16 (trim username)))
    (String.append "Anon_" (String.substring 0 4 sock)).

(** [socket.on('setUsername', username => ...)] for the socket [sock]
    and a payload that is a string (for any other value [username.trim]
    throws before anything is changed): the name is stored in
    [socket.username] and sent back as [usernameSet]. *)
Definition setUsername (s : Server) (sock username : string) : Server * string :=
  let clean := cleanUsername sock username in
  ({| waitingPlayer := waitingPlayer s; activeGames := activeGames s;
      detachedGames := detachedGames s; leaderboard := leaderboard s;
      sockets := <[sock := clean]> (sockets s); rooms := rooms s; outbox := outbox s |},
   clean).

(** *** [getLeaderboard] *)

Record LeaderboardRow := { lr_rank : Z; lr_username : string; lr_wins : score }.

(** The number a value of the leaderboard is converted to by the
    subtraction [winsB - winsA]: the text of a function is no number. *)
Definition to_number (v : score) : jsnum :=
  match v with
  | Wins n => n
  | Text _ _ => S754_nan
  end.

(** The comparator [([, winsA], [, winsB]) => winsB - winsA]. *)
Definition byWins (a b : string * score) : jsnum :=
  sub (to_number (snd b)) (to_number (snd a)).

(** [entries.sort(byWins)].  The sort of an array is stable, and [a] is
    put after [b] when [byWins a b] is above 0.  When every value is a
    finite number, the comparator orders the entries by their numbers and
    the result of the sort is determined: the entries by falling number of
    wins, entries with the same number of wins in the order they had.
    [insertByWins] puts an entry in front of the sorted entries that
    follow it in the array. *)
Fixpoint insertByWins (entry : string * score) (sorted : list (string * score))
    : list (string * score) :=
  match sorted with
  | [] => [entry]
  | next :: rest =>
      if ltb zero (byWins entry next) then next :: insertByWins entry rest
      else entry :: next :: rest
  end.

Fixpoint sortByWins (entries : list (string * score)) : list (string * score) :=
  match entries with
  | [] => []
  | entry :: rest => insertByWins entry (sortByWins rest)
  end.

(** The values for which the comparator is consistent. *)
Definition sortable (entries : list (string * score)) : bool :=
  forallb (fun entry => match snd entry with Wins n => is_finite n | Text _ _ => false end)
    entries.

(** [sorted.map(([username, wins], index) => ({ rank: index + 1, username, wins }))]. *)
Definition toRows (sorted : list (string * score)) : list LeaderboardRow :=
  imap (fun index entry =>
          {| lr_rank := Z.of_nat index + 1; lr_username := fst entry; lr_wins := snd entry |})
    sorted.

(** [socket.on('getLeaderboard', ...)]: the rows sent as
    [leaderboardData]; [entries] is [Object.entries(leaderboard)].  With a
    value that is no finite number among the entries, a difference is
    [NaN], which the sort takes for 0: the comparator is then not
    consistent, the order of the result is left to the engine, and the
    embedding gives no result ([None]). *)
Definition getLeaderboard (entries : list (string * score)) : option (list LeaderboardRow) :=
  if sortable entries then Some (toRows (take 10 (sortByWins entries))) else None.

(** *** [initializeAvailablePokemon] *)

Definition AVAILABLE_POKEMON_IDS : list Z := [1; 4; 7; 25; 39; 74].

(** An element of [availablePokemonDetails]. *)
Record Basic := { b_id : Z; b_name : string; b_spriteUrl : option string }.

Definition basic (d : PokemonData) : Basic :=
  {| b_id := pd_id d; b_name := pd_name d; b_spriteUrl := pd_spriteUrl d |}.

Section Initialize.

Variable Number_toString : jsnum -> string.

(** [AVAILABLE_POKEMON_IDS.map(id => getPokemonDetails(id))], up to the
    [await]. *)
Definition initializeAvailablePokemon (f : Fetch.State) : Fetch.State * list nat :=
  getPokemonDetails_each Number_toString f (map (fun id => JNum (of_Z id)) AVAILABLE_POKEMON_IDS).

End Initialize.

(** [results.filter(details => details !== null).map(d => ({ id: d.id,
    name: d.name, spriteUrl: d.spriteUrl }))]; every result that is not
    [null] is a creature of the store. *)
Definition available (h : heap) (results : list (option loc)) : list Basic :=
  omap (fun l => basic <$> read_pokemon h l) (Fetch.non_null results).

(** The function resumes after [await Promise.all(promises)] and assigns
    [availablePokemonDetails]; [None] while a promise is pending or when
    one is rejected (the function then throws). *)
Definition resumeInitialize (f : Fetch.State) (promises : list nat) : option (list Basic) :=
  match Fetch.promise_all f promises with
  | Fetch.AllFulfilled results => Some (available (Fetch.store f) results)
  | _ => None
  end.

(** *** Runs with renaming *)

(** The events of the match layer, and a socket that sets its name. *)
Inductive event :=
| MatchEvent (e : Match.event)
| SetUsername (sock username : string).

Section Run.

Variable Number_toString : jsnum -> string.

Definition step (w : World) (e : event) : option World :=
  match e with
  | MatchEvent e => Match.step Number_toString w e
  | SetUsername sock username =>
      match sockets (server w) !! sock with
      | Some _ => Some (set_server w (fst (setUsername (server w) sock username)))
      | None => None
      end
  end.

Fixpoint run (w : World) (es : list event) : option World :=
  match es with
  | [] => Some w
  | e :: rest =>
      match step w e with
      | Some w' => run w' rest
      | None => None
      end
  end.

End Run.

End Lobby.

(* ===================================================================== *)
(** ** Examples: more states of the server *)
(* ===================================================================== *)

Module Scenario.
Import Num Heap Fetch Example FetchExample.
Local Open Scope nat_scope.

(** One caller has asked for creature 129; the remote API has not
    answered. *)
Definition calling : State :=
  Eval vm_compute in from_option id initial (run initial [CallPokemon "129"]).

(** The species is known, both moves are answered and everybody but the
    caller resumes. *)
Definition resolved : list event :=
  [MoveResponse 2 (Some JNull); MoveResponse 4 (Some (JNum (of_Z 40)));
   Resume 3; Resume 5; Resume 0].

Definition tackle : Move := {| move_name := "Tackle"; move_power := JNum (of_Z 40) |}.

(** Two sockets are connected; the first one has asked for a match and
    waits. *)
Definition queued : Match.Server :=
  Eval vm_compute in
    Match.server
      (world_after [Match.Connection "alice"; Match.Connection "bob";
                    Match.FindMatch "alice" "g0"]).

(** The first player's three creatures are resolved; the handler of the
    submission is about to resume. *)
Definition aliceReady : Match.World :=
  Eval vm_compute in world_after (paired ++ removelast aliceSelects).

(** The first player's team is in place and the second player's three
    creatures are resolved; the handler is about to resume. *)
Definition bobReady : Match.World :=
  Eval vm_compute in world_after (paired ++ aliceSelects ++ removelast bobSelects).

(** The battle of the example match, played to its end: Magikarp,
    Shedinja and Diglett are knocked out one after the other. *)
Definition fighting : Match.World :=
  Eval vm_compute in world_after (paired ++ aliceSelects ++ bobSelects).

Definition knockout : list Match.event :=
  [Match.PerformAction "alice" "g1" (Match.Attack "Psystrike") half;
   Match.PerformAction "bob" "g1" (Match.Switch 1) half;
   Match.PerformAction "alice" "g1" (Match.Attack "Psystrike") half;
   Match.PerformAction "bob" "g1" (Match.Switch 2) half;
   Match.PerformAction "alice" "g1" (Match.Attack "Psystrike") half].

(** The first socket names itself and waits for a match; a second one
    connects. *)
Definition named : list Lobby.event :=
  [Lobby.MatchEvent (Match.Connection "alice"); Lobby.SetUsername "alice" "  Ash  ";
   Lobby.MatchEvent (Match.Connection "bob");
   Lobby.MatchEvent (Match.FindMatch "alice" "g0")].

(** The first player is in two matches at once and leaves: the match
    with the third socket stays registered. *)
Definition abandoned : Match.Server :=
  Eval vm_compute in
    Match.server
      (world_after (paired ++ [Match.FindMatch "alice" "g2"; Match.Connection "carol";
                               Match.FindMatch "carol" "g2"; Match.Disconnect "alice"])).

(** The first player has named herself [constructor]; the battle has come
    to the point where her Mewtwo faces the last creature of the second
    player. *)
Definition crowned : Match.Server :=
  Eval vm_compute in
    from_option Match.server Match.initial
      (Lobby.run Number_toString Match.initial_world
         ([Lobby.MatchEvent (Match.Connection "alice");
           Lobby.SetUsername "alice" "constructor";
           Lobby.MatchEvent (Match.Connection "bob");
           Lobby.MatchEvent (Match.FindMatch "alice" "g0");
           Lobby.MatchEvent (Match.FindMatch "bob" "g1")]
          ++ map Lobby.MatchEvent (aliceSelects ++ bobSelects ++ removelast knockout))).

(** The first player is paired with the second one in [g1], asks for a
    match again and is paired with a third socket in [g2]; the teams of
    [g2] are submitted and its battle has started, [g1] is still at the
    selection. *)
Definition twoMatches : Match.Server :=
  Eval vm_compute in
    Match.server
      (world_after
         (paired
          ++ [Match.FindMatch "alice" "g2"; Match.Connection "carol";
              Match.FindMatch "carol" "g2"]
          ++ (Match.SelectTeamOf "alice" "g2" (ids [150; 150; 4]%Z) :: tail aliceSelects)
          ++ (Match.SelectTeamOf "carol" "g2" (ids [129; 292; 50]%Z) :: tail bobSelects))).

(** The first player submits a team and, before the remote API has
    answered, another one. *)
Definition submittedOnce : Match.World :=
  Eval vm_compute in
    world_after (paired ++ [Match.SelectTeamOf "alice" "g1" (ids [150; 150; 4]%Z)]).

(** The creatures of the first submission resolve and its handler
    resumes; the second player submits a team, the battle starts and the
    first player's Mewtwo knocks out Magikarp; only then does the remote
    API answer for creature 50, the one of the second submission. *)
Definition resubmission : list Match.event :=
  [Match.SelectTeamOf "alice" "g1" (ids [150; 150; 4]%Z);
   Match.SelectTeamOf "alice" "g1" (ids [50; 50; 50]%Z);
   Match.FetchStep (PokemonResponse 0 (Some mewtwo));
   Match.FetchStep (PokemonResponse 3 (Some charmander));
   Match.FetchStep (MoveResponse 9 (Some (JNum (of_Z 100))));
   Match.FetchStep (MoveResponse 11 (Some JNull));
   Match.FetchStep (MoveResponse 13 (Some (JNum (of_Z 40))));
   Match.FetchStep (MoveResponse 15 (Some JNull));
   Match.FetchStep (Resume 10); Match.FetchStep (Resume 12);
   Match.FetchStep (Resume 14); Match.FetchStep (Resume 16);
   Match.FetchStep (Resume 0); Match.FetchStep (Resume 3);
   Match.FetchStep (Resume 1); Match.FetchStep (Resume 2); Match.FetchStep (Resume 4);
   Match.ResumeSelectTeam 0;
   Match.SelectTeamOf "bob" "g1" (ids [129; 292; 4]%Z);
   Match.FetchStep (PokemonResponse 17 (Some magikarp));
   Match.FetchStep (PokemonResponse 19 (Some shedinja));
   Match.FetchStep (MoveResponse 21 (Some JNull));
   Match.FetchStep (MoveResponse 23 (Some (JNum (of_Z 40))));
   Match.FetchStep (MoveResponse 25 (Some JNull));
   Match.FetchStep (Resume 22); Match.FetchStep (Resume 24); Match.FetchStep (Resume 26);
   Match.FetchStep (Resume 17); Match.FetchStep (Resume 19);
   Match.FetchStep (Resume 18); Match.FetchStep (Resume 20);
   Match.ResumeSelectTeam 2;
   Match.PerformAction "alice" "g1" (Match.Attack "Psystrike") half;
   Match.FetchStep (PokemonResponse 5 (Some diglett));
   Match.FetchStep (Resume 5); Match.FetchStep (Resume 6); Match.FetchStep (Resume 7);
   Match.FetchStep (Resume 8)].

(** The handler of the second submission is about to resume, in the
    middle of the battle. *)
Definition midBattle : Match.World :=
  Eval vm_compute in world_after (paired ++ resubmission).

(** Three numbers that are no integers. *)
Definition fractions : option (list jsval) :=
  Some [JNum (div (of_Z 3) (of_Z 2)); JNum (div (of_Z 5) (of_Z 2)); JNum (div (of_Z 7) (of_Z 2))].

End Scenario.

(* ===================================================================== *)
(** * Properties of the numbers *)
(* ===================================================================== *)

Module NumFacts.
Import Num.

(** ** Digits and shifts *)

Lemma digits2_pos_size p : digits2_pos p = Pos.size p.
Proof. induction p; simpl; congruence. Qed.

Lemma Zdigits2_log2 p : Zdigits2 (Zpos p) = Z.log2 (Zpos p) + 1.
Proof. simpl. rewrite digits2_pos_size. destruct p; simpl; lia. Qed.

(** A positive number between [2^(d-1)] and [2^d] has [d] digits. *)
Lemma Zdigits2_unique p d : 2 ^ (d - 1) <= Zpos p < 2 ^ d -> Zdigits2 (Zpos p) = d.
Proof.
  intros H. rewrite Zdigits2_log2.
  assert (0 < d).
  { destruct (Z_lt_le_dec 0 d); [done|]. exfalso.
    destruct (Z.eq_dec d 0) as [->|]; [simpl in H; lia|].
    rewrite (Z.pow_neg_r 2 d) in H by lia. lia. }
  rewrite (Z.log2_unique (Zpos p) (d - 1)); [lia | lia |].
  by replace (Z.succ (d - 1)) with d by lia.
Qed.

Lemma Zdigits2_bounds p : 2 ^ (Zdigits2 (Zpos p) - 1) <= Zpos p < 2 ^ Zdigits2 (Zpos p).
Proof.
  rewrite Zdigits2_log2. replace (Z.log2 (Zpos p) + 1 - 1) with (Z.log2 (Zpos p)) by lia.
  pose proof (Z.log2_spec (Zpos p) ltac:(lia)). by rewrite <- Z.add_1_r in H.
Qed.

Lemma Zdigits2_nonneg m : 0 <= m -> 0 <= Zdigits2 m.
Proof. destruct m; simpl; lia. Qed.

(** A number below [2^k] has at most [k] digits. *)
Lemma Zdigits2_le m k : 0 <= m -> 0 <= k -> m < 2 ^ k -> Zdigits2 m <= k.
Proof.
  intros Hm Hk Hlt. destruct m as [|p|p]; [simpl; lia| |lia].
  pose proof (Zdigits2_bounds p) as [Hlo _].
  destruct (Z_le_gt_dec (Zdigits2 (Zpos p)) k); [done|]. exfalso.
  assert (2 ^ k <= 2 ^ (Zdigits2 (Zpos p) - 1)) by (apply Z.pow_le_mono_r; lia). lia.
Qed.

Lemma shr_1_m mrs : 0 <= shr_m mrs -> shr_m (shr_1 mrs) = shr_m mrs / 2.
Proof.
  destruct mrs as [m r s]. simpl. intros Hm.
  destruct m as [|p|p]; [done| |lia].
  destruct p; simpl.
  - rewrite Pos2Z.inj_xI. by rewrite Z.add_comm, Z.mul_comm, Z.div_add by lia.
  - rewrite Pos2Z.inj_xO. by rewrite Z.mul_comm, Z.div_mul by lia.
  - done.
Qed.

Lemma shr_1_nonneg mrs : 0 <= shr_m mrs -> 0 <= shr_m (shr_1 mrs).
Proof. intros H. rewrite shr_1_m by done. apply Z.div_pos; lia. Qed.

(** [n] shifts to the right divide the mantissa by [2^n]. *)
Lemma iter_pos_shr_1 n mrs :
  0 <= shr_m mrs -> shr_m (SpecFloat.iter_pos shr_1 n mrs) = shr_m mrs / 2 ^ Zpos n.
Proof.
  revert mrs. induction n as [n IH|n IH|]; intros mrs Hm; simpl SpecFloat.iter_pos.
  - rewrite IH, IH, shr_1_m; try done.
    + rewrite !Z.div_div by lia. f_equal. rewrite Pos2Z.inj_xI.
      rewrite <- !Z.pow_add_r by lia. rewrite <- (Z.pow_1_r 2) at 1.
      rewrite <- Z.pow_add_r by lia. f_equal. lia.
    + by apply shr_1_nonneg.
    + rewrite IH by (by apply shr_1_nonneg).
      apply Z.div_pos; [by apply shr_1_nonneg | lia].
  - rewrite IH, IH; try done.
    + rewrite !Z.div_div by lia. f_equal. rewrite Pos2Z.inj_xO.
      rewrite <- Z.pow_add_r by lia. f_equal; lia.
    + rewrite IH by done. apply Z.div_pos; [done | lia].
  - by rewrite shr_1_m.
Qed.

(** ** The shape of a rounding *)

(** The exponent function of binary64. *)
Definition fexp64 (e : Z) : Z := Z.max (e - 53) (-1074).

Lemma fexp_eq e : fexp prec emax e = fexp64 e.
Proof. reflexivity. Qed.

(** By how much the first step of a rounding shifts. *)
Definition shift_of (mx ex : Z) : Z := fexp64 (Zdigits2 mx + ex) - ex.

Lemma shr_record_of_loc_m m l : shr_m (shr_record_of_loc m l) = m.
Proof. by destruct l as [|[]]. Qed.

Lemma shr_fexp_m mx ex lx :
  0 <= mx ->
  shr_m (fst (shr_fexp prec emax mx ex lx))
  = (if 0 <? shift_of mx ex then mx / 2 ^ shift_of mx ex else mx)
  /\ snd (shr_fexp prec emax mx ex lx)
     = (if 0 <? shift_of mx ex then ex + shift_of mx ex else ex).
Proof.
  intros Hm. unfold shr_fexp, shr. rewrite fexp_eq. fold (shift_of mx ex).
  destruct (shift_of mx ex) as [|n|n] eqn:E; simpl fst; simpl snd.
  - by rewrite shr_record_of_loc_m.
  - rewrite iter_pos_shr_1 by (by rewrite shr_record_of_loc_m).
    by rewrite shr_record_of_loc_m.
  - by rewrite shr_record_of_loc_m.
Qed.

Lemma round_nearest_even_cases m l :
  round_nearest_even m l = m \/ round_nearest_even m l = m + 1.
Proof. destruct l as [|[]]; simpl; auto. destruct (Z.even m); auto. Qed.

(** The tail of [binary_round_aux]: the second shift and the range check. *)
Definition finish (s : bool) (r e' : Z) : jsnum :=
  let '(mrs'', e'') := shr_fexp prec emax r e' loc_Exact in
  match shr_m mrs'' with
  | Z0 => S754_zero s
  | Zpos m => if e'' <=? emax - prec then S754_finite s m e'' else S754_infinity s
  | _ => S754_nan
  end.

(** A rounding keeps the shifted mantissa or adds one to it. *)
Lemma binary_round_aux_cases s mx ex lx :
  0 <= mx ->
  let m1 := if 0 <? shift_of mx ex then mx / 2 ^ shift_of mx ex else mx in
  let e' := if 0 <? shift_of mx ex then ex + shift_of mx ex else ex in
  binary_round_aux prec emax s mx ex lx = finish s m1 e'
  \/ binary_round_aux prec emax s mx ex lx = finish s (m1 + 1) e'.
Proof.
  intros Hm m1 e'. unfold binary_round_aux, finish.
  destruct (shr_fexp_m mx ex lx Hm) as [H1 H2]. fold m1 in H1. fold e' in H2.
  destruct (shr_fexp prec emax mx ex lx) as [mrs1 e1]. simpl in H1, H2. subst e1. rewrite H1.
  destruct (round_nearest_even_cases m1 (loc_of_shr_record mrs1)) as [-> | ->]; auto.
Qed.

(** A mantissa that already has the right number of digits is kept. *)
Lemma finish_canonical s r e' :
  0 < r -> fexp64 (Zdigits2 r + e') = e' -> e' <= 971 ->
  finish s r e' = match r with Zpos m => S754_finite s m e' | _ => S754_nan end.
Proof.
  intros Hr Hc He. unfold finish.
  destruct (shr_fexp_m r e' loc_Exact ltac:(lia)) as [H1 H2].
  unfold shift_of in H1, H2. rewrite Hc, Z.sub_diag in H1, H2. simpl in H1, H2.
  destruct (shr_fexp prec emax r e' loc_Exact) as [mrs e'']. simpl in H1, H2. subst.
  destruct (shr_m mrs); try lia.
  replace (e' <=? emax - prec) with true; [done|]. unfold emax, prec. lia.
Qed.

End NumFacts.

(* ===================================================================== *)
(** * Properties of [calculateDamage] *)
(* ===================================================================== *)

Module DamageFacts.
Import Num NumFacts Damage.

(** ** Numbers between 0 and a power of two *)

(** [x] is a finite number with [0 <= x <= 2^B]. *)
Definition below (x : jsnum) (B : Z) : Prop :=
  match x with
  | S754_zero _ => True
  | S754_finite false m e => e <= B /\ Zpos m <= 2 ^ (B - e)
  | _ => False
  end.

(** [x] is a finite number with [2^L <= x]. *)
Definition above (x : jsnum) (L : Z) : Prop :=
  match x with
  | S754_finite false m e => e <= L /\ 2 ^ (L - e) <= Zpos m
  | _ => False
  end.

Lemma pow2_pos k : 0 <= k -> 0 < 2 ^ k.
Proof. intros. apply Z.pow_pos_nonneg; lia. Qed.

Lemma pow2_split a b : 0 <= b <= a -> 2 ^ a = 2 ^ (a - b) * 2 ^ b.
Proof. intros. rewrite <- Z.pow_add_r by lia. f_equal. lia. Qed.

Lemma pow2_le a b : 0 <= a <= b -> 2 ^ a <= 2 ^ b.
Proof. intros. apply Z.pow_le_mono_r; lia. Qed.

Lemma below_mono x B B' : B <= B' -> below x B -> below x B'.
Proof.
  intros HB. destruct x as [|s| |[] m e]; simpl; try done.
  intros [He Hm]. split; [lia|].
  etransitivity; [exact Hm|]. apply pow2_le. lia.
Qed.

(** Division by a power of two keeps a power-of-two bound. *)
Lemma div_pow2_le m a n : 0 <= n <= a -> m <= 2 ^ a -> m / 2 ^ n <= 2 ^ (a - n).
Proof.
  intros Hn Hm. pose proof (pow2_pos n ltac:(lia)).
  apply Z.div_le_upper_bound; [lia|].
  rewrite Z.mul_comm, <- pow2_split by lia. done.
Qed.

Lemma digits_le_of_bound m a : 0 <= m -> 0 <= a -> m <= 2 ^ a -> Zdigits2 m <= a + 1.
Proof.
  intros Hm Ha Hle. apply Zdigits2_le; [done | lia |].
  rewrite Z.pow_add_r by lia. pose proof (pow2_pos a Ha). lia.
Qed.

Lemma below_of_mantissa q e B :
  0 <= q -> e <= B -> q <= 2 ^ (B - e) -> e <= 971 ->
  below
    match q with
    | Z0 => S754_zero false
    | Zpos m => if e <=? emax - prec then S754_finite false m e else S754_infinity false
    | Zneg _ => S754_nan
    end B.
Proof.
  intros Hq He Hle He'. destruct q as [|p|p]; [done| |lia].
  replace (e <=? emax - prec) with true by (unfold emax, prec; lia). by split.
Qed.

(** The exponent after a shift. *)
Lemma shifted_exponent d e' B :
  d <= B - e' + 1 -> e' <= B -> e' <= 971 -> -1074 <= B <= 1023 ->
  let n := fexp64 (d + e') - e' in
  ((if 0 <? n then e' + n else e') <= B)
  /\ ((if 0 <? n then e' + n else e') <= 971)
  /\ ((0 <? n) = true -> 0 <= n <= B - e').
Proof.
  intros Hd He He' HB n. subst n. unfold fexp64.
  destruct (Z.max_spec (d + e' - 53) (-1074)) as [[? ->]|[? ->]];
    destruct (Z.ltb_spec 0 (-1074 - e')); destruct (Z.ltb_spec 0 (d + e' - 53 - e')); lia.
Qed.

Lemma finish_below r e' B :
  0 <= r -> e' <= B -> r <= 2 ^ (B - e') -> e' <= 971 -> -1074 <= B <= 1023 ->
  below (finish false r e') B.
Proof.
  intros Hr He Hle He' HB. unfold finish.
  destruct (shr_fexp_m r e' loc_Exact Hr) as [H1 H2].
  destruct (shr_fexp prec emax r e' loc_Exact) as [mrs e'']. simpl in H1, H2.
  pose proof (digits_le_of_bound r (B - e') Hr ltac:(lia) Hle) as Hd.
  destruct (shifted_exponent (Zdigits2 r) e' B Hd He He' HB) as (Hb1 & Hb2 & Hb3).
  fold (shift_of r e') in Hb1, Hb2, Hb3.
  rewrite H1. subst e''.
  destruct (0 <? shift_of r e') eqn:E.
  - specialize (Hb3 eq_refl).
    apply below_of_mantissa; [|done| |done].
    + apply Z.div_pos; [done | apply pow2_pos; lia].
    + replace (B - (e' + shift_of r e')) with (B - e' - shift_of r e') by lia.
      by apply div_pow2_le.
  - by apply below_of_mantissa.
Qed.

(** A rounding of a number at most [2^B] is at most [2^(B+1)]. *)
Lemma round_below mx ex lx B :
  0 <= mx -> ex <= B -> mx <= 2 ^ (B - ex) -> ex <= 971 -> -1074 <= B <= 1022 ->
  below (binary_round_aux prec emax false mx ex lx) (B + 1).
Proof.
  intros Hm He Hle He' HB.
  pose proof (digits_le_of_bound mx (B - ex) Hm ltac:(lia) Hle) as Hd.
  destruct (shifted_exponent (Zdigits2 mx) ex B Hd He He' ltac:(lia)) as (Hb1 & Hb2 & Hb3).
  fold (shift_of mx ex) in Hb1, Hb2, Hb3.
  pose proof (binary_round_aux_cases false mx ex lx Hm) as Hc. cbv zeta in Hc.
  set (m1 := if 0 <? shift_of mx ex then mx / 2 ^ shift_of mx ex else mx) in *.
  set (e' := if 0 <? shift_of mx ex then ex + shift_of mx ex else ex) in *.
  assert (0 <= m1 /\ m1 <= 2 ^ (B - e')) as [Hm1 Hm1'].
  { subst m1 e'. destruct (0 <? shift_of mx ex) eqn:E; [|done].
    specialize (Hb3 eq_refl). split.
    - apply Z.div_pos; [done | apply pow2_pos; lia].
    - replace (B - (ex + shift_of mx ex)) with (B - ex - shift_of mx ex) by lia.
      by apply div_pow2_le. }
  clearbody m1 e'.
  assert (m1 + 1 <= 2 ^ (B + 1 - e')) as Hm2.
  { replace (B + 1 - e') with (B - e' + 1) by lia. rewrite Z.pow_add_r by lia.
    pose proof (pow2_pos (B - e') ltac:(lia)). lia. }
  assert (m1 <= 2 ^ (B + 1 - e')) as Hm3 by lia.
  destruct Hc as [-> | ->]; apply finish_below; lia.
Qed.

(** ** Products, quotients and sums *)

Lemma mul_below x y Bx By :
  below x Bx -> below y By -> -1074 <= Bx + By <= 971 -> below (mul x y) (Bx + By + 1).
Proof.
  intros Hx Hy HB.
  destruct x as [sx|sx| |[] mx ex]; try done; destruct y as [sy|sy| |[] my ey]; try done.
  destruct Hx as [Hex Hmx], Hy as [Hey Hmy].
  unfold mul, SFmul. simpl xorb.
  apply round_below; [lia | lia | | lia | lia].
  rewrite Pos2Z.inj_mul.
  replace (Bx + By - (ex + ey)) with ((Bx - ex) + (By - ey)) by lia.
  rewrite Z.pow_add_r by lia.
  apply Z.mul_le_mono_nonneg; lia.
Qed.

Lemma digits_ge_of_bound p a : 0 <= a -> 2 ^ a <= Zpos p -> a + 1 <= Zdigits2 (Zpos p).
Proof.
  intros Ha Hle. pose proof (Zdigits2_bounds p) as [_ Hhi].
  destruct (Z_le_gt_dec (a + 1) (Zdigits2 (Zpos p))); [done|]. exfalso.
  pose proof (Zdigits2_nonneg (Zpos p) ltac:(lia)).
  assert (2 ^ Zdigits2 (Zpos p) <= 2 ^ a) by (apply pow2_le; lia). lia.
Qed.

Lemma div_below x y Bx L :
  below x Bx -> above y L -> -1074 <= Bx - L <= 1022 -> below (div x y) (Bx - L + 1).
Proof.
  intros Hx Hy HB.
  destruct y as [sy|sy| |[] my ey]; try done. destruct Hy as [Hey Hmy].
  destruct x as [sx|sx| |[] mx ex]; try done. destruct Hx as [Hex Hmx].
  unfold div, SFdiv, SFdiv_core_binary. rewrite fexp_eq. simpl xorb.
  pose proof (digits_le_of_bound (Zpos mx) (Bx - ex) ltac:(lia) ltac:(lia) Hmx) as Hd1.
  pose proof (digits_ge_of_bound my (L - ey) ltac:(lia) Hmy) as Hd2.
  set (d1 := Zdigits2 (Zpos mx)) in *. set (d2 := Zdigits2 (Zpos my)) in *. clearbody d1 d2.
  set (e' := Z.min (fexp64 (d1 + ex - (d2 + ey))) (ex - ey)).
  assert (e' <= ex - ey /\ e' <= Bx - L /\ e' <= 971) as (He1 & He2 & He3).
  { subst e'. unfold fexp64.
    destruct (Z.max_spec (d1 + ex - (d2 + ey) - 53) (-1074)) as [[? ->]|[? ->]];
      destruct (Z.min_spec (-1074) (ex - ey)) as [[? ?]|[? ?]];
      destruct (Z.min_spec (d1 + ex - (d2 + ey) - 53) (ex - ey)) as [[? ?]|[? ?]]; lia. }
  clearbody e'.
  set (m' := match ex - ey - e' with Zpos _ => Z.shiftl (Zpos mx) (ex - ey - e') | Z0 => Zpos mx | Zneg _ => 0 end).
  assert (m' = Zpos mx * 2 ^ (ex - ey - e')) as Hm'.
  { subst m'. destruct (ex - ey - e') as [|s|s] eqn:Es; [simpl; lia | | lia].
    rewrite Z.shiftl_mul_pow2 by lia. done. }
  clearbody m'.
  pose proof (Z.div_mod m' (Zpos my) ltac:(lia)) as Hdm.
  pose proof (Z.mod_pos_bound m' (Zpos my) ltac:(lia)) as Hmod.
  unfold Z.div, Z.modulo in Hdm, Hmod.
  destruct (Z.div_eucl m' (Zpos my)) as [q r].
  pose proof (pow2_pos (ex - ey - e') ltac:(lia)) as Hp1.
  pose proof (pow2_pos (L - ey) ltac:(lia)) as Hp2.
  assert (0 <= q) as Hq0.
  { destruct (Z_le_gt_dec 0 q); [done|]. exfalso.
    assert (Zpos my * q <= Zpos my * (-1)) by (apply Z.mul_le_mono_nonneg_l; lia). 
    assert (0 <= m') by (subst m'; apply Z.mul_nonneg_nonneg; lia). lia. }
  apply round_below; [done | lia | | lia | lia].
  (* q * 2^(L - ey) <= q * my <= m' <= 2^(Bx - ex) * 2^(ex - ey - e') *)
  assert (q * 2 ^ (L - ey) <= 2 ^ (Bx - L - e') * 2 ^ (L - ey)) as Hle.
  { rewrite <- Z.pow_add_r by lia.
    replace (Bx - L - e' + (L - ey)) with ((Bx - ex) + (ex - ey - e')) by lia.
    rewrite Z.pow_add_r by lia.
    assert (q * 2 ^ (L - ey) <= q * Zpos my) by (apply Z.mul_le_mono_nonneg_l; lia).
    assert (Zpos mx * 2 ^ (ex - ey - e') <= 2 ^ (Bx - ex) * 2 ^ (ex - ey - e'))
      by (apply Z.mul_le_mono_nonneg_r; lia).
    lia. }
  apply Z.mul_le_mono_pos_r in Hle; [done | lia].
Qed.

(** [Pos.iter xO m d] is [m * 2^d]. *)
Lemma iter_xO m d : Zpos (Pos.iter xO m d) = Zpos m * 2 ^ Zpos d.
Proof.
  induction d as [|d IH] using Pos.peano_ind.
  - simpl. lia.
  - rewrite Pos.iter_succ, Pos2Z.inj_xO, IH, Pos2Z.inj_succ, Z.pow_succ_r by lia. lia.
Qed.

(** [shl_align] keeps the value and does not raise the exponent. *)
Lemma shl_align_spec m e t :
  let '(m', e') := shl_align m e t in
  e' <= e /\ e' <= Z.max e t /\ (t <= e -> e' = t) /\ Zpos m' = Zpos m * 2 ^ (e - e').
Proof.
  unfold shl_align. destruct (t - e) as [|d|d] eqn:E.
  - replace (e - e) with 0 by lia. simpl. lia.
  - replace (e - e) with 0 by lia. simpl. lia.
  - rewrite iter_xO. replace (e - t) with (Zpos d) by lia. lia.
Qed.

(** Rounding a positive integer mantissa [m] with exponent [e]. *)
Lemma binary_round_below m e B :
  e <= B -> Zpos m <= 2 ^ (B - e) -> e <= 971 -> -1074 <= B <= 1022 ->
  below (binary_round prec emax false m e) (B + 1).
Proof.
  intros He Hm He' HB. unfold binary_round.
  pose proof (shl_align_spec m e (fexp prec emax (Zpos (digits2_pos m) + e))) as Hs.
  destruct (shl_align m e _) as [mz ez]. destruct Hs as (Hz1 & _ & _ & Hz2).
  apply round_below; [lia | lia | | lia | lia].
  rewrite Hz2. replace (B - ez) with ((B - e) + (e - ez)) by lia.
  rewrite Z.pow_add_r by lia. apply Z.mul_le_mono_nonneg_r; [|done].
  pose proof (pow2_pos (e - ez) ltac:(lia)). lia.
Qed.

Lemma of_Z_below z k : 0 <= z < 2 ^ k -> 0 <= k <= 1022 -> below (of_Z z) (k + 1).
Proof.
  intros Hz Hk. unfold of_Z, binary_normalize. destruct z as [|p|p]; [done| |lia].
  apply binary_round_below; [lia | | lia | lia].
  rewrite Z.sub_0_r. lia.
Qed.

Lemma add_below x y Bx By :
  below x Bx -> below y By -> -1074 <= Z.max Bx By <= 1020 -> Bx <= 971 -> By <= 971 ->
  below (add x y) (Z.max Bx By + 2).
Proof.
  intros Hx Hy HB HBx HBy.
  destruct x as [sx|sx| |[] mx ex]; try done; destruct y as [sy|sy| |[] my ey]; try done.
  - unfold add, SFadd. by destruct sx, sy.
  - eapply below_mono; [|exact Hy]. lia.
  - eapply below_mono; [|exact Hx]. lia.
  - destruct Hx as [Hex Hmx], Hy as [Hey Hmy].
    unfold add, SFadd. simpl cond_Zopp.
    set (ez := Z.min ex ey).
    pose proof (shl_align_spec mx ex ez) as H1. pose proof (shl_align_spec my ey ez) as H2.
    destruct (shl_align mx ex ez) as [m1 e1]. destruct (shl_align my ey ez) as [m2 e2].
    simpl fst.
    destruct H1 as (_ & _ & H1e & H1m). destruct H2 as (_ & _ & H2e & H2m).
    assert (ez <= ex /\ ez <= ey) as [Hz1 Hz2] by (subst ez; lia).
    specialize (H1e Hz1). specialize (H2e Hz2). subst e1 e2.
    clearbody ez.
    replace (Zpos m1 + Zpos m2) with (Zpos (m1 + m2)) by lia.
    unfold binary_normalize.
    replace (Z.max Bx By + 2) with (Z.max Bx By + 1 + 1) by lia.
    apply binary_round_below; [lia | | lia | lia].
    rewrite Pos2Z.inj_add, H1m, H2m.
    assert (Zpos mx * 2 ^ (ex - ez) <= 2 ^ (Z.max Bx By - ez)).
    { replace (Z.max Bx By - ez) with ((Z.max Bx By - ex) + (ex - ez)) by lia.
      rewrite Z.pow_add_r by lia. apply Z.mul_le_mono_nonneg_r; [apply Z.lt_le_incl, pow2_pos; lia|].
      etransitivity; [exact Hmx|]. apply pow2_le. lia. }
    assert (Zpos my * 2 ^ (ey - ez) <= 2 ^ (Z.max Bx By - ez)).
    { replace (Z.max Bx By - ez) with ((Z.max Bx By - ey) + (ey - ez)) by lia.
      rewrite Z.pow_add_r by lia. apply Z.mul_le_mono_nonneg_r; [apply Z.lt_le_incl, pow2_pos; lia|].
      etransitivity; [exact Hmy|]. apply pow2_le. lia. }
    replace (Z.max Bx By + 1 - ez) with (Z.max Bx By - ez + 1) by lia.
    rewrite Z.pow_add_r by lia. lia.
Qed.

(** ** Integers *)

(** An exact mantissa with the right number of digits is kept as it is. *)
Lemma binary_round_aux_exact s m e :
  fexp64 (Zdigits2 (Zpos m) + e) = e -> e <= 971 ->
  binary_round_aux prec emax s (Zpos m) e loc_Exact = S754_finite s m e.
Proof.
  intros Hc He. unfold binary_round_aux.
  assert (shr_fexp prec emax (Zpos m) e loc_Exact
          = ({| shr_m := Zpos m; shr_r := false; shr_s := false |}, e)) as Hs.
  { unfold shr_fexp. rewrite fexp_eq, Hc, Z.sub_diag. reflexivity. }
  rewrite Hs. simpl loc_of_shr_record. simpl round_nearest_even. rewrite Hs. simpl.
  replace (e <=? emax - prec) with true by (unfold emax, prec; lia). done.
Qed.

(** The number of a positive integer below [2^53] holds it exactly. *)
Lemma of_Z_small z :
  0 < z < 9007199254740992 ->
  exists m e, of_Z z = S754_finite false m e /\ e <= 0 /\ Zpos m = z * 2 ^ (- e).
Proof.
  intros Hz. destruct z as [|p|p]; [lia| |lia].
  unfold of_Z, binary_normalize, binary_round. rewrite fexp_eq.
  change (Zpos (digits2_pos p)) with (Zdigits2 (Zpos p)).
  pose proof (Zdigits2_bounds p) as Hd.
  pose proof (Zdigits2_le (Zpos p) 53 ltac:(lia) ltac:(lia) ltac:(change (2 ^ 53) with 9007199254740992; lia)) as Hd53.
  assert (1 <= Zdigits2 (Zpos p)) as Hd1 by (rewrite Zdigits2_log2; pose proof (Z.log2_nonneg (Zpos p)); lia).
  set (d := Zdigits2 (Zpos p)) in *. clearbody d.
  assert (fexp64 (d + 0) = d - 53) as Ht.
  { unfold fexp64. rewrite Z.add_0_r. lia. }
  rewrite Ht.
  pose proof (shl_align_spec p 0 (d - 53)) as Hs.
  destruct (shl_align p 0 (d - 53)) as [mz ez].
  destruct Hs as (_ & _ & Hez & Hmz). specialize (Hez ltac:(lia)). subst ez.
  replace (0 - (d - 53)) with (53 - d) in Hmz by lia.
  pose proof (pow2_pos (53 - d) ltac:(lia)) as Hp.
  exists mz, (d - 53). split; [|split; [lia|]].
  - apply binary_round_aux_exact; [|lia].
    rewrite (Zdigits2_unique mz 53).
    + unfold fexp64. lia.
    + rewrite Hmz. split.
      * replace (53 - 1) with ((d - 1) + (53 - d)) by lia. rewrite Z.pow_add_r by lia.
        apply Z.mul_le_mono_nonneg_r; lia.
      * replace 53 with (d + (53 - d)) at 2 by lia. rewrite Z.pow_add_r by lia.
        apply Z.mul_lt_mono_pos_r; lia.
  - rewrite Hmz. f_equal. f_equal. lia.
Qed.

Lemma of_Z_above z : 0 < z < 9007199254740992 -> above (of_Z z) 0.
Proof.
  intros Hz. destruct (of_Z_small z Hz) as (m & e & -> & He & Hm). simpl.
  split; [done|]. rewrite Hm. replace (0 - e) with (- e) by lia.
  pose proof (pow2_pos (- e) ltac:(lia)). nia.
Qed.

Lemma of_Z_integer z : 0 <= z < 9007199254740992 -> is_nonneg_integer (of_Z z) = true.
Proof.
  intros Hz. destruct (Z.eq_dec z 0) as [->|Hnz]; [done|].
  destruct (of_Z_small z ltac:(lia)) as (m & e & -> & He & Hm). simpl.
  rewrite Hm, Z.mod_mul by (pose proof (pow2_pos (- e) ltac:(lia)); lia).
  by rewrite orb_true_r.
Qed.

(** [Math.floor] of a number between 0 and [2^B] is an integer in that
    range. *)
Lemma Math_floor_below x B :
  below x B -> 0 <= B <= 52 ->
  below (Math_floor x) (B + 2) /\ is_nonneg_integer (Math_floor x) = true.
Proof.
  intros Hx HB. destruct x as [sx|sx| |[] m e]; try done.
  destruct Hx as [He Hm]. unfold Math_floor.
  destruct (Z.leb_spec 0 e) as [He0|He0].
  - split.
    + simpl. split; [lia|]. etransitivity; [exact Hm|]. apply pow2_le. lia.
    + simpl. replace (0 <=? e) with true by lia. done.
  - simpl cond_Zopp.
    pose proof (div_pow2_le (Zpos m) (B - e) (- e) ltac:(lia) Hm) as Hq.
    replace (B - e - - e) with B in Hq by lia.
    pose proof (Z.div_pos (Zpos m) (2 ^ (- e)) ltac:(lia) (pow2_pos (- e) ltac:(lia))) as Hq0.
    set (n := Zpos m / 2 ^ (- e)) in *. clearbody n.
    assert (2 ^ B <= 2 ^ 52) as HB52 by (apply pow2_le; lia).
    change (2 ^ 52) with 4503599627370496 in HB52.
    split.
    + replace (B + 2) with (B + 1 + 1) by lia. apply of_Z_below; [|lia].
      rewrite Z.pow_add_r by lia. pose proof (pow2_pos B ltac:(lia)). lia.
    + apply of_Z_integer. lia.
Qed.

Lemma Math_max_one_integer y B :
  below y B -> is_nonneg_integer y = true -> is_nonneg_integer (Math_max one y) = true.
Proof.
  intros Hy Hi. unfold Math_max.
  destruct y as [sy|sy| |[] m e]; try done; simpl is_nan; simpl orb; cbv iota;
    by destruct (ltb one _).
Qed.

(** ** The random factor and the example of the specification *)

Lemma baseDamage_example : baseDamage (of_Z 80) (of_Z 50) (of_Z 40) = of_Z 10.
Proof. vm_compute. reflexivity. Qed.

Lemma pos_le_of_compare a b :
  match PosDef.Pos.compare_cont Eq a b with Gt => false | _ => true end = true ->
  Zpos a <= Zpos b.
Proof.
  change (PosDef.Pos.compare_cont Eq a b) with (a ?= b)%positive.
  destruct (Pos.compare_spec a b); intros; [subst; lia | lia | done].
Qed.

Lemma canonical_53 d e : Z.max (d + e - 53) (-1074) = e -> -1074 < e -> d = 53.
Proof. intros H He. destruct (Z.max_spec (d + e - 53) (-1074)) as [[? ?]|[? ?]]; lia. Qed.

Lemma factor_range r :
  valid_binary prec emax r = true -> leb c_0_85 r = true -> leb r one = true ->
  r = one \/ exists m, 7656119366529843 <= Zpos m < 2 ^ 53 /\ r = S754_finite false m (-53).
Proof.
  destruct r as [s|s| |s m e].
  - by destruct s.
  - by destruct s.
  - done.
  - unfold valid_binary, bounded, canonical_mantissa. rewrite fexp_eq.
    intros Hv Hlo Hhi. apply andb_prop in Hv as [Hc _]. apply Z.eqb_eq in Hc.
    pose proof (Zdigits2_bounds m) as Hd.
    change (Zpos (digits2_pos m)) with (Zdigits2 (Zpos m)) in Hc.
    unfold fexp64 in Hc. set (d := Zdigits2 (Zpos m)) in *. clearbody d.
    unfold leb, SFleb, SFcompare, c_0_85, one in Hlo, Hhi.
    destruct s; [done|].
    destruct (Z.compare_spec (-53) e) as [E1|E1|E1]; [ | | discriminate Hlo].
    + subst e. right. exists m. split; [|done].
      apply canonical_53 in Hc; [|lia]. subst d.
      apply pos_le_of_compare in Hlo.
      change (2 ^ (53 - 1)) with 4503599627370496 in Hd.
      change (2 ^ 53) with 9007199254740992 in *. lia.
    + destruct (Z.compare_spec e (-52)) as [E2|E2|E2]; [ | exfalso; lia | discriminate Hhi].
      subst e. left.
      apply canonical_53 in Hc; [|lia]. subst d.
      apply pos_le_of_compare in Hhi.
      change (2 ^ (53 - 1)) with 4503599627370496 in Hd.
      assert (Zpos m = 4503599627370496) as Hm by lia.
      injection Hm as ->. done.
Qed.

Definition ten : jsnum := Eval vm_compute in of_Z 10.

Lemma mul_ten_factor m :
  7656119366529843 <= Zpos m < 9007199254740992 ->
  exists q, 4503599627370496 <= Zpos q <= 5629499534213120
            /\ mul ten (S754_finite false m (-53)) = S754_finite false q (-49).
Proof.
  intros Hm. unfold mul, ten, SFmul. simpl xorb.
  set (mx := Zpos (5629499534213120 * m)).
  assert (mx = 5629499534213120 * Zpos m) as Hmx by (subst mx; lia).
  clearbody mx.
  assert (Zdigits2 mx = 106) as Hd.
  { destruct mx as [|p|p]; [lia| |lia]. apply Zdigits2_unique.
    change (2 ^ (106 - 1)) with 40564819207303340847894502572032.
    change (2 ^ 106) with 81129638414606681695789005144064. lia. }
  assert (shift_of mx (-49 + -53) = 53) as Hs.
  { unfold shift_of. rewrite Hd. reflexivity. }
  pose proof (binary_round_aux_cases false mx (-49 + -53) loc_Exact ltac:(lia)) as Hc.
  cbv zeta in Hc. rewrite Hs in Hc.
  change (0 <? 53) with true in Hc. cbv iota in Hc.
  change (-49 + -53 + 53) with (-49) in Hc.
  change (2 ^ 53) with 9007199254740992 in Hc.
  set (q := mx / 9007199254740992) in *.
  assert (4784904604081151 <= q /\ q + 1 <= 5629499534213120) as Hq.
  { subst q. pose proof (Z.div_mod mx 9007199254740992 ltac:(lia)) as Hdm.
    pose proof (Z.mod_pos_bound mx 9007199254740992 ltac:(lia)) as Hmod. lia. }
  clearbody q.
  assert (forall r, 4503599627370496 <= r <= 5629499534213120 ->
            finish false r (-49)
            = match r with Zpos p => S754_finite false p (-49) | _ => S754_nan end) as Hfin.
  { intros r Hr. apply finish_canonical; [lia| |lia].
    destruct r as [|p|p]; [lia| |lia].
    rewrite (Zdigits2_unique p 53); [reflexivity|].
    change (2 ^ (53 - 1)) with 4503599627370496.
    change (2 ^ 53) with 9007199254740992. lia. }
  destruct Hc as [Hc|Hc]; rewrite Hc, Hfin by lia.
  - destruct q as [|p|p]; [lia| |lia]. exists p. split; [lia | done].
  - destruct (q + 1) as [|p|p] eqn:E; [lia| |lia]. exists p. split; [lia | done].
Qed.

Lemma floor_max_of_product q :
  4503599627370496 <= Zpos q <= 5629499534213120 ->
  Math_max one (Math_floor (S754_finite false q (-49))) = of_Z 8
  \/ Math_max one (Math_floor (S754_finite false q (-49))) = of_Z 9
  \/ Math_max one (Math_floor (S754_finite false q (-49))) = of_Z 10.
Proof.
  intros Hq. unfold Math_floor. change (0 <=? -49) with false. cbv iota.
  change (cond_Zopp false (Zpos q)) with (Zpos q).
  change (2 ^ (- -49)) with 562949953421312.
  set (n := Zpos q / 562949953421312).
  assert (8 <= n <= 10) as Hn.
  { subst n. pose proof (Z.div_mod (Zpos q) 562949953421312 ltac:(lia)) as Hdm.
    pose proof (Z.mod_pos_bound (Zpos q) 562949953421312 ltac:(lia)) as Hmod. lia. }
  clearbody n.
  assert (n = 8 \/ n = 9 \/ n = 10) as [-> | [-> | ->]] by lia; vm_compute; auto.
Qed.

(** ** The guards of [calculateDamage] *)

Lemma positive_number x :
  ltb zero x = true -> truthy x = true /\ leb x zero = false /\ eqb x zero = false.
Proof. by destruct x as [[]|[]| |[] m e]. Qed.

Lemma calculateDamage_unfold a d m power rnd :
  move_power m = JNum power ->
  truthy (pd_attack (base a)) = true ->
  ltb zero (pd_defense (base d)) = true ->
  eqb power zero = false ->
  calculateDamage (Some a) (Some d) (Some m) rnd
  = Math_max one
      (Math_floor
         (mul (baseDamage (pd_attack (base a)) (pd_defense (base d)) power)
            (randomFactor rnd))).
Proof.
  intros Hp Ha Hd Hz. destruct (positive_number _ Hd) as (Ht & Hl & _).
  unfold calculateDamage. by rewrite Hp, Ha, Ht, Hl, Hz.
Qed.

Lemma calculateDamage_guard a d m rnd :
  truthy (pd_attack (base a)) = false \/ leb (pd_defense (base d)) zero = true ->
  calculateDamage (Some a) (Some d) (Some m) rnd = zero.
Proof.
  intros H. unfold calculateDamage.
  destruct H as [-> | ->]; [done|]. by rewrite !orb_true_r.
Qed.

Lemma calculateDamage_status a d m power rnd :
  move_power m = JNum power -> eqb power zero = true ->
  calculateDamage (Some a) (Some d) (Some m) rnd = zero.
Proof.
  intros Hp Hz. unfold calculateDamage. rewrite Hp, Hz. by destruct (_ || _).
Qed.

Lemma calculateDamage_not_a_number a d m rnd :
  typeof_number (move_power m) = false ->
  calculateDamage (Some a) (Some d) (Some m) rnd = zero.
Proof.
  intros H. unfold calculateDamage. rewrite H. simpl negb. by rewrite orb_true_r.
Qed.

(** C4, as amended.  When the attacker's [attack] is a non-zero number and
    the defender's [defense] is above 0, a damaging move ([power > 0])
    deals [max(1, floor(base * r))] with
    [base = floor((attack / defense) * power / 8 + 2)] and
    [r = Math.random() * 0.15 + 0.85]; a status move ([power === 0])
    deals 0; an attacker whose [attack] is 0 or a defender whose [defense]
    is 0 or below takes the guard and the damage is 0.  With attack 80,
    defense 50 and power 40 the base is 10 and, for every factor [r] in
    [0.85, 1.0], the damage is 8, 9 or 10. *)
Theorem calculateDamage_formula :
  (forall a d m power rnd,
      move_power m = JNum power ->
      truthy (pd_attack (base a)) = true ->
      ltb zero (pd_defense (base d)) = true ->
      ltb zero power = true ->
      calculateDamage (Some a) (Some d) (Some m) rnd
      = specified_damage (pd_attack (base a)) (pd_defense (base d)) power (randomFactor rnd))
  /\ (forall a d m power rnd,
        move_power m = JNum power -> eqb power zero = true ->
        calculateDamage (Some a) (Some d) (Some m) rnd = zero)
  /\ (forall a d m rnd,
        truthy (pd_attack (base a)) = false \/ leb (pd_defense (base d)) zero = true ->
        calculateDamage (Some a) (Some d) (Some m) rnd = zero)
  /\ (forall a d m rnd,
        pd_attack (base a) = of_Z 80 ->
        pd_defense (base d) = of_Z 50 ->
        move_power m = JNum (of_Z 40) ->
        baseDamage (of_Z 80) (of_Z 50) (of_Z 40) = of_Z 10
        /\ (valid_binary prec emax (randomFactor rnd) = true ->
            leb c_0_85 (randomFactor rnd) = true ->
            leb (randomFactor rnd) one = true ->
            calculateDamage (Some a) (Some d) (Some m) rnd = of_Z 8
            \/ calculateDamage (Some a) (Some d) (Some m) rnd = of_Z 9
            \/ calculateDamage (Some a) (Some d) (Some m) rnd = of_Z 10)).
Proof.
  split; [|split; [|split]].
  - intros a d m power rnd Hp Ha Hd Hpos.
    destruct (positive_number _ Hpos) as (_ & _ & Hz).
    rewrite (calculateDamage_unfold a d m power rnd Hp Ha Hd Hz).
    unfold specified_damage. by rewrite Hpos.
  - exact calculateDamage_status.
  - exact calculateDamage_guard.
  - intros a d m rnd Ha Hd Hp. split; [exact baseDamage_example|].
    intros Hv Hlo Hhi.
    rewrite (calculateDamage_unfold a d m (of_Z 40) rnd Hp); try (by rewrite ?Ha, ?Hd).
    rewrite Ha, Hd, baseDamage_example. change (of_Z 10) with ten.
    destruct (factor_range _ Hv Hlo Hhi) as [-> | (q & Hq & ->)].
    + vm_compute. auto.
    + change (2 ^ 53) with 9007199254740992 in Hq.
      destruct (mul_ten_factor q Hq) as (q' & Hq' & ->).
      by apply floor_max_of_product.
Qed.

(** ** Well-formed data *)

(** The stats and powers of the remote API are small integers (none
    exceeds 255); a missing stat is 0. *)
Definition wf_stats (p : Pokemon) : Prop :=
  small_int (pd_attack (base p)) 65536 /\ small_int (pd_defense (base p)) 65536.

Definition wf_power (m : Move) : Prop :=
  match move_power m with
  | JNum power => small_int power 65536
  | _ => True
  end.

Lemma small_int_below x : small_int x 65536 -> below x 17.
Proof.
  intros (z & Hz & ->). apply (of_Z_below z 16); [|lia].
  change (2 ^ 16) with 65536. lia.
Qed.

Lemma small_int_above x : small_int x 65536 -> truthy x = true -> above x 0.
Proof.
  intros (z & Hz & ->) Ht. apply of_Z_above.
  destruct (Z.eq_dec z 0) as [->|]; [done | lia].
Qed.

Lemma factor_below r :
  valid_binary prec emax r = true -> leb c_0_85 r = true -> leb r one = true -> below r 0.
Proof.
  intros Hv Hlo Hhi. destruct (factor_range r Hv Hlo Hhi) as [-> | (m & Hm & ->)].
  - simpl. split; [lia|]. change (2 ^ (0 - -52)) with 4503599627370496. lia.
  - simpl. split; [lia|]. change (2 ^ (0 - -53)) with (2 ^ 53). lia.
Qed.

(** The damage of a damaging move on well-formed data is an integer. *)
Lemma finalDamage_integer attack defense power r :
  small_int attack 65536 -> small_int defense 65536 -> small_int power 65536 ->
  truthy defense = true -> below r 0 ->
  is_nonneg_integer
    (Math_max one (Math_floor (mul (baseDamage attack defense power) r))) = true.
Proof.
  intros Ha Hd Hp Ht Hr. unfold baseDamage.
  pose proof (div_below attack defense 17 0 (small_int_below _ Ha) (small_int_above _ Hd Ht)
                ltac:(lia)) as H1.
  pose proof (mul_below _ power _ 17 H1 (small_int_below _ Hp) ltac:(lia)) as H2.
  assert (above eight 3) as H8.
  { simpl. split; [lia|]. change (2 ^ (3 - -49)) with 4503599627370496. lia. }
  pose proof (div_below _ eight _ 3 H2 H8 ltac:(lia)) as H3.
  assert (below two 1) as Htwo.
  { simpl. split; [lia|]. change (2 ^ (1 - -51)) with 4503599627370496. lia. }
  pose proof (add_below _ two _ 1 H3 Htwo ltac:(lia) ltac:(lia) ltac:(lia)) as H4.
  eapply below_mono in H4; [|apply Z.le_refl].
  destruct (Math_floor_below _ 36 ltac:(eapply below_mono; [|exact H4]; lia) ltac:(lia))
    as [H5 _].
  pose proof (mul_below _ r _ 0 H5 Hr ltac:(lia)) as H6.
  destruct (Math_floor_below _ 39 ltac:(eapply below_mono; [|exact H6]; lia) ltac:(lia))
    as [H7 H7i].
  by eapply Math_max_one_integer.
Qed.

(** C10, as amended.  [calculateDamage] is a total function.  It returns 0
    when the attacker, the defender or the move is missing, when the
    move's power is not a number or is 0, and when the defender's defense
    is 0 or below.  When the stats and the power are integers from 0 to
    65535 (a missing stat is 0) and the random factor lies in [0.85, 1.0],
    what it returns is a non-negative integer: not NaN, not infinite. *)
Theorem calculateDamage_safe :
  (forall defender move rnd, calculateDamage None defender move rnd = zero)
  /\ (forall attacker move rnd, calculateDamage attacker None move rnd = zero)
  /\ (forall attacker defender rnd, calculateDamage attacker defender None rnd = zero)
  /\ (forall attacker defender m rnd,
        typeof_number (move_power m) = false ->
        calculateDamage attacker defender (Some m) rnd = zero)
  /\ (forall attacker defender m power rnd,
        move_power m = JNum power -> eqb power zero = true ->
        calculateDamage attacker defender (Some m) rnd = zero)
  /\ (forall attacker d move rnd,
        leb (pd_defense (base d)) zero = true ->
        calculateDamage attacker (Some d) move rnd = zero)
  /\ (forall attacker defender move rnd,
        from_option wf_stats True attacker ->
        from_option wf_stats True defender ->
        from_option wf_power True move ->
        valid_binary prec emax (randomFactor rnd) = true ->
        leb c_0_85 (randomFactor rnd) = true ->
        leb (randomFactor rnd) one = true ->
        is_nonneg_integer (calculateDamage attacker defender move rnd) = true).
Proof.
  split_and!.
  - by intros [d|] [m|] rnd.
  - by intros [a|] [m|] rnd.
  - by intros [a|] [d|] rnd.
  - intros [a|] [d|] m rnd H; try done. by apply calculateDamage_not_a_number.
  - intros [a|] [d|] m power rnd Hp Hz; try done. by eapply calculateDamage_status.
  - intros [a|] d [m|] rnd H; try done. apply calculateDamage_guard. by right.
  - intros [a|] [d|] [m|] rnd Ha Hd Hm Hv Hlo Hhi; try done.
    simpl in Ha, Hd, Hm. destruct Ha as [Ha _], Hd as [_ Hd]. unfold wf_power in Hm.
    unfold calculateDamage.
    destruct (truthy (pd_defense (base d))) eqn:Ht;
      [|by rewrite orb_true_r; destruct (move_power m)].
    destruct (move_power m) as [power| | | |] eqn:Hp;
      try (by destruct (_ || _)).
    destruct (_ || _); [done|].
    destruct (eqb power zero); [done|].
    apply finalDamage_integer; try done. by apply factor_below.
Qed.

(** ** The formula on an example *)

(** Attack 80, defense 50, power 40 and [Math.random()] = 0.5. *)
Lemma calculateDamage_formula_witness :
  let a := Example.creature (of_Z 80) (of_Z 50) in
  calculateDamage (Some a) (Some a) (Some Example.move40) Example.half
  = specified_damage (of_Z 80) (of_Z 50) (of_Z 40) (randomFactor Example.half)
  /\ baseDamage (of_Z 80) (of_Z 50) (of_Z 40) = of_Z 10
  /\ (calculateDamage (Some a) (Some a) (Some Example.move40) Example.half = of_Z 8
      \/ calculateDamage (Some a) (Some a) (Some Example.move40) Example.half = of_Z 9
      \/ calculateDamage (Some a) (Some a) (Some Example.move40) Example.half = of_Z 10).
Proof.
  intros a. destruct calculateDamage_formula as (H1 & _ & _ & H4).
  split.
  - exact (H1 a a Example.move40 (of_Z 40) Example.half eq_refl eq_refl eq_refl eq_refl).
  - destruct (H4 a a Example.move40 Example.half eq_refl eq_refl eq_refl) as [Hbase H].
    split; [exact Hbase|]. exact (H eq_refl eq_refl eq_refl).
Defined.

(** A species record without an [attack] stat resolves to attack 0; a
    damaging move of such an attacker deals 0, where the formula gives 1. *)
Lemma calculateDamage_zero_attack :
  Fetch.getStat Example.statless "attack" = zero
  /\ ltb zero (of_Z 40) = true
  /\ calculateDamage (Some (Example.creature (Fetch.getStat Example.statless "attack") (of_Z 50)))
       (Some (Example.creature (of_Z 80) (of_Z 50))) (Some Example.move40) Example.half
     = zero
  /\ specified_damage (Fetch.getStat Example.statless "attack") (of_Z 50) (of_Z 40) (randomFactor Example.half)
     = one.
Proof. split_and!; reflexivity. Qed.

(** A creature of attack 80 and defense 50 deals a whole number of points;
    against a defense of 0 it deals none. *)
Lemma calculateDamage_safe_witness :
  is_nonneg_integer
    (calculateDamage (Some (Example.creature (of_Z 80) (of_Z 50))) (Some (Example.creature (of_Z 80) (of_Z 50)))
       (Some Example.move40) Example.half) = true
  /\ calculateDamage (Some (Example.creature (of_Z 80) (of_Z 50))) (Some (Example.creature (of_Z 80) zero))
       (Some Example.move40) Example.half = zero.
Proof.
  destruct calculateDamage_safe as (_ & _ & _ & _ & _ & H6 & H7).
  split.
  - apply H7; try reflexivity.
    + split; [exists 80 | exists 50]; split; (lia || reflexivity).
    + split; [exists 80 | exists 50]; split; (lia || reflexivity).
    + exists 40. split; [lia | reflexivity].
  - apply H6. reflexivity.
Defined.

(** C10 as it was stated does not hold of every number the remote API
    can send ([JSON.parse] reads [1e999] as [Infinity]): a move of power
    [Infinity] deals [Infinity], and when the attacker's [attack] and the
    defender's [defense] are both [Infinity] the division gives [NaN] and
    so does the function.  Neither test of the guard catches them. *)
Lemma calculateDamage_not_an_integer :
  calculateDamage (Some (Example.creature (of_Z 80) (of_Z 50)))
    (Some (Example.creature (of_Z 80) (of_Z 50)))
    (Some {| move_name := "Tackle"; move_power := JNum (S754_infinity false) |}) Example.half
  = S754_infinity false
  /\ calculateDamage
       (Some (Example.creature (S754_infinity false) (S754_infinity false)))
       (Some (Example.creature (S754_infinity false) (S754_infinity false)))
       (Some Example.move40) Example.half
     = S754_nan
  /\ is_nonneg_integer (S754_infinity false) = false
  /\ is_nonneg_integer S754_nan = false.
Proof. split_and!; vm_compute; reflexivity. Qed.

End DamageFacts.

(* ===================================================================== *)
(** * Properties of the numbers that count *)
(* ===================================================================== *)

(** The leaderboard counts wins in JavaScript numbers.  The numbers of
    the integers below [2^53] in absolute value are added and subtracted
    without rounding. *)
Module CountFacts.
Import Num NumFacts DamageFacts.

(** ** Shifts that lose nothing *)

(** [n] shifts to the right of a mantissa that ends in [n] zeros. *)
Lemma iter_pos_shr_1_exact n q :
  0 < q ->
  SpecFloat.iter_pos shr_1 n {| shr_m := q * 2 ^ Zpos n; shr_r := false; shr_s := false |}
  = {| shr_m := q; shr_r := false; shr_s := false |}.
Proof.
  revert q. induction n as [n IH|n IH|]; intros q Hq; simpl SpecFloat.iter_pos.
  - assert (0 < q * 2 ^ Zpos n) as Hq1 by (pose proof (pow2_pos (Zpos n) ltac:(lia)); nia).
    assert (0 < q * 2 ^ Zpos n * 2 ^ Zpos n) as Hq2
      by (pose proof (pow2_pos (Zpos n) ltac:(lia)); nia).
    replace (q * 2 ^ Zpos n~1) with ((q * 2 ^ Zpos n * 2 ^ Zpos n) * 2).
    + destruct (q * 2 ^ Zpos n * 2 ^ Zpos n) as [|p|p] eqn:E; [lia| |lia].
      replace (Zpos p * 2) with (Zpos p~0) by lia. simpl shr_1.
      rewrite <- E. by rewrite IH, IH.
    + assert (Zpos n~1 = Zpos n + Zpos n + 1) as -> by lia.
      rewrite !Z.pow_add_r by lia. rewrite Z.pow_1_r. ring.
  - assert (0 < q * 2 ^ Zpos n) as Hq1 by (pose proof (pow2_pos (Zpos n) ltac:(lia)); nia).
    replace (q * 2 ^ Zpos n~0) with ((q * 2 ^ Zpos n) * 2 ^ Zpos n).
    + by rewrite IH, IH.
    + assert (Zpos n~0 = Zpos n + Zpos n) as -> by lia.
      rewrite Z.pow_add_r by lia. ring.
  - destruct q as [|p|p]; [lia| |lia]. by replace (Zpos p * 2 ^ 1) with (Zpos p~0) by lia.
Qed.

(** ** The numbers that hold integers *)

Lemma digits_small z : 0 < z < 9007199254740992 -> 1 <= Zdigits2 z <= 53.
Proof.
  intros Hz. destruct z as [|p|p]; [lia| |lia]. split.
  - rewrite Zdigits2_log2. pose proof (Z.log2_nonneg (Zpos p)). lia.
  - apply Zdigits2_le; [lia | lia |]. change (2 ^ 53) with 9007199254740992. lia.
Qed.

Lemma Zdigits2_shift z n : 0 < z -> 0 <= n -> Zdigits2 (z * 2 ^ n) = Zdigits2 z + n.
Proof.
  intros Hz Hn. destruct z as [|p|p]; [lia| |lia].
  pose proof (pow2_pos n Hn) as Hp.
  destruct (Zpos p * 2 ^ n) as [|q|q] eqn:E; [lia| |lia].
  apply Zdigits2_unique. rewrite <- E.
  pose proof (Zdigits2_bounds p) as [Hlo Hhi].
  assert (1 <= Zdigits2 (Zpos p)).
  { rewrite Zdigits2_log2. pose proof (Z.log2_nonneg (Zpos p)). lia. }
  split.
  - replace (Zdigits2 (Zpos p) + n - 1) with ((Zdigits2 (Zpos p) - 1) + n) by lia.
    rewrite Z.pow_add_r by lia. nia.
  - rewrite Z.pow_add_r by lia. nia.
Qed.

(** The mantissa of the number that holds the positive integer [z]: [z]
    with zeros added to make 53 digits. *)
Definition mantissa (z : Z) : positive := Z.to_pos (z * 2 ^ (53 - Zdigits2 z)).

Lemma mantissa_spec z :
  0 < z < 9007199254740992 ->
  Zpos (mantissa z) = z * 2 ^ (53 - Zdigits2 z) /\ Zdigits2 (Zpos (mantissa z)) = 53.
Proof.
  intros Hz. pose proof (digits_small z Hz) as Hd.
  pose proof (pow2_pos (53 - Zdigits2 z) ltac:(lia)) as Hp.
  assert (Zpos (mantissa z) = z * 2 ^ (53 - Zdigits2 z)) as Hm.
  { unfold mantissa. rewrite Z2Pos.id; [done | nia]. }
  split; [done|]. rewrite Hm, Zdigits2_shift by lia. lia.
Qed.

(** Rounding the integer [z], written with [n] more zeros, gives the
    number that holds [z]: nothing is lost. *)
Lemma binary_round_int s z n p :
  0 < z < 9007199254740992 -> 0 <= n -> Zpos p = z * 2 ^ n ->
  binary_round prec emax s p (- n) = S754_finite s (mantissa z) (Zdigits2 z - 53).
Proof.
  intros Hz Hn Hp. pose proof (digits_small z Hz) as Hd.
  destruct (mantissa_spec z Hz) as [Hm Hm53].
  unfold binary_round. rewrite fexp_eq.
  change (Zpos (digits2_pos p)) with (Zdigits2 (Zpos p)).
  rewrite Hp, Zdigits2_shift by lia.
  replace (Zdigits2 z + n + - n) with (Zdigits2 z) by lia.
  assert (fexp64 (Zdigits2 z) = Zdigits2 z - 53) as -> by (unfold fexp64; lia).
  assert (fexp64 (Zdigits2 (Zpos (mantissa z)) + (Zdigits2 z - 53)) = Zdigits2 z - 53) as Hcanon.
  { rewrite Hm53. unfold fexp64. lia. }
  destruct (Z_le_gt_dec (Zdigits2 z - 53) (- n)) as [Hle|Hgt].
  - pose proof (shl_align_spec p (- n) (Zdigits2 z - 53)) as Hs.
    destruct (shl_align p (- n) (Zdigits2 z - 53)) as [mz ez].
    destruct Hs as (_ & _ & Hez & Hmz). specialize (Hez Hle). subst ez.
    assert (mz = mantissa z) as ->.
    { apply Pos2Z.inj. rewrite Hmz, Hm, Hp, <- Z.mul_assoc, <- Z.pow_add_r by lia.
      f_equal. f_equal. lia. }
    apply binary_round_aux_exact; [done | lia].
  - assert (shl_align p (- n) (Zdigits2 z - 53) = (p, - n)) as ->.
    { unfold shl_align. by destruct (Zdigits2 z - 53 - - n) eqn:E; [| |lia]. }
    unfold binary_round_aux.
    assert (shr_fexp prec emax (Zpos p) (- n) loc_Exact
            = ({| shr_m := Zpos (mantissa z); shr_r := false; shr_s := false |},
               Zdigits2 z - 53)) as ->.
    { unfold shr_fexp, shr. rewrite fexp_eq, Hp, Zdigits2_shift by lia.
      replace (Zdigits2 z + n + - n) with (Zdigits2 z) by lia.
      assert (fexp64 (Zdigits2 z) = Zdigits2 z - 53) as -> by (unfold fexp64; lia).
      destruct (Zdigits2 z - 53 - - n) as [|k|k] eqn:E; [lia| |lia].
      simpl shr_record_of_loc.
      replace (z * 2 ^ n) with (Zpos (mantissa z) * 2 ^ Zpos k).
      - rewrite iter_pos_shr_1_exact by lia. f_equal. lia.
      - rewrite Hm, <- Z.mul_assoc, <- Z.pow_add_r by lia. f_equal. f_equal. lia. }
    simpl loc_of_shr_record. simpl round_nearest_even. simpl shr_m at 1.
    assert (shr_fexp prec emax (Zpos (mantissa z)) (Zdigits2 z - 53) loc_Exact
            = ({| shr_m := Zpos (mantissa z); shr_r := false; shr_s := false |},
               Zdigits2 z - 53)) as ->.
    { unfold shr_fexp. rewrite fexp_eq, Hcanon, Z.sub_diag. reflexivity. }
    simpl. replace (Zdigits2 z - 53 <=? emax - prec) with true by (unfold emax, prec; lia).
    done.
Qed.

Lemma of_Z_pos z :
  0 < z < 9007199254740992 -> of_Z z = S754_finite false (mantissa z) (Zdigits2 z - 53).
Proof.
  intros Hz. destruct z as [|p|p]; [lia| |lia].
  unfold of_Z, binary_normalize. change 0 with (- 0).
  apply binary_round_int; [done | lia | simpl; lia].
Qed.

Lemma of_Z_neg z :
  0 < z < 9007199254740992 -> of_Z (- z) = S754_finite true (mantissa z) (Zdigits2 z - 53).
Proof.
  intros Hz. destruct z as [|p|p]; [lia| |lia].
  unfold of_Z, binary_normalize. simpl Z.opp. change 0 with (- 0).
  apply binary_round_int; [done | lia | simpl; lia].
Qed.

(** An integer written with [n] more zeros normalizes to its number. *)
Lemma binary_normalize_int z n :
  - 9007199254740992 < z < 9007199254740992 -> 0 <= n ->
  binary_normalize prec emax (z * 2 ^ n) (- n) false = of_Z z.
Proof.
  intros Hz Hn. pose proof (pow2_pos n Hn) as Hp.
  destruct (Z.lt_trichotomy z 0) as [Hneg|[->|Hpos]].
  - replace z with (- (- z)) at 2 by lia. rewrite of_Z_neg by lia.
    unfold binary_normalize. destruct (z * 2 ^ n) as [|q|q] eqn:E; [nia|nia|].
    rewrite (binary_round_int true (- z) n q); [done | lia | lia | lia].
  - done.
  - rewrite of_Z_pos by lia.
    unfold binary_normalize. destruct (z * 2 ^ n) as [|q|q] eqn:E; [nia| |nia].
    rewrite (binary_round_int false z n q); [done | lia | lia | lia].
Qed.

(** ** Sums and differences of integers *)

(** How the number of an integer enters a sum: aligned to an exponent
    that is not above its own, its mantissa is the integer with zeros
    added. *)
Lemma aligned_int z ez :
  0 < z < 9007199254740992 -> ez <= Zdigits2 z - 53 ->
  Zpos (fst (shl_align (mantissa z) (Zdigits2 z - 53) ez)) = z * 2 ^ (- ez).
Proof.
  intros Hz Hez. pose proof (digits_small z Hz) as Hd.
  destruct (mantissa_spec z Hz) as [Hm _].
  pose proof (shl_align_spec (mantissa z) (Zdigits2 z - 53) ez) as Hs.
  destruct (shl_align _ _ ez) as [m' e']. destruct Hs as (_ & _ & He & Hm').
  specialize (He Hez). subst e'. simpl. rewrite Hm', Hm, <- Z.mul_assoc, <- Z.pow_add_r by lia.
  f_equal. f_equal. lia.
Qed.

Lemma add_of_Z a b :
  0 < a < 9007199254740992 -> 0 < b < 9007199254740992 -> a + b < 9007199254740992 ->
  add (of_Z a) (of_Z b) = of_Z (a + b).
Proof.
  intros Ha Hb Hab. rewrite (of_Z_pos a Ha), (of_Z_pos b Hb).
  pose proof (digits_small a Ha). pose proof (digits_small b Hb).
  unfold add, SFadd. cbv zeta. simpl cond_Zopp.
  set (ez := Z.min (Zdigits2 a - 53) (Zdigits2 b - 53)).
  rewrite (aligned_int a ez Ha), (aligned_int b ez Hb) by (subst ez; lia).
  rewrite <- Z.mul_add_distr_r.
  pose proof (binary_normalize_int (a + b) (- ez)) as Hn.
  rewrite Z.opp_involutive in Hn. apply Hn; subst ez; lia.
Qed.

Lemma sub_of_Z a b :
  0 < a < 9007199254740992 -> 0 < b < 9007199254740992 ->
  sub (of_Z a) (of_Z b) = of_Z (a - b).
Proof.
  intros Ha Hb. rewrite (of_Z_pos a Ha), (of_Z_pos b Hb).
  pose proof (digits_small a Ha). pose proof (digits_small b Hb).
  unfold sub, SFsub. cbv zeta. simpl cond_Zopp.
  set (ez := Z.min (Zdigits2 a - 53) (Zdigits2 b - 53)).
  rewrite (aligned_int a ez Ha), (aligned_int b ez Hb) by (subst ez; lia).
  rewrite <- Z.mul_sub_distr_r.
  pose proof (binary_normalize_int (a - b) (- ez)) as Hn.
  rewrite Z.opp_involutive in Hn. apply Hn; subst ez; lia.
Qed.

(** One more win. *)
Lemma add_one k :
  0 <= k -> k + 1 < 9007199254740992 -> add (of_Z k) one = of_Z (k + 1).
Proof.
  intros Hk Hk1. destruct (Z.eq_dec k 0) as [->|Hnz]; [reflexivity|].
  change one with (of_Z 1). apply add_of_Z; lia.
Qed.

(** The sign of the number of an integer. *)
Lemma ltb_zero_of_Z z :
  - 9007199254740992 < z < 9007199254740992 -> ltb zero (of_Z z) = (0 <? z).
Proof.
  intros Hz. destruct (Z.lt_trichotomy z 0) as [Hneg|[->|Hpos]].
  - replace z with (- (- z)) at 1 by lia. rewrite of_Z_neg by lia.
    simpl. symmetry. apply Z.ltb_ge. lia.
  - reflexivity.
  - rewrite of_Z_pos by lia. simpl. symmetry. apply Z.ltb_lt. lia.
Qed.

(** The integer a number holds ([Math.trunc]). *)
Definition to_Z (x : jsnum) : Z :=
  match x with
  | S754_finite s m e =>
      cond_Zopp s (if 0 <=? e then Zpos m * 2 ^ e else Zpos m / 2 ^ (- e))
  | _ => 0
  end.

Lemma to_Z_of_Z z : - 9007199254740992 < z < 9007199254740992 -> to_Z (of_Z z) = z.
Proof.
  intros Hz.
  assert (forall a, 0 < a < 9007199254740992 ->
            (if 0 <=? Zdigits2 a - 53 then Zpos (mantissa a) * 2 ^ (Zdigits2 a - 53)
             else Zpos (mantissa a) / 2 ^ (- (Zdigits2 a - 53))) = a) as Hval.
  { intros a Ha. pose proof (digits_small a Ha) as Hd.
    destruct (mantissa_spec a Ha) as [Hm _]. rewrite Hm.
    destruct (Z.leb_spec 0 (Zdigits2 a - 53)).
    - replace (Zdigits2 a) with 53 by lia. simpl. lia.
    - replace (- (Zdigits2 a - 53)) with (53 - Zdigits2 a) by lia.
      apply Z.div_mul. pose proof (pow2_pos (53 - Zdigits2 a) ltac:(lia)). lia. }
  destruct (Z.lt_trichotomy z 0) as [Hneg|[->|Hpos]].
  - replace z with (- (- z)) at 1 by lia. rewrite of_Z_neg by lia.
    unfold to_Z. rewrite Hval by lia. simpl. lia.
  - reflexivity.
  - rewrite of_Z_pos by lia. unfold to_Z. rewrite Hval by lia. done.
Qed.

Lemma truthy_of_Z z : 0 < z < 9007199254740992 -> truthy (of_Z z) = true.
Proof. intros Hz. by rewrite of_Z_pos. Qed.

End CountFacts.


(* ===================================================================== *)
(** * Properties of the match layer *)
(* ===================================================================== *)

Module MatchFacts.
Import Num Match CountFacts.

(** ** The registry of games *)

Lemma games_lookup_set_eq gs gameId game :
  games_lookup (games_set gs gameId game) gameId = Some game.
Proof.
  induction gs as [|[k g] rest IH]; simpl.
  - by rewrite decide_True.
  - destruct (decide (k = gameId)) as [->|Hne]; simpl.
    + by rewrite decide_True.
    + by rewrite decide_False.
Qed.

Lemma games_lookup_set_ne gs gameId other game :
  other ≠ gameId -> games_lookup (games_set gs gameId game) other = games_lookup gs other.
Proof.
  intros Hne. induction gs as [|[k g] rest IH]; simpl.
  - by rewrite decide_False.
  - destruct (decide (k = gameId)) as [->|Hk]; simpl.
    + by rewrite !decide_False.
    + destruct (decide (k = other)); [done | apply IH].
Qed.

Lemma games_lookup_delete_eq gs gameId :
  games_lookup (games_delete gs gameId) gameId = None.
Proof.
  induction gs as [|[k g] rest IH]; simpl; [done|].
  destruct (decide (k = gameId)) as [->|Hne]; simpl; [done|].
  by rewrite decide_False.
Qed.

Lemma games_lookup_delete_ne gs gameId other :
  other ≠ gameId -> games_lookup (games_delete gs gameId) other = games_lookup gs other.
Proof.
  intros Hne. induction gs as [|[k g] rest IH]; simpl; [done|].
  destruct (decide (k = gameId)) as [->|Hk]; simpl.
  - by rewrite decide_False.
  - destruct (decide (k = other)); [done | apply IH].
Qed.

(** ** Teams and sides *)

(** A started battle as [selectTeam] sets it up: the two sides belong to
    the two players of [playerOrder], in that order. *)
Definition wf_battle (game : Game) (player1 player2 : Side) : Prop :=
  g_battleState game = Some (player1, player2)
  /\ g_playerOrder game = (sd_id player1, sd_id player2)
  /\ sd_id player1 ≠ sd_id player2.

Lemma side_team_set_team_member game sd index p team :
  side_team game sd = Some team ->
  side_team (set_team_member game sd index p) sd = Some (<[Z.to_nat index := p]> team).
Proof.
  unfold side_team, set_team_member. intros H.
  destruct (g_players game !! sd_id sd) as [pl|] eqn:Hpl; [|done].
  simpl in H. rewrite H. simpl. by rewrite lookup_insert_eq.
Qed.

Lemma side_team_set_team_member_ne game sd sd' index p :
  sd_id sd ≠ sd_id sd' ->
  side_team (set_team_member game sd index p) sd' = side_team game sd'.
Proof.
  unfold side_team, set_team_member. intros Hne.
  destruct (g_players game !! sd_id sd) as [pl|] eqn:Hpl; [|done].
  destruct (pl_team pl); [|done]. simpl. by rewrite lookup_insert_ne.
Qed.

Lemma players_set_team_member game sd index p id :
  is_Some (g_players (set_team_member game sd index p) !! id) <-> is_Some (g_players game !! id).
Proof.
  unfold set_team_member.
  destruct (g_players game !! sd_id sd) as [pl|] eqn:Hpl; [|done].
  destruct (pl_team pl); [|done]. simpl.
  destruct (decide (sd_id sd = id)) as [<-|Hne].
  - rewrite lookup_insert_eq, Hpl. split; eauto.
  - by rewrite lookup_insert_ne.
Qed.

Lemma team_at_Some team index p :
  team_at team index = Some p -> 0 <= index /\ team !! Z.to_nat index = Some p.
Proof.
  unfold team_at. destruct (index <? 0) eqn:E; [done|]. intros H. split; [lia | done].
Qed.

Lemma team_at_insert team index p q :
  team_at team index = Some p -> team_at (<[Z.to_nat index := q]> team) index = Some q.
Proof.
  intros H. destruct (team_at_Some _ _ _ H) as [Hi Hl].
  unfold team_at. replace (index <? 0) with false by lia.
  apply list_lookup_insert_eq. by eapply lookup_lt_Some.
Qed.

Lemma other_player_fst a b : a ≠ b -> other_player (a, b) a = Some b.
Proof.
  intros H. unfold other_player; simpl.
  rewrite decide_False by (intros ?; congruence). by rewrite decide_True.
Qed.

Lemma other_player_snd a b : a ≠ b -> other_player (a, b) b = Some a.
Proof. intros H. unfold other_player; simpl. by rewrite decide_True. Qed.

Lemma playerOrder_set_team_member game sd index p :
  g_playerOrder (set_team_member game sd index p) = g_playerOrder game.
Proof.
  unfold set_team_member. destruct (g_players game !! sd_id sd) as [pl|]; [|done].
  by destruct (pl_team pl).
Qed.

Lemma id_set_team_member game sd index p :
  g_id (set_team_member game sd index p) = g_id game.
Proof.
  unfold set_team_member. destruct (g_players game !! sd_id sd) as [pl|]; [|done].
  by destruct (pl_team pl).
Qed.

Lemma battleState_set_team_member game sd index p :
  g_battleState (set_team_member game sd index p) = g_battleState game.
Proof.
  unfold set_team_member. destruct (g_players game !! sd_id sd) as [pl|]; [|done].
  by destruct (pl_team pl).
Qed.

Lemma username_set_team_member game sd index p id :
  pl_username <$> g_players (set_team_member game sd index p) !! id
  = pl_username <$> g_players game !! id.
Proof.
  unfold set_team_member.
  destruct (g_players game !! sd_id sd) as [pl|] eqn:Hpl; [|done].
  destruct (pl_team pl); [|done]. simpl.
  destruct (decide (sd_id sd = id)) as [<-|Hne].
  - by rewrite lookup_insert_eq, Hpl.
  - by rewrite lookup_insert_ne.
Qed.

Lemma side_team_player game sd team :
  side_team game sd = Some team ->
  exists pl, g_players game !! sd_id sd = Some pl /\ pl_team pl = Some team.
Proof. unfold side_team. destruct (g_players game !! sd_id sd); [eauto | done]. Qed.

(** ** The acting side *)

(** [me] and [opp] are the two sides of the started battle; [meIsP1] tells
    which of them is [battleState.player1]. *)
Definition sides_of (game : Game) (meIsP1 : bool) (me opp : Side) : Prop :=
  wf_battle game (if meIsP1 then me else opp) (if meIsP1 then opp else me).

Lemma sides_of_ids game meIsP1 me opp : sides_of game meIsP1 me opp -> sd_id me ≠ sd_id opp.
Proof. intros (_ & _ & Hne). destruct meIsP1; congruence. Qed.

Lemma sides_of_battleState game meIsP1 me opp :
  sides_of game meIsP1 me opp ->
  g_battleState game = Some (if meIsP1 then (me, opp) else (opp, me)).
Proof. intros (H & _ & _). by destruct meIsP1. Qed.

Lemma sides_of_opponent game meIsP1 me opp :
  sides_of game meIsP1 me opp -> other_player (g_playerOrder game) (sd_id me) = Some (sd_id opp).
Proof.
  intros (_ & -> & Hne).
  destruct meIsP1; [by apply other_player_fst | by apply other_player_snd].
Qed.

Lemma sides_of_swap game meIsP1 me opp :
  sides_of game meIsP1 me opp -> sides_of game (negb meIsP1) opp me.
Proof. unfold sides_of. by destruct meIsP1. Qed.

(** What [performAction] does once it has found the game, the acting side
    and the two active creatures. *)
Lemma performAction_acting s gameId game meIsP1 me opp playerPokemon opponentPokemon action rnd :
  games_lookup (activeGames s) gameId = Some game ->
  sides_of game meIsP1 me opp ->
  g_turn game = Some (sd_id me) ->
  activePokemon game me = Some playerPokemon ->
  activePokemon game opp = Some opponentPokemon ->
  performAction s (sd_id me) gameId action rnd =
  if sd_mustSwitch me && negb (is_switch action) then s
  else
    match action with
    | Attack moveName =>
        attack s (sd_id me) gameId (set_log game []) meIsP1 me opp (Some (sd_id opp))
          playerPokemon opponentPokemon moveName rnd
    | Switch targetIndex =>
        switch s gameId (set_log game []) meIsP1 me opp (Some (sd_id opp))
          playerPokemon opponentPokemon targetIndex
    | OtherAction =>
        emit (store s gameId (set_log game [])) (sd_id me) (EvGameError "Unknown action type.")
    end.
Proof.
  intros Hgame Hsides Hturn Hmine Htheirs.
  unfold performAction. rewrite Hgame, (sides_of_battleState _ _ _ _ Hsides).
  rewrite (sides_of_opponent _ _ _ _ Hsides).
  pose proof (sides_of_ids _ _ _ _ Hsides) as Hne.
  destruct meIsP1; rewrite decide_False by (intros H; by apply H).
  - rewrite bool_decide_eq_true_2 by done. by rewrite Hmine, Htheirs.
  - rewrite bool_decide_eq_false_2 by congruence. by rewrite Hmine, Htheirs.
Qed.

(** ** Projections of the state changes *)

Lemma activeGames_leave_if_connected s sock room :
  activeGames (leave_if_connected s sock room) = activeGames s.
Proof. unfold leave_if_connected. by destruct (decide _). Qed.

Lemma detachedGames_leave_if_connected s sock room :
  detachedGames (leave_if_connected s sock room) = detachedGames s.
Proof. unfold leave_if_connected. by destruct (decide _). Qed.

Lemma leaderboard_leave_if_connected s sock room :
  leaderboard (leave_if_connected s sock room) = leaderboard s.
Proof. unfold leave_if_connected. by destruct (decide _). Qed.

Lemma outbox_leave_if_connected s sock room :
  outbox (leave_if_connected s sock room) = outbox s.
Proof. unfold leave_if_connected. by destruct (decide _). Qed.

(** ** The entry of the leaderboard that a win writes *)

Lemma won_other lb username other :
  other ≠ username -> won lb username !! other = lb !! other.
Proof.
  intros Hne. unfold won.
  destruct (lb !! username) as [[n|f k]|]; [| |repeat destruct (decide _)];
    try done; by rewrite lookup_insert_ne.
Qed.

(** A first win under a name that [Object.prototype] does not define. *)
Lemma won_first lb username :
  lb !! username = None -> inherited username = false ->
  won lb username = <[username := Wins one]> lb.
Proof.
  intros Hnone Hplain. unfold won. rewrite Hnone.
  unfold inherited in Hplain. apply bool_decide_eq_false in Hplain.
  apply not_elem_of_cons in Hplain as [Hproto Hfun].
  by rewrite !decide_False.
Qed.

(** A later win under a name that holds a count. *)
Lemma won_again lb username n :
  lb !! username = Some (Wins n) ->
  won lb username = <[username := Wins (add (if truthy n then n else zero) one)]> lb.
Proof. intros Hn. unfold won. by rewrite Hn. Qed.

(** A later win under a name that holds an integer count: the count grows
    by one. *)
Lemma won_count lb username k :
  lb !! username = Some (Wins (of_Z k)) -> 0 < k -> k + 1 < 9007199254740992 ->
  won lb username = <[username := Wins (of_Z (k + 1))]> lb.
Proof.
  intros Hk Hpos Hlt. rewrite (won_again _ _ _ Hk), truthy_of_Z by lia.
  by rewrite add_one by lia.
Qed.

(** A first win under the name of a function of [Object.prototype]: the
    entry is the text of the function followed by [1]. *)
Lemma won_function lb username :
  lb !! username = None -> username ∈ prototype_functions ->
  won lb username = <[username := Text (function_name username) 1]> lb.
Proof.
  intros Hnone Hin. unfold won. rewrite Hnone.
  rewrite decide_False.
  - by rewrite decide_True.
  - intros ->. revert Hin. apply (bool_decide_unpack _). by vm_compute.
Qed.

(** ** The end of a game *)

Section GameOver.
Context (s : Server) (sock gameId : string) (game : Game).
Context (winnerId opponentId : string) (winner loser : Player).
Hypothesis Hwinner : g_players game !! winnerId = Some winner.
Hypothesis Hloser : g_players game !! opponentId = Some loser.

Let final := push_log game (LogGameOver (pl_username winner) (pl_username loser)).
Let s' := game_over s sock gameId game winnerId (Some opponentId).

Lemma game_over_registry : games_lookup (activeGames s') gameId = None.
Proof.
  subst s'. unfold game_over. rewrite Hwinner; simpl. rewrite Hloser.
  rewrite !activeGames_leave_if_connected. simpl. apply games_lookup_delete_eq.
Qed.

Lemma game_over_object : captured_game s' gameId = Some final.
Proof.
  subst s'. unfold game_over. rewrite Hwinner; simpl. rewrite Hloser.
  unfold captured_game.
  rewrite !activeGames_leave_if_connected, !detachedGames_leave_if_connected. simpl.
  by rewrite games_lookup_delete_eq, !games_lookup_set_eq.
Qed.

Lemma game_over_leaderboard : leaderboard s' = won (leaderboard s) (pl_username winner).
Proof.
  subst s'. unfold game_over. rewrite Hwinner; simpl. rewrite Hloser.
  by rewrite !leaderboard_leave_if_connected.
Qed.

Lemma game_over_outbox :
  let snapshot := getSanitizedGameState (store s gameId final) gameId in
  outbox s' =
  outbox s
  ++ map (fun sock => (sock, EvGameStateUpdate snapshot)) (elements (room_members s gameId))
  ++ map (fun sock => (sock, EvGameOver winnerId snapshot)) (elements (room_members s gameId)).
Proof.
  subst s'. unfold game_over. rewrite Hwinner; simpl. rewrite Hloser.
  rewrite !outbox_leave_if_connected. simpl. by rewrite <- app_assoc.
Qed.

End GameOver.

(** ** An attack that makes the defender faint *)

(** The game object once the attack has been narrated and the defender's
    active creature has fainted. *)
Definition after_faint (game : Game) (me opp : Side) (playerPokemon opponentPokemon : Pokemon)
    (move : Move) (damage : jsnum) : Game :=
  push_log
    (set_team_member
       (push_log
          (push_log (set_log game [])
             (LogUsed (sd_username me) (pd_name (base playerPokemon)) (move_name move)))
          (LogEffect (sd_username opp) (pd_name (base opponentPokemon)) (move_power move) damage))
       opp (sd_activePokemonIndex opp) (set_hp opponentPokemon zero true))
    (LogFainted (sd_username opp) (pd_name (base opponentPokemon))).

(** The game object after the turn has passed to the side that must
    switch. *)
Definition after_forced_switch (game1 : Game) (meIsP1 : bool) (me opp : Side) : Game :=
  set_sides
    (push_log (set_turn game1 (Some (sd_id opp))) (LogMustSwitch (sd_username opp)))
    meIsP1 me (set_mustSwitch opp true).

Local Opaque Damage.calculateDamage Num.leb Num.sub.

Section Faint.
Context (s : Server) (gameId : string) (game : Game) (meIsP1 : bool) (me opp : Side).
Context (playerPokemon opponentPokemon : Pokemon) (team : list Pokemon).
Context (moveName : string) (move : Move) (rnd : jsnum).
Let damage :=
  Damage.calculateDamage (Some playerPokemon) (Some opponentPokemon) (Some move) rnd.
Let team' := <[Z.to_nat (sd_activePokemonIndex opp) := set_hp opponentPokemon zero true]> team.
Let game1 := after_faint game me opp playerPokemon opponentPokemon move damage.
Hypothesis Hgame : games_lookup (activeGames s) gameId = Some game.
Hypothesis Hsides : sides_of game meIsP1 me opp.
Hypothesis Hturn : g_turn game = Some (sd_id me).
Hypothesis Hfree : sd_mustSwitch me = false.
Hypothesis Hmine : activePokemon game me = Some playerPokemon.
Hypothesis Hteam : side_team game opp = Some team.
Hypothesis Htheirs : team_at team (sd_activePokemonIndex opp) = Some opponentPokemon.
Hypothesis Hstanding : fainted playerPokemon = false.
Hypothesis Hmove :
  List.find (fun m => bool_decide (move_name m = moveName)) (pd_moves (base playerPokemon))
  = Some move.
Hypothesis Hhp : leb (sub (currentHp opponentPokemon) damage) zero = true.

Lemma faint_active : activePokemon game opp = Some opponentPokemon.
Proof using Hteam Htheirs. unfold activePokemon. by rewrite Hteam. Qed.

Lemma faint_team : side_team game1 opp = Some team'.
Proof using Hteam.
  subst game1 team'. unfold after_faint.
  change (side_team (push_log ?g _) ?sd) with (side_team g sd).
  by apply side_team_set_team_member.
Qed.

Lemma faint_active' : activePokemon game1 opp = Some (set_hp opponentPokemon zero true).
Proof using Hteam Htheirs.
  unfold activePokemon. rewrite faint_team. subst team'. by eapply team_at_insert.
Qed.

Lemma faint_mine : activePokemon game1 me = Some playerPokemon.
Proof using Hsides Hmine.
  rewrite <- Hmine. unfold activePokemon. subst game1. unfold after_faint.
  change (side_team (push_log ?g _) ?sd) with (side_team g sd).
  rewrite side_team_set_team_member_ne; [done|].
  apply not_eq_sym. exact (sides_of_ids _ _ _ _ Hsides).
Qed.

Lemma faint_attack :
  performAction s (sd_id me) gameId (Attack moveName) rnd =
  if decide (length (filter (fun p => fainted p = false) team') = 0%nat) then
    game_over s (sd_id me) gameId game1 (sd_id me) (Some (sd_id opp))
  else
    turn_ended s gameId (set_turn game1 (Some (sd_id opp))) meIsP1 me
      (set_mustSwitch opp true) (Some (sd_id opp)) opponentPokemon.
Proof using All.
  rewrite (performAction_acting s gameId game meIsP1 me opp playerPokemon opponentPokemon
             _ _ Hgame Hsides Hturn Hmine faint_active).
  rewrite Hfree. simpl. unfold attack.
  rewrite Hmove, Hstanding. fold damage. rewrite Hhp.
  fold (after_faint game me opp playerPokemon opponentPokemon move damage). fold game1.
  by rewrite faint_team.
Qed.

(** The two players' records in the game after the faint. *)
Lemma faint_players :
  exists winner loser loser',
    g_players game !! sd_id me = Some winner
    /\ g_players game !! sd_id opp = Some loser
    /\ g_players game1 !! sd_id me = Some winner
    /\ g_players game1 !! sd_id opp = Some loser'
    /\ pl_username loser' = pl_username loser.
Proof using Hsides Hmine Hteam.
  destruct (side_team_player _ _ _ Hteam) as (loser & Hloser & Hlt).
  assert (exists winner, g_players game !! sd_id me = Some winner) as [winner Hwinner].
  { unfold activePokemon, side_team in Hmine. destruct (g_players game !! sd_id me); eauto.
    done. }
  pose proof (sides_of_ids _ _ _ _ Hsides) as Hne.
  exists winner, loser.
  subst game1. unfold after_faint, set_team_member. simpl. rewrite Hloser, Hlt. simpl.
  rewrite lookup_insert_eq, lookup_insert_ne by congruence. eauto 10.
Qed.

(** After the forced switch has been announced, the game is registered
    with the turn and the obligation on the defending side. *)
Lemma forced_switch_registry :
  let s' :=
    turn_ended s gameId (set_turn game1 (Some (sd_id opp))) meIsP1 me
      (set_mustSwitch opp true) (Some (sd_id opp)) opponentPokemon in
  games_lookup (activeGames s') gameId = Some (after_forced_switch game1 meIsP1 me opp).
Proof using Type.
  unfold turn_ended. simpl. by rewrite games_lookup_set_eq.
Qed.

End Faint.

Lemma captured_game_active s gameId game :
  games_lookup (activeGames s) gameId = Some game -> captured_game s gameId = Some game.
Proof. unfold captured_game. by intros ->. Qed.

(** A teammate that still stands keeps the team from being wiped out. *)
Lemma standing_teammate (team : list Pokemon) (i j : nat) (mate p : Pokemon) :
  team !! i = Some mate -> i ≠ j -> fainted mate = false ->
  length (filter (fun p => fainted p = false) (<[j := p]> team)) ≠ 0%nat.
Proof.
  intros Hi Hne Hmate Hlen.
  assert (mate ∈ filter (fun p => fainted p = false) (<[j := p]> team)) as Hin.
  { apply list_elem_of_filter. split; [done|].
    apply list_elem_of_lookup. exists i. by rewrite list_lookup_insert_ne. }
  destruct (filter _ _); [by apply elem_of_nil in Hin | done].
Qed.

(** With every teammate fainted, the faint of the active creature leaves
    nobody standing. *)
Lemma last_standing (team : list Pokemon) (j : nat) (p : Pokemon) :
  (forall i mate, team !! i = Some mate -> i ≠ j -> fainted mate = true) ->
  fainted p = true ->
  length (filter (fun p => fainted p = false) (<[j := p]> team)) = 0%nat.
Proof.
  intros Hall Hp.
  destruct (filter _ _) as [|q rest] eqn:Hf; [done|].
  assert (q ∈ filter (fun p => fainted p = false) (<[j := p]> team)) as Hin.
  { rewrite Hf. apply list_elem_of_here. }
  apply list_elem_of_filter in Hin as [Hq Hin].
  apply list_elem_of_lookup in Hin as [i Hi].
  destruct (decide (i = j)) as [->|Hne].
  - apply list_lookup_insert_Some in Hi as [(_ & <- & _)|(? & _)]; congruence.
  - rewrite list_lookup_insert_ne in Hi by done. rewrite (Hall _ _ Hi Hne) in Hq. done.
Qed.

(** C6.  An attack that brings the defending active creature's
    [currentHp] to 0 or below sets its [currentHp] to exactly 0 and its
    [fainted] flag.  If a teammate of the defender still stands, the match
    stays registered, the turn passes to the defending side, that side has
    [mustSwitch] set, and any attack it submits next is rejected and leaves
    the server's state as it is. *)
Theorem faint_forces_switch s gameId game meIsP1 me opp playerPokemon opponentPokemon
    team moveName move rnd :
  let damage :=
    Damage.calculateDamage (Some playerPokemon) (Some opponentPokemon) (Some move) rnd in
  let s' := performAction s (sd_id me) gameId (Attack moveName) rnd in
  games_lookup (activeGames s) gameId = Some game ->
  sides_of game meIsP1 me opp ->
  g_turn game = Some (sd_id me) ->
  sd_mustSwitch me = false ->
  activePokemon game me = Some playerPokemon ->
  side_team game opp = Some team ->
  team_at team (sd_activePokemonIndex opp) = Some opponentPokemon ->
  fainted playerPokemon = false ->
  List.find (fun m => bool_decide (move_name m = moveName)) (pd_moves (base playerPokemon))
  = Some move ->
  leb (sub (currentHp opponentPokemon) damage) zero = true ->
  (exists game',
      captured_game s' gameId = Some game'
      /\ activePokemon game' opp = Some (set_hp opponentPokemon zero true))
  /\ ((exists i mate,
          team !! i = Some mate /\ i ≠ Z.to_nat (sd_activePokemonIndex opp)
          /\ fainted mate = false) ->
      exists game',
        games_lookup (activeGames s') gameId = Some game'
        /\ g_turn game' = Some (sd_id opp)
        /\ g_battleState game'
           = Some (if meIsP1 then (me, set_mustSwitch opp true)
                   else (set_mustSwitch opp true, me))
        /\ forall moveName' rnd',
             performAction s' (sd_id opp) gameId (Attack moveName') rnd' = s').
Proof.
  intros damage s' Hgame Hsides Hturn Hfree Hmine Hteam Htheirs Hstanding Hmove Hhp.
  pose proof (faint_attack s gameId game meIsP1 me opp playerPokemon opponentPokemon team
                moveName move rnd Hgame Hsides Hturn Hfree Hmine Hteam Htheirs Hstanding
                Hmove Hhp) as Hrun.
  fold damage s' in Hrun.
  pose proof (faint_active' game me opp playerPokemon opponentPokemon team move rnd
                Hteam Htheirs) as Hact.
  pose proof (faint_mine game meIsP1 me opp playerPokemon opponentPokemon move rnd
                Hsides Hmine) as Hmine'.
  fold damage in Hact, Hmine'.
  set (game1 := after_faint game me opp playerPokemon opponentPokemon move damage) in *.
  pose proof (forced_switch_registry s gameId game meIsP1 me opp playerPokemon
                opponentPokemon move rnd) as Hreg.
  fold damage game1 in Hreg. cbv zeta in Hreg.
  split.
  - destruct (decide _) as [Hnone|Hsome] in Hrun.
    + destruct (faint_players game meIsP1 me opp playerPokemon opponentPokemon team move rnd
                  Hsides Hmine Hteam) as (winner & loser & loser' & _ & _ & Hw & Hl & _).
      fold damage game1 in Hw, Hl.
      eexists. split.
      * rewrite Hrun. by apply game_over_object.
      * exact Hact.
    + eexists. split.
      * rewrite Hrun. apply captured_game_active. exact Hreg.
      * exact Hact.
  - intros (i & mate & Hi & Hne & Hmate).
    rewrite decide_False in Hrun by (by eapply standing_teammate).
    rewrite <- Hrun in Hreg.
    exists (after_forced_switch game1 meIsP1 me opp). repeat split; try done.
    intros moveName' rnd'.
    rewrite (performAction_acting s' gameId (after_forced_switch game1 meIsP1 me opp)
               (negb meIsP1) (set_mustSwitch opp true) me
               (set_hp opponentPokemon zero true) playerPokemon); try done.
    destruct Hsides as (Hbs & Hord & Hne'). unfold sides_of, wf_battle.
    destruct meIsP1; simpl in *; repeat split; try done;
      by rewrite playerOrder_set_team_member.
Qed.

Lemma turn_set_team_member game sd index p :
  g_turn (set_team_member game sd index p) = g_turn game.
Proof.
  unfold set_team_member. destruct (g_players game !! sd_id sd) as [pl|]; [|done].
  by destruct (pl_team pl).
Qed.

Lemma log_set_team_member game sd index p :
  g_log (set_team_member game sd index p) = g_log game.
Proof.
  unfold set_team_member. destruct (g_players game !! sd_id sd) as [pl|]; [|done].
  by destruct (pl_team pl).
Qed.

(** What a snapshot shows of a side whose team and active creature are
    known. *)
Lemma sanitizePlayer_shown game sd team active :
  side_team game sd = Some team ->
  activePokemon game sd = Some active ->
  sanitizePlayer game sd
  = {| spl_id := sd_id sd; spl_username := sd_username sd;
       spl_team := map sanitizePokemon team;
       spl_activePokemon := Some (sanitizePokemon active, pd_moves (base active));
       spl_activePokemonIndex := sd_activePokemonIndex sd;
       spl_mustSwitch := sd_mustSwitch sd |}.
Proof. intros Hteam Hactive. unfold sanitizePlayer. by rewrite Hteam, Hactive. Qed.

(** What the last faint does, in every state and for every username
    (C7 itself is settled at a failing input, further down).  An attack
    that makes the opponent's last standing creature faint ends the
    match.  The match leaves the
    registry.  The leaderboard is the one that [won] computes for the
    attacker's username: no other entry changes; a name without an entry
    that [Object.prototype] does not define gets the count 1; an entry
    that holds a number [n] gets [(n || 0) + 1], so an integer count [k]
    with [k + 1] below [2^53] becomes [k + 1].  Every session in the
    match's room, so both players when both are in it, receives the final
    snapshot followed by a game-over notification that names the attacker
    as winner.  The snapshot is spelled out: the two sides in the order of
    the battle, the attacker's team as it was, the defender's team with
    the active creature at [currentHp] 0 and [fainted], the turn still
    with the attacker, and a narration of four lines that ends with the
    game-over line. *)
Theorem last_faint_ends_match s gameId game (meIsP1 : bool) (me opp : Side)
    (playerPokemon opponentPokemon : Pokemon) (myTeam team : list Pokemon) moveName
    (move : Move) rnd (winner loser : Player) :
  let damage :=
    Damage.calculateDamage (Some playerPokemon) (Some opponentPokemon) (Some move) rnd in
  let s' := performAction s (sd_id me) gameId (Attack moveName) rnd in
  let mine :=
    {| spl_id := sd_id me; spl_username := sd_username me;
       spl_team := map sanitizePokemon myTeam;
       spl_activePokemon := Some (sanitizePokemon playerPokemon, pd_moves (base playerPokemon));
       spl_activePokemonIndex := sd_activePokemonIndex me;
       spl_mustSwitch := false |} in
  let knockedOut :=
    {| sp_id := pd_id (base opponentPokemon); sp_name := pd_name (base opponentPokemon);
       sp_currentHp := zero; sp_maxHp := maxHp opponentPokemon; sp_fainted := true;
       sp_spriteUrl := pd_spriteUrl (base opponentPokemon);
       sp_abilityName := pd_abilityName (base opponentPokemon) |} in
  let theirs :=
    {| spl_id := sd_id opp; spl_username := sd_username opp;
       spl_team := <[Z.to_nat (sd_activePokemonIndex opp) := knockedOut]>
                     (map sanitizePokemon team);
       spl_activePokemon := Some (knockedOut, pd_moves (base opponentPokemon));
       spl_activePokemonIndex := sd_activePokemonIndex opp;
       spl_mustSwitch := sd_mustSwitch opp |} in
  let snapshot :=
    {| sn_gameId := g_id game;
       sn_player1 := Some (if meIsP1 then mine else theirs);
       sn_player2 := Some (if meIsP1 then theirs else mine);
       sn_turn := Some (sd_id me);
       sn_log :=
         [LogUsed (sd_username me) (pd_name (base playerPokemon)) (move_name move);
          LogEffect (sd_username opp) (pd_name (base opponentPokemon)) (move_power move) damage;
          LogFainted (sd_username opp) (pd_name (base opponentPokemon));
          LogGameOver (pl_username winner) (pl_username loser)] |} in
  games_lookup (activeGames s) gameId = Some game ->
  sides_of game meIsP1 me opp ->
  g_turn game = Some (sd_id me) ->
  sd_mustSwitch me = false ->
  side_team game me = Some myTeam ->
  activePokemon game me = Some playerPokemon ->
  side_team game opp = Some team ->
  team_at team (sd_activePokemonIndex opp) = Some opponentPokemon ->
  fainted playerPokemon = false ->
  List.find (fun m => bool_decide (move_name m = moveName)) (pd_moves (base playerPokemon))
  = Some move ->
  leb (sub (currentHp opponentPokemon) damage) zero = true ->
  (forall i mate,
      team !! i = Some mate -> i ≠ Z.to_nat (sd_activePokemonIndex opp) ->
      fainted mate = true) ->
  g_players game !! sd_id me = Some winner ->
  g_players game !! sd_id opp = Some loser ->
  sd_id me ∈ room_members s gameId ->
  sd_id opp ∈ room_members s gameId ->
  games_lookup (activeGames s') gameId = None
  /\ leaderboard s' = won (leaderboard s) (pl_username winner)
  /\ (forall other, other ≠ pl_username winner ->
        leaderboard s' !! other = leaderboard s !! other)
  /\ (leaderboard s !! pl_username winner = None ->
      inherited (pl_username winner) = false ->
      leaderboard s' !! pl_username winner = Some (Wins one))
  /\ (forall n, leaderboard s !! pl_username winner = Some (Wins n) ->
        leaderboard s' !! pl_username winner
        = Some (Wins (add (if truthy n then n else zero) one)))
  /\ (forall k, leaderboard s !! pl_username winner = Some (Wins (of_Z k)) ->
        0 < k -> k + 1 < 9007199254740992 ->
        leaderboard s' !! pl_username winner = Some (Wins (of_Z (k + 1))))
  /\ outbox s'
     = outbox s
       ++ map (fun sock => (sock, EvGameStateUpdate (Some snapshot)))
            (elements (room_members s gameId))
       ++ map (fun sock => (sock, EvGameOver (sd_id me) (Some snapshot)))
            (elements (room_members s gameId))
  /\ forall sock, sock = sd_id me \/ sock = sd_id opp ->
       (sock, EvGameStateUpdate (Some snapshot)) ∈ outbox s'
       /\ (sock, EvGameOver (sd_id me) (Some snapshot)) ∈ outbox s'.
Proof.
  intros damage s' mine knockedOut theirs snapshot
    Hgame Hsides Hturn Hfree HmyTeam Hmine Hteam Htheirs Hstanding Hmove Hhp Hlast
    Hwinner Hloser Hroom1 Hroom2.
  pose proof (faint_attack s gameId game meIsP1 me opp playerPokemon opponentPokemon team
                moveName move rnd Hgame Hsides Hturn Hfree Hmine Hteam Htheirs Hstanding
                Hmove Hhp) as Hrun.
  fold damage s' in Hrun.
  rewrite decide_True in Hrun by (by apply last_standing).
  destruct (faint_players game meIsP1 me opp playerPokemon opponentPokemon team move rnd
              Hsides Hmine Hteam) as (w & l & l' & Hw0 & Hl0 & Hw & Hl & Hname).
  fold damage in Hw, Hl.
  assert (w = winner) as -> by congruence. assert (l = loser) as -> by congruence.
  pose proof (faint_team game me opp playerPokemon opponentPokemon team move rnd Hteam)
    as Hteam1.
  pose proof (faint_active' game me opp playerPokemon opponentPokemon team move rnd
                Hteam Htheirs) as Hact1.
  pose proof (faint_mine game meIsP1 me opp playerPokemon opponentPokemon move rnd
                Hsides Hmine) as Hmine1.
  fold damage in Hteam1, Hact1, Hmine1.
  set (game1 := after_faint game me opp playerPokemon opponentPokemon move damage) in *.
  set (final := push_log game1 (LogGameOver (pl_username winner) (pl_username l'))).
  assert (side_team game1 me = Some myTeam) as HmyTeam1.
  { rewrite <- HmyTeam. subst game1. unfold after_faint.
    change (side_team (push_log ?g _) ?sd) with (side_team g sd).
    rewrite side_team_set_team_member_ne; [done|].
    apply not_eq_sym. exact (sides_of_ids _ _ _ _ Hsides). }
  assert (getSanitizedGameState (store s gameId final) gameId = Some snapshot) as Hsnap.
  { unfold getSanitizedGameState, store; simpl. rewrite games_lookup_set_eq.
    assert (g_battleState final = Some (if meIsP1 then (me, opp) else (opp, me))) as ->.
    { subst final game1. unfold after_faint. simpl.
      rewrite battleState_set_team_member. simpl.
      exact (sides_of_battleState _ _ _ _ Hsides). }
    assert (sanitizePlayer final me = mine) as Hsm.
    { rewrite (sanitizePlayer_shown final me myTeam playerPokemon); [|done..].
      subst mine. by rewrite Hfree. }
    assert (sanitizePlayer final opp = theirs) as Hso.
    { rewrite (sanitizePlayer_shown final opp _ _ Hteam1 Hact1).
      subst theirs knockedOut. unfold sanitizePokemon at 2 3. simpl.
      by rewrite list_fmap_insert. }
    subst snapshot. f_equal. f_equal.
    - subst final game1. unfold after_faint. simpl. by rewrite id_set_team_member.
    - destruct meIsP1; by rewrite ?Hsm, ?Hso.
    - destruct meIsP1; by rewrite ?Hsm, ?Hso.
    - subst final game1. unfold after_faint. simpl. by rewrite turn_set_team_member.
    - subst final game1. unfold after_faint. simpl.
      rewrite log_set_team_member. simpl. by rewrite Hname. }
  assert (outbox s'
          = outbox s
            ++ map (fun sock => (sock, EvGameStateUpdate (Some snapshot)))
                 (elements (room_members s gameId))
            ++ map (fun sock => (sock, EvGameOver (sd_id me) (Some snapshot)))
                 (elements (room_members s gameId))) as Hout.
  { rewrite Hrun, <- Hsnap. by erewrite game_over_outbox. }
  assert (leaderboard s' = won (leaderboard s) (pl_username winner)) as Hlb.
  { rewrite Hrun. by erewrite game_over_leaderboard. }
  split_and!.
  - rewrite Hrun. by eapply game_over_registry.
  - exact Hlb.
  - intros other Hother. rewrite Hlb. by apply won_other.
  - intros Hnone Hplain. rewrite Hlb, won_first by done. by rewrite lookup_insert_eq.
  - intros n Hn. rewrite Hlb, (won_again _ _ n) by done. by rewrite lookup_insert_eq.
  - intros k Hk Hpos Hlt. rewrite Hlb, (won_count _ _ k) by done. by rewrite lookup_insert_eq.
  - exact Hout.
  - intros sock Hsock.
    assert (sock ∈ elements (room_members s gameId)) as Hin.
    { apply elem_of_elements. by destruct Hsock as [->| ->]. }
    rewrite Hout. split.
    + apply elem_of_app. right. apply elem_of_app. left.
      apply (list_elem_of_fmap_2 (fun sock => (sock, EvGameStateUpdate (Some snapshot)))).
      exact Hin.
    + apply elem_of_app. right. apply elem_of_app. right.
      apply (list_elem_of_fmap_2 (fun sock => (sock, EvGameOver (sd_id me) (Some snapshot)))).
      exact Hin.
Qed.

(** ** Disconnection *)

(** What a disconnection does, in every state (C8 itself is settled at
    a failing input, further down).  The handler looks for the first
    registered match that lists the disconnected socket as a player.  When
    the other player of that match is still connected, that match leaves
    the registry at once, and every other match stays registered as it
    was, those of the disconnected socket included.  If the battle of the
    match had started, the leaderboard is the one that [won] computes for
    the remaining player's username (a name without an entry that
    [Object.prototype] does not define gets the count 1, an integer count
    [k] with [k + 1] below [2^53] becomes [k + 1], no other entry
    changes) and the remaining player is told that they win; if it had
    not, the leaderboard is left as it is and the remaining player is
    told that the match is cancelled. *)
Theorem disconnect_ends_match s sock gameId game opp :
  let s' := disconnect s sock in
  let disconnectedUsername := or_string (pl_username <$> g_players game !! sock) "Player" in
  let opponentUsername := or_string (pl_username <$> g_players game !! opp) "Opponent" in
  find_game (activeGames s) sock = Some gameId ->
  games_lookup (activeGames s) gameId = Some game ->
  other_player (g_playerOrder game) sock = Some opp ->
  opp ≠ "" -> opp ≠ sock -> is_Some (sockets s !! opp) ->
  games_lookup (activeGames s') gameId = None
  /\ (forall other, other ≠ gameId ->
        games_lookup (activeGames s') other = games_lookup (activeGames s) other)
  /\ (battle_started game = true ->
      leaderboard s' = won (leaderboard s) opponentUsername
      /\ (forall other, other ≠ opponentUsername ->
            leaderboard s' !! other = leaderboard s !! other)
      /\ (leaderboard s !! opponentUsername = None -> inherited opponentUsername = false ->
          leaderboard s' !! opponentUsername = Some (Wins one))
      /\ (forall k, leaderboard s !! opponentUsername = Some (Wins (of_Z k)) ->
            0 < k -> k + 1 < 9007199254740992 ->
            leaderboard s' !! opponentUsername = Some (Wins (of_Z (k + 1))))
      /\ outbox s' = outbox s ++ [(opp, EvOpponentDisconnected disconnectedUsername true)])
  /\ (battle_started game = false ->
      leaderboard s' = leaderboard s
      /\ outbox s' = outbox s ++ [(opp, EvOpponentDisconnected disconnectedUsername false)]).
Proof.
  intros s' disconnectedUsername opponentUsername Hfind Hgame Hopp Hne Hother Hconn.
  subst s'. unfold disconnect. cbv zeta.
  set (s0 := drop_socket s sock).
  set (s1 := if decide (waitingPlayer s0 = Some sock) then set_waitingPlayer s0 None else s0).
  assert (activeGames s1 = activeGames s) as Hg by (subst s1; by destruct (decide _)).
  assert (leaderboard s1 = leaderboard s) as Hl by (subst s1; by destruct (decide _)).
  assert (outbox s1 = outbox s) as Ho by (subst s1; by destruct (decide _)).
  assert (sockets s1 = delete sock (sockets s)) as Hs by (subst s1; by destruct (decide _)).
  clearbody s1. clear s0. rewrite Hg, Hfind, Hgame, Hopp.
  rewrite decide_True; last first.
  { split; [done|]. simpl. rewrite Hs. by rewrite lookup_delete_ne. }
  fold disconnectedUsername opponentUsername.
  destruct (battle_started game); simpl; rewrite Hg, Hl, Ho;
    (split; [apply games_lookup_delete_eq |
             split; [intros other Hother'; by apply games_lookup_delete_ne |]]).
  - split; [|done]. intros _. split_and!; try done.
    + intros other Hother'. by apply won_other.
    + intros Hnone Hplain. rewrite won_first by done. by rewrite lookup_insert_eq.
    + intros k Hk Hpos Hlt. rewrite (won_count _ _ k) by done. by rewrite lookup_insert_eq.
  - by split.
Qed.

(** ** The example match *)

Section ExampleMatch.
Import Example.

(** The first player's Mewtwo knocks out Magikarp while Shedinja and
    Diglett still stand: the second player has to switch, and cannot
    attack. *)
Lemma faint_forces_switch_witness :
  let s' := performAction battling "alice" "g1" (Attack "Psystrike") half in
  (exists game',
      captured_game s' "g1" = Some game'
      /\ (currentHp <$> activePokemon game' (bob 0)) = Some zero
      /\ (fainted <$> activePokemon game' (bob 0)) = Some true)
  /\ exists game',
        games_lookup (activeGames s') "g1" = Some game'
        /\ g_turn game' = Some "bob"
        /\ g_battleState game' = Some (alice, set_mustSwitch (bob 0) true)
        /\ forall moveName' rnd', performAction s' "bob" "g1" (Attack moveName') rnd' = s'.
Proof.
  intros s'.
  odestruct (faint_forces_switch battling "g1" _ true alice (bob 0) _ _ _ "Psystrike" _ half)
    as [H1 H2].
  - reflexivity.
  - split_and!; [reflexivity | reflexivity | discriminate].
  - reflexivity.
  - reflexivity.
  - reflexivity.
  - reflexivity.
  - reflexivity.
  - reflexivity.
  - reflexivity.
  - vm_compute; reflexivity.
  - split.
    + destruct H1 as (game' & Hg & Ha). exists game'. split; [exact Hg|].
      rewrite Ha. split; reflexivity.
    + apply H2. eexists 1%nat, _.
      split; [reflexivity|]. split; [vm_compute; discriminate | reflexivity].
Defined.

(** With Magikarp and Shedinja out, the attack on Diglett ends the match. *)
Lemma last_faint_ends_match_witness :
  let s' := performAction lastStand "alice" "g1" (Attack "Psystrike") half in
  is_Some (games_lookup (activeGames lastStand) "g1")
  /\ games_lookup (activeGames s') "g1" = None
  /\ leaderboard lastStand !! "Anon_alic" = None
  /\ leaderboard s' !! "Anon_alic" = Some (Wins one)
  /\ exists snapshot,
       last (sn_log snapshot) = Some (LogGameOver "Anon_alic" "Anon_bob")
       /\ (spl_username <$> sn_player1 snapshot) = Some "Anon_alic"
       /\ (map sp_name ∘ spl_team <$> sn_player2 snapshot)
          = Some ["Magikarp"; "Shedinja"; "Diglett"]
       /\ (map sp_currentHp ∘ spl_team <$> sn_player2 snapshot) = Some [zero; zero; zero]
       /\ (map sp_fainted ∘ spl_team <$> sn_player2 snapshot) = Some [true; true; true]
       /\ forall sock, sock = "alice" \/ sock = "bob" ->
            (sock, EvGameStateUpdate (Some snapshot)) ∈ outbox s'
            /\ (sock, EvGameOver "alice" (Some snapshot)) ∈ outbox s'.
Proof.
  intros s'.
  odestruct (last_faint_ends_match lastStand "g1" _ true alice (bob 2) _ _ _ _ "Psystrike" _ half)
    as (H1 & _ & _ & H2 & _ & _ & _ & H3).
  - reflexivity.
  - split_and!; [reflexivity | reflexivity | discriminate].
  - reflexivity.
  - reflexivity.
  - reflexivity.
  - reflexivity.
  - reflexivity.
  - reflexivity.
  - reflexivity.
  - reflexivity.
  - vm_compute; reflexivity.
  - intros [|[|[|i]]] mate Hi Hne; vm_compute in Hi, Hne; try congruence.
    all: injection Hi as <-; reflexivity.
  - reflexivity.
  - reflexivity.
  - apply (bool_decide_unpack _). vm_compute. exact I.
  - apply (bool_decide_unpack _). vm_compute. exact I.
  - split_and!.
    + eexists. reflexivity.
    + exact H1.
    + reflexivity.
    + apply H2; reflexivity.
    + eexists. split_and!; [| | | | |exact H3]; reflexivity.
Defined.

(** The first player leaves during the battle, and during the selection. *)
Lemma disconnect_ends_match_witness :
  (games_lookup (activeGames (disconnect battling "alice")) "g1" = None
   /\ leaderboard (disconnect battling "alice") !! "Anon_bob" = Some (Wins one)
   /\ outbox (disconnect battling "alice")
      = outbox battling ++ [("bob", EvOpponentDisconnected "Anon_alic" true)])
  /\ (games_lookup (activeGames (disconnect selecting "alice")) "g1" = None
      /\ leaderboard (disconnect selecting "alice") = ∅
      /\ outbox (disconnect selecting "alice")
         = outbox selecting ++ [("bob", EvOpponentDisconnected "Anon_alic" false)]).
Proof.
  split.
  - odestruct (disconnect_ends_match battling "alice" "g1" _ "bob") as (H1 & _ & H2 & _).
    + reflexivity.
    + reflexivity.
    + reflexivity.
    + discriminate.
    + discriminate.
    + eexists. reflexivity.
    + destruct H2 as (_ & _ & H2 & _ & H3); [reflexivity|].
      split; [exact H1|]. split; [apply H2; reflexivity | exact H3].
  - odestruct (disconnect_ends_match selecting "alice" "g1" _ "bob") as (H1 & _ & _ & H2).
    + reflexivity.
    + reflexivity.
    + reflexivity.
    + discriminate.
    + discriminate.
    + eexists. reflexivity.
    + destruct H2 as [H2 H3]; [reflexivity|].
      split; [exact H1|]. split; [rewrite H2; reflexivity | exact H3].
Defined.

(** C7 at a failing input.  The first player has set her username to
    [constructor]; the leaderboard is empty and her attack makes the last
    standing creature of the second player faint.  The match leaves the
    registry, but the leaderboard does not get a count for her: the read
    [leaderboard[winnerUsername]] finds the function [Object] that every
    object inherits, [(... || 0) + 1] appends [1] to the text of that
    function, and the entry stored under her name is that string; a
    second win appends another [1].  A winner named [__proto__] gets no
    entry at all. *)
Lemma last_faint_stores_text :
  let s' := performAction Scenario.crowned "alice" "g1" (Attack "Psystrike") half in
  sockets Scenario.crowned !! "alice" = Some "constructor"
  /\ leaderboard Scenario.crowned = ∅
  /\ is_Some (games_lookup (activeGames Scenario.crowned) "g1")
  /\ games_lookup (activeGames s') "g1" = None
  /\ (exists sock snapshot,
        last (outbox s') = Some (sock, EvGameOver "alice" (Some snapshot))
        /\ last (sn_log snapshot) = Some (LogGameOver "constructor" "Anon_bob"))
  /\ leaderboard s' = {[ "constructor" := Text "Object" 1 ]}
  /\ (score_value <$> leaderboard s' !! "constructor")
     = Some (JStr "function Object() { [native code] }1")
  /\ (score_value <$> won (leaderboard s') "constructor" !! "constructor")
     = Some (JStr "function Object() { [native code] }11")
  /\ won (leaderboard Scenario.crowned) "__proto__" = ∅.
Proof.
  intros s'. split_and!; try (vm_compute; reflexivity).
  - eexists; reflexivity.
  - do 2 eexists. split; vm_compute; reflexivity.
Qed.

(** C8 at a failing input.  The first player has asked for a match twice
    and is a player of two registered matches: [g1] against the second
    player, still at the selection, and [g2] against a third one, whose
    battle has started.  When she disconnects, the handler ends the first
    match it finds, [g1]: the second player is told that the match is
    cancelled.  The match [g2] stays registered with its battle running
    and the turn with the disconnected player, the third player is told
    nothing and is awarded no win. *)
Lemma disconnect_leaves_second_match :
  let s' := disconnect Scenario.twoMatches "alice" in
  (exists game1 game2,
      games_lookup (activeGames Scenario.twoMatches) "g1" = Some game1
      /\ is_Some (g_players game1 !! "alice") /\ battle_started game1 = false
      /\ games_lookup (activeGames Scenario.twoMatches) "g2" = Some game2
      /\ is_Some (g_players game2 !! "alice") /\ is_Some (g_players game2 !! "carol")
      /\ battle_started game2 = true
      /\ games_lookup (activeGames s') "g2" = Some game2
      /\ g_turn game2 = Some "alice")
  /\ is_Some (sockets Scenario.twoMatches !! "carol")
  /\ sockets s' !! "alice" = None
  /\ games_lookup (activeGames s') "g1" = None
  /\ leaderboard s' = ∅
  /\ outbox s' = outbox Scenario.twoMatches ++ [("bob", EvOpponentDisconnected "Anon_alic" false)].
Proof.
  intros s'. split_and!; try (vm_compute; reflexivity).
  - do 2 eexists. split_and!; try reflexivity; eexists; reflexivity.
  - eexists; reflexivity.
Qed.

(** C3 at a failing input.  The first player's team is Mewtwo, Mewtwo,
    Charmander; the first Mewtwo is active and it is her turn.  The switch
    to index 1 names a creature that is in range, has not fainted and is
    not the active one, yet the action is rejected: the game is stored
    back with only its log reset, the turn and the active creature are as
    before, because the test compares the species [id] of the target with
    that of the active creature. *)
Lemma switch_rejects_same_species :
  let s' := performAction battling "alice" "g1" (Switch 1) half in
  exists game team active target,
    games_lookup (activeGames battling) "g1" = Some game
    /\ g_turn game = Some "alice"
    /\ g_battleState game = Some (alice, bob 0)
    /\ side_team game alice = Some team
    /\ length team = 3%nat
    /\ team_at team 0 = Some active
    /\ team_at team 1 = Some target
    /\ fainted target = false
    /\ pd_id (base target) = pd_id (base active)
    /\ s' = store battling "g1" (set_log game []).
Proof.
  intros s'. do 4 eexists. split_and!; reflexivity.
Qed.

End ExampleMatch.

End MatchFacts.

(* ===================================================================== *)
(** * Properties of the object store *)
(* ===================================================================== *)

Module HeapFacts.
Import Heap.
Local Open Scope nat_scope.

Lemma lookup_alloc h c l :
  (alloc h c).1 !! l = if decide (l = length h) then Some c else h !! l.
Proof.
  unfold alloc; simpl. destruct (decide (l = length h)) as [->|Hne].
  - by rewrite lookup_app_r, Nat.sub_diag by lia.
  - destruct (decide (l < length h)).
    + by rewrite lookup_app_l.
    + rewrite !lookup_ge_None_2; [done | lia | rewrite length_app; simpl; lia].
Qed.

(** *** Reading *)

(** A read depends only on the objects it goes through. *)
Lemma read_moves_agree h h' ls :
  Forall (fun l => h' !! l = h !! l) ls -> read_moves h' ls = read_moves h ls.
Proof.
  induction 1 as [|l ls Hl _ IH]; simpl; [done|].
  unfold read_move. by rewrite Hl, IH.
Qed.

Lemma read_moves_length h ls ms : read_moves h ls = Some ms -> length ms = length ls.
Proof.
  revert ms. induction ls as [|l ls IH]; intros ms; simpl.
  - by intros [= <-].
  - destruct (read_move h l); [|done]. destruct (read_moves h ls); [|done].
    intros [= <-]. simpl. f_equal. by apply IH.
Qed.

Lemma read_moves_Some h ls :
  Forall (fun l => exists m, h !! l = Some (CMove m)) ls -> is_Some (read_moves h ls).
Proof.
  induction 1 as [|l ls [m Hm] _ [ms IH]]; simpl; [by eexists|].
  unfold read_move. rewrite Hm, IH. by eexists.
Qed.

Lemma read_moves_inv h ls ms :
  read_moves h ls = Some ms -> Forall (fun l => exists m, h !! l = Some (CMove m)) ls.
Proof.
  revert ms. induction ls as [|l ls IH]; intros ms; simpl; [by constructor|].
  unfold read_move. destruct (h !! l) as [[m| |]|] eqn:Hl; try done.
  destruct (read_moves h ls) as [ms'|]; [|done]. intros _.
  constructor; [by eexists | by eapply IH].
Qed.

(** More objects in the store change no read. *)
Lemma read_moves_app h new ls ms :
  read_moves h ls = Some ms -> read_moves (h ++ new) ls = Some ms.
Proof.
  intros H. rewrite <- H. apply read_moves_agree.
  eapply Forall_impl; [by eapply read_moves_inv|].
  intros l [m Hm]; simpl. rewrite Hm. by apply lookup_app_l_Some.
Qed.

(** The moves just added to the store. *)
Lemma read_moves_new h ms new :
  read_moves (h ++ map CMove ms ++ new) (seq (length h) (length ms)) = Some ms.
Proof.
  revert h. induction ms as [|m ms IH]; intros h; simpl; [done|].
  unfold read_move. rewrite lookup_app_r, Nat.sub_diag by lia. simpl.
  specialize (IH (h ++ [CMove m])). rewrite <- app_assoc in IH. simpl in IH.
  rewrite length_app in IH. simpl in IH. rewrite Nat.add_1_r in IH. by rewrite IH.
Qed.

(** *** Copies *)

Lemma clone_moves_read h ls ms :
  read_moves h ls = Some ms ->
  clone_moves h ls = Some (h ++ map CMove ms, seq (length h) (length ms)).
Proof.
  revert h ms. induction ls as [|l ls IH]; intros h ms; simpl.
  - intros [= <-]. simpl. by rewrite app_nil_r.
  - unfold clone_move, read_move. destruct (h !! l) as [[m| |]|] eqn:Hl; try done.
    destruct (read_moves h ls) as [ms'|] eqn:Hr; [|done]. intros [= <-].
    unfold alloc. rewrite (IH (h ++ [CMove m]) ms') by by apply read_moves_app.
    simpl. rewrite <- app_assoc, length_app. simpl. by rewrite Nat.add_1_r.
Qed.

(** The objects a copy of an array of moves, and of a creature, adds. *)
Definition array_copy (h : heap) (ms : list Move) : list cell :=
  map CMove ms ++ [CArray (seq (length h) (length ms))].

Definition pokemon_copy (h : heap) (d : PokemonOf loc) (ms : list Move) : list cell :=
  array_copy h ms ++ [CPokemon (with_moves d (length h + length ms))].

Lemma clone_array_read h l elems ms :
  h !! l = Some (CArray elems) -> read_moves h elems = Some ms ->
  clone_array h l = Some (h ++ array_copy h ms, length h + length ms).
Proof.
  intros Hl Hr. unfold clone_array. rewrite Hl, (clone_moves_read _ _ _ Hr).
  unfold alloc, array_copy. by rewrite length_app, length_map, <- app_assoc.
Qed.

Lemma clone_pokemon_read h l d ms :
  h !! l = Some (CPokemon d) -> read_array h (pd_moves d) = Some ms ->
  clone_pokemon h l = Some (h ++ pokemon_copy h d ms, length h + length ms + 1).
Proof.
  intros Hl Hr. unfold clone_pokemon. rewrite Hl. unfold read_array in Hr.
  destruct (h !! pd_moves d) as [[|elems|]|] eqn:Ha; try done.
  rewrite (clone_array_read _ _ _ _ Ha Hr). unfold alloc, pokemon_copy.
  rewrite length_app. unfold array_copy at 2. rewrite length_app, length_map. simpl.
  by rewrite <- app_assoc, Nat.add_assoc.
Qed.

Lemma read_array_copy h ms new :
  read_array (h ++ array_copy h ms ++ new) (length h + length ms) = Some ms.
Proof.
  unfold read_array, array_copy.
  rewrite lookup_app_r by lia. rewrite <- app_assoc. rewrite lookup_app_r by (rewrite length_map; lia).
  rewrite length_map. replace (length h + length ms - length h - length ms) with 0 by lia.
  simpl. apply read_moves_new.
Qed.

Lemma read_pokemon_copy h d ms :
  read_pokemon (h ++ pokemon_copy h d ms) (length h + length ms + 1) = Some (with_moves d ms).
Proof.
  unfold read_pokemon, pokemon_copy.
  rewrite lookup_app_r by lia.
  rewrite lookup_app_r by (unfold array_copy; rewrite length_app, length_map; simpl; lia).
  unfold array_copy at 1. rewrite length_app, length_map. simpl.
  replace (length h + length ms + 1 - length h - (length ms + 1)) with 0 by lia. simpl.
  by rewrite read_array_copy.
Qed.

Lemma length_pokemon_copy h d ms : length (pokemon_copy h d ms) = length ms + 2.
Proof. unfold pokemon_copy, array_copy. rewrite !length_app, length_map. simpl. lia. Qed.

End HeapFacts.

(* ===================================================================== *)
(** * Properties of the fetch layer *)
(* ===================================================================== *)

Module FetchFacts.
Import Num Heap Fetch HeapFacts.
Local Open Scope nat_scope.

(** ** The invariant of the fetch layer *)

(** The async function [t] is suspended in slot [tid]. *)
Definition live (s : State) (tid : nat) (t : task) : Prop := tasks s !! tid = Some (Some t).

(** The promise an async function settles when it resumes: the producer
    settles the promise it stored in the pending map, a call settles the
    promise it returned. *)
Definition target (t : task) : nat :=
  match t with
  | MoveFetch _ p => p
  | MoveAwait _ _ ret _ => ret
  | PokemonFetch _ p => p
  | PokemonMoves _ p _ _ => p
  | PokemonAwait _ _ ret => ret
  end.

(** [t] is the producer of [getPokemonDetails] for [identifier]. *)
Definition pokemon_producer (t : task) (identifier : string) (p : nat) : Prop :=
  t = PokemonFetch identifier p \/ exists data ps, t = PokemonMoves identifier p data ps.

(** Objects that belong to the layer: a move, and a creature with its
    array of moves, none of which has escaped. *)
Definition good_move (s : State) (l : loc) : Prop :=
  (l ∉ escaped s) /\ exists m, store s !! l = Some (CMove m).

Definition good_pokemon (s : State) (l : loc) : Prop :=
  (l ∉ escaped s)
  /\ exists d elems,
       store s !! l = Some (CPokemon d)
       /\ (pd_moves d ∉ escaped s)
       /\ store s !! pd_moves d = Some (CArray elems)
       /\ Forall (good_move s) elems.

(** The promise a call awaits: pending with its producer still at work, or
    settled with an object of the layer (a creature's producer may also
    have failed). *)
Definition move_source (s : State) (moveName : string) (p : nat) : Prop :=
  (promises s !! p = Some Pending /\ exists tid, live s tid (MoveFetch moveName p))
  \/ exists l, promises s !! p = Some (Fulfilled (Some l)) /\ good_move s l.

Definition pokemon_source (s : State) (identifier : string) (p : nat) : Prop :=
  (promises s !! p = Some Pending
   /\ exists tid t, live s tid t /\ pokemon_producer t identifier p)
  \/ (exists l, promises s !! p = Some (Fulfilled (Some l)) /\ good_pokemon s l)
  \/ promises s !! p = Some Rejected.

(** A promise of [moveDetailPromises]: pending with the call of
    [getMoveDetails] that returned it still suspended, or fulfilled with a
    move of the layer. *)
Definition move_result (s : State) (pid : nat) : Prop :=
  (promises s !! pid = Some Pending
   /\ exists tid moveName p, live s tid (MoveAwait moveName p pid Internal))
  \/ exists l, promises s !! pid = Some (Fulfilled (Some l)) /\ good_move s l.

Definition task_ok (s : State) (t : task) : Prop :=
  match t with
  | MoveFetch _ _ | PokemonFetch _ _ => True
  | MoveAwait moveName p _ _ => move_source s moveName p
  | PokemonMoves _ _ _ moveDetailPromises => Forall (move_result s) moveDetailPromises
  | PokemonAwait identifier p _ => pokemon_source s identifier p
  end.

Record Inv (s : State) : Prop := {
  (** what has escaped exists *)
  inv_escaped : forall l, l ∈ escaped s -> l < length (store s);
  (** a suspended function's own promise is pending, and only its own *)
  inv_pending : forall tid t, live s tid t -> promises s !! target t = Some Pending;
  inv_distinct :
    forall tid1 tid2 t1 t2,
      live s tid1 t1 -> live s tid2 t2 -> target t1 = target t2 -> tid1 = tid2;
  (** the pending maps list the producers at work *)
  inv_moveFetch :
    forall moveName p,
      moveFetchPromises s !! moveName = Some p <-> exists tid, live s tid (MoveFetch moveName p);
  inv_pokemonFetch :
    forall identifier p,
      pokemonFetchPromises s !! identifier = Some p
      <-> exists tid t, live s tid t /\ pokemon_producer t identifier p;
  (** a key with a producer at work is not cached *)
  inv_move_uncached :
    forall moveName p,
      moveFetchPromises s !! moveName = Some p -> moveDataCache s !! moveName = None;
  inv_pokemon_uncached :
    forall identifier p,
      pokemonFetchPromises s !! identifier = Some p -> pokemonDataCache s !! identifier = None;
  (** the caches hold objects of the layer *)
  inv_moveDataCache : forall moveName l, moveDataCache s !! moveName = Some l -> good_move s l;
  inv_pokemonDataCache :
    forall identifier l, pokemonDataCache s !! identifier = Some l -> good_pokemon s l;
  (** what the suspended functions wait for *)
  inv_tasks : forall tid t, live s tid t -> task_ok s t
}.

(** *** How the store evolves *)

(** From [s] to [s']: the objects of the layer stay as they are and stay
    the layer's. *)
Record heap_ext (s s' : State) : Prop := {
  ext_length : length (store s) <= length (store s');
  ext_store :
    forall l, l < length (store s) -> l ∉ escaped s -> store s' !! l = store s !! l;
  ext_escaped : forall l, l < length (store s) -> l ∈ escaped s' -> l ∈ escaped s
}.

Lemma heap_ext_refl s s' : store s' = store s -> escaped s' = escaped s -> heap_ext s s'.
Proof. intros Hs He. split; rewrite ?Hs, ?He; auto. Qed.

Lemma heap_ext_hand_over s s' o new :
  (forall l, l ∈ escaped s -> l < length (store s)) ->
  store s' = store (hand_over s o (store s ++ new)) ->
  escaped s' = escaped (hand_over s o (store s ++ new)) ->
  heap_ext s s'.
Proof.
  intros Hesc Hs He. split; rewrite ?Hs, ?He.
  - destruct o; simpl; rewrite length_app; lia.
  - intros l Hl _. destruct o; simpl; by rewrite lookup_app_l.
  - intros l Hl. destruct o; simpl; [|done].
    rewrite elem_of_union, elem_of_set_seq. intros [?|?]; [done|lia].
Qed.

Lemma good_move_ext s s' l : heap_ext s s' -> good_move s l -> good_move s' l.
Proof.
  intros [_ Hs He] [Hl [m Hm]].
  assert (l < length (store s)) by (by eapply lookup_lt_Some).
  split; [intros ?; apply Hl; auto|]. exists m. by rewrite Hs.
Qed.

Lemma good_pokemon_ext s s' l : heap_ext s s' -> good_pokemon s l -> good_pokemon s' l.
Proof.
  intros Hext (Hl & d & elems & Hd & Ha & He & Hms). pose proof Hext as [_ Hs Hesc].
  assert (l < length (store s)) by (by eapply lookup_lt_Some).
  assert (pd_moves d < length (store s)) by (by eapply lookup_lt_Some).
  split; [intros ?; apply Hl; auto|]. exists d, elems. split_and!.
  - by rewrite Hs.
  - intros ?; apply Ha; auto.
  - by rewrite Hs.
  - eapply Forall_impl; [exact Hms|]. intros q. by apply good_move_ext.
Qed.

(** What a read of an object of the layer gives does not change. *)
Lemma read_move_ext s s' l :
  heap_ext s s' -> good_move s l -> read_move (store s') l = read_move (store s) l.
Proof.
  intros [_ Hs _] [Hl [m Hm]]. unfold read_move.
  rewrite Hs; [done | by eapply lookup_lt_Some | done].
Qed.

Lemma read_pokemon_ext s s' l :
  heap_ext s s' -> good_pokemon s l -> read_pokemon (store s') l = read_pokemon (store s) l.
Proof.
  intros Hext (Hl & d & elems & Hd & Ha & He & Hms). pose proof Hext as [_ Hs _].
  unfold read_pokemon, read_array.
  rewrite (Hs l), Hd by (by eauto using lookup_lt_Some).
  rewrite (Hs (pd_moves d)), He by (by eauto using lookup_lt_Some).
  rewrite (read_moves_agree (store s) (store s') elems); [done|].
  eapply Forall_impl; [exact Hms|]. intros q [Hq [m Hm]]; simpl.
  apply Hs; [by eapply lookup_lt_Some | done].
Qed.

Lemma good_move_read s l : good_move s l -> is_Some (read_move (store s) l).
Proof. intros [_ [m Hm]]. unfold read_move. rewrite Hm. by eexists. Qed.

Lemma good_pokemon_read s l : good_pokemon s l -> is_Some (read_pokemon (store s) l).
Proof.
  intros (_ & d & elems & Hd & _ & He & Hms). unfold read_pokemon, read_array.
  rewrite Hd, He.
  destruct (read_moves_Some (store s) elems) as [ms Hr].
  { eapply Forall_impl; [exact Hms|]. by intros q [_ ?]. }
  rewrite Hr. by eexists.
Qed.


(** *** Steps that only add promises, suspended functions and objects *)

Record grows (s s' : State) : Prop := {
  grows_heap : heap_ext s s';
  grows_promises : exists new, promises s' = promises s ++ new;
  grows_tasks : exists new, tasks s' = tasks s ++ new
}.

Lemma grows_live s s' tid t : grows s s' -> live s tid t -> live s' tid t.
Proof.
  intros Hext H. destruct (grows_tasks _ _ Hext) as [new Ht].
  unfold live. rewrite Ht. by apply lookup_app_l_Some.
Qed.

Lemma grows_promise s s' q v : grows s s' -> promises s !! q = Some v -> promises s' !! q = Some v.
Proof.
  intros Hext H. destruct (grows_promises _ _ Hext) as [new Hp].
  rewrite Hp. by apply lookup_app_l_Some.
Qed.

Lemma move_source_grows s s' moveName p :
  grows s s' -> move_source s moveName p -> move_source s' moveName p.
Proof.
  intros Hext [[Hp [tid Ht]] | [l [Hp Hl]]]; [left | right].
  - split; [by eapply grows_promise | exists tid; by eapply grows_live].
  - exists l. split; [by eapply grows_promise | eapply good_move_ext; [apply (grows_heap _ _ Hext) | done]].
Qed.

Lemma pokemon_source_grows s s' identifier p :
  grows s s' -> pokemon_source s identifier p -> pokemon_source s' identifier p.
Proof.
  intros Hext [[Hp (tid & t & Ht & Hprod)] | [[l [Hp Hl]] | Hp]].
  - left. split; [by eapply grows_promise|]. exists tid, t. split; [by eapply grows_live | done].
  - right; left. exists l.
    split; [by eapply grows_promise | eapply good_pokemon_ext; [apply (grows_heap _ _ Hext) | done]].
  - right; right. by eapply grows_promise.
Qed.

Lemma move_result_grows s s' pid :
  grows s s' -> move_result s pid -> move_result s' pid.
Proof.
  intros Hext [[Hp (tid & moveName & p & Ht)] | [l [Hp Hl]]]; [left | right].
  - split; [by eapply grows_promise|]. exists tid, moveName, p. by eapply grows_live.
  - exists l. split; [by eapply grows_promise | eapply good_move_ext; [apply (grows_heap _ _ Hext) | done]].
Qed.

Lemma task_ok_grows s s' t : grows s s' -> task_ok s t -> task_ok s' t.
Proof.
  intros Hext. destruct t; simpl; [done | | done | |].
  - by apply move_source_grows.
  - intros H. eapply Forall_impl; [exact H|]. intros pid. by apply move_result_grows.
  - by apply pokemon_source_grows.
Qed.

(** The invariant after such a step: the new suspended functions [new]
    wait on promises the step made, one each. *)
Lemma Inv_extend s s' newp (new : list task) :
  Inv s ->
  heap_ext s s' ->
  (forall l, l ∈ escaped s' -> l < length (store s')) ->
  promises s' = promises s ++ newp ->
  tasks s' = tasks s ++ map Some new ->
  NoDup (map target new) ->
  (forall t, t ∈ new ->
     length (promises s) <= target t /\ promises s' !! target t = Some Pending /\ task_ok s' t) ->
  (forall moveName p,
     moveFetchPromises s' !! moveName = Some p
     <-> moveFetchPromises s !! moveName = Some p \/ MoveFetch moveName p ∈ new) ->
  (forall identifier p,
     pokemonFetchPromises s' !! identifier = Some p
     <-> pokemonFetchPromises s !! identifier = Some p
         \/ exists t, t ∈ new /\ pokemon_producer t identifier p) ->
  (forall moveName p, MoveFetch moveName p ∈ new -> moveDataCache s !! moveName = None) ->
  (forall identifier p t,
     t ∈ new -> pokemon_producer t identifier p -> pokemonDataCache s !! identifier = None) ->
  moveDataCache s' = moveDataCache s ->
  pokemonDataCache s' = pokemonDataCache s ->
  Inv s'.
Proof.
  intros HI Hheap Hesc Hp Ht Hnodup Hnew Hmf Hpf Hmu Hpu Hmc Hpc.
  assert (grows s s') as Hext by (split; eauto).
  assert (forall tid t, live s' tid t ->
            live s tid t \/ (length (tasks s) <= tid /\ new !! (tid - length (tasks s)) = Some t))
    as Hlive.
  { intros tid t H. unfold live in H. rewrite Ht in H.
    apply lookup_app_Some in H as [H | [Hlen H]]; [by left | right].
    split; [done|]. rewrite list_lookup_fmap in H.
    destruct (new !! _); simpl in H; congruence. }
  assert (forall t, t ∈ new -> exists tid, live s' tid t) as Hin.
  { intros t Hin. apply list_elem_of_lookup in Hin as [i Hi].
    exists (length (tasks s) + i). unfold live. rewrite Ht.
    rewrite lookup_app_r by lia. rewrite list_lookup_fmap.
    replace (length (tasks s) + i - length (tasks s)) with i by lia. by rewrite Hi. }
  assert (forall tid t, live s tid t -> target t < length (promises s)) as Hold.
  { intros tid t H. eapply lookup_lt_Some. by eapply inv_pending. }
  split.
  - done.
  - intros tid t H. apply Hlive in H as [H | [_ H]].
    + eapply grows_promise; [done|]. by eapply inv_pending.
    + apply list_elem_of_lookup_2 in H. by apply Hnew.
  - intros tid1 tid2 t1 t2 H1 H2 Heq.
    apply Hlive in H1 as [H1 | [Hl1 H1]]; apply Hlive in H2 as [H2 | [Hl2 H2]].
    + by eapply inv_distinct.
    + apply Hold in H1. apply list_elem_of_lookup_2, Hnew in H2 as [? _]. lia.
    + apply Hold in H2. apply list_elem_of_lookup_2, Hnew in H1 as [? _]. lia.
    + assert (tid1 - length (tasks s) = tid2 - length (tasks s)); [|lia].
      eapply NoDup_lookup; [exact Hnodup | |]; rewrite list_lookup_fmap.
      * by rewrite H1.
      * rewrite H2. simpl. by rewrite Heq.
  - intros moveName p. rewrite Hmf. split.
    + intros [H | H]; [|by apply Hin].
      apply (inv_moveFetch s HI) in H as [tid H]. exists tid. by eapply grows_live.
    + intros [tid H]. apply Hlive in H as [H | [_ H]].
      * left. apply (inv_moveFetch s HI). by exists tid.
      * right. by eapply list_elem_of_lookup_2.
  - intros identifier p. rewrite Hpf. split.
    + intros [H | (t & H & Hprod)].
      * apply (inv_pokemonFetch s HI) in H as (tid & t & H & Hprod).
        exists tid, t. split; [by eapply grows_live | done].
      * destruct (Hin t H) as [tid Htid]. by exists tid, t.
    + intros (tid & t & H & Hprod). apply Hlive in H as [H | [_ H]].
      * left. apply (inv_pokemonFetch s HI). by exists tid, t.
      * right. exists t. split; [by eapply list_elem_of_lookup_2 | done].
  - intros moveName p. rewrite Hmf, Hmc. intros [H | H]; [by eapply inv_move_uncached | by eapply Hmu].
  - intros identifier p. rewrite Hpf, Hpc.
    intros [H | (t & H & Hprod)]; [by eapply inv_pokemon_uncached | by eapply Hpu].
  - intros moveName l. rewrite Hmc. intros H.
    eapply good_move_ext; [done | by eapply inv_moveDataCache].
  - intros identifier l. rewrite Hpc. intros H.
    eapply good_pokemon_ext; [done | by eapply inv_pokemonDataCache].
  - intros tid t H. apply Hlive in H as [H | [_ H]].
    + eapply task_ok_grows; [done | by eapply inv_tasks].
    + apply list_elem_of_lookup_2 in H. by apply Hnew.
Qed.


(** Two cases of it: nothing new is suspended; one function is. *)
Lemma Inv_extend_none s s' newp :
  Inv s ->
  heap_ext s s' ->
  (forall l, l ∈ escaped s' -> l < length (store s')) ->
  promises s' = promises s ++ newp ->
  tasks s' = tasks s ->
  moveFetchPromises s' = moveFetchPromises s ->
  pokemonFetchPromises s' = pokemonFetchPromises s ->
  moveDataCache s' = moveDataCache s ->
  pokemonDataCache s' = pokemonDataCache s ->
  Inv s'.
Proof.
  intros HI Hheap Hesc Hp Ht Hmf Hpf Hmc Hpc.
  apply (Inv_extend s s' newp []).
  - done.
  - done.
  - done.
  - done.
  - simpl. by rewrite app_nil_r.
  - constructor.
  - intros t H. by apply elem_of_nil in H.
  - intros n p. rewrite Hmf. split; [auto|]. intros [? | H]; [done | by apply elem_of_nil in H].
  - intros k p. rewrite Hpf. split; [auto|].
    intros [? | (t & H & _)]; [done | by apply elem_of_nil in H].
  - intros n p H. by apply elem_of_nil in H.
  - intros k p t H. by apply elem_of_nil in H.
  - done.
  - done.
Qed.

Definition with_move (t : task) (m : gmap string nat) : gmap string nat :=
  match t with
  | MoveFetch moveName p => <[moveName := p]> m
  | _ => m
  end.

Definition with_pokemon (t : task) (m : gmap string nat) : gmap string nat :=
  match t with
  | PokemonFetch identifier p => <[identifier := p]> m
  | _ => m
  end.

(** A producer starts for a key that is neither cached nor pending. *)
Definition may_start (s : State) (t : task) : Prop :=
  match t with
  | MoveFetch moveName _ =>
      moveDataCache s !! moveName = None /\ moveFetchPromises s !! moveName = None
  | PokemonFetch identifier _ =>
      pokemonDataCache s !! identifier = None /\ pokemonFetchPromises s !! identifier = None
  | PokemonMoves _ _ _ _ => False
  | _ => True
  end.

Lemma Inv_extend_one s s' newp t :
  Inv s ->
  heap_ext s s' ->
  (forall l, l ∈ escaped s' -> l < length (store s')) ->
  promises s' = promises s ++ newp ->
  tasks s' = tasks s ++ [Some t] ->
  length (promises s) <= target t ->
  promises s' !! target t = Some Pending ->
  task_ok s' t ->
  may_start s t ->
  moveFetchPromises s' = with_move t (moveFetchPromises s) ->
  pokemonFetchPromises s' = with_pokemon t (pokemonFetchPromises s) ->
  moveDataCache s' = moveDataCache s ->
  pokemonDataCache s' = pokemonDataCache s ->
  Inv s'.
Proof.
  intros HI Hheap Hesc Hp Ht Hlen Hpend Hok Hstart Hmf Hpf Hmc Hpc.
  apply (Inv_extend s s' newp [t]).
  - done.
  - done.
  - done.
  - done.
  - done.
  - simpl. apply NoDup_singleton.
  - intros t' Ht'. apply list_elem_of_singleton in Ht' as ->. done.
  - intros n p. rewrite Hmf, list_elem_of_singleton.
    destruct t; simpl in *; try (split; [auto | intros [? | ?]; done]).
    destruct Hstart as [_ Hnone].
    destruct (decide (n = moveName)) as [->|Hne].
    + rewrite lookup_insert_eq, Hnone. split; [intros [= <-]; by right | intros [? | [= <-]]; done].
    + rewrite lookup_insert_ne by done. split; [auto | intros [? | [= ? ?]]; done].
  - intros k p. rewrite Hpf. split.
    + destruct t; simpl in *; try by left.
      destruct (decide (k = identifier)) as [->|Hne].
      * rewrite lookup_insert_eq. intros [= <-]. right. eexists. split; [by apply list_elem_of_singleton|].
        by left.
      * rewrite lookup_insert_ne by done. by left.
    + intros [H | (t' & Ht' & Hprod)].
      * destruct t; simpl in *; try done. destruct Hstart as [_ Hnone].
        rewrite lookup_insert_ne; [done|]. intros ->. congruence.
      * apply list_elem_of_singleton in Ht' as ->.
        destruct Hprod as [-> | (? & ? & ->)]; simpl in *; [|done].
        by rewrite lookup_insert_eq.
  - intros n p H. apply list_elem_of_singleton in H as <-. simpl in Hstart. tauto.
  - intros k p t' Ht' Hprod. apply list_elem_of_singleton in Ht' as ->.
    destruct Hprod as [-> | (? & ? & ->)]; simpl in Hstart; tauto.
  - done.
  - done.
Qed.

(** *** Calls *)

(** The requests made so far for a move, for a creature. *)
Definition is_move_request (moveName : string) (r : request) : bool :=
  match r with
  | ReqMove n _ => bool_decide (n = moveName)
  | ReqPokemon _ => false
  end.

Definition is_pokemon_request (identifier : string) (r : request) : bool :=
  match r with
  | ReqMove _ _ => false
  | ReqPokemon k => bool_decide (k = identifier)
  end.

Definition move_requests (s : State) (moveName : string) : nat :=
  length (List.filter (is_move_request moveName) (requests s)).

Definition pokemon_requests (s : State) (identifier : string) : nat :=
  length (List.filter (is_pokemon_request identifier) (requests s)).

(** What the calls of [getMoveDetails] and [getPokemonDetails] do to the
    state before they suspend: promises, suspended functions and objects
    are added; the caches are as before; a pending entry stays, and no
    second request is made for its key. *)
Record extends (s s' : State) : Prop := {
  extends_grows : grows s s';
  extends_escaped : forall l, l ∈ escaped s' -> l < length (store s');
  extends_moveDataCache : moveDataCache s' = moveDataCache s;
  extends_pokemonDataCache : pokemonDataCache s' = pokemonDataCache s;
  extends_moveFetch :
    forall moveName p,
      moveFetchPromises s !! moveName = Some p ->
      moveFetchPromises s' !! moveName = Some p
      /\ move_requests s' moveName = move_requests s moveName;
  extends_pokemonFetch :
    forall identifier p,
      pokemonFetchPromises s !! identifier = Some p ->
      pokemonFetchPromises s' !! identifier = Some p
      /\ pokemon_requests s' identifier = pokemon_requests s identifier
}.

Lemma grows_trans s1 s2 s3 :
  (forall l, l ∈ escaped s2 -> l < length (store s2)) ->
  grows s1 s2 -> grows s2 s3 -> grows s1 s3.
Proof.
  intros Hesc [[Hl1 Hs1 He1] [p1 Hp1] [t1 Ht1]] [[Hl2 Hs2 He2] [p2 Hp2] [t2 Ht2]].
  split; [split|..].
  - lia.
  - intros l Hl Hne. rewrite Hs2, Hs1; [done.. | lia | auto].
  - intros l Hl H. apply He1; [done|]. apply He2; [lia | done].
  - exists (p1 ++ p2). by rewrite Hp2, Hp1, app_assoc.
  - exists (t1 ++ t2). by rewrite Ht2, Ht1, app_assoc.
Qed.

Lemma extends_trans s1 s2 s3 : extends s1 s2 -> extends s2 s3 -> extends s1 s3.
Proof.
  intros [Hg1 He1 Hmc1 Hpc1 Hmf1 Hpf1] [Hg2 He2 Hmc2 Hpc2 Hmf2 Hpf2]. split.
  - exact (grows_trans s1 s2 s3 He1 Hg1 Hg2).
  - done.
  - congruence.
  - congruence.
  - intros n p H. destruct (Hmf1 n p H) as [H1 Hr1]. destruct (Hmf2 n p H1) as [H2 Hr2].
    split; [done | congruence].
  - intros k p H. destruct (Hpf1 k p H) as [H1 Hr1]. destruct (Hpf2 k p H1) as [H2 Hr2].
    split; [done | congruence].
Qed.

(** A step that leaves the pending maps and the requests alone. *)
Lemma extends_quiet s s' :
  grows s s' ->
  (forall l, l ∈ escaped s' -> l < length (store s')) ->
  moveDataCache s' = moveDataCache s ->
  pokemonDataCache s' = pokemonDataCache s ->
  moveFetchPromises s' = moveFetchPromises s ->
  pokemonFetchPromises s' = pokemonFetchPromises s ->
  requests s' = requests s ->
  extends s s'.
Proof.
  intros Hg He Hmc Hpc Hmf Hpf Hr. split; try done.
  - intros n p. unfold move_requests. by rewrite Hmf, Hr.
  - intros k p. unfold pokemon_requests. by rewrite Hpf, Hr.
Qed.

(** *** Steps in which a suspended function returns *)

(** What each kind of function settles its promise with. *)
Definition value_ok (s' : State) (t : task) (v : promise) : Prop :=
  match t with
  | MoveFetch _ _ | MoveAwait _ _ _ Internal =>
      exists l, v = Fulfilled (Some l) /\ good_move s' l
  | MoveAwait _ _ _ External | PokemonAwait _ _ _ => True
  | PokemonFetch _ _ | PokemonMoves _ _ _ _ =>
      v = Rejected \/ exists l, v = Fulfilled (Some l) /\ good_pokemon s' l
  end.

Definition without_move (t : task) (m : gmap string nat) : gmap string nat :=
  match t with
  | MoveFetch moveName _ => delete moveName m
  | _ => m
  end.

Definition without_pokemon (t : task) (m : gmap string nat) : gmap string nat :=
  match t with
  | PokemonFetch identifier _ | PokemonMoves identifier _ _ _ => delete identifier m
  | _ => m
  end.

Lemma Inv_complete s s' tid t v :
  Inv s -> live s tid t ->
  heap_ext s s' ->
  (forall l, l ∈ escaped s' -> l < length (store s')) ->
  promises s' = <[target t := v]> (promises s) ->
  tasks s' = <[tid := None]> (tasks s) ->
  value_ok s' t v ->
  moveFetchPromises s' = without_move t (moveFetchPromises s) ->
  pokemonFetchPromises s' = without_pokemon t (pokemonFetchPromises s) ->
  (forall moveName l,
     moveDataCache s' !! moveName = Some l ->
     moveDataCache s !! moveName = Some l
     \/ exists p, t = MoveFetch moveName p /\ v = Fulfilled (Some l)) ->
  (forall identifier l,
     pokemonDataCache s' !! identifier = Some l ->
     pokemonDataCache s !! identifier = Some l
     \/ exists p, pokemon_producer t identifier p /\ v = Fulfilled (Some l)) ->
  Inv s'.
Proof.
  intros HI Htid Hheap Hesc Hp Ht Hv Hmf Hpf Hmc Hpc.
  assert (forall tid' t', live s' tid' t' <-> tid' ≠ tid /\ live s tid' t') as Hlive.
  { intros tid' t'. unfold live. rewrite Ht. destruct (decide (tid' = tid)) as [->|Hne].
    - rewrite list_lookup_insert_eq by (by eapply lookup_lt_Some).
      split; [intros [=] | by intros [? _]].
    - rewrite list_lookup_insert_ne by done. split; [done | by intros [_ ?]]. }
  assert (target t < length (promises s)) as Hlt.
  { eapply lookup_lt_Some. by eapply inv_pending. }
  assert (forall q, q ≠ target t -> promises s' !! q = promises s !! q) as Hother.
  { intros q Hq. rewrite Hp. by apply list_lookup_insert_ne. }
  assert (promises s' !! target t = Some v) as Hself.
  { rewrite Hp. by apply list_lookup_insert_eq. }
  assert (forall tid' t', live s tid' t' -> tid' ≠ tid -> target t' ≠ target t) as Hdist.
  { intros tid' t' H Hne Heq. apply Hne. by eapply inv_distinct. }
  assert (forall q w, promises s !! q = Some w -> w ≠ Pending -> promises s' !! q = Some w)
    as Hsettled.
  { intros q w Hq Hw. rewrite Hother; [done|]. intros ->.
    rewrite (inv_pending s HI tid t Htid) in Hq. congruence. }
  split.
  - done.
  - intros tid' t' H. apply Hlive in H as [Hne H].
    rewrite Hother by by eapply Hdist. by eapply inv_pending.
  - intros tid1 tid2 t1 t2 H1 H2. apply Hlive in H1 as [_ H1]. apply Hlive in H2 as [_ H2].
    by eapply inv_distinct.
  - intros moveName p. rewrite Hmf. split.
    + intros H.
      assert (moveFetchPromises s !! moveName = Some p
              /\ forall p', t ≠ MoveFetch moveName p') as [H' Hne].
      { destruct t; simpl in H; try (split; [done | congruence]).
        apply lookup_delete_Some in H as [? ?]. split; [done | congruence]. }
      apply (inv_moveFetch s HI) in H' as [tid' H']. exists tid'. apply Hlive.
      split; [|done]. intros ->. unfold live in *. specialize (Hne p). congruence.
    + intros [tid' H]. apply Hlive in H as [Hne H].
      assert (moveFetchPromises s !! moveName = Some p) as Hm
        by (apply (inv_moveFetch s HI); by exists tid').
      destruct t; simpl; try done.
      apply lookup_delete_Some. split; [|done]. intros ->.
      assert (moveFetchPromises s !! moveName = Some p0) as Hm'
        by (apply (inv_moveFetch s HI); by exists tid).
      apply (Hdist _ _ H Hne). simpl. congruence.
  - intros identifier p. rewrite Hpf. split.
    + intros H.
      assert (pokemonFetchPromises s !! identifier = Some p
              /\ forall p', ¬ pokemon_producer t identifier p') as [H' Hne].
      { destruct t; simpl in H;
          try (split; [done | intros p' [?|(? & ? & ?)]; congruence]);
          apply lookup_delete_Some in H as [? ?];
          (split; [done | intros p' [?|(? & ? & ?)]; congruence]). }
      apply (inv_pokemonFetch s HI) in H' as (tid' & t' & H' & Hprod). exists tid', t'.
      split; [|done]. apply Hlive. split; [|done]. intros ->.
      unfold live in *. apply (Hne p). congruence.
    + intros (tid' & t' & H & Hprod). apply Hlive in H as [Hne H].
      assert (pokemonFetchPromises s !! identifier = Some p) as Hm
        by (apply (inv_pokemonFetch s HI); by exists tid', t').
      assert (forall identifier0 p0, pokemon_producer t identifier0 p0 -> identifier0 ≠ identifier)
        as Hkey.
      { intros identifier0 p0 Hprod0 ->.
        assert (pokemonFetchPromises s !! identifier = Some p0) as Hm'
          by (apply (inv_pokemonFetch s HI); by exists tid, t).
        apply (Hdist _ _ H Hne).
        assert (p0 = p) as -> by congruence.
        destruct Hprod as [->|(? & ? & ->)], Hprod0 as [->|(? & ? & ->)]; done. }
      destruct t; simpl; try done; apply lookup_delete_Some; (split; [|done]).
      * eapply Hkey. by left.
      * eapply Hkey. right. by eexists _, _.
  - intros moveName p Hm.
    destruct (moveDataCache s' !! moveName) as [l|] eqn:Hc; [exfalso | done].
    rewrite Hmf in Hm. apply Hmc in Hc as [Hc | (p' & -> & _)].
    + assert (moveFetchPromises s !! moveName = Some p) as Hm'.
      { destruct t; simpl in Hm; try done. by apply lookup_delete_Some in Hm as [? ?]. }
      rewrite (inv_move_uncached s HI _ _ Hm') in Hc. done.
    + simpl in Hm. by rewrite lookup_delete_eq in Hm.
  - intros identifier p Hm.
    destruct (pokemonDataCache s' !! identifier) as [l|] eqn:Hc; [exfalso | done].
    rewrite Hpf in Hm. apply Hpc in Hc as [Hc | (p' & Hprod & _)].
    + assert (pokemonFetchPromises s !! identifier = Some p) as Hm'.
      { destruct t; simpl in Hm; try done; by apply lookup_delete_Some in Hm as [? ?]. }
      rewrite (inv_pokemon_uncached s HI _ _ Hm') in Hc. done.
    + destruct Hprod as [->|(? & ? & ->)]; simpl in Hm; by rewrite lookup_delete_eq in Hm.
  - intros moveName l Hc. apply Hmc in Hc as [Hc | (p & -> & ->)].
    + eapply good_move_ext; [done | by eapply inv_moveDataCache].
    + destruct Hv as (l' & [= <-] & Hl). done.
  - intros identifier l Hc. apply Hpc in Hc as [Hc | (p & Hprod & ->)].
    + eapply good_pokemon_ext; [done | by eapply inv_pokemonDataCache].
    + destruct Hprod as [->|(? & ? & ->)]; simpl in Hv;
        destruct Hv as [? | (l' & [= <-] & Hl)]; done.
  - intros tid' t' H. apply Hlive in H as [Hne H].
    pose proof (inv_tasks s HI tid' t' H) as Hok.
    destruct t' as [| moveName p ret o | | identifier p data ps | identifier p ret];
      simpl in *; try done.
    + (* a call of getMoveDetails still waiting *)
      destruct Hok as [[Hpend [tidF HF]] | [l [Hq Hl]]].
      * destruct (decide (tidF = tid)) as [->|HneF].
        -- right. unfold live in *. assert (t = MoveFetch moveName p) as -> by congruence.
           simpl in *. destruct Hv as (l & -> & Hl). eauto.
        -- left. split.
           ++ rewrite Hother; [done|]. apply (Hdist _ _ HF HneF).
           ++ exists tidF. by apply Hlive.
      * right. exists l. split; [by apply Hsettled | by eapply good_move_ext].
    + (* a producer waiting for its moves *)
      eapply Forall_impl; [exact Hok|]. intros pid [[Hpend (tidA & n & q & HA)] | [l [Hq Hl]]].
      * destruct (decide (tidA = tid)) as [->|HneA].
        -- right. unfold live in *. assert (t = MoveAwait n q pid Internal) as -> by congruence.
           simpl in *. destruct Hv as (l & -> & Hl). eauto.
        -- left. split.
           ++ rewrite Hother; [done|]. apply (Hdist _ _ HA HneA).
           ++ exists tidA, n, q. by apply Hlive.
      * right. exists l. split; [by apply Hsettled | by eapply good_move_ext].
    + (* a call of getPokemonDetails still waiting *)
      destruct Hok as [[Hpend (tidF & tF & HF & Hprod)] | [[l [Hq Hl]] | Hq]].
      * destruct (decide (tidF = tid)) as [->|HneF].
        -- unfold live in *. assert (t = tF) as -> by congruence.
           assert (target tF = p) as Htp by (by destruct Hprod as [->|(? & ? & ->)]).
           rewrite Htp in Hself.
           destruct Hprod as [->|(? & ? & ->)]; simpl in Hv;
             (destruct Hv as [-> | (l & -> & Hl)]; [by right; right | right; left; eauto]).
        -- left. split.
           ++ rewrite Hother; [done|].
              replace p with (target tF) by (by destruct Hprod as [->|(? & ? & ->)]).
              apply (Hdist _ _ HF HneF).
           ++ exists tidF, tF. split; [by apply Hlive | done].
      * right; left. exists l. split; [by apply Hsettled | by eapply good_pokemon_ext].
      * right; right. by apply Hsettled.
Qed.


(** *** The producer of a creature moves on to wait for its moves *)

Lemma Inv_suspend s s' tid identifier p data ps :
  Inv s -> live s tid (PokemonFetch identifier p) ->
  store s' = store s -> escaped s' = escaped s -> promises s' = promises s ->
  tasks s' = <[tid := Some (PokemonMoves identifier p data ps)]> (tasks s) ->
  moveFetchPromises s' = moveFetchPromises s ->
  pokemonFetchPromises s' = pokemonFetchPromises s ->
  moveDataCache s' = moveDataCache s ->
  pokemonDataCache s' = pokemonDataCache s ->
  Forall (move_result s) ps ->
  Inv s'.
Proof.
  intros HI Htid Hs He Hp Ht Hmf Hpf Hmc Hpc Hps.
  set (t0 := PokemonFetch identifier p) in *.
  set (t1 := PokemonMoves identifier p data ps) in *.
  assert (forall tid' t', live s' tid' t' <->
            (tid' = tid /\ t' = t1) \/ (tid' ≠ tid /\ live s tid' t')) as Hlive.
  { intros tid' t'. unfold live. rewrite Ht. destruct (decide (tid' = tid)) as [->|Hne].
    - rewrite list_lookup_insert_eq by (by eapply lookup_lt_Some).
      split; [intros [= <-]; by left | intros [[_ ->] | [? _]]; done].
    - rewrite list_lookup_insert_ne by done.
      split; [intros ?; by right | intros [[? _] | [_ ?]]; done]. }
  assert (forall tid' t', live s tid' t' ->
            exists t'', live s' tid' t'' /\ target t'' = target t'
                        /\ (t'' = t' \/ (t' = t0 /\ t'' = t1))) as Hkeep.
  { intros tid' t' H. destruct (decide (tid' = tid)) as [->|Hne].
    - exists t1. unfold live in H, Htid. assert (t' = t0) as -> by congruence.
      split; [apply Hlive; by left | auto]. 
    - exists t'. split; [apply Hlive; by right | auto]. }
  assert (forall tid' t', live s' tid' t' ->
            exists t'', live s tid' t'' /\ target t'' = target t'
                        /\ (t'' = t' \/ (t'' = t0 /\ t' = t1))) as Hback.
  { intros tid' t' H. apply Hlive in H as [[-> ->] | [Hne H]].
    - exists t0. auto.
    - exists t'. auto. }
  assert (heap_ext s s') as Hheap by (by apply heap_ext_refl).
  assert (forall l, good_move s l -> good_move s' l) as Hgm
    by (intros l; by apply good_move_ext).
  assert (forall pid, move_result s pid -> move_result s' pid) as Hres.
  { intros pid [[Hq (tidA & n & q & HA)] | [l [Hq Hl]]]; [left | right]; rewrite Hp.
    - split; [done|]. exists tidA, n, q.
      destruct (Hkeep _ _ HA) as (t'' & H'' & _ & [-> | [? _]]); done.
    - eauto. }
  split.
  - intros l. rewrite He, Hs. by apply inv_escaped.
  - intros tid' t' H. destruct (Hback _ _ H) as (t'' & H'' & <- & _).
    rewrite Hp. by eapply inv_pending.
  - intros tid1 tid2 ta tb Ha Hb Heq.
    destruct (Hback _ _ Ha) as (ta' & Ha' & Hta & _).
    destruct (Hback _ _ Hb) as (tb' & Hb' & Htb & _).
    eapply inv_distinct; [done | exact Ha' | exact Hb' | congruence].
  - intros moveName q. rewrite Hmf, (inv_moveFetch s HI). split.
    + intros [tid' H]. exists tid'.
      destruct (Hkeep _ _ H) as (t'' & H'' & _ & [-> | [? _]]); done.
    + intros [tid' H]. exists tid'.
      destruct (Hback _ _ H) as (t'' & H'' & _ & [-> | [_ ?]]); done.
  - intros identifier' q. rewrite Hpf, (inv_pokemonFetch s HI). split.
    + intros (tid' & t' & H & Hprod).
      destruct (Hkeep _ _ H) as (t'' & H'' & _ & [-> | [-> ->]]); [by exists tid', t'|].
      exists tid', t1. split; [done|].
      destruct Hprod as [[= -> ->] | (? & ? & ?)]; [|done]. right. by eexists _, _.
    + intros (tid' & t' & H & Hprod).
      destruct (Hback _ _ H) as (t'' & H'' & _ & [-> | [-> ->]]); [by exists tid', t'|].
      exists tid', t0. split; [done|].
      destruct Hprod as [? | (? & ? & [= -> -> _ _])]; [done|]. by left.
  - intros moveName q. rewrite Hmf, Hmc. by apply inv_move_uncached.
  - intros identifier' q. rewrite Hpf, Hpc. by apply inv_pokemon_uncached.
  - intros moveName l. rewrite Hmc. intros H. apply Hgm. by eapply inv_moveDataCache.
  - intros identifier' l. rewrite Hpc. intros H.
    eapply good_pokemon_ext; [done | by eapply inv_pokemonDataCache].
  - intros tid' t' H. apply Hlive in H as [[-> ->] | [Hne H]].
    + simpl. eapply Forall_impl; [exact Hps | exact Hres].
    + pose proof (inv_tasks s HI tid' t' H) as Hok.
      destruct t' as [| moveName q ret o | | identifier' q data' ps' | identifier' q ret];
        simpl in *; try done.
      * destruct Hok as [[Hq [tidF HF]] | [l [Hq Hl]]]; [left | right]; rewrite Hp.
        -- split; [done|]. exists tidF.
           destruct (Hkeep _ _ HF) as (t'' & H'' & _ & [-> | [? _]]); done.
        -- eauto.
      * eapply Forall_impl; [exact Hok | exact Hres].
      * unfold pokemon_source. rewrite Hp.
        destruct Hok as [[Hq (tidF & tF & HF & Hprod)] | [[l [Hq Hl]] | Hq]].
        -- left. split; [done|].
           destruct (Hkeep _ _ HF) as (t'' & H'' & _ & [-> | [-> ->]]); [by exists tidF, tF|].
           exists tidF, t1. split; [done|].
           destruct Hprod as [[= -> ->] | (? & ? & ?)]; [|done]. right. by eexists _, _.
        -- right; left. exists l. split; [done | by eapply good_pokemon_ext].
        -- by right; right.
Qed.

Lemma Inv_initial : Inv initial.
Proof.
  assert (forall tid t, ¬ live initial tid t) as Hnone.
  { intros tid t H. unfold live in H. simpl in H. by rewrite lookup_nil in H. }
  split; simpl.
  - intros l Hl. by apply not_elem_of_empty in Hl.
  - intros tid t H. by apply Hnone in H.
  - intros tid1 tid2 t1 t2 H. by apply Hnone in H.
  - intros n p. rewrite lookup_empty. split; [done | intros [tid H]; by apply Hnone in H].
  - intros k p. rewrite lookup_empty.
    split; [done | intros (tid & t & H & _); by apply Hnone in H].
  - done.
  - done.
  - done.
  - done.
  - intros tid t H. by apply Hnone in H.
Qed.

(** ** [getMoveDetails] *)

(** The copy made for a caller. *)
Lemma clone_for_move s o l m :
  store s !! l = Some (CMove m) ->
  clone_for s o l = Some (hand_over s o (store s ++ [CMove m]), length (store s)).
Proof. intros H. unfold clone_for, structuredClone, clone_move. by rewrite H. Qed.

Lemma clone_for_pokemon s o l d ms :
  store s !! l = Some (CPokemon d) -> read_array (store s) (pd_moves d) = Some ms ->
  clone_for s o l
  = Some (hand_over s o (store s ++ pokemon_copy (store s) d ms),
          length (store s) + length ms + 1).
Proof.
  intros H Hr. unfold clone_for, structuredClone. rewrite H.
  by rewrite (clone_pokemon_read _ _ _ _ H Hr).
Qed.

(** The three ways a call of [getMoveDetails] goes. *)
Lemma getMoveDetails_cached o s moveInfo l m :
  moveDataCache s !! mi_name moveInfo = Some l ->
  store s !! l = Some (CMove m) ->
  getMoveDetails o s moveInfo
  = (set_promises (hand_over s o (store s ++ [CMove m]))
       (promises s ++ [Fulfilled (Some (length (store s)))]),
     length (promises s)).
Proof.
  intros Hc Hl. unfold getMoveDetails. rewrite Hc, (clone_for_move _ _ _ _ Hl).
  unfold new_promise. by destruct o.
Qed.

Definition awaiting_move (o : owner) (s : State) (moveName : string) (p : nat) : State :=
  spawn (set_promises s (promises s ++ [Pending]))
    (MoveAwait moveName p (length (promises s)) o).

Lemma getMoveDetails_pending o s moveInfo p :
  moveDataCache s !! mi_name moveInfo = None ->
  moveFetchPromises s !! mi_name moveInfo = Some p ->
  getMoveDetails o s moveInfo
  = (awaiting_move o s (mi_name moveInfo) p, length (promises s)).
Proof.
  intros Hc Hp. unfold getMoveDetails. rewrite Hc, Hp. unfold new_promise. simpl.
  by rewrite Hp.
Qed.

Definition fetching_move (s : State) (moveName moveUrl : string) : State :=
  let p := length (promises s) in
  set_moveFetchPromises
    (spawn (set_requests (set_promises s (promises s ++ [Pending]))
              (requests s ++ [ReqMove moveName moveUrl]))
       (MoveFetch moveName p))
    (<[moveName := p]> (moveFetchPromises s)).

Lemma getMoveDetails_fetch o s moveInfo :
  moveDataCache s !! mi_name moveInfo = None ->
  moveFetchPromises s !! mi_name moveInfo = None ->
  getMoveDetails o s moveInfo
  = (awaiting_move o (fetching_move s (mi_name moveInfo) (mi_url moveInfo))
       (mi_name moveInfo) (length (promises s)),
     S (length (promises s))).
Proof.
  intros Hc Hp. unfold getMoveDetails. rewrite Hc, Hp. unfold new_promise. simpl.
  rewrite lookup_insert_eq. unfold awaiting_move, fetching_move. simpl.
  rewrite length_app. simpl. by rewrite Nat.add_1_r.
Qed.

Lemma Inv_hand_over s o new ps :
  Inv s ->
  Inv (set_promises (hand_over s o (store s ++ new)) (promises s ++ ps)).
Proof.
  intros HI. apply (Inv_extend_none s _ ps); try (by destruct o).
  - eapply heap_ext_hand_over; [by apply inv_escaped | done..].
  - intros l. destruct o; simpl.
    + rewrite elem_of_union, elem_of_set_seq, length_app.
      intros [H | H]; [apply (inv_escaped s HI) in H|]; lia.
    + rewrite length_app. intros H. apply (inv_escaped s HI) in H. lia.
Qed.

Lemma extends_hand_over s o new ps :
  Inv s ->
  extends s (set_promises (hand_over s o (store s ++ new)) (promises s ++ ps)).
Proof.
  intros HI. apply extends_quiet; try (by destruct o).
  - split.
    + eapply heap_ext_hand_over; [by apply inv_escaped | done..].
    + exists ps. by destruct o.
    + exists []. destruct o; simpl; by rewrite app_nil_r.
  - apply (inv_escaped _ (Inv_hand_over s o new ps HI)).
Qed.

Lemma Inv_awaiting_move o s moveName p :
  Inv s -> move_source s moveName p -> Inv (awaiting_move o s moveName p).
Proof.
  intros HI Hsrc.
  assert (grows s (awaiting_move o s moveName p)) as Hext.
  { split; [by apply heap_ext_refl | by eexists | by eexists]. }
  apply (Inv_extend_one s _ [Pending] (MoveAwait moveName p (length (promises s)) o));
    try done; try exact (inv_escaped s HI).
  - simpl. by rewrite lookup_app_r, Nat.sub_diag by lia.
  - simpl. by eapply move_source_grows.
Qed.

Lemma extends_awaiting_move o s moveName p :
  Inv s -> extends s (awaiting_move o s moveName p).
Proof.
  intros HI. apply extends_quiet; try done.
  - split; [by apply heap_ext_refl | by eexists | by eexists].
  - exact (inv_escaped s HI).
Qed.

Lemma Inv_fetching_move s moveName moveUrl :
  Inv s ->
  moveDataCache s !! moveName = None ->
  moveFetchPromises s !! moveName = None ->
  Inv (fetching_move s moveName moveUrl).
Proof.
  intros HI Hc Hp.
  apply (Inv_extend_one s _ [Pending] (MoveFetch moveName (length (promises s))));
    try done; try exact (inv_escaped s HI).
  simpl. by rewrite lookup_app_r, Nat.sub_diag by lia.
Qed.

Lemma extends_fetching_move s moveName moveUrl :
  Inv s -> moveFetchPromises s !! moveName = None ->
  extends s (fetching_move s moveName moveUrl).
Proof.
  intros HI Hnone. split; try done.
  - split; [by apply heap_ext_refl | by eexists | by eexists].
  - exact (inv_escaped s HI).
  - intros n p H. assert (n ≠ moveName) as Hne by congruence. split.
    + simpl. by rewrite lookup_insert_ne.
    + unfold move_requests. simpl. rewrite List.filter_app, length_app. simpl.
      rewrite bool_decide_false by done. simpl. lia.
  - intros k p H. split; [done|].
    unfold pokemon_requests. simpl. rewrite List.filter_app, length_app. simpl. lia.
Qed.

(** A call of [getMoveDetails] keeps the invariant; the promise it returns
    to the producer of a creature is a [move_result]. *)
Lemma Inv_getMoveDetails o s moveInfo :
  Inv s ->
  Inv (getMoveDetails o s moveInfo).1
  /\ extends s (getMoveDetails o s moveInfo).1
  /\ (o = Internal -> move_result (getMoveDetails o s moveInfo).1 (getMoveDetails o s moveInfo).2).
Proof.
  intros HI.
  destruct (moveDataCache s !! mi_name moveInfo) as [l|] eqn:Hc.
  - destruct (inv_moveDataCache s HI _ _ Hc) as [Hl [m Hm]].
    rewrite (getMoveDetails_cached _ _ _ _ _ Hc Hm). simpl. split_and!.
    + by apply Inv_hand_over.
    + by apply extends_hand_over.
    + intros ->. right. exists (length (store s)). simpl. split.
      * by rewrite lookup_app_r, Nat.sub_diag by lia.
      * split; simpl.
        -- intros H. apply (inv_escaped s HI) in H. lia.
        -- exists m. by rewrite lookup_app_r, Nat.sub_diag by lia.
  - destruct (moveFetchPromises s !! mi_name moveInfo) as [p|] eqn:Hp.
    + rewrite (getMoveDetails_pending _ _ _ _ Hc Hp). simpl.
      assert (move_source s (mi_name moveInfo) p) as Hsrc.
      { left. pose proof Hp as [tid Htid]%(inv_moveFetch s HI).
        split; [apply (inv_pending s HI _ _ Htid) | by exists tid]. }
      split_and!.
      * by apply Inv_awaiting_move.
      * by apply extends_awaiting_move.
      * intros ->. left. simpl. split.
        -- by rewrite lookup_app_r, Nat.sub_diag by lia.
        -- exists (length (tasks s)), (mi_name moveInfo), p. unfold live. simpl.
           by rewrite lookup_app_r, Nat.sub_diag by lia.
    + rewrite (getMoveDetails_fetch _ _ _ Hc Hp). simpl.
      pose proof (Inv_fetching_move s (mi_name moveInfo) (mi_url moveInfo) HI Hc Hp) as HI1.
      set (s1 := fetching_move s _ _) in *.
      assert (move_source s1 (mi_name moveInfo) (length (promises s))) as Hsrc.
      { left. split.
        - subst s1. simpl. by rewrite lookup_app_r, Nat.sub_diag by lia.
        - exists (length (tasks s)). subst s1. unfold live. simpl.
          by rewrite lookup_app_r, Nat.sub_diag by lia. }
      split_and!.
      * by apply Inv_awaiting_move.
      * eapply extends_trans; [by apply extends_fetching_move | by apply extends_awaiting_move].
      * intros ->. left. simpl. split.
        -- rewrite lookup_app_r by (rewrite length_app; simpl; lia).
           rewrite length_app. simpl.
           by replace (S (length (promises s)) - (length (promises s) + 1)) with 0 by lia.
        -- exists (S (length (tasks s))), (mi_name moveInfo), (length (promises s)).
           unfold live. simpl.
           rewrite lookup_app_r by (rewrite length_app; simpl; lia).
           rewrite !length_app. simpl.
           replace (S (length (tasks s)) - (length (tasks s) + 1)) with 0 by lia.
           simpl. do 3 f_equal. lia.
Qed.


Lemma Inv_getMoveDetails_each s infos :
  Inv s ->
  Inv (getMoveDetails_each s infos).1
  /\ extends s (getMoveDetails_each s infos).1
  /\ Forall (move_result (getMoveDetails_each s infos).1) (getMoveDetails_each s infos).2.
Proof.
  revert s. induction infos as [|moveInfo infos IH]; intros s HI; simpl.
  - split_and!; [done | | constructor].
    apply extends_quiet; try done; [|exact (inv_escaped s HI)].
    split; [by apply heap_ext_refl | exists []; by rewrite app_nil_r..].
  - destruct (Inv_getMoveDetails Internal s moveInfo HI) as (HI1 & Hext1 & Hres1).
    destruct (getMoveDetails Internal s moveInfo) as [s1 ret]; simpl in *.
    destruct (IH s1 HI1) as (HI2 & Hext2 & Hres2).
    destruct (getMoveDetails_each s1 infos) as [s2 rets]; simpl in *.
    split_and!.
    + done.
    + by eapply extends_trans.
    + constructor; [|done]. eapply move_result_grows; [by apply extends_grows | by apply Hres1].
Qed.

(** ** [getPokemonDetails] *)

Lemma good_pokemon_cell s l :
  good_pokemon s l ->
  exists d ms, store s !! l = Some (CPokemon d) /\ read_array (store s) (pd_moves d) = Some ms.
Proof.
  intros (_ & d & elems & Hd & _ & He & Hms).
  destruct (read_moves_Some (store s) elems) as [ms Hr].
  { eapply Forall_impl; [exact Hms|]. by intros q [_ ?]. }
  exists d, ms. split; [done|]. unfold read_array. by rewrite He.
Qed.

Lemma getPokemonDetails_cached s idOrName l d ms :
  pokemonDataCache s !! Str.toLowerCase idOrName = Some l ->
  store s !! l = Some (CPokemon d) -> read_array (store s) (pd_moves d) = Some ms ->
  getPokemonDetails s idOrName
  = (set_promises (hand_over s External (store s ++ pokemon_copy (store s) d ms))
       (promises s ++ [Fulfilled (Some (length (store s) + length ms + 1))]),
     length (promises s)).
Proof.
  intros Hc Hl Hr. unfold getPokemonDetails. rewrite Hc, (clone_for_pokemon _ _ _ _ _ Hl Hr).
  by unfold new_promise.
Qed.

Definition awaiting_pokemon (s : State) (identifier : string) (p : nat) : State :=
  spawn (set_promises s (promises s ++ [Pending]))
    (PokemonAwait identifier p (length (promises s))).

Lemma getPokemonDetails_pending s idOrName p :
  pokemonDataCache s !! Str.toLowerCase idOrName = None ->
  pokemonFetchPromises s !! Str.toLowerCase idOrName = Some p ->
  getPokemonDetails s idOrName
  = (awaiting_pokemon s (Str.toLowerCase idOrName) p, length (promises s)).
Proof.
  intros Hc Hp. unfold getPokemonDetails. rewrite Hc, Hp. unfold new_promise. simpl.
  by rewrite Hp.
Qed.

Definition fetching_pokemon (s : State) (identifier : string) : State :=
  let p := length (promises s) in
  set_pokemonFetchPromises
    (spawn (set_requests (set_promises s (promises s ++ [Pending]))
              (requests s ++ [ReqPokemon identifier]))
       (PokemonFetch identifier p))
    (<[identifier := p]> (pokemonFetchPromises s)).

Lemma getPokemonDetails_fetch s idOrName :
  pokemonDataCache s !! Str.toLowerCase idOrName = None ->
  pokemonFetchPromises s !! Str.toLowerCase idOrName = None ->
  getPokemonDetails s idOrName
  = (awaiting_pokemon (fetching_pokemon s (Str.toLowerCase idOrName))
       (Str.toLowerCase idOrName) (length (promises s)),
     S (length (promises s))).
Proof.
  intros Hc Hp. unfold getPokemonDetails. rewrite Hc, Hp. unfold new_promise. simpl.
  rewrite lookup_insert_eq. unfold awaiting_pokemon, fetching_pokemon. simpl.
  rewrite length_app. simpl. by rewrite Nat.add_1_r.
Qed.

Lemma Inv_awaiting_pokemon s identifier p :
  Inv s -> pokemon_source s identifier p -> Inv (awaiting_pokemon s identifier p).
Proof.
  intros HI Hsrc.
  assert (grows s (awaiting_pokemon s identifier p)) as Hext.
  { split; [by apply heap_ext_refl | by eexists | by eexists]. }
  apply (Inv_extend_one s _ [Pending] (PokemonAwait identifier p (length (promises s))));
    try done; try exact (inv_escaped s HI).
  - simpl. by rewrite lookup_app_r, Nat.sub_diag by lia.
  - simpl. by eapply pokemon_source_grows.
Qed.

Lemma Inv_fetching_pokemon s identifier :
  Inv s ->
  pokemonDataCache s !! identifier = None ->
  pokemonFetchPromises s !! identifier = None ->
  Inv (fetching_pokemon s identifier).
Proof.
  intros HI Hc Hp.
  apply (Inv_extend_one s _ [Pending] (PokemonFetch identifier (length (promises s))));
    try done; try exact (inv_escaped s HI).
  simpl. by rewrite lookup_app_r, Nat.sub_diag by lia.
Qed.

Lemma extends_awaiting_pokemon s identifier p :
  Inv s -> extends s (awaiting_pokemon s identifier p).
Proof.
  intros HI. apply extends_quiet; try done.
  - split; [by apply heap_ext_refl | by eexists | by eexists].
  - exact (inv_escaped s HI).
Qed.

Lemma extends_fetching_pokemon s identifier :
  Inv s -> pokemonFetchPromises s !! identifier = None ->
  extends s (fetching_pokemon s identifier).
Proof.
  intros HI Hnone. split; try done.
  - split; [by apply heap_ext_refl | by eexists | by eexists].
  - exact (inv_escaped s HI).
  - intros n p H. split; [done|].
    unfold move_requests. simpl. rewrite List.filter_app, length_app. simpl. lia.
  - intros k p H. assert (k ≠ identifier) as Hne by congruence. split.
    + simpl. by rewrite lookup_insert_ne.
    + unfold pokemon_requests. simpl. rewrite List.filter_app, length_app. simpl.
      rewrite bool_decide_false by done. simpl. lia.
Qed.

Lemma Inv_getPokemonDetails s idOrName :
  Inv s ->
  Inv (getPokemonDetails s idOrName).1 /\ extends s (getPokemonDetails s idOrName).1.
Proof.
  intros HI. set (identifier := Str.toLowerCase idOrName).
  destruct (pokemonDataCache s !! identifier) as [l|] eqn:Hc.
  - destruct (good_pokemon_cell s l) as (d & ms & Hl & Hr); [by eapply inv_pokemonDataCache|].
    rewrite (getPokemonDetails_cached _ _ _ _ _ Hc Hl Hr).
    split; [exact (Inv_hand_over s External _ _ HI) | exact (extends_hand_over s External _ _ HI)].
  - destruct (pokemonFetchPromises s !! identifier) as [p|] eqn:Hp.
    + rewrite (getPokemonDetails_pending _ _ _ Hc Hp). simpl.
      split; [|by apply extends_awaiting_pokemon].
      apply Inv_awaiting_pokemon; [done|]. left.
      pose proof Hp as (tid & t & Htid & Hprod)%(inv_pokemonFetch s HI).
      split; [|by exists tid, t].
      replace p with (target t) by (by destruct Hprod as [->|(? & ? & ->)]).
      by apply (inv_pending s HI _ _ Htid).
    + rewrite (getPokemonDetails_fetch _ _ Hc Hp). simpl.
      pose proof (Inv_fetching_pokemon s identifier HI Hc Hp) as HI1.
      split.
      * apply Inv_awaiting_pokemon; [done|]. left. split.
        -- simpl. by rewrite lookup_app_r, Nat.sub_diag by lia.
        -- exists (length (tasks s)), (PokemonFetch identifier (length (promises s))).
           split; [|by left]. unfold live. simpl. by rewrite lookup_app_r, Nat.sub_diag by lia.
      * eapply extends_trans; [by apply extends_fetching_pokemon | by apply extends_awaiting_pokemon].
Qed.

(** ** The producer of [getMoveDetails] resumes *)

(** What the producer hands on: the formatted move of a response, the
    fallback move of a failed request. *)
Definition produced_move (moveName : string) (response : option jsval) : Move :=
  match response with
  | Some power =>
      {| move_name := Str.formatName moveName;
         move_power := match power with JNull => JNum zero | _ => power end |}
  | None => fallbackMove moveName
  end.

Lemma moveResponse_live s tid moveName p response :
  live s tid (MoveFetch moveName p) ->
  exists s',
    moveResponse s tid response = Some s'
    /\ store s' = store s ++ [CMove (produced_move moveName response)]
    /\ escaped s' = escaped s
    /\ promises s' = <[p := Fulfilled (Some (length (store s)))]> (promises s)
    /\ tasks s' = <[tid := None]> (tasks s)
    /\ requests s' = requests s
    /\ moveFetchPromises s' = delete moveName (moveFetchPromises s)
    /\ pokemonFetchPromises s' = pokemonFetchPromises s
    /\ moveDataCache s'
       = match response with
         | Some _ => <[moveName := length (store s)]> (moveDataCache s)
         | None => moveDataCache s
         end
    /\ pokemonDataCache s' = pokemonDataCache s.
Proof.
  intros H. unfold moveResponse. rewrite H. destruct response; eexists; split_and!; reflexivity.
Qed.

Lemma Inv_moveResponse s tid response s' :
  Inv s -> moveResponse s tid response = Some s' -> Inv s'.
Proof.
  intros HI Hstep.
  assert (exists moveName p, live s tid (MoveFetch moveName p)) as (moveName & p & Htid).
  { unfold moveResponse in Hstep. unfold live.
    destruct (tasks s !! tid) as [[[]|]|]; try done. by eexists _, _. }
  destruct (moveResponse_live s tid moveName p response Htid)
    as (s'' & Heq & Hs & He & Hp & Ht & _ & Hmf & Hpf & Hmc & Hpc).
  rewrite Hstep in Heq. injection Heq as <-.
  assert (heap_ext s s') as Hheap.
  { split; rewrite ?Hs, ?He; [rewrite length_app; lia | | done].
    intros l Hl _. by rewrite lookup_app_l. }
  assert (good_move s' (length (store s))) as Hgood.
  { split.
    - rewrite He. intros H. apply (inv_escaped s HI) in H. lia.
    - eexists. rewrite Hs. by rewrite lookup_app_r, Nat.sub_diag by lia. }
  apply (Inv_complete s s' tid (MoveFetch moveName p) (Fulfilled (Some (length (store s))))).
  - done.
  - done.
  - done.
  - intros l. rewrite He, Hs, length_app. intros H. apply (inv_escaped s HI) in H. lia.
  - done.
  - done.
  - simpl. eauto.
  - done.
  - done.
  - intros n l. rewrite Hmc. destruct response; [|by left].
    destruct (decide (n = moveName)) as [->|Hne].
    + rewrite lookup_insert_eq. intros [= <-]. right. by exists p.
    + rewrite lookup_insert_ne by done. by left.
  - intros k l. rewrite Hpc. by left.
Qed.

(** ** A call of [getMoveDetails] resumes *)

Lemma resumeMoveAwait_live s tid moveName p ret o l m :
  live s tid (MoveAwait moveName p ret o) ->
  promises s !! p = Some (Fulfilled (Some l)) ->
  store s !! l = Some (CMove m) ->
  exists s',
    resumeMoveAwait s tid = Some s'
    /\ store s' = store s ++ [CMove m]
    /\ escaped s' = escaped (hand_over s o (store s ++ [CMove m]))
    /\ promises s' = <[ret := Fulfilled (Some (length (store s)))]> (promises s)
    /\ tasks s' = <[tid := None]> (tasks s)
    /\ requests s' = requests s
    /\ moveFetchPromises s' = moveFetchPromises s
    /\ pokemonFetchPromises s' = pokemonFetchPromises s
    /\ moveDataCache s' = moveDataCache s
    /\ pokemonDataCache s' = pokemonDataCache s.
Proof.
  intros H Hp Hl. unfold resumeMoveAwait. rewrite H, Hp, (clone_for_move _ _ _ _ Hl).
  eexists. split; [reflexivity|]. by destruct o.
Qed.

Lemma resumeMoveAwait_pending s tid moveName p ret o :
  live s tid (MoveAwait moveName p ret o) ->
  promises s !! p = Some Pending ->
  resumeMoveAwait s tid = None.
Proof. intros H Hp. unfold resumeMoveAwait. by rewrite H, Hp. Qed.

Lemma escaped_hand_over_bound s o new l :
  Inv s -> l ∈ escaped (hand_over s o (store s ++ new)) -> l < length (store s ++ new).
Proof.
  intros HI. rewrite length_app. destruct o; simpl.
  - rewrite elem_of_union, elem_of_set_seq, length_app.
    intros [H | H]; [apply (inv_escaped s HI) in H|]; lia.
  - intros H. apply (inv_escaped s HI) in H. lia.
Qed.

Lemma Inv_resumeMoveAwait s tid s' :
  Inv s -> resumeMoveAwait s tid = Some s' -> Inv s'.
Proof.
  intros HI Hstep.
  assert (exists moveName p ret o, live s tid (MoveAwait moveName p ret o))
    as (moveName & p & ret & o & Htid).
  { unfold resumeMoveAwait in Hstep. unfold live.
    destruct (tasks s !! tid) as [[[]|]|]; try done. by eexists _, _, _, _. }
  destruct (inv_tasks s HI _ _ Htid) as [[Hpend _] | (l & Hp & Hl)].
  { by rewrite (resumeMoveAwait_pending _ _ _ _ _ _ Htid Hpend) in Hstep. }
  pose proof Hl as [_ [m Hm]].
  destruct (resumeMoveAwait_live _ _ _ _ _ _ _ _ Htid Hp Hm)
    as (s'' & Heq & Hs & He & Hps & Ht & _ & Hmf & Hpf & Hmc & Hpc).
  rewrite Hstep in Heq. injection Heq as <-.
  assert (heap_ext s s') as Hheap.
  { eapply (heap_ext_hand_over s s' o [CMove m]); [by apply inv_escaped| |done].
    rewrite Hs. by destruct o. }
  apply (Inv_complete s s' tid (MoveAwait moveName p ret o)
           (Fulfilled (Some (length (store s))))).
  - done.
  - done.
  - done.
  - intros q. rewrite He, Hs. by apply escaped_hand_over_bound.
  - done.
  - done.
  - simpl. destruct o; [done|]. eexists. split; [done|]. split.
    + rewrite He. simpl. intros H. apply (inv_escaped s HI) in H. lia.
    + eexists. rewrite Hs. by rewrite lookup_app_r, Nat.sub_diag by lia.
  - done.
  - done.
  - intros n q. rewrite Hmc. by left.
  - intros k q. rewrite Hpc. by left.
Qed.

(** ** The producer of [getPokemonDetails] *)

Lemma Inv_producerFails s tid t identifier p :
  Inv s -> live s tid t -> pokemon_producer t identifier p ->
  Inv (producerFails s tid identifier p).
Proof.
  intros HI Htid Hprod.
  assert (target t = p) as Htarget by (by destruct Hprod as [->|(? & ? & ->)]).
  apply (Inv_complete s _ tid t Rejected).
  - done.
  - done.
  - by apply heap_ext_refl.
  - exact (inv_escaped s HI).
  - simpl. by rewrite Htarget.
  - done.
  - destruct Hprod as [->|(? & ? & ->)]; simpl; by left.
  - by destruct Hprod as [->|(? & ? & ->)].
  - by destruct Hprod as [->|(? & ? & ->)].
  - intros n l. by left.
  - intros k l. by left.
Qed.

Lemma Inv_pokemonResponse s tid response s' :
  Inv s -> pokemonResponse s tid response = Some s' -> Inv s'.
Proof.
  intros HI Hstep. unfold pokemonResponse in Hstep.
  destruct (tasks s !! tid) as [[[| |identifier p| |]|]|] eqn:Htid; try done.
  destruct response as [data|].
  - destruct (Inv_getMoveDetails_each s (selectMoves data) HI) as (HI1 & Hext & Hres).
    destruct (getMoveDetails_each s (selectMoves data)) as [s1 ps]; simpl in *.
    injection Hstep as <-.
    apply (Inv_suspend s1 _ tid identifier p data ps); try done.
    eapply grows_live; [by apply extends_grows | done].
  - injection Hstep as <-. eapply Inv_producerFails; [done | exact Htid | by left].
Qed.

(** [Promise.all] over promises that are pending or fulfilled with a move. *)
Lemma promise_all_results s ps :
  Forall (move_result s) ps ->
  promise_all s ps = AllPending
  \/ exists ls,
       promise_all s ps = AllFulfilled (map Some ls)
       /\ Forall (good_move s) ls
       /\ Forall2 (fun pid l => promises s !! pid = Some (Fulfilled (Some l))) ps ls.
Proof.
  intros H. unfold promise_all.
  assert (existsb is_rejected (map (fun pid => promises s !! pid) ps) = false) as ->.
  { induction H as [|pid ps Hpid _ IH]; simpl; [done|].
    by destruct Hpid as [[-> _] | (l & -> & _)]. }
  induction H as [|pid ps Hpid _ IH]; simpl.
  - right. exists []. by split_and!; constructor.
  - destruct Hpid as [[-> _] | (l & Hl & Hgood)]; [by left|]. rewrite Hl.
    destruct IH as [IH | (ls & IH & Hls & Hps)].
    + left. by destruct (fulfilled_values _).
    + right. exists (l :: ls). destruct (fulfilled_values _) as [vs|]; [|done].
      injection IH as ->. by split_and!; [|constructor..].
Qed.

Lemma non_null_Some ls : non_null (map Some ls) = ls.
Proof. unfold non_null. induction ls as [|l ls IH]; [done|]. simpl. f_equal. exact IH. Qed.

(** The creature the producer builds from the species record. *)
Definition formatted (identifier : string) (data : ApiPokemon) (ability : string)
    (moves : loc) : PokemonOf loc :=
  {| pd_id := api_id data;
     pd_apiId := identifier;
     pd_name := Str.capitalize (api_name data);
     pd_hp := getStat data "hp";
     pd_attack := getStat data "attack";
     pd_defense := getStat data "defense";
     pd_speed := getStat data "speed";
     pd_spriteUrl := spriteUrl data;
     pd_moves := moves;
     pd_abilityName := ability |}.

Lemma resumePokemonMoves_live s tid identifier p data ps ls ability :
  live s tid (PokemonMoves identifier p data ps) ->
  promise_all s ps = AllFulfilled (map Some ls) ->
  abilityName data = Some ability ->
  exists s',
    resumePokemonMoves s tid = Some s'
    /\ store s'
       = store s ++ [CArray ls; CPokemon (formatted identifier data ability (length (store s)))]
    /\ escaped s' = escaped s
    /\ promises s' = <[p := Fulfilled (Some (S (length (store s))))]> (promises s)
    /\ tasks s' = <[tid := None]> (tasks s)
    /\ requests s' = requests s
    /\ moveFetchPromises s' = moveFetchPromises s
    /\ pokemonFetchPromises s' = delete identifier (pokemonFetchPromises s)
    /\ moveDataCache s' = moveDataCache s
    /\ pokemonDataCache s' = <[identifier := S (length (store s))]> (pokemonDataCache s).
Proof.
  intros H Hall Hab. unfold resumePokemonMoves. rewrite H, Hall, Hab, non_null_Some.
  eexists. split; [reflexivity|]. simpl.
  rewrite <- app_assoc, length_app. simpl. rewrite Nat.add_1_r. by split_and!.
Qed.

Lemma Inv_resumePokemonMoves s tid s' :
  Inv s -> resumePokemonMoves s tid = Some s' -> Inv s'.
Proof.
  intros HI Hstep.
  assert (exists identifier p data ps, live s tid (PokemonMoves identifier p data ps))
    as (identifier & p & data & ps & Htid).
  { unfold resumePokemonMoves in Hstep. unfold live.
    destruct (tasks s !! tid) as [[[]|]|]; try done. by eexists _, _, _, _. }
  assert (pokemon_producer (PokemonMoves identifier p data ps) identifier p) as Hprod
    by (right; by eexists _, _).
  destruct (promise_all_results s ps (inv_tasks s HI _ _ Htid)) as [Hall | (ls & Hall & Hls & _)].
  { unfold resumePokemonMoves in Hstep. by rewrite Htid, Hall in Hstep. }
  destruct (abilityName data) as [ability|] eqn:Hab; last first.
  { unfold resumePokemonMoves in Hstep. rewrite Htid, Hall, Hab in Hstep.
    injection Hstep as <-. by eapply Inv_producerFails. }
  destruct (resumePokemonMoves_live _ _ _ _ _ _ _ _ Htid Hall Hab)
    as (s'' & Heq & Hs & He & Hps & Ht & _ & Hmf & Hpf & Hmc & Hpc).
  rewrite Hstep in Heq. injection Heq as <-.
  assert (heap_ext s s') as Hheap.
  { split; rewrite ?Hs, ?He; [rewrite length_app; lia | | done].
    intros l Hl _. by rewrite lookup_app_l. }
  assert (forall l, l ∈ escaped s -> l < length (store s)) as Hesc by apply (inv_escaped s HI).
  apply (Inv_complete s s' tid (PokemonMoves identifier p data ps)
           (Fulfilled (Some (S (length (store s)))))).
  - done.
  - done.
  - done.
  - intros l. rewrite He, Hs, length_app. intros H. apply Hesc in H. simpl. lia.
  - done.
  - done.
  - simpl. right. eexists. split; [done|]. split.
    + rewrite He. intros H. apply Hesc in H. lia.
    + exists (formatted identifier data ability (length (store s))), ls. rewrite Hs, He.
      split_and!.
      * rewrite lookup_app_r by lia. by replace (S (length (store s)) - length (store s)) with 1 by lia.
      * simpl. intros H. apply Hesc in H. lia.
      * simpl. by rewrite lookup_app_r, Nat.sub_diag by lia.
      * eapply Forall_impl; [exact Hls|]. intros l. by apply good_move_ext.
  - done.
  - done.
  - intros n l. rewrite Hmc. by left.
  - intros k l. rewrite Hpc. destruct (decide (k = identifier)) as [->|Hne].
    + rewrite lookup_insert_eq. intros [= <-]. right. by exists p.
    + rewrite lookup_insert_ne by done. by left.
Qed.

(** ** A call of [getPokemonDetails] resumes *)

Lemma resumePokemonAwait_live s tid identifier p ret l d ms :
  live s tid (PokemonAwait identifier p ret) ->
  promises s !! p = Some (Fulfilled (Some l)) ->
  store s !! l = Some (CPokemon d) -> read_array (store s) (pd_moves d) = Some ms ->
  exists s',
    resumePokemonAwait s tid = Some s'
    /\ store s' = store s ++ pokemon_copy (store s) d ms
    /\ escaped s' = escaped s ∪ set_seq (length (store s)) (length ms + 2)
    /\ promises s' = <[ret := Fulfilled (Some (length (store s) + length ms + 1))]> (promises s)
    /\ tasks s' = <[tid := None]> (tasks s)
    /\ requests s' = requests s
    /\ moveFetchPromises s' = moveFetchPromises s
    /\ pokemonFetchPromises s' = pokemonFetchPromises s
    /\ moveDataCache s' = moveDataCache s
    /\ pokemonDataCache s' = pokemonDataCache s.
Proof.
  intros H Hp Hl Hr. unfold resumePokemonAwait.
  rewrite H, Hp, (clone_for_pokemon _ _ _ _ _ Hl Hr).
  eexists. split; [reflexivity|]. simpl. split_and!; try done.
  rewrite length_app, length_pokemon_copy. do 2 f_equal. lia.
Qed.

Lemma resumePokemonAwait_rejected s tid identifier p ret :
  live s tid (PokemonAwait identifier p ret) ->
  promises s !! p = Some Rejected ->
  resumePokemonAwait s tid = Some (settle (finish s tid) ret (Fulfilled None)).
Proof. intros H Hp. unfold resumePokemonAwait. by rewrite H, Hp. Qed.

Lemma Inv_resumePokemonAwait s tid s' :
  Inv s -> resumePokemonAwait s tid = Some s' -> Inv s'.
Proof.
  intros HI Hstep.
  assert (exists identifier p ret, live s tid (PokemonAwait identifier p ret))
    as (identifier & p & ret & Htid).
  { unfold resumePokemonAwait in Hstep. unfold live.
    destruct (tasks s !! tid) as [[[]|]|]; try done. by eexists _, _, _. }
  destruct (inv_tasks s HI _ _ Htid) as [[Hpend _] | [(l & Hp & Hl) | Hrej]].
  - unfold resumePokemonAwait in Hstep. by rewrite Htid, Hpend in Hstep.
  - destruct (good_pokemon_cell s l Hl) as (d & ms & Hd & Hr).
    destruct (resumePokemonAwait_live _ _ _ _ _ _ _ _ Htid Hp Hd Hr)
      as (s'' & Heq & Hs & He & Hps & Ht & _ & Hmf & Hpf & Hmc & Hpc).
    rewrite Hstep in Heq. injection Heq as <-.
    assert (heap_ext s s') as Hheap.
    { eapply (heap_ext_hand_over s s' External (pokemon_copy (store s) d ms));
        [by apply inv_escaped | done |].
      rewrite He. simpl. rewrite length_app, length_pokemon_copy. do 2 f_equal. lia. }
    apply (Inv_complete s s' tid (PokemonAwait identifier p ret)
             (Fulfilled (Some (length (store s) + length ms + 1)))).
    + done.
    + done.
    + done.
    + intros q. rewrite He, Hs, length_app, length_pokemon_copy, elem_of_union, elem_of_set_seq.
      intros [H | H]; [apply (inv_escaped s HI) in H|]; lia.
    + done.
    + done.
    + done.
    + done.
    + done.
    + intros n q. rewrite Hmc. by left.
    + intros k q. rewrite Hpc. by left.
  - rewrite (resumePokemonAwait_rejected _ _ _ _ _ Htid Hrej) in Hstep. injection Hstep as <-.
    apply (Inv_complete s _ tid (PokemonAwait identifier p ret) (Fulfilled None)).
    + done.
    + done.
    + by apply heap_ext_refl.
    + exact (inv_escaped s HI).
    + done.
    + done.
    + done.
    + done.
    + done.
    + intros n q. by left.
    + intros k q. by left.
Qed.

(** ** The callers' side *)

Lemma Inv_mutate s l c s' : Inv s -> mutate s l c = Some s' -> Inv s'.
Proof.
  intros HI Hstep. unfold mutate in Hstep.
  destruct (decide _) as [(Hl & Hlt & Hc)|]; [|done]. injection Hstep as <-.
  apply (Inv_extend_none s _ []); try done.
  - split; simpl.
    + by rewrite length_insert.
    + intros q _ Hq. apply list_lookup_insert_ne. by intros ->.
    + done.
  - intros q. simpl. rewrite length_insert. by apply inv_escaped.
  - simpl. by rewrite app_nil_r.
Qed.

Lemma Inv_allocate s c s' : Inv s -> allocate s c = Some s' -> Inv s'.
Proof.
  intros HI Hstep. unfold allocate in Hstep.
  destruct (decide _) as [Hc|]; [|done]. injection Hstep as <-.
  apply (Inv_extend_none s _ []); try done.
  - by eapply (heap_ext_hand_over s _ External [c]); [apply inv_escaped|..].
  - intros q. apply (escaped_hand_over_bound s External [c] q HI).
  - simpl. by rewrite app_nil_r.
Qed.

(** ** Every reachable state *)

Lemma Inv_step s e s' : Inv s -> step s e = Some s' -> Inv s'.
Proof.
  intros HI Hstep. destruct e; simpl in Hstep.
  - injection Hstep as <-. by apply Inv_getMoveDetails.
  - injection Hstep as <-. by apply Inv_getPokemonDetails.
  - by eapply Inv_moveResponse.
  - by eapply Inv_pokemonResponse.
  - unfold resume in Hstep. destruct (tasks s !! tid) as [[[]|]|]; try done.
    + by eapply Inv_resumeMoveAwait.
    + by eapply Inv_resumePokemonMoves.
    + by eapply Inv_resumePokemonAwait.
  - by eapply Inv_mutate.
  - by eapply Inv_allocate.
Qed.

Lemma Inv_run s es s' : Inv s -> run s es = Some s' -> Inv s'.
Proof.
  revert s. induction es as [|e es IH]; intros s HI; simpl.
  - by intros [= <-].
  - destruct (step s e) as [s1|] eqn:Hstep; [|done]. intros H.
    eapply IH; [|done]. by eapply Inv_step.
Qed.

Lemma Inv_reachable s : reachable s -> Inv s.
Proof. intros [es H]. eapply Inv_run; [apply Inv_initial | done]. Qed.

(** ** What a step leaves as it is *)

(** From [s] to [s'] in one step: the objects of the layer and the settled
    promises stay as they are, a cache entry stays in place, and a pending
    entry stays, with its promise pending and no new request for its key,
    until the step that settles its promise removes it. *)
Record frame (s s' : State) : Prop := {
  frame_heap : heap_ext s s';
  frame_settled :
    forall q v, promises s !! q = Some v -> v ≠ Pending -> promises s' !! q = Some v;
  frame_moveDataCache :
    forall moveName l, moveDataCache s !! moveName = Some l -> moveDataCache s' !! moveName = Some l;
  frame_pokemonDataCache :
    forall identifier l,
      pokemonDataCache s !! identifier = Some l -> pokemonDataCache s' !! identifier = Some l;
  frame_moveFetch :
    forall moveName p,
      moveFetchPromises s !! moveName = Some p ->
      move_requests s' moveName = move_requests s moveName
      /\ ((moveFetchPromises s' !! moveName = Some p /\ promises s' !! p = Some Pending)
          \/ (moveFetchPromises s' !! moveName = None
              /\ exists v, promises s' !! p = Some v /\ v ≠ Pending));
  frame_pokemonFetch :
    forall identifier p,
      pokemonFetchPromises s !! identifier = Some p ->
      pokemon_requests s' identifier = pokemon_requests s identifier
      /\ ((pokemonFetchPromises s' !! identifier = Some p /\ promises s' !! p = Some Pending)
          \/ (pokemonFetchPromises s' !! identifier = None
              /\ exists v, promises s' !! p = Some v /\ v ≠ Pending))
}.

Lemma pending_move s moveName p :
  Inv s -> moveFetchPromises s !! moveName = Some p -> promises s !! p = Some Pending.
Proof.
  intros HI H. apply (inv_moveFetch s HI) in H as [tid H]. apply (inv_pending s HI _ _ H).
Qed.

Lemma pending_pokemon s identifier p :
  Inv s -> pokemonFetchPromises s !! identifier = Some p -> promises s !! p = Some Pending.
Proof.
  intros HI H. apply (inv_pokemonFetch s HI) in H as (tid & t & H & Hprod).
  replace p with (target t) by (by destruct Hprod as [->|(? & ? & ->)]).
  apply (inv_pending s HI _ _ H).
Qed.

(** After a call, and after the producer of a creature has called
    [getMoveDetails] for each move and gone on to wait. *)
Lemma frame_extends s s1 s' :
  extends s s1 -> Inv s' ->
  store s' = store s1 -> escaped s' = escaped s1 -> promises s' = promises s1 ->
  requests s' = requests s1 ->
  moveFetchPromises s' = moveFetchPromises s1 ->
  pokemonFetchPromises s' = pokemonFetchPromises s1 ->
  moveDataCache s' = moveDataCache s1 ->
  pokemonDataCache s' = pokemonDataCache s1 ->
  frame s s'.
Proof.
  intros [Hg He Hmc Hpc Hmf Hpf] HI' Hs Hesc Hp Hr Hmf' Hpf' Hmc' Hpc'.
  destruct Hg as [[Hlen Hstore Hescaped] [newp Hnewp] _]. split.
  - split; rewrite ?Hs, ?Hesc; done.
  - intros q v Hq _. rewrite Hp, Hnewp. by apply lookup_app_l_Some.
  - intros n l. by rewrite Hmc', Hmc.
  - intros k l. by rewrite Hpc', Hpc.
  - intros n p H. destruct (Hmf n p H) as [H1 Hr1]. unfold move_requests in *. rewrite Hr.
    split; [done|]. left. rewrite Hmf'. split; [done|].
    apply (pending_move s' n p HI'). by rewrite Hmf'.
  - intros k p H. destruct (Hpf k p H) as [H1 Hr1]. unfold pokemon_requests in *. rewrite Hr.
    split; [done|]. left. rewrite Hpf'. split; [done|].
    apply (pending_pokemon s' k p HI'). by rewrite Hpf'.
Qed.

(** After a suspended function has returned. *)
Lemma frame_complete s s' tid t v :
  Inv s -> live s tid t ->
  heap_ext s s' ->
  promises s' = <[target t := v]> (promises s) ->
  v ≠ Pending ->
  requests s' = requests s ->
  moveFetchPromises s' = without_move t (moveFetchPromises s) ->
  pokemonFetchPromises s' = without_pokemon t (pokemonFetchPromises s) ->
  (forall moveName l, moveDataCache s !! moveName = Some l -> moveDataCache s' !! moveName = Some l) ->
  (forall identifier l,
     pokemonDataCache s !! identifier = Some l -> pokemonDataCache s' !! identifier = Some l) ->
  frame s s'.
Proof.
  intros HI Htid Hheap Hp Hv Hr Hmf Hpf Hmc Hpc.
  assert (target t < length (promises s)) as Hlt.
  { eapply lookup_lt_Some. by eapply inv_pending. }
  assert (promises s' !! target t = Some v) as Hself.
  { rewrite Hp. by apply list_lookup_insert_eq. }
  assert (forall q, q ≠ target t -> promises s' !! q = promises s !! q) as Hother.
  { intros q Hq. rewrite Hp. by apply list_lookup_insert_ne. }
  assert (forall tid' t', live s tid' t' -> tid' ≠ tid -> promises s' !! target t' = Some Pending)
    as Hkeep.
  { intros tid' t' H Hne. rewrite Hother; [by eapply inv_pending|].
    intros Heq. apply Hne. by eapply inv_distinct. }
  split.
  - done.
  - intros q w Hq Hw. rewrite Hother; [done|]. intros ->.
    rewrite (inv_pending s HI tid t Htid) in Hq. congruence.
  - done.
  - done.
  - intros n p H. unfold move_requests. rewrite Hr. split; [done|]. rewrite Hmf.
    pose proof H as [tid' Htid']%(inv_moveFetch s HI).
    destruct (decide (tid' = tid)) as [->|Hne].
    + right. unfold live in *. assert (t = MoveFetch n p) as -> by congruence.
      simpl. rewrite lookup_delete_eq. eauto.
    + left. split; [|by apply (Hkeep tid' (MoveFetch n p))].
      destruct t; simpl; try done. rewrite lookup_delete_ne; [done|]. intros ->.
      assert (moveFetchPromises s !! n = Some p0) as H0
        by (apply (inv_moveFetch s HI); by exists tid).
      apply Hne. eapply inv_distinct; [done..|]. simpl. congruence.
  - intros k p H. unfold pokemon_requests. rewrite Hr. split; [done|]. rewrite Hpf.
    pose proof H as (tid' & t' & Htid' & Hprod)%(inv_pokemonFetch s HI).
    assert (target t' = p) as Htp by (by destruct Hprod as [->|(? & ? & ->)]).
    destruct (decide (tid' = tid)) as [->|Hne].
    + right. unfold live in *. assert (t = t') as -> by congruence.
      rewrite <- Htp. split; [|eauto].
      destruct Hprod as [->|(? & ? & ->)]; simpl; by rewrite lookup_delete_eq.
    + left. split; [|rewrite <- Htp; by apply (Hkeep tid' t')].
      assert (forall k0 p0, pokemon_producer t k0 p0 -> k0 ≠ k) as Hkey.
      { intros k0 p0 Hprod0 ->.
        assert (pokemonFetchPromises s !! k = Some p0) as H0
          by (apply (inv_pokemonFetch s HI); by exists tid, t).
        assert (p0 = p) as -> by congruence.
        apply Hne. eapply inv_distinct; [done..|]. rewrite Htp.
        by destruct Hprod0 as [->|(? & ? & ->)]. }
      destruct t; simpl; try done; rewrite lookup_delete_ne; try done.
      * eapply Hkey. by left.
      * eapply Hkey. right. by eexists _, _.
Qed.


Lemma frame_producerFails s tid t identifier p :
  Inv s -> live s tid t -> pokemon_producer t identifier p ->
  frame s (producerFails s tid identifier p).
Proof.
  intros HI Htid Hprod.
  assert (target t = p) as Htarget by (by destruct Hprod as [->|(? & ? & ->)]).
  apply (frame_complete s _ tid t Rejected).
  - done.
  - done.
  - by apply heap_ext_refl.
  - simpl. by rewrite Htarget.
  - done.
  - done.
  - by destruct Hprod as [->|(? & ? & ->)].
  - by destruct Hprod as [->|(? & ? & ->)].
  - done.
  - done.
Qed.

Lemma frame_step s e s' : Inv s -> step s e = Some s' -> frame s s'.
Proof.
  intros HI Hstep. pose proof (Inv_step s e s' HI Hstep) as HI'.
  destruct e as [moveInfo | idOrName | tid response | tid response | tid | l c | c];
    simpl in Hstep.
  - (* a call of getMoveDetails *)
    injection Hstep as <-.
    destruct (Inv_getMoveDetails External s moveInfo HI) as (_ & Hext & _).
    by eapply frame_extends.
  - (* a call of getPokemonDetails *)
    injection Hstep as <-.
    destruct (Inv_getPokemonDetails s idOrName HI) as (_ & Hext).
    by eapply frame_extends.
  - (* the answer to a move request *)
    assert (exists moveName p, live s tid (MoveFetch moveName p)) as (moveName & p & Htid).
    { unfold moveResponse in Hstep. unfold live.
      destruct (tasks s !! tid) as [[[]|]|]; try done. by eexists _, _. }
    destruct (moveResponse_live s tid moveName p response Htid)
      as (s'' & Heq & Hs & He & Hp & Ht & Hr & Hmf & Hpf & Hmc & Hpc).
    rewrite Hstep in Heq. injection Heq as <-.
    apply (frame_complete s s' tid (MoveFetch moveName p)
             (Fulfilled (Some (length (store s))))).
    + done.
    + done.
    + split; rewrite ?Hs, ?He; [rewrite length_app; lia | | done].
      intros q Hq _. by rewrite lookup_app_l.
    + done.
    + done.
    + done.
    + done.
    + done.
    + intros n l Hn. rewrite Hmc. destruct response; [|done].
      rewrite lookup_insert_ne; [done|]. intros <-.
      assert (moveFetchPromises s !! moveName = Some p) as Hm
        by (apply (inv_moveFetch s HI); by exists tid).
      rewrite (inv_move_uncached s HI _ _ Hm) in Hn. done.
    + intros k l. by rewrite Hpc.
  - (* the answer to a species request *)
    unfold pokemonResponse in Hstep.
    destruct (tasks s !! tid) as [[[| |identifier p| |]|]|] eqn:Htid; try done.
    destruct response as [data|].
    + destruct (Inv_getMoveDetails_each s (selectMoves data) HI) as (_ & Hext & _).
      destruct (getMoveDetails_each s (selectMoves data)) as [s1 ps]; simpl in *.
      injection Hstep as <-. by eapply frame_extends.
    + injection Hstep as <-. eapply frame_producerFails; [done | exact Htid | by left].
  - (* a suspended function resumes *)
    unfold resume in Hstep.
    destruct (tasks s !! tid) as [[[| moveName p ret o | | identifier p data ps
                                     | identifier p ret]|]|] eqn:Htid; try done.
    + destruct (inv_tasks s HI _ _ Htid) as [[Hpend _] | (l & Hp & Hl)].
      { by rewrite (resumeMoveAwait_pending _ _ _ _ _ _ Htid Hpend) in Hstep. }
      pose proof Hl as [_ [m Hm]].
      destruct (resumeMoveAwait_live _ _ _ _ _ _ _ _ Htid Hp Hm)
        as (s'' & Heq & Hs & He & Hps & Ht & Hr & Hmf & Hpf & Hmc & Hpc).
      rewrite Hstep in Heq. injection Heq as <-.
      apply (frame_complete s s' tid (MoveAwait moveName p ret o)
               (Fulfilled (Some (length (store s))))).
      * done.
      * done.
      * eapply (heap_ext_hand_over s s' o [CMove m]); [by apply inv_escaped| |done].
        rewrite Hs. by destruct o.
      * done.
      * done.
      * done.
      * done.
      * done.
      * intros n q. by rewrite Hmc.
      * intros k q. by rewrite Hpc.
    + assert (pokemon_producer (PokemonMoves identifier p data ps) identifier p) as Hprod
        by (right; by eexists _, _).
      destruct (promise_all_results s ps (inv_tasks s HI _ _ Htid))
        as [Hall | (ls & Hall & Hls & _)].
      { unfold resumePokemonMoves in Hstep. by rewrite Htid, Hall in Hstep. }
      destruct (abilityName data) as [ability|] eqn:Hab; last first.
      { unfold resumePokemonMoves in Hstep. rewrite Htid, Hall, Hab in Hstep.
        injection Hstep as <-. by eapply frame_producerFails. }
      destruct (resumePokemonMoves_live _ _ _ _ _ _ _ _ Htid Hall Hab)
        as (s'' & Heq & Hs & He & Hps & Ht & Hr & Hmf & Hpf & Hmc & Hpc).
      rewrite Hstep in Heq. injection Heq as <-.
      apply (frame_complete s s' tid (PokemonMoves identifier p data ps)
               (Fulfilled (Some (S (length (store s)))))).
      * done.
      * done.
      * split; rewrite ?Hs, ?He; [rewrite length_app; lia | | done].
        intros q Hq _. by rewrite lookup_app_l.
      * done.
      * done.
      * done.
      * done.
      * done.
      * intros n q. by rewrite Hmc.
      * intros k q Hk. rewrite Hpc. rewrite lookup_insert_ne; [done|]. intros <-.
        assert (pokemonFetchPromises s !! identifier = Some p) as Hm
          by (apply (inv_pokemonFetch s HI); by eexists tid, _).
        rewrite (inv_pokemon_uncached s HI _ _ Hm) in Hk. done.
    + destruct (inv_tasks s HI _ _ Htid) as [[Hpend _] | [(l & Hp & Hl) | Hrej]].
      * unfold resumePokemonAwait in Hstep. by rewrite Htid, Hpend in Hstep.
      * destruct (good_pokemon_cell s l Hl) as (d & ms & Hd & Hrd).
        destruct (resumePokemonAwait_live _ _ _ _ _ _ _ _ Htid Hp Hd Hrd)
          as (s'' & Heq & Hs & He & Hps & Ht & Hr & Hmf & Hpf & Hmc & Hpc).
        rewrite Hstep in Heq. injection Heq as <-.
        apply (frame_complete s s' tid (PokemonAwait identifier p ret)
                 (Fulfilled (Some (length (store s) + length ms + 1)))).
        -- done.
        -- done.
        -- eapply (heap_ext_hand_over s s' External (pokemon_copy (store s) d ms));
             [by apply inv_escaped | done |].
           rewrite He. simpl. rewrite length_app, length_pokemon_copy. do 2 f_equal. lia.
        -- done.
        -- done.
        -- done.
        -- done.
        -- done.
        -- intros n q. by rewrite Hmc.
        -- intros k q. by rewrite Hpc.
      * rewrite (resumePokemonAwait_rejected _ _ _ _ _ Htid Hrej) in Hstep.
        injection Hstep as <-.
        by apply (frame_complete s _ tid (PokemonAwait identifier p ret) (Fulfilled None)).
  - (* a caller writes to an object it holds *)
    unfold mutate in Hstep.
    destruct (decide _) as [(Hl & Hlt & Hc)|]; [|done]. injection Hstep as <-.
    eapply (frame_extends s _ _); [|done..].
    apply extends_quiet; try done; [|exact (inv_escaped _ HI')].
    split; [|exists []; simpl; by rewrite app_nil_r..].
    split; simpl; [by rewrite length_insert | | done].
    intros q _ Hq. apply list_lookup_insert_ne. by intros ->.
  - (* a caller makes an object *)
    unfold allocate in Hstep.
    destruct (decide _) as [Hc|]; [|done]. injection Hstep as <-.
    eapply (frame_extends s _ _); [|done..].
    apply extends_quiet; try done; [|exact (inv_escaped _ HI')].
    split; [|exists []; simpl; by rewrite app_nil_r..].
    by eapply (heap_ext_hand_over s _ External [c]); [apply inv_escaped|..].
Qed.

(** Over a run: the objects of the layer, the settled promises and the
    cache entries stay as they are. *)
Lemma heap_ext_trans s1 s2 s3 :
  (forall l, l ∈ escaped s2 -> l < length (store s2)) ->
  heap_ext s1 s2 -> heap_ext s2 s3 -> heap_ext s1 s3.
Proof.
  intros Hesc [Hl1 Hs1 He1] [Hl2 Hs2 He2]. split.
  - lia.
  - intros l Hl Hne. rewrite Hs2, Hs1; [done.. | lia | auto].
  - intros l Hl H. apply He1; [done|]. apply He2; [lia | done].
Qed.

Lemma run_frame s es s' :
  Inv s -> run s es = Some s' ->
  heap_ext s s'
  /\ (forall q v, promises s !! q = Some v -> v ≠ Pending -> promises s' !! q = Some v)
  /\ (forall moveName l,
        moveDataCache s !! moveName = Some l -> moveDataCache s' !! moveName = Some l)
  /\ (forall identifier l,
        pokemonDataCache s !! identifier = Some l -> pokemonDataCache s' !! identifier = Some l).
Proof.
  revert s. induction es as [|e es IH]; intros s HI; simpl.
  - intros [= <-]. by split_and!.
  - destruct (step s e) as [s1|] eqn:Hstep; [|done]. intros Hrun.
    pose proof (Inv_step s e s1 HI Hstep) as HI1.
    destruct (frame_step s e s1 HI Hstep) as [Hh Hp Hmc Hpc _ _].
    destruct (IH s1 HI1 Hrun) as (Hh' & Hp' & Hmc' & Hpc').
    split_and!; eauto.
    eapply heap_ext_trans; [exact (inv_escaped s1 HI1) | done..].
Qed.

(** ** Cache immutability *)

(** The value a call made in state [s] returns without waiting: the
    content of the object its promise is fulfilled with. *)
Definition returned_pokemon (s : State) (idOrName : string) : option PokemonData :=
  let '(s', ret) := getPokemonDetails s idOrName in
  match promises s' !! ret with
  | Some (Fulfilled (Some l)) => read_pokemon (store s') l
  | _ => None
  end.

Definition returned_move (s : State) (moveInfo : MoveInfo) : option Move :=
  let '(s', ret) := getMoveDetails External s moveInfo in
  match promises s' !! ret with
  | Some (Fulfilled (Some l)) => read_move (store s') l
  | _ => None
  end.

(** The objects a value is made of. *)
Definition footprint (h : heap) (l : loc) : list loc :=
  match h !! l with
  | Some (CMove _) => [l]
  | Some (CArray elems) => l :: elems
  | Some (CPokemon d) =>
      l :: pd_moves d
        :: match h !! pd_moves d with
           | Some (CArray elems) => elems
           | _ => []
           end
  | None => []
  end.

Lemma footprint_pokemon_copy h d ms :
  footprint (h ++ pokemon_copy h d ms) (length h + length ms + 1)
  = (length h + length ms + 1) :: (length h + length ms) :: seq (length h) (length ms).
Proof.
  unfold footprint, pokemon_copy, array_copy.
  rewrite lookup_app_r by lia. rewrite lookup_app_r by (rewrite length_app, length_map; simpl; lia).
  rewrite length_app, length_map. simpl.
  replace (length h + length ms + 1 - length h - (length ms + 1)) with 0 by lia. simpl.
  rewrite lookup_app_r by lia. rewrite <- app_assoc. rewrite lookup_app_r by (rewrite length_map; lia).
  rewrite length_map. by replace (length h + length ms - length h - length ms) with 0 by lia.
Qed.

Lemma call_cached_pokemon s idOrName l :
  Inv s -> pokemonDataCache s !! Str.toLowerCase idOrName = Some l ->
  exists pd l' new,
    read_pokemon (store s) l = Some pd
    /\ store (getPokemonDetails s idOrName).1 = store s ++ new
    /\ promises (getPokemonDetails s idOrName).1 !! (getPokemonDetails s idOrName).2
       = Some (Fulfilled (Some l'))
    /\ read_pokemon (store (getPokemonDetails s idOrName).1) l' = Some pd
    /\ Forall (fun q => length (store s) <= q)
         (footprint (store (getPokemonDetails s idOrName).1) l').
Proof.
  intros HI Hc.
  destruct (good_pokemon_cell s l) as (d & ms & Hl & Hr); [by eapply inv_pokemonDataCache|].
  rewrite (getPokemonDetails_cached _ _ _ _ _ Hc Hl Hr). simpl.
  exists (with_moves d ms), (length (store s) + length ms + 1), (pokemon_copy (store s) d ms).
  split_and!.
  - unfold read_pokemon. by rewrite Hl, Hr.
  - done.
  - by rewrite lookup_app_r, Nat.sub_diag by lia.
  - apply read_pokemon_copy.
  - rewrite footprint_pokemon_copy. repeat constructor; try lia.
    apply Forall_forall. intros q Hq%elem_of_seq. lia.
Qed.

Lemma call_cached_move s moveInfo l :
  Inv s -> moveDataCache s !! mi_name moveInfo = Some l ->
  exists m l' new,
    read_move (store s) l = Some m
    /\ store (getMoveDetails External s moveInfo).1 = store s ++ new
    /\ promises (getMoveDetails External s moveInfo).1 !! (getMoveDetails External s moveInfo).2
       = Some (Fulfilled (Some l'))
    /\ read_move (store (getMoveDetails External s moveInfo).1) l' = Some m
    /\ Forall (fun q => length (store s) <= q)
         (footprint (store (getMoveDetails External s moveInfo).1) l').
Proof.
  intros HI Hc. destruct (inv_moveDataCache s HI _ _ Hc) as [_ [m Hm]].
  rewrite (getMoveDetails_cached _ _ _ _ _ Hc Hm). simpl.
  exists m, (length (store s)), [CMove m]. unfold read_move, footprint. rewrite Hm.
  rewrite !lookup_app_r, !Nat.sub_diag by lia. simpl. split_and!; try done.
  by repeat constructor.
Qed.

Lemma returned_pokemon_cached s idOrName pd :
  Inv s ->
  returned_pokemon s idOrName = Some pd
  <-> exists l, pokemonDataCache s !! Str.toLowerCase idOrName = Some l
                /\ read_pokemon (store s) l = Some pd.
Proof.
  intros HI. unfold returned_pokemon.
  destruct (pokemonDataCache s !! Str.toLowerCase idOrName) as [l|] eqn:Hc.
  - destruct (call_cached_pokemon s idOrName l HI Hc) as (pd' & l' & new & Hr & _ & Hp & Hr' & _).
    destruct (getPokemonDetails s idOrName) as [s' ret]. simpl in *. rewrite Hp, Hr'.
    split; [intros [= <-]; eauto | intros (l0 & [= <-] & ?); congruence].
  - split; [|by intros (? & ? & _)]. intros H. exfalso.
    destruct (pokemonFetchPromises s !! Str.toLowerCase idOrName) as [p|] eqn:Hp.
    + rewrite (getPokemonDetails_pending _ _ _ Hc Hp) in H. simpl in H.
      by rewrite lookup_app_r, Nat.sub_diag in H by lia.
    + rewrite (getPokemonDetails_fetch _ _ Hc Hp) in H. simpl in H.
      rewrite lookup_app_r in H by (rewrite length_app; simpl; lia).
      rewrite length_app in H. simpl in H.
      by replace (S (length (promises s)) - (length (promises s) + 1)) with 0 in H by lia.
Qed.

Lemma returned_move_cached s moveInfo m :
  Inv s ->
  returned_move s moveInfo = Some m
  <-> exists l, moveDataCache s !! mi_name moveInfo = Some l /\ read_move (store s) l = Some m.
Proof.
  intros HI. unfold returned_move.
  destruct (moveDataCache s !! mi_name moveInfo) as [l|] eqn:Hc.
  - destruct (call_cached_move s moveInfo l HI Hc) as (m' & l' & new & Hr & _ & Hp & Hr' & _).
    destruct (getMoveDetails External s moveInfo) as [s' ret]. simpl in *. rewrite Hp, Hr'.
    split; [intros [= <-]; eauto | intros (l0 & [= <-] & ?); congruence].
  - split; [|by intros (? & ? & _)]. intros H. exfalso.
    destruct (moveFetchPromises s !! mi_name moveInfo) as [p|] eqn:Hp.
    + rewrite (getMoveDetails_pending _ _ _ _ Hc Hp) in H. simpl in H.
      by rewrite lookup_app_r, Nat.sub_diag in H by lia.
    + rewrite (getMoveDetails_fetch _ _ _ Hc Hp) in H. simpl in H.
      rewrite lookup_app_r in H by (rewrite length_app; simpl; lia).
      rewrite length_app in H. simpl in H.
      by replace (S (length (promises s)) - (length (promises s) + 1)) with 0 in H by lia.
Qed.

(** C9.  In every state the server can reach:
    - the cache entries are objects no caller holds (they have not
      escaped, nor have the objects they refer to);
    - whatever happens next, a caller's writes to the objects it was given
      included, a cache entry stays in place and holds the same value;
    - a call for a cached key returns a new object, made of new objects
      only, that holds the value of the entry; the store as it was is left
      untouched;
    - so the value a call returns is the value every later call for the
      same key returns, whatever the callers did in between. *)
Theorem cache_immutability s :
  reachable s ->
  ((forall identifier l, pokemonDataCache s !! identifier = Some l -> good_pokemon s l)
   /\ (forall moveName l, moveDataCache s !! moveName = Some l -> good_move s l))
  /\ (forall es s',
        run s es = Some s' ->
        (forall identifier l,
           pokemonDataCache s !! identifier = Some l ->
           pokemonDataCache s' !! identifier = Some l
           /\ read_pokemon (store s') l = read_pokemon (store s) l)
        /\ (forall moveName l,
              moveDataCache s !! moveName = Some l ->
              moveDataCache s' !! moveName = Some l
              /\ read_move (store s') l = read_move (store s) l))
  /\ (forall idOrName l,
        pokemonDataCache s !! Str.toLowerCase idOrName = Some l ->
        exists pd l' new,
          read_pokemon (store s) l = Some pd
          /\ store (getPokemonDetails s idOrName).1 = store s ++ new
          /\ promises (getPokemonDetails s idOrName).1 !! (getPokemonDetails s idOrName).2
             = Some (Fulfilled (Some l'))
          /\ read_pokemon (store (getPokemonDetails s idOrName).1) l' = Some pd
          /\ Forall (fun q => length (store s) <= q)
               (footprint (store (getPokemonDetails s idOrName).1) l'))
  /\ (forall moveInfo l,
        moveDataCache s !! mi_name moveInfo = Some l ->
        exists m l' new,
          read_move (store s) l = Some m
          /\ store (getMoveDetails External s moveInfo).1 = store s ++ new
          /\ promises (getMoveDetails External s moveInfo).1
             !! (getMoveDetails External s moveInfo).2
             = Some (Fulfilled (Some l'))
          /\ read_move (store (getMoveDetails External s moveInfo).1) l' = Some m
          /\ Forall (fun q => length (store s) <= q)
               (footprint (store (getMoveDetails External s moveInfo).1) l'))
  /\ (forall idOrName pd es s',
        returned_pokemon s idOrName = Some pd -> run s es = Some s' ->
        returned_pokemon s' idOrName = Some pd)
  /\ (forall moveInfo m es s',
        returned_move s moveInfo = Some m -> run s es = Some s' ->
        returned_move s' moveInfo = Some m).
Proof.
  intros Hreach. pose proof (Inv_reachable s Hreach) as HI.
  assert (forall es s',
            run s es = Some s' ->
            (forall identifier l,
               pokemonDataCache s !! identifier = Some l ->
               pokemonDataCache s' !! identifier = Some l
               /\ read_pokemon (store s') l = read_pokemon (store s) l)
            /\ (forall moveName l,
                  moveDataCache s !! moveName = Some l ->
                  moveDataCache s' !! moveName = Some l
                  /\ read_move (store s') l = read_move (store s) l)) as Hstable.
  { intros es s' Hrun. destruct (run_frame s es s' HI Hrun) as (Hheap & _ & Hmc & Hpc).
    split.
    - intros k l Hk. split; [by apply Hpc|].
      apply read_pokemon_ext; [done | by eapply inv_pokemonDataCache].
    - intros n l Hn. split; [by apply Hmc|].
      apply read_move_ext; [done | by eapply inv_moveDataCache]. }
  split_and!.
  - apply (inv_pokemonDataCache s HI).
  - apply (inv_moveDataCache s HI).
  - exact Hstable.
  - intros idOrName l. by apply call_cached_pokemon.
  - intros moveInfo l. by apply call_cached_move.
  - intros idOrName pd es s' Hret Hrun.
    apply (returned_pokemon_cached s idOrName pd HI) in Hret as (l & Hc & Hr).
    destruct (Hstable es s' Hrun) as [Hp _]. destruct (Hp _ _ Hc) as [Hc' Hr'].
    apply returned_pokemon_cached; [by eapply Inv_run|]. exists l. split; [done | congruence].
  - intros moveInfo m es s' Hret Hrun.
    apply (returned_move_cached s moveInfo m HI) in Hret as (l & Hc & Hr).
    destruct (Hstable es s' Hrun) as [_ Hm]. destruct (Hm _ _ Hc) as [Hc' Hr'].
    apply returned_move_cached; [by eapply Inv_run|]. exists l. split; [done | congruence].
Qed.

(** ** Coalescing *)

(** Calls for a key whose fetch is pending: no request, no new pending
    entry; each call waits on the pending promise. *)
Lemma calls_while_pending_pokemon idOrName p N s :
  pokemonDataCache s !! Str.toLowerCase idOrName = None ->
  pokemonFetchPromises s !! Str.toLowerCase idOrName = Some p ->
  exists s',
    run s (replicate N (CallPokemon idOrName)) = Some s'
    /\ requests s' = requests s
    /\ pokemonFetchPromises s' = pokemonFetchPromises s
    /\ pokemonDataCache s' = pokemonDataCache s
    /\ (exists new, promises s' = promises s ++ new)
    /\ length (tasks s') = length (tasks s) + N
    /\ (forall tid t, live s tid t -> live s' tid t)
    /\ forall i, i < N ->
         exists ret, live s' (length (tasks s) + i) (PokemonAwait (Str.toLowerCase idOrName) p ret).
Proof.
  revert s. induction N as [|N IH]; intros s Hc Hp; simpl.
  - exists s. split_and!; try done; try (intros; lia). exists []. by rewrite app_nil_r.
  - rewrite (getPokemonDetails_pending _ _ _ Hc Hp). simpl.
    set (s1 := awaiting_pokemon s (Str.toLowerCase idOrName) p).
    destruct (IH s1) as (s' & Hrun & Hr & Hpf & Hpc & [new Hnew] & Hlen & Hlive & Hnew_live);
      [done.. |].
    exists s'. split_and!; try done.
    + exists ([Pending] ++ new). rewrite Hnew. simpl. by rewrite <- app_assoc.
    + rewrite Hlen. simpl. rewrite length_app. simpl. lia.
    + intros tid t H. apply Hlive. unfold live. simpl. by apply lookup_app_l_Some.
    + intros [|i] Hi.
      * exists (length (promises s)). apply Hlive. unfold live. simpl.
        by rewrite Nat.add_0_r, lookup_app_r, Nat.sub_diag by lia.
      * destruct (Hnew_live i) as [ret Hret]; [lia|]. exists ret.
        simpl in Hret. rewrite length_app in Hret. simpl in Hret.
        by replace (length (tasks s) + S i) with (length (tasks s) + 1 + i) by lia.
Qed.

Lemma calls_while_pending_move moveInfo p N s :
  moveDataCache s !! mi_name moveInfo = None ->
  moveFetchPromises s !! mi_name moveInfo = Some p ->
  exists s',
    run s (replicate N (CallMove moveInfo)) = Some s'
    /\ requests s' = requests s
    /\ moveFetchPromises s' = moveFetchPromises s
    /\ moveDataCache s' = moveDataCache s
    /\ (exists new, promises s' = promises s ++ new)
    /\ length (tasks s') = length (tasks s) + N
    /\ (forall tid t, live s tid t -> live s' tid t)
    /\ forall i, i < N ->
         exists ret, live s' (length (tasks s) + i) (MoveAwait (mi_name moveInfo) p ret External).
Proof.
  revert s. induction N as [|N IH]; intros s Hc Hp; simpl.
  - exists s. split_and!; try done; try (intros; lia). exists []. by rewrite app_nil_r.
  - rewrite (getMoveDetails_pending _ _ _ _ Hc Hp). simpl.
    set (s1 := awaiting_move External s (mi_name moveInfo) p).
    destruct (IH s1) as (s' & Hrun & Hr & Hpf & Hpc & [new Hnew] & Hlen & Hlive & Hnew_live);
      [done.. |].
    exists s'. split_and!; try done.
    + exists ([Pending] ++ new). rewrite Hnew. simpl. by rewrite <- app_assoc.
    + rewrite Hlen. simpl. rewrite length_app. simpl. lia.
    + intros tid t H. apply Hlive. unfold live. simpl. by apply lookup_app_l_Some.
    + intros [|i] Hi.
      * exists (length (promises s)). apply Hlive. unfold live. simpl.
        by rewrite Nat.add_0_r, lookup_app_r, Nat.sub_diag by lia.
      * destruct (Hnew_live i) as [ret Hret]; [lia|]. exists ret.
        simpl in Hret. rewrite length_app in Hret. simpl in Hret.
        by replace (length (tasks s) + S i) with (length (tasks s) + 1 + i) by lia.
Qed.

(** [N + 1] calls for a key that is neither cached nor pending: one
    request, one pending entry, and every call waits on its promise. *)
Lemma concurrent_calls_pokemon idOrName N s :
  pokemonDataCache s !! Str.toLowerCase idOrName = None ->
  pokemonFetchPromises s !! Str.toLowerCase idOrName = None ->
  exists s' p,
    run s (replicate (S N) (CallPokemon idOrName)) = Some s'
    /\ requests s' = requests s ++ [ReqPokemon (Str.toLowerCase idOrName)]
    /\ pokemonFetchPromises s' = <[Str.toLowerCase idOrName := p]> (pokemonFetchPromises s)
    /\ promises s' !! p = Some Pending
    /\ live s' (length (tasks s)) (PokemonFetch (Str.toLowerCase idOrName) p)
    /\ forall i, i <= N ->
         exists ret,
           live s' (S (length (tasks s) + i)) (PokemonAwait (Str.toLowerCase idOrName) p ret).
Proof.
  intros Hc Hp. simpl. rewrite (getPokemonDetails_fetch _ _ Hc Hp). simpl.
  set (k := Str.toLowerCase idOrName) in *.
  set (s1 := awaiting_pokemon (fetching_pokemon s k) k (length (promises s))).
  destruct (calls_while_pending_pokemon idOrName (length (promises s)) N s1)
    as (s' & Hrun & Hr & Hpf & Hpc & [new Hnew] & Hlen & Hlive & Hnew_live).
  { done. }
  { simpl. by rewrite lookup_insert_eq. }
  exists s', (length (promises s)). split_and!; try done.
  - rewrite Hnew. simpl. rewrite <- !app_assoc. by rewrite lookup_app_r, Nat.sub_diag by lia.
  - apply Hlive. unfold live. simpl. rewrite <- app_assoc.
    by rewrite lookup_app_r, Nat.sub_diag by lia.
  - intros [|i] Hi.
    + exists (S (length (promises s))). apply Hlive. unfold live. simpl.
      rewrite Nat.add_0_r. rewrite lookup_app_r by (rewrite length_app; simpl; lia).
      rewrite !length_app. simpl.
      replace (S (length (tasks s)) - (length (tasks s) + 1)) with 0 by lia.
      simpl. do 3 f_equal. lia.
    + destruct (Hnew_live i) as [ret Hret]; [lia|]. exists ret.
      simpl in Hret. rewrite !length_app in Hret. simpl in Hret.
      by replace (S (length (tasks s) + S i)) with (length (tasks s) + 1 + 1 + i) by lia.
Qed.

Lemma concurrent_calls_move moveInfo N s :
  moveDataCache s !! mi_name moveInfo = None ->
  moveFetchPromises s !! mi_name moveInfo = None ->
  exists s' p,
    run s (replicate (S N) (CallMove moveInfo)) = Some s'
    /\ requests s' = requests s ++ [ReqMove (mi_name moveInfo) (mi_url moveInfo)]
    /\ moveFetchPromises s' = <[mi_name moveInfo := p]> (moveFetchPromises s)
    /\ promises s' !! p = Some Pending
    /\ live s' (length (tasks s)) (MoveFetch (mi_name moveInfo) p)
    /\ forall i, i <= N ->
         exists ret,
           live s' (S (length (tasks s) + i)) (MoveAwait (mi_name moveInfo) p ret External).
Proof.
  intros Hc Hp. simpl. rewrite (getMoveDetails_fetch _ _ _ Hc Hp). simpl.
  set (n := mi_name moveInfo) in *.
  set (s1 := awaiting_move External (fetching_move s n (mi_url moveInfo)) n (length (promises s))).
  destruct (calls_while_pending_move moveInfo (length (promises s)) N s1)
    as (s' & Hrun & Hr & Hpf & Hpc & [new Hnew] & Hlen & Hlive & Hnew_live).
  { done. }
  { simpl. by rewrite lookup_insert_eq. }
  exists s', (length (promises s)). split_and!; try done.
  - rewrite Hnew. simpl. rewrite <- !app_assoc. by rewrite lookup_app_r, Nat.sub_diag by lia.
  - apply Hlive. unfold live. simpl. rewrite <- app_assoc.
    by rewrite lookup_app_r, Nat.sub_diag by lia.
  - intros [|i] Hi.
    + exists (S (length (promises s))). apply Hlive. unfold live. simpl.
      rewrite Nat.add_0_r. rewrite lookup_app_r by (rewrite length_app; simpl; lia).
      rewrite !length_app. simpl.
      replace (S (length (tasks s)) - (length (tasks s) + 1)) with 0 by lia.
      simpl. do 3 f_equal. lia.
    + destruct (Hnew_live i) as [ret Hret]; [lia|]. exists ret.
      simpl in Hret. rewrite !length_app in Hret. simpl in Hret.
      by replace (S (length (tasks s) + S i)) with (length (tasks s) + 1 + 1 + i) by lia.
Qed.


(** What a waiting call receives when it resumes: a copy of the value its
    promise was settled with.  That value stays what it is, so every call
    that waits on the promise receives the same. *)
Lemma resume_pokemon_fulfilled s tid identifier p ret l :
  Inv s -> live s tid (PokemonAwait identifier p ret) ->
  promises s !! p = Some (Fulfilled (Some l)) ->
  exists pd s' l' new,
    read_pokemon (store s) l = Some pd
    /\ resume s tid = Some s'
    /\ store s' = store s ++ new
    /\ promises s' !! ret = Some (Fulfilled (Some l'))
    /\ read_pokemon (store s') l' = Some pd
    /\ Forall (fun q => length (store s) <= q) (footprint (store s') l')
    /\ forall es s2,
         run s es = Some s2 ->
         promises s2 !! p = Some (Fulfilled (Some l)) /\ read_pokemon (store s2) l = Some pd.
Proof.
  intros HI Htid Hp.
  assert (good_pokemon s l) as Hl.
  { destruct (inv_tasks s HI _ _ Htid) as [[Hpend _] | [(l0 & Hp0 & Hl) | Hrej]]; congruence. }
  destruct (good_pokemon_cell s l Hl) as (d & ms & Hd & Hr).
  destruct (resumePokemonAwait_live _ _ _ _ _ _ _ _ Htid Hp Hd Hr)
    as (s' & Heq & Hs & He & Hps & _).
  assert (ret < length (promises s)) as Hret.
  { eapply lookup_lt_Some. apply (inv_pending s HI _ _ Htid). }
  exists (with_moves d ms), s', (length (store s) + length ms + 1), (pokemon_copy (store s) d ms).
  split_and!.
  - unfold read_pokemon. by rewrite Hd, Hr.
  - unfold resume. by rewrite Htid.
  - done.
  - rewrite Hps. by apply list_lookup_insert_eq.
  - rewrite Hs. apply read_pokemon_copy.
  - rewrite Hs, footprint_pokemon_copy. repeat constructor; try lia.
    apply Forall_forall. intros q Hq%elem_of_seq. lia.
  - intros es s2 Hrun. destruct (run_frame s es s2 HI Hrun) as (Hheap & Hsettled & _).
    split; [by apply Hsettled|].
    rewrite (read_pokemon_ext s s2 l Hheap Hl). unfold read_pokemon. by rewrite Hd, Hr.
Qed.

Lemma resume_pokemon_rejected s tid identifier p ret :
  Inv s -> live s tid (PokemonAwait identifier p ret) ->
  promises s !! p = Some Rejected ->
  exists s',
    resume s tid = Some s'
    /\ store s' = store s
    /\ promises s' !! ret = Some (Fulfilled None)
    /\ forall es s2, run s es = Some s2 -> promises s2 !! p = Some Rejected.
Proof.
  intros HI Htid Hp.
  assert (ret < length (promises s)) as Hret.
  { eapply lookup_lt_Some. apply (inv_pending s HI _ _ Htid). }
  eexists. split_and!.
  - unfold resume. rewrite Htid.
    exact (resumePokemonAwait_rejected s tid identifier p ret Htid Hp).
  - done.
  - simpl. by apply list_lookup_insert_eq.
  - intros es s2 Hrun. destruct (run_frame s es s2 HI Hrun) as (_ & Hsettled & _).
    by apply Hsettled.
Qed.

Lemma resume_move_fulfilled s tid moveName p ret o l :
  Inv s -> live s tid (MoveAwait moveName p ret o) ->
  promises s !! p = Some (Fulfilled (Some l)) ->
  exists m s' l' new,
    read_move (store s) l = Some m
    /\ resume s tid = Some s'
    /\ store s' = store s ++ new
    /\ promises s' !! ret = Some (Fulfilled (Some l'))
    /\ read_move (store s') l' = Some m
    /\ Forall (fun q => length (store s) <= q) (footprint (store s') l')
    /\ forall es s2,
         run s es = Some s2 ->
         promises s2 !! p = Some (Fulfilled (Some l)) /\ read_move (store s2) l = Some m.
Proof.
  intros HI Htid Hp.
  assert (good_move s l) as Hl.
  { destruct (inv_tasks s HI _ _ Htid) as [[Hpend _] | (l0 & Hp0 & Hl)]; congruence. }
  pose proof Hl as [_ [m Hm]].
  destruct (resumeMoveAwait_live _ _ _ _ _ _ _ _ Htid Hp Hm) as (s' & Heq & Hs & He & Hps & _).
  assert (ret < length (promises s)) as Hret.
  { eapply lookup_lt_Some. apply (inv_pending s HI _ _ Htid). }
  exists m, s', (length (store s)), [CMove m].
  split_and!.
  - unfold read_move. by rewrite Hm.
  - unfold resume. by rewrite Htid.
  - done.
  - rewrite Hps. by apply list_lookup_insert_eq.
  - rewrite Hs. unfold read_move. by rewrite lookup_app_r, Nat.sub_diag by lia.
  - rewrite Hs. unfold footprint. rewrite lookup_app_r, Nat.sub_diag by lia. simpl.
    by repeat constructor.
  - intros es s2 Hrun. destruct (run_frame s es s2 HI Hrun) as (Hheap & Hsettled & _).
    split; [by apply Hsettled|].
    rewrite (read_move_ext s s2 l Hheap Hl). unfold read_move. by rewrite Hm.
Qed.

(** One producer at work for a key at a time. *)
Lemma one_producer_pokemon s identifier tid1 tid2 t1 t2 p1 p2 :
  Inv s -> live s tid1 t1 -> live s tid2 t2 ->
  pokemon_producer t1 identifier p1 -> pokemon_producer t2 identifier p2 ->
  tid1 = tid2 /\ p1 = p2.
Proof.
  intros HI H1 H2 Hp1 Hp2.
  assert (pokemonFetchPromises s !! identifier = Some p1) as Hm1
    by (apply (inv_pokemonFetch s HI); by exists tid1, t1).
  assert (pokemonFetchPromises s !! identifier = Some p2) as Hm2
    by (apply (inv_pokemonFetch s HI); by exists tid2, t2).
  assert (p1 = p2) as -> by congruence. split; [|done].
  eapply inv_distinct; [done..|].
  destruct Hp1 as [->|(? & ? & ->)], Hp2 as [->|(? & ? & ->)]; done.
Qed.

Lemma one_producer_move s moveName tid1 tid2 p1 p2 :
  Inv s -> live s tid1 (MoveFetch moveName p1) -> live s tid2 (MoveFetch moveName p2) ->
  tid1 = tid2 /\ p1 = p2.
Proof.
  intros HI H1 H2.
  assert (moveFetchPromises s !! moveName = Some p1) as Hm1
    by (apply (inv_moveFetch s HI); by exists tid1).
  assert (moveFetchPromises s !! moveName = Some p2) as Hm2
    by (apply (inv_moveFetch s HI); by exists tid2).
  assert (p1 = p2) as -> by congruence. split; [|done].
  by eapply inv_distinct.
Qed.

(** ** The slots of the suspended functions *)

(** The suspended function an event resumes. *)
Definition slot_of (e : event) : option nat :=
  match e with
  | MoveResponse tid _ | PokemonResponse tid _ | Resume tid => Some tid
  | _ => None
  end.

(** A step changes no other slot. *)
Lemma step_tasks s e s' tid :
  Inv s -> step s e = Some s' -> slot_of e ≠ Some tid -> tid < length (tasks s) ->
  tasks s' !! tid = tasks s !! tid.
Proof.
  intros HI Hstep Hslot Hlt.
  assert (forall s1, extends s s1 -> tasks s1 !! tid = tasks s !! tid) as Hext.
  { intros s1 [[_ _ [new ->]] _ _ _ _ _]. by apply lookup_app_l. }
  assert (forall tid0 x, Some tid0 ≠ Some tid -> <[tid0 := x]> (tasks s) !! tid = tasks s !! tid)
    as Hins.
  { intros tid0 x Hne. apply list_lookup_insert_ne. congruence. }
  destruct e as [moveInfo | idOrName | tid0 response | tid0 response | tid0 | l c | c];
    simpl in Hstep, Hslot.
  - injection Hstep as <-. apply Hext. by apply Inv_getMoveDetails.
  - injection Hstep as <-. apply Hext. by apply Inv_getPokemonDetails.
  - unfold moveResponse in Hstep.
    destruct (tasks s !! tid0) as [[[]|]|]; try done.
    destruct response; injection Hstep as <-; simpl; by apply Hins.
  - unfold pokemonResponse in Hstep.
    destruct (tasks s !! tid0) as [[[]|]|]; try done.
    destruct response as [data|].
    + destruct (Inv_getMoveDetails_each s (selectMoves data) HI) as (_ & Hext1 & _).
      destruct (getMoveDetails_each s (selectMoves data)) as [s1 ps]; simpl in *.
      injection Hstep as <-. simpl. rewrite list_lookup_insert_ne by congruence.
      by apply Hext.
    + injection Hstep as <-. simpl. by apply Hins.
  - unfold resume in Hstep.
    destruct (tasks s !! tid0) as [[[| moveName p ret o | | identifier p data ps
                                      | identifier p ret]|]|] eqn:Htid; try done.
    + destruct (inv_tasks s HI _ _ Htid) as [[Hpend _] | (l & Hp & Hl)].
      { by rewrite (resumeMoveAwait_pending _ _ _ _ _ _ Htid Hpend) in Hstep. }
      pose proof Hl as [_ [m Hm]].
      destruct (resumeMoveAwait_live _ _ _ _ _ _ _ _ Htid Hp Hm) as (s'' & Heq & _ & _ & _ & Ht & _).
      rewrite Hstep in Heq. injection Heq as <-. rewrite Ht. by apply Hins.
    + destruct (promise_all_results s ps (inv_tasks s HI _ _ Htid))
        as [Hall | (ls & Hall & Hls & _)].
      { unfold resumePokemonMoves in Hstep. by rewrite Htid, Hall in Hstep. }
      destruct (abilityName data) as [ability|] eqn:Hab; last first.
      { unfold resumePokemonMoves in Hstep. rewrite Htid, Hall, Hab in Hstep.
        injection Hstep as <-. simpl. by apply Hins. }
      destruct (resumePokemonMoves_live _ _ _ _ _ _ _ _ Htid Hall Hab)
        as (s'' & Heq & _ & _ & _ & Ht & _).
      rewrite Hstep in Heq. injection Heq as <-. rewrite Ht. by apply Hins.
    + destruct (inv_tasks s HI _ _ Htid) as [[Hpend _] | [(l & Hp & Hl) | Hrej]].
      * unfold resumePokemonAwait in Hstep. by rewrite Htid, Hpend in Hstep.
      * destruct (good_pokemon_cell s l Hl) as (d & ms & Hd & Hrd).
        destruct (resumePokemonAwait_live _ _ _ _ _ _ _ _ Htid Hp Hd Hrd)
          as (s'' & Heq & _ & _ & _ & Ht & _).
        rewrite Hstep in Heq. injection Heq as <-. rewrite Ht. by apply Hins.
      * rewrite (resumePokemonAwait_rejected _ _ _ _ _ Htid Hrej) in Hstep.
        injection Hstep as <-. simpl. by apply Hins.
  - unfold mutate in Hstep. destruct (decide _); [|done]. by injection Hstep as <-.
  - unfold allocate in Hstep. destruct (decide _); [|done]. by injection Hstep as <-.
Qed.

(** A slot of a function that has returned stays as it is. *)
Lemma step_returned s e s' tid :
  Inv s -> step s e = Some s' -> tasks s !! tid = Some None -> tasks s' !! tid = Some None.
Proof.
  intros HI Hstep Htid.
  destruct (decide (slot_of e = Some tid)) as [Heq|Hne].
  - exfalso. destruct e; simpl in Heq; try done; injection Heq as ->; simpl in Hstep.
    + unfold moveResponse in Hstep. by rewrite Htid in Hstep.
    + unfold pokemonResponse in Hstep. by rewrite Htid in Hstep.
    + unfold resume in Hstep. by rewrite Htid in Hstep.
  - rewrite (step_tasks s e s' tid HI Hstep Hne); [done|]. by eapply lookup_lt_Some.
Qed.


(** An event on the slot of a function that is neither of the two
    producers at their request resumes that function. *)
Lemma resume_only s e s' tid t :
  live s tid t -> step s e = Some s' -> slot_of e = Some tid ->
  (forall n p, t ≠ MoveFetch n p) -> (forall n p, t ≠ PokemonFetch n p) ->
  resume s tid = Some s'.
Proof.
  intros Hlive Hstep Hslot Hm Hp.
  destruct e; simpl in Hslot; try done; injection Hslot as ->; simpl in Hstep; [| |done].
  - unfold moveResponse in Hstep. rewrite Hlive in Hstep.
    destruct t; try done. by destruct (Hm moveName p).
  - unfold pokemonResponse in Hstep. rewrite Hlive in Hstep.
    destruct t; try done. by destruct (Hp identifier p).
Qed.

Lemma step_live s e s' tid t :
  Inv s -> step s e = Some s' -> live s tid t -> slot_of e ≠ Some tid -> live s' tid t.
Proof.
  intros HI Hstep Hlive Hslot. unfold live.
  rewrite (step_tasks s e s' tid HI Hstep Hslot); [done|]. by eapply lookup_lt_Some.
Qed.

Lemma run_returned s es s' tid :
  Inv s -> run s es = Some s' -> tasks s !! tid = Some None -> tasks s' !! tid = Some None.
Proof.
  revert s. induction es as [|e es IH]; intros s HI; simpl.
  - by intros [= <-].
  - destruct (step s e) as [s1|] eqn:Hstep; [|done]. intros Hrun Hdone.
    apply (IH s1); [by eapply Inv_step | done | by eapply step_returned].
Qed.

Lemma pokemonResponse_data s tid identifier p data :
  live s tid (PokemonFetch identifier p) ->
  pokemonResponse s tid (Some data)
  = Some (suspend (getMoveDetails_each s (selectMoves data)).1 tid
            (PokemonMoves identifier p data (getMoveDetails_each s (selectMoves data)).2)).
Proof.
  intros H. unfold pokemonResponse. rewrite H.
  by destruct (getMoveDetails_each s (selectMoves data)).
Qed.

(** A call that waits on a pending promise cannot resume: it keeps
    waiting, whatever happens. *)
Lemma waiting_on_pending_pokemon s e s' tid identifier p ret :
  Inv s -> live s tid (PokemonAwait identifier p ret) -> promises s !! p = Some Pending ->
  step s e = Some s' -> live s' tid (PokemonAwait identifier p ret).
Proof.
  intros HI Hlive Hp Hstep.
  destruct (decide (slot_of e = Some tid)) as [Hslot|Hslot]; [|by eapply step_live].
  pose proof (resume_only s e s' tid _ Hlive Hstep Hslot ltac:(done) ltac:(done)) as Hres.
  unfold resume in Hres. rewrite Hlive in Hres. unfold resumePokemonAwait in Hres.
  by rewrite Hlive, Hp in Hres.
Qed.

Lemma waiting_on_pending_move s e s' tid moveName p ret o :
  Inv s -> live s tid (MoveAwait moveName p ret o) -> promises s !! p = Some Pending ->
  step s e = Some s' -> live s' tid (MoveAwait moveName p ret o).
Proof.
  intros HI Hlive Hp Hstep.
  destruct (decide (slot_of e = Some tid)) as [Hslot|Hslot]; [|by eapply step_live].
  pose proof (resume_only s e s' tid _ Hlive Hstep Hslot ltac:(done) ltac:(done)) as Hres.
  unfold resume in Hres. rewrite Hlive in Hres.
  by rewrite (resumeMoveAwait_pending s tid moveName p ret o Hlive Hp) in Hres.
Qed.

(** What a call of [getPokemonDetails] that waited on the promise [p]
    receives once [p] is settled.  Either the call has not resumed yet:
    then it can, and when it does it returns and fulfils the promise it
    gave its caller, with a creature that reads as [value] or, when
    [value] is [None], with [null].  Or it has returned, and the promise
    it gave its caller is fulfilled in that way. *)
Definition pokemon_call_receives (s : State) (tid : nat) (identifier : string) (p ret : nat)
    (value : option PokemonData) : Prop :=
  (live s tid (PokemonAwait identifier p ret)
   /\ exists s',
        resume s tid = Some s'
        /\ tasks s' !! tid = Some None
        /\ match value with
           | Some pd =>
               exists l, promises s' !! ret = Some (Fulfilled (Some l))
                         /\ read_pokemon (store s') l = Some pd
           | None => promises s' !! ret = Some (Fulfilled None)
           end)
  \/ (tasks s !! tid = Some None
      /\ match value with
         | Some _ => exists l, promises s !! ret = Some (Fulfilled (Some l))
         | None => promises s !! ret = Some (Fulfilled None)
         end).

(** The same for a call of [getMoveDetails]; it always receives a move. *)
Definition move_call_receives (s : State) (tid : nat) (moveName : string) (p ret : nat)
    (o : owner) (value : Move) : Prop :=
  (live s tid (MoveAwait moveName p ret o)
   /\ exists s' l,
        resume s tid = Some s'
        /\ tasks s' !! tid = Some None
        /\ promises s' !! ret = Some (Fulfilled (Some l))
        /\ read_move (store s') l = Some value)
  \/ (tasks s !! tid = Some None
      /\ exists l, promises s !! ret = Some (Fulfilled (Some l))).

Lemma resume_pokemon_returns s tid identifier p ret l pd :
  Inv s -> live s tid (PokemonAwait identifier p ret) ->
  promises s !! p = Some (Fulfilled (Some l)) -> read_pokemon (store s) l = Some pd ->
  exists s' l',
    resume s tid = Some s'
    /\ tasks s' !! tid = Some None
    /\ promises s' !! ret = Some (Fulfilled (Some l'))
    /\ read_pokemon (store s') l' = Some pd.
Proof.
  intros HI Htid Hp Hread.
  assert (good_pokemon s l) as Hl.
  { destruct (inv_tasks s HI _ _ Htid) as [[Hpend _] | [(l0 & Hp0 & Hl) | Hrej]]; congruence. }
  destruct (good_pokemon_cell s l Hl) as (d & ms & Hd & Hr).
  destruct (resumePokemonAwait_live _ _ _ _ _ _ _ _ Htid Hp Hd Hr)
    as (s' & Heq & Hs & _ & Hps & Ht & _).
  assert (pd = with_moves d ms) as ->.
  { unfold read_pokemon in Hread. rewrite Hd, Hr in Hread. congruence. }
  exists s', (length (store s) + length ms + 1). split_and!.
  - unfold resume. by rewrite Htid.
  - rewrite Ht. apply list_lookup_insert_eq. by eapply lookup_lt_Some.
  - rewrite Hps. apply list_lookup_insert_eq.
    eapply lookup_lt_Some. apply (inv_pending s HI _ _ Htid).
  - rewrite Hs. apply read_pokemon_copy.
Qed.

Lemma resume_pokemon_null s tid identifier p ret :
  Inv s -> live s tid (PokemonAwait identifier p ret) -> promises s !! p = Some Rejected ->
  exists s',
    resume s tid = Some s'
    /\ tasks s' !! tid = Some None
    /\ promises s' !! ret = Some (Fulfilled None).
Proof.
  intros HI Htid Hp. eexists. split_and!.
  - unfold resume. rewrite Htid.
    exact (resumePokemonAwait_rejected s tid identifier p ret Htid Hp).
  - simpl. apply list_lookup_insert_eq. by eapply lookup_lt_Some.
  - simpl. apply list_lookup_insert_eq.
    eapply lookup_lt_Some. apply (inv_pending s HI _ _ Htid).
Qed.

Lemma resume_move_returns s tid moveName p ret o l m :
  Inv s -> live s tid (MoveAwait moveName p ret o) ->
  promises s !! p = Some (Fulfilled (Some l)) -> read_move (store s) l = Some m ->
  exists s' l',
    resume s tid = Some s'
    /\ tasks s' !! tid = Some None
    /\ promises s' !! ret = Some (Fulfilled (Some l'))
    /\ read_move (store s') l' = Some m.
Proof.
  intros HI Htid Hp Hread.
  assert (store s !! l = Some (CMove m)) as Hm.
  { unfold read_move in Hread. by destruct (store s !! l) as [[]|]; simplify_eq. }
  destruct (resumeMoveAwait_live _ _ _ _ _ _ _ _ Htid Hp Hm) as (s' & Heq & Hs & _ & Hps & Ht & _).
  exists s', (length (store s)). split_and!.
  - unfold resume. by rewrite Htid.
  - rewrite Ht. apply list_lookup_insert_eq. by eapply lookup_lt_Some.
  - rewrite Hps. apply list_lookup_insert_eq.
    eapply lookup_lt_Some. apply (inv_pending s HI _ _ Htid).
  - rewrite Hs. unfold read_move. by rewrite lookup_app_r, Nat.sub_diag by lia.
Qed.

(** Once the promise is fulfilled, every call that waits on it receives
    the creature it was fulfilled with, whenever the call resumes. *)
Lemma pokemon_call_fulfilled s es s2 tid identifier p ret l pd :
  Inv s -> live s tid (PokemonAwait identifier p ret) ->
  promises s !! p = Some (Fulfilled (Some l)) -> read_pokemon (store s) l = Some pd ->
  run s es = Some s2 ->
  pokemon_call_receives s2 tid identifier p ret (Some pd).
Proof.
  revert s. induction es as [|e es IH]; intros s HI Hlive Hp Hread; simpl.
  - intros [= <-]. left. split; [done|].
    destruct (resume_pokemon_returns s tid identifier p ret l pd HI Hlive Hp Hread)
      as (s' & l' & Hres & Ht & Hret & Hr).
    exists s'. split_and!; [done | done |]. by exists l'.
  - destruct (step s e) as [s1|] eqn:Hstep; [|done]. intros Hrun.
    pose proof (Inv_step s e s1 HI Hstep) as HI1.
    destruct (decide (slot_of e = Some tid)) as [Hslot|Hslot].
    + right.
      pose proof (resume_only s e s1 tid _ Hlive Hstep Hslot ltac:(done) ltac:(done)) as Hres.
      destruct (resume_pokemon_returns s tid identifier p ret l pd HI Hlive Hp Hread)
        as (s' & l' & Hres' & Ht & Hret & _).
      rewrite Hres in Hres'. injection Hres' as <-.
      split; [by eapply run_returned|]. exists l'.
      destruct (run_frame s1 es s2 HI1 Hrun) as (_ & Hsettled & _). by apply Hsettled.
    + assert (good_pokemon s l) as Hl.
      { destruct (inv_tasks s HI _ _ Hlive) as [[Hpend _] | [(l0 & Hp0 & Hl) | Hrej]];
          congruence. }
      destruct (frame_step s e s1 HI Hstep) as [Hheap Hsettled _ _ _ _].
      apply (IH s1); try done.
      * exact (step_live s e s1 tid _ HI Hstep Hlive Hslot).
      * by apply Hsettled.
      * by rewrite (read_pokemon_ext s s1 l Hheap Hl).
Qed.

(** Once the promise is rejected, every call that waits on it receives
    [null]. *)
Lemma pokemon_call_rejected s es s2 tid identifier p ret :
  Inv s -> live s tid (PokemonAwait identifier p ret) ->
  promises s !! p = Some Rejected ->
  run s es = Some s2 ->
  pokemon_call_receives s2 tid identifier p ret None.
Proof.
  revert s. induction es as [|e es IH]; intros s HI Hlive Hp; simpl.
  - intros [= <-]. left. split; [done|].
    by apply (resume_pokemon_null s tid identifier p ret).
  - destruct (step s e) as [s1|] eqn:Hstep; [|done]. intros Hrun.
    pose proof (Inv_step s e s1 HI Hstep) as HI1.
    destruct (decide (slot_of e = Some tid)) as [Hslot|Hslot].
    + right.
      pose proof (resume_only s e s1 tid _ Hlive Hstep Hslot ltac:(done) ltac:(done)) as Hres.
      destruct (resume_pokemon_null s tid identifier p ret HI Hlive Hp)
        as (s' & Hres' & Ht & Hret).
      rewrite Hres in Hres'. injection Hres' as <-.
      split; [by eapply run_returned|].
      destruct (run_frame s1 es s2 HI1 Hrun) as (_ & Hsettled & _). by apply Hsettled.
    + destruct (frame_step s e s1 HI Hstep) as [_ Hsettled _ _ _ _].
      apply (IH s1); try done.
      * exact (step_live s e s1 tid _ HI Hstep Hlive Hslot).
      * by apply Hsettled.
Qed.

Lemma move_call_fulfilled s es s2 tid moveName p ret o l m :
  Inv s -> live s tid (MoveAwait moveName p ret o) ->
  promises s !! p = Some (Fulfilled (Some l)) -> read_move (store s) l = Some m ->
  run s es = Some s2 ->
  move_call_receives s2 tid moveName p ret o m.
Proof.
  revert s. induction es as [|e es IH]; intros s HI Hlive Hp Hread; simpl.
  - intros [= <-]. left. split; [done|].
    destruct (resume_move_returns s tid moveName p ret o l m HI Hlive Hp Hread)
      as (s' & l' & Hres & Ht & Hret & Hr).
    by exists s', l'.
  - destruct (step s e) as [s1|] eqn:Hstep; [|done]. intros Hrun.
    pose proof (Inv_step s e s1 HI Hstep) as HI1.
    destruct (decide (slot_of e = Some tid)) as [Hslot|Hslot].
    + right.
      pose proof (resume_only s e s1 tid _ Hlive Hstep Hslot ltac:(done) ltac:(done)) as Hres.
      destruct (resume_move_returns s tid moveName p ret o l m HI Hlive Hp Hread)
        as (s' & l' & Hres' & Ht & Hret & _).
      rewrite Hres in Hres'. injection Hres' as <-.
      split; [by eapply run_returned|]. exists l'.
      destruct (run_frame s1 es s2 HI1 Hrun) as (_ & Hsettled & _). by apply Hsettled.
    + assert (good_move s l) as Hl.
      { destruct (inv_tasks s HI _ _ Hlive) as [[Hpend _] | (l0 & Hp0 & Hl)]; congruence. }
      destruct (frame_step s e s1 HI Hstep) as [Hheap Hsettled _ _ _ _].
      apply (IH s1); try done.
      * exact (step_live s e s1 tid _ HI Hstep Hlive Hslot).
      * by apply Hsettled.
      * by rewrite (read_move_ext s s1 l Hheap Hl).
Qed.

(** *** The fetch settles *)

(** The species request is answered: the fetch goes on, the entry stays. *)
Lemma pokemon_fetch_goes_on s tid identifier p data :
  Inv s -> live s tid (PokemonFetch identifier p) ->
  exists s1 ps,
    step s (PokemonResponse tid (Some data)) = Some s1
    /\ live s1 tid (PokemonMoves identifier p data ps)
    /\ pokemonFetchPromises s1 !! identifier = Some p
    /\ promises s1 !! p = Some Pending
    /\ pokemon_requests s1 identifier = pokemon_requests s identifier.
Proof.
  intros HI HF.
  pose proof (pokemonResponse_data s tid identifier p data HF) as Hstep.
  destruct (Inv_getMoveDetails_each s (selectMoves data) HI)
    as (_ & [[_ _ [new Hnew]] _ _ _ _ _] & _).
  set (s0 := (getMoveDetails_each s (selectMoves data)).1) in *.
  set (ps := (getMoveDetails_each s (selectMoves data)).2) in *.
  set (s1 := suspend s0 tid (PokemonMoves identifier p data ps)) in *.
  assert (live s1 tid (PokemonMoves identifier p data ps)) as Hlive.
  { unfold live. simpl. apply list_lookup_insert_eq. rewrite Hnew, length_app.
    apply lookup_lt_Some in HF. lia. }
  assert (Inv s1) as HI1 by (by eapply Inv_pokemonResponse).
  pose proof (inv_pending s1 HI1 _ _ Hlive) as Hpend.
  change (promises s1 !! p = Some Pending) in Hpend.
  assert (pokemonFetchPromises s !! identifier = Some p) as Hentry.
  { apply (inv_pokemonFetch s HI). exists tid, (PokemonFetch identifier p). split; [done|by left]. }
  assert (step s (PokemonResponse tid (Some data)) = Some s1) as Hstep' by exact Hstep.
  destruct (frame_pokemonFetch s s1 (frame_step s _ s1 HI Hstep') identifier p Hentry)
    as [Hreq [[He _] | [_ (v & Hv & Hne)]]].
  - by exists s1, ps.
  - congruence.
Qed.

(** The species request fails: the entry is removed, the promise is
    rejected, and every call that waited on it receives [null]. *)
Lemma pokemon_fetch_fails s tid identifier p :
  Inv s -> live s tid (PokemonFetch identifier p) ->
  exists s1,
    step s (PokemonResponse tid None) = Some s1
    /\ pokemonFetchPromises s1 !! identifier = None
    /\ pokemonDataCache s1 !! identifier = None
    /\ promises s1 !! p = Some Rejected
    /\ requests s1 = requests s
    /\ tasks s1 !! tid = Some None
    /\ forall tid' ret,
         live s tid' (PokemonAwait identifier p ret) ->
         forall es s2, run s1 es = Some s2 ->
           pokemon_call_receives s2 tid' identifier p ret None.
Proof.
  intros HI HF.
  assert (step s (PokemonResponse tid None) = Some (producerFails s tid identifier p)) as Hstep.
  { simpl. unfold pokemonResponse. by rewrite HF. }
  pose proof (Inv_step _ _ _ HI Hstep) as HI1.
  assert (pokemonFetchPromises s !! identifier = Some p) as Hentry.
  { apply (inv_pokemonFetch s HI). exists tid, (PokemonFetch identifier p). split; [done|by left]. }
  assert (promises (producerFails s tid identifier p) !! p = Some Rejected) as Hrej.
  { simpl. apply list_lookup_insert_eq.
    eapply lookup_lt_Some. apply (inv_pending s HI _ _ HF). }
  exists (producerFails s tid identifier p). split_and!; try done.
  - simpl. apply lookup_delete_eq.
  - exact (inv_pokemon_uncached s HI _ _ Hentry).
  - simpl. apply list_lookup_insert_eq. by eapply lookup_lt_Some.
  - intros tid' ret Hlive es s2 Hrun.
    apply (pokemon_call_rejected (producerFails s tid identifier p) es); try done.
    by apply (step_live s _ _ tid' _ HI Hstep); [|simpl; intros [= ->]; congruence].
Qed.

(** The producer resumes after [Promise.all]: the fetch settles.  The
    entry is removed; the creature is cached and every call that waited
    receives a copy of it, or, when the ability's name cannot be
    formatted, the promise is rejected and every such call receives
    [null]. *)
Lemma pokemon_fetch_settles s tid identifier p data ps :
  Inv s -> live s tid (PokemonMoves identifier p data ps) -> promise_all s ps ≠ AllPending ->
  exists s1,
    step s (Resume tid) = Some s1
    /\ pokemonFetchPromises s1 !! identifier = None
    /\ requests s1 = requests s
    /\ tasks s1 !! tid = Some None
    /\ match abilityName data with
       | Some ability =>
           exists l moves ms,
             promises s1 !! p = Some (Fulfilled (Some l))
             /\ pokemonDataCache s1 !! identifier = Some l
             /\ read_pokemon (store s1) l
                = Some (with_moves (formatted identifier data ability moves) ms)
             /\ forall tid' ret,
                  live s tid' (PokemonAwait identifier p ret) ->
                  forall es s2, run s1 es = Some s2 ->
                    pokemon_call_receives s2 tid' identifier p ret
                      (Some (with_moves (formatted identifier data ability moves) ms))
       | None =>
           promises s1 !! p = Some Rejected
           /\ pokemonDataCache s1 !! identifier = None
           /\ forall tid' ret,
                live s tid' (PokemonAwait identifier p ret) ->
                forall es s2, run s1 es = Some s2 ->
                  pokemon_call_receives s2 tid' identifier p ret None
       end.
Proof.
  intros HI HP Hready.
  assert (p < length (promises s)) as Hlt.
  { eapply lookup_lt_Some. apply (inv_pending s HI _ _ HP). }
  assert (tid < length (tasks s)) as Htid by (by eapply lookup_lt_Some).
  assert (pokemonFetchPromises s !! identifier = Some p) as Hentry.
  { apply (inv_pokemonFetch s HI). exists tid, (PokemonMoves identifier p data ps).
    split; [done|]. right. eauto. }
  destruct (promise_all_results s ps (inv_tasks s HI _ _ HP))
    as [Hall | (ls & Hall & Hls & Hvals)]; [done|].
  destruct (abilityName data) as [ability|] eqn:Hab.
  - destruct (resumePokemonMoves_live _ _ _ _ _ _ _ _ HP Hall Hab)
      as (s1 & Heq & Hs & He & Hps & Ht & Hreq & _ & Hpf & _ & Hpc).
    assert (step s (Resume tid) = Some s1) as Hstep.
    { simpl. unfold resume. by rewrite HP. }
    pose proof (Inv_step _ _ _ HI Hstep) as HI1.
    destruct (read_moves_Some (store s) ls) as [ms Hms].
    { eapply Forall_impl; [exact Hls|]. by intros q [_ ?]. }
    assert (promises s1 !! p = Some (Fulfilled (Some (S (length (store s)))))) as Hp1.
    { rewrite Hps. by apply list_lookup_insert_eq. }
    assert (read_pokemon (store s1) (S (length (store s)))
            = Some (with_moves (formatted identifier data ability (length (store s))) ms))
      as Hread.
    { rewrite Hs. unfold read_pokemon, read_array.
      rewrite lookup_app_r by lia.
      replace (S (length (store s)) - length (store s)) with 1 by lia. simpl.
      rewrite lookup_app_r, Nat.sub_diag by lia. simpl.
      by rewrite (read_moves_app _ _ _ _ Hms). }
    exists s1. split_and!; try done.
    + rewrite Hpf. apply lookup_delete_eq.
    + rewrite Ht. by apply list_lookup_insert_eq.
    + exists (S (length (store s))), (length (store s)), ms. split_and!; try done.
      * rewrite Hpc. apply lookup_insert_eq.
      * intros tid' ret Hlive es s2 Hrun.
        apply (pokemon_call_fulfilled s1 es s2 tid' identifier p ret (S (length (store s))));
          try done.
        by apply (step_live s _ _ tid' _ HI Hstep); [|simpl; intros [= ->]; congruence].
  - assert (step s (Resume tid) = Some (producerFails s tid identifier p)) as Hstep.
    { simpl. unfold resume. rewrite HP. unfold resumePokemonMoves. by rewrite HP, Hall, Hab. }
    pose proof (Inv_step _ _ _ HI Hstep) as HI1.
    assert (promises (producerFails s tid identifier p) !! p = Some Rejected) as Hrej.
    { simpl. by apply list_lookup_insert_eq. }
    exists (producerFails s tid identifier p). split_and!; try done.
    + simpl. apply lookup_delete_eq.
    + simpl. by apply list_lookup_insert_eq.
    + exact (inv_pokemon_uncached s HI _ _ Hentry).
    + intros tid' ret Hlive es s2 Hrun.
      apply (pokemon_call_rejected (producerFails s tid identifier p) es); try done.
      by apply (step_live s _ _ tid' _ HI Hstep); [|simpl; intros [= ->]; congruence].
Qed.

(** The request for a move settles, by an answer or by a failure: the
    entry is removed, the promise is fulfilled with the move built from
    the answer or with the fallback move, and every call that waited on
    it receives a copy of that move. *)
Lemma move_fetch_settles s tid moveName p response :
  Inv s -> live s tid (MoveFetch moveName p) ->
  exists s1 l,
    step s (MoveResponse tid response) = Some s1
    /\ moveFetchPromises s1 !! moveName = None
    /\ requests s1 = requests s
    /\ tasks s1 !! tid = Some None
    /\ promises s1 !! p = Some (Fulfilled (Some l))
    /\ read_move (store s1) l = Some (produced_move moveName response)
    /\ forall tid' ret o,
         live s tid' (MoveAwait moveName p ret o) ->
         forall es s2, run s1 es = Some s2 ->
           move_call_receives s2 tid' moveName p ret o (produced_move moveName response).
Proof.
  intros HI HF.
  destruct (moveResponse_live s tid moveName p response HF)
    as (s1 & Heq & Hs & _ & Hp & Ht & Hreq & Hmf & _).
  assert (step s (MoveResponse tid response) = Some s1) as Hstep by exact Heq.
  pose proof (Inv_step _ _ _ HI Hstep) as HI1.
  assert (promises s1 !! p = Some (Fulfilled (Some (length (store s))))) as Hp1.
  { rewrite Hp. apply list_lookup_insert_eq.
    eapply lookup_lt_Some. apply (inv_pending s HI _ _ HF). }
  assert (read_move (store s1) (length (store s)) = Some (produced_move moveName response))
    as Hread.
  { rewrite Hs. unfold read_move. by rewrite lookup_app_r, Nat.sub_diag by lia. }
  exists s1, (length (store s)). split_and!; try done.
  - rewrite Hmf. apply lookup_delete_eq.
  - rewrite Ht. apply list_lookup_insert_eq. by eapply lookup_lt_Some.
  - intros tid' ret o Hlive es s2 Hrun.
    apply (move_call_fulfilled s1 es s2 tid' moveName p ret o (length (store s))); try done.
    by apply (step_live s _ _ tid' _ HI Hstep); [|simpl; intros [= ->]; congruence].
Qed.

(** *** From the calls to what the callers receive *)

Lemma run_app s es1 es2 s1 :
  run s es1 = Some s1 -> run s (es1 ++ es2) = run s1 es2.
Proof.
  revert s. induction es1 as [|e es1 IH]; intros s; simpl.
  - by intros [= <-].
  - destruct (step s e) as [s0|]; [|done]. apply IH.
Qed.

(** A pending entry whose promise is still pending at the end of a run
    has been there all along, and no request was made for its key. *)
Lemma pending_run_pokemon s es s2 identifier p :
  Inv s -> pokemonFetchPromises s !! identifier = Some p ->
  run s es = Some s2 -> promises s2 !! p = Some Pending ->
  pokemonFetchPromises s2 !! identifier = Some p
  /\ pokemon_requests s2 identifier = pokemon_requests s identifier.
Proof.
  revert s. induction es as [|e es IH]; intros s HI Hentry; simpl.
  - by intros [= <-].
  - destruct (step s e) as [s1|] eqn:Hstep; [|done]. intros Hrun Hpend.
    pose proof (Inv_step s e s1 HI Hstep) as HI1.
    destruct (frame_pokemonFetch s s1 (frame_step s e s1 HI Hstep) identifier p Hentry)
      as [Hreq [[He _] | [_ (v & Hv & Hne)]]].
    + destruct (IH s1 HI1 He Hrun Hpend) as [H1 H2]. split; [done | congruence].
    + destruct (run_frame s1 es s2 HI1 Hrun) as (_ & Hsettled & _).
      rewrite (Hsettled p v Hv Hne) in Hpend. congruence.
Qed.

Lemma pending_run_move s es s2 moveName p :
  Inv s -> moveFetchPromises s !! moveName = Some p ->
  run s es = Some s2 -> promises s2 !! p = Some Pending ->
  moveFetchPromises s2 !! moveName = Some p
  /\ move_requests s2 moveName = move_requests s moveName.
Proof.
  revert s. induction es as [|e es IH]; intros s HI Hentry; simpl.
  - by intros [= <-].
  - destruct (step s e) as [s1|] eqn:Hstep; [|done]. intros Hrun Hpend.
    pose proof (Inv_step s e s1 HI Hstep) as HI1.
    destruct (frame_moveFetch s s1 (frame_step s e s1 HI Hstep) moveName p Hentry)
      as [Hreq [[He _] | [_ (v & Hv & Hne)]]].
    + destruct (IH s1 HI1 He Hrun Hpend) as [H1 H2]. split; [done | congruence].
    + destruct (run_frame s1 es s2 HI1 Hrun) as (_ & Hsettled & _).
      rewrite (Hsettled p v Hv Hne) in Hpend. congruence.
Qed.

(** A call that waits on a promise which is still pending at the end of a
    run has waited all along. *)
Lemma waiting_run_pokemon s es s2 tid identifier p ret :
  Inv s -> live s tid (PokemonAwait identifier p ret) ->
  run s es = Some s2 -> promises s2 !! p = Some Pending ->
  live s2 tid (PokemonAwait identifier p ret).
Proof.
  revert s. induction es as [|e es IH]; intros s HI Hlive; simpl.
  - by intros [= <-].
  - destruct (step s e) as [s1|] eqn:Hstep; [|done]. intros Hrun Hpend.
    pose proof (Inv_step s e s1 HI Hstep) as HI1.
    apply (IH s1); try done.
    apply (waiting_on_pending_pokemon s e s1); try done.
    destruct (promises s !! p) as [v|] eqn:Hp.
    + assert (v = Pending \/ v ≠ Pending) as [->|Hne]
        by (destruct v; [by left | by right..]); [done|].
      destruct (run_frame s (e :: es) s2 HI) as (_ & Hsettled & _).
      { simpl. by rewrite Hstep. }
      rewrite (Hsettled p v Hp Hne) in Hpend. congruence.
    + destruct (inv_tasks s HI _ _ Hlive) as [[H _] | [(l & H & _) | H]]; congruence.
Qed.

Lemma waiting_run_move s es s2 tid moveName p ret o :
  Inv s -> live s tid (MoveAwait moveName p ret o) ->
  run s es = Some s2 -> promises s2 !! p = Some Pending ->
  live s2 tid (MoveAwait moveName p ret o).
Proof.
  revert s. induction es as [|e es IH]; intros s HI Hlive; simpl.
  - by intros [= <-].
  - destruct (step s e) as [s1|] eqn:Hstep; [|done]. intros Hrun Hpend.
    pose proof (Inv_step s e s1 HI Hstep) as HI1.
    apply (IH s1); try done.
    apply (waiting_on_pending_move s e s1); try done.
    destruct (promises s !! p) as [v|] eqn:Hp.
    + assert (v = Pending \/ v ≠ Pending) as [->|Hne]
        by (destruct v; [by left | by right..]); [done|].
      destruct (run_frame s (e :: es) s2 HI) as (_ & Hsettled & _).
      { simpl. by rewrite Hstep. }
      rewrite (Hsettled p v Hp Hne) in Hpend. congruence.
    + destruct (inv_tasks s HI _ _ Hlive) as [[H _] | (l & H & _)]; congruence.
Qed.

Lemma pokemon_requests_app s s' identifier :
  requests s' = requests s ++ [ReqPokemon identifier] ->
  pokemon_requests s' identifier = S (pokemon_requests s identifier).
Proof.
  intros H. unfold pokemon_requests. rewrite H, List.filter_app, length_app. simpl.
  rewrite bool_decide_eq_true_2 by done. simpl. lia.
Qed.

Lemma move_requests_app s s' moveName url :
  requests s' = requests s ++ [ReqMove moveName url] ->
  move_requests s' moveName = S (move_requests s moveName).
Proof.
  intros H. unfold move_requests. rewrite H, List.filter_app, length_app. simpl.
  rewrite bool_decide_eq_true_2 by done. simpl. lia.
Qed.

(** [N + 1] calls of [getPokemonDetails] for a key that is neither
    cached nor pending, then anything, until the fetch settles: one
    request has been made for the key, and all the calls receive the
    same value. *)
Lemma concurrent_calls_receive_pokemon idOrName N s :
  Inv s ->
  pokemonDataCache s !! Str.toLowerCase idOrName = None ->
  pokemonFetchPromises s !! Str.toLowerCase idOrName = None ->
  exists s' p,
    run s (replicate (S N) (CallPokemon idOrName)) = Some s'
    /\ (forall i, i <= N ->
          exists ret,
            live s' (S (length (tasks s) + i)) (PokemonAwait (Str.toLowerCase idOrName) p ret))
    /\ forall es s2,
         run s' es = Some s2 ->
         (live s2 (length (tasks s)) (PokemonFetch (Str.toLowerCase idOrName) p) ->
          exists s3,
            step s2 (PokemonResponse (length (tasks s)) None) = Some s3
            /\ pokemon_requests s3 (Str.toLowerCase idOrName)
               = S (pokemon_requests s (Str.toLowerCase idOrName))
            /\ pokemonFetchPromises s3 !! Str.toLowerCase idOrName = None
            /\ forall i ret,
                 i <= N ->
                 live s' (S (length (tasks s) + i))
                   (PokemonAwait (Str.toLowerCase idOrName) p ret) ->
                 forall es' s4,
                   run s3 es' = Some s4 ->
                   pokemon_call_receives s4 (S (length (tasks s) + i))
                     (Str.toLowerCase idOrName) p ret None)
         /\ (forall data ps,
               live s2 (length (tasks s)) (PokemonMoves (Str.toLowerCase idOrName) p data ps) ->
               promise_all s2 ps ≠ AllPending ->
               exists s3 value,
                 step s2 (Resume (length (tasks s))) = Some s3
                 /\ pokemon_requests s3 (Str.toLowerCase idOrName)
                    = S (pokemon_requests s (Str.toLowerCase idOrName))
                 /\ pokemonFetchPromises s3 !! Str.toLowerCase idOrName = None
                 /\ match abilityName data with
                    | Some ability =>
                        exists moves ms,
                          value = Some (with_moves
                                          (formatted (Str.toLowerCase idOrName) data ability moves)
                                          ms)
                    | None => value = None
                    end
                 /\ forall i ret,
                      i <= N ->
                      live s' (S (length (tasks s) + i))
                        (PokemonAwait (Str.toLowerCase idOrName) p ret) ->
                      forall es' s4,
                        run s3 es' = Some s4 ->
                        pokemon_call_receives s4 (S (length (tasks s) + i))
                          (Str.toLowerCase idOrName) p ret value).
Proof.
  intros HI Hc Hp.
  destruct (concurrent_calls_pokemon idOrName N s Hc Hp)
    as (s' & p & Hrun & Hreq & Hpf & Hpend & Hprod & Hcalls).
  set (k := Str.toLowerCase idOrName) in *.
  pose proof (Inv_run s _ s' HI Hrun) as HI'.
  assert (pokemonFetchPromises s' !! k = Some p) as Hentry.
  { rewrite Hpf. apply lookup_insert_eq. }
  exists s', p. split_and!; [done | done |].
  intros es s2 Hrun2.
  pose proof (Inv_run s' _ s2 HI' Hrun2) as HI2.
  assert (forall t, live s2 (length (tasks s)) t -> target t = p ->
            pokemon_requests s2 k = S (pokemon_requests s k)
            /\ forall i ret, live s' (S (length (tasks s) + i)) (PokemonAwait k p ret) ->
                 live s2 (S (length (tasks s) + i)) (PokemonAwait k p ret)) as Hstill.
  { intros t Ht Htarget.
    pose proof (inv_pending s2 HI2 _ _ Ht) as Hp2. rewrite Htarget in Hp2.
    destruct (pending_run_pokemon s' es s2 k p HI' Hentry Hrun2 Hp2) as [_ Hr].
    split; [rewrite Hr; by eapply pokemon_requests_app|].
    intros i ret Hlive. by apply (waiting_run_pokemon s' es s2). }
  split.
  - intros HF. destruct (Hstill _ HF eq_refl) as [Hr Hwait].
    destruct (pokemon_fetch_fails s2 _ k p HI2 HF)
      as (s3 & Hstep & He & _ & _ & Hreq3 & _ & Hrecv).
    exists s3. split_and!; try done.
    + unfold pokemon_requests in *. by rewrite Hreq3.
    + intros i ret _ Hlive es' s4 Hrun4. apply (Hrecv _ _ (Hwait i ret Hlive) es' s4 Hrun4).
  - intros data ps HP Hready. destruct (Hstill _ HP eq_refl) as [Hr Hwait].
    destruct (pokemon_fetch_settles s2 _ k p data ps HI2 HP Hready)
      as (s3 & Hstep & He & Hreq3 & _ & Hcase).
    assert (pokemon_requests s3 k = S (pokemon_requests s k)) as Hr3.
    { unfold pokemon_requests in *. by rewrite Hreq3. }
    destruct (abilityName data) as [ability|].
    + destruct Hcase as (l & moves & ms & _ & _ & _ & Hrecv).
      exists s3, (Some (with_moves (formatted k data ability moves) ms)).
      split_and!; try done; [by exists moves, ms|].
      intros i ret _ Hlive es' s4 Hrun4. apply (Hrecv _ _ (Hwait i ret Hlive) es' s4 Hrun4).
    + destruct Hcase as (_ & _ & Hrecv).
      exists s3, None. split_and!; try done.
      intros i ret _ Hlive es' s4 Hrun4. apply (Hrecv _ _ (Hwait i ret Hlive) es' s4 Hrun4).
Qed.

(** The same for [getMoveDetails]: whether the request is answered or
    fails, all the calls receive the one move made of the answer, or the
    fallback move. *)
Lemma concurrent_calls_receive_move moveInfo N s :
  Inv s ->
  moveDataCache s !! mi_name moveInfo = None ->
  moveFetchPromises s !! mi_name moveInfo = None ->
  exists s' p,
    run s (replicate (S N) (CallMove moveInfo)) = Some s'
    /\ (forall i, i <= N ->
          exists ret,
            live s' (S (length (tasks s) + i)) (MoveAwait (mi_name moveInfo) p ret External))
    /\ forall es s2 response,
         run s' es = Some s2 ->
         live s2 (length (tasks s)) (MoveFetch (mi_name moveInfo) p) ->
         exists s3,
           step s2 (MoveResponse (length (tasks s)) response) = Some s3
           /\ move_requests s3 (mi_name moveInfo) = S (move_requests s (mi_name moveInfo))
           /\ moveFetchPromises s3 !! mi_name moveInfo = None
           /\ forall i ret,
                i <= N ->
                live s' (S (length (tasks s) + i)) (MoveAwait (mi_name moveInfo) p ret External) ->
                forall es' s4,
                  run s3 es' = Some s4 ->
                  move_call_receives s4 (S (length (tasks s) + i)) (mi_name moveInfo) p ret
                    External (produced_move (mi_name moveInfo) response).
Proof.
  intros HI Hc Hp.
  destruct (concurrent_calls_move moveInfo N s Hc Hp)
    as (s' & p & Hrun & Hreq & Hmf & Hpend & Hprod & Hcalls).
  set (n := mi_name moveInfo) in *.
  pose proof (Inv_run s _ s' HI Hrun) as HI'.
  assert (moveFetchPromises s' !! n = Some p) as Hentry.
  { rewrite Hmf. apply lookup_insert_eq. }
  exists s', p. split_and!; [done | done |].
  intros es s2 response Hrun2 HF.
  pose proof (Inv_run s' _ s2 HI' Hrun2) as HI2.
  pose proof (inv_pending s2 HI2 _ _ HF) as Hp2. simpl in Hp2.
  destruct (pending_run_move s' es s2 n p HI' Hentry Hrun2 Hp2) as [_ Hr].
  destruct (move_fetch_settles s2 _ n p response HI2 HF)
    as (s3 & l & Hstep & He & Hreq3 & _ & _ & _ & Hrecv).
  exists s3. split_and!; try done.
  - transitivity (move_requests s2 n); [unfold move_requests; by rewrite Hreq3|].
    rewrite Hr. by eapply move_requests_app.
  - intros i ret _ Hlive es' s4 Hrun4.
    apply (Hrecv _ _ _ (waiting_run_move s' es s2 _ n p ret External HI' Hlive Hrun2 Hp2) es' s4 Hrun4).
Qed.

(** C1.  In every state the server can reach, for [getPokemonDetails] and
    for [getMoveDetails] alike:
    - [N + 1] calls for a key that is neither cached nor pending make one
      request, leave one pending entry, and every one of them waits on
      the promise of that entry;
    - at most one producer is at work for a key, and the pending map
      lists exactly the producers at work;
    - while the entry of a key is there, no step makes a request for the
      key, and a step either leaves the entry with its promise pending
      or removes it together with settling the promise;
    - every call that waits on a promise receives, when it resumes, a
      copy of the value the promise was settled with, and this value
      never changes; if the producer of a creature failed, every such
      call receives [null];
    - a call that waits on a pending promise keeps waiting, whatever
      happens;
    - when the species request is answered the fetch goes on: the entry
      stays, its promise is pending, and no request is made for the key;
    - the fetch of a creature settles by failure when the species
      request fails, or when the producer resumes after [Promise.all]
      and cannot format the ability's name: the entry is removed, nothing
      is cached, the promise is rejected, no request is made, and every
      call that waited on the promise receives [null], whenever it
      resumes ([pokemon_call_receives]);
    - the fetch of a creature settles by success when the producer
      resumes after [Promise.all]: the entry is removed, the creature is
      cached, no request is made, and every call that waited on the
      promise receives a copy of that one creature, whenever it resumes;
    - the fetch of a move settles when its request is answered or fails:
      the entry is removed, no request is made, and every call that
      waited on the promise receives a copy of the one move built from
      the answer, or of the fallback move ([move_call_receives]);
    - from the calls to what the callers receive: after [N + 1] calls
      for a key that is neither cached nor pending, whatever happens
      next, if the producer is still at work then the requests for the
      key are one more than before the calls, also after the event that
      settles the fetch, and after that event each of the [N + 1] calls
      receives the same value, whenever it resumes: [null] after a
      failure, the one creature after a success, the one move for
      [getMoveDetails]. *)
Theorem coalescing s :
  reachable s ->
  ((forall idOrName N,
      pokemonDataCache s !! Str.toLowerCase idOrName = None ->
      pokemonFetchPromises s !! Str.toLowerCase idOrName = None ->
      exists s' p,
        run s (replicate (S N) (CallPokemon idOrName)) = Some s'
        /\ requests s' = requests s ++ [ReqPokemon (Str.toLowerCase idOrName)]
        /\ pokemonFetchPromises s' = <[Str.toLowerCase idOrName := p]> (pokemonFetchPromises s)
        /\ promises s' !! p = Some Pending
        /\ live s' (length (tasks s)) (PokemonFetch (Str.toLowerCase idOrName) p)
        /\ forall i, i <= N ->
             exists ret,
               live s' (S (length (tasks s) + i))
                 (PokemonAwait (Str.toLowerCase idOrName) p ret))
   /\ (forall identifier p,
         pokemonFetchPromises s !! identifier = Some p
         <-> exists tid t, live s tid t /\ pokemon_producer t identifier p)
   /\ (forall identifier tid1 tid2 t1 t2 p1 p2,
         live s tid1 t1 -> live s tid2 t2 ->
         pokemon_producer t1 identifier p1 -> pokemon_producer t2 identifier p2 ->
         tid1 = tid2 /\ p1 = p2)
   /\ (forall identifier p e s',
         pokemonFetchPromises s !! identifier = Some p -> step s e = Some s' ->
         pokemon_requests s' identifier = pokemon_requests s identifier
         /\ ((pokemonFetchPromises s' !! identifier = Some p /\ promises s' !! p = Some Pending)
             \/ (pokemonFetchPromises s' !! identifier = None
                 /\ exists v, promises s' !! p = Some v /\ v ≠ Pending)))
   /\ (forall tid identifier p ret l,
         live s tid (PokemonAwait identifier p ret) ->
         promises s !! p = Some (Fulfilled (Some l)) ->
         exists pd s' l' new,
           read_pokemon (store s) l = Some pd
           /\ resume s tid = Some s'
           /\ store s' = store s ++ new
           /\ promises s' !! ret = Some (Fulfilled (Some l'))
           /\ read_pokemon (store s') l' = Some pd
           /\ Forall (fun q => length (store s) <= q) (footprint (store s') l')
           /\ forall es s2,
                run s es = Some s2 ->
                promises s2 !! p = Some (Fulfilled (Some l))
                /\ read_pokemon (store s2) l = Some pd)
   /\ (forall tid identifier p ret,
         live s tid (PokemonAwait identifier p ret) ->
         promises s !! p = Some Rejected ->
         exists s',
           resume s tid = Some s'
           /\ store s' = store s
           /\ promises s' !! ret = Some (Fulfilled None)
           /\ forall es s2, run s es = Some s2 -> promises s2 !! p = Some Rejected)
   /\ (forall tid identifier p ret e s',
         live s tid (PokemonAwait identifier p ret) ->
         promises s !! p = Some Pending -> step s e = Some s' ->
         live s' tid (PokemonAwait identifier p ret))
   /\ (forall tid identifier p data,
         live s tid (PokemonFetch identifier p) ->
         exists s1 ps,
           step s (PokemonResponse tid (Some data)) = Some s1
           /\ live s1 tid (PokemonMoves identifier p data ps)
           /\ pokemonFetchPromises s1 !! identifier = Some p
           /\ promises s1 !! p = Some Pending
           /\ pokemon_requests s1 identifier = pokemon_requests s identifier)
   /\ (forall tid identifier p,
         live s tid (PokemonFetch identifier p) ->
         exists s1,
           step s (PokemonResponse tid None) = Some s1
           /\ pokemonFetchPromises s1 !! identifier = None
           /\ pokemonDataCache s1 !! identifier = None
           /\ promises s1 !! p = Some Rejected
           /\ requests s1 = requests s
           /\ tasks s1 !! tid = Some None
           /\ forall tid' ret,
                live s tid' (PokemonAwait identifier p ret) ->
                forall es s2, run s1 es = Some s2 ->
                  pokemon_call_receives s2 tid' identifier p ret None)
   /\ (forall tid identifier p data ps,
         live s tid (PokemonMoves identifier p data ps) ->
         promise_all s ps ≠ AllPending ->
         exists s1,
           step s (Resume tid) = Some s1
           /\ pokemonFetchPromises s1 !! identifier = None
           /\ requests s1 = requests s
           /\ tasks s1 !! tid = Some None
           /\ match abilityName data with
              | Some ability =>
                  exists l moves ms,
                    promises s1 !! p = Some (Fulfilled (Some l))
                    /\ pokemonDataCache s1 !! identifier = Some l
                    /\ read_pokemon (store s1) l
                       = Some (with_moves (formatted identifier data ability moves) ms)
                    /\ forall tid' ret,
                         live s tid' (PokemonAwait identifier p ret) ->
                         forall es s2, run s1 es = Some s2 ->
                           pokemon_call_receives s2 tid' identifier p ret
                             (Some (with_moves (formatted identifier data ability moves) ms))
              | None =>
                  promises s1 !! p = Some Rejected
                  /\ pokemonDataCache s1 !! identifier = None
                  /\ forall tid' ret,
                       live s tid' (PokemonAwait identifier p ret) ->
                       forall es s2, run s1 es = Some s2 ->
                         pokemon_call_receives s2 tid' identifier p ret None
              end)
   /\ (forall idOrName N,
       pokemonDataCache s !! Str.toLowerCase idOrName = None ->
       pokemonFetchPromises s !! Str.toLowerCase idOrName = None ->
       exists s' p,
         run s (replicate (S N) (CallPokemon idOrName)) = Some s'
         /\ (forall i, i <= N ->
               exists ret,
                 live s' (S (length (tasks s) + i)) (PokemonAwait (Str.toLowerCase idOrName) p ret))
         /\ forall es s2,
              run s' es = Some s2 ->
              (live s2 (length (tasks s)) (PokemonFetch (Str.toLowerCase idOrName) p) ->
               exists s3,
                 step s2 (PokemonResponse (length (tasks s)) None) = Some s3
                 /\ pokemon_requests s3 (Str.toLowerCase idOrName)
                    = S (pokemon_requests s (Str.toLowerCase idOrName))
                 /\ pokemonFetchPromises s3 !! Str.toLowerCase idOrName = None
                 /\ forall i ret,
                      i <= N ->
                      live s' (S (length (tasks s) + i))
                        (PokemonAwait (Str.toLowerCase idOrName) p ret) ->
                      forall es' s4,
                        run s3 es' = Some s4 ->
                        pokemon_call_receives s4 (S (length (tasks s) + i))
                          (Str.toLowerCase idOrName) p ret None)
              /\ (forall data ps,
                    live s2 (length (tasks s)) (PokemonMoves (Str.toLowerCase idOrName) p data ps) ->
                    promise_all s2 ps ≠ AllPending ->
                    exists s3 value,
                      step s2 (Resume (length (tasks s))) = Some s3
                      /\ pokemon_requests s3 (Str.toLowerCase idOrName)
                         = S (pokemon_requests s (Str.toLowerCase idOrName))
                      /\ pokemonFetchPromises s3 !! Str.toLowerCase idOrName = None
                      /\ match abilityName data with
                         | Some ability =>
                             exists moves ms,
                               value = Some (with_moves
                                               (formatted (Str.toLowerCase idOrName) data ability moves)
                                               ms)
                         | None => value = None
                         end
                      /\ forall i ret,
                           i <= N ->
                           live s' (S (length (tasks s) + i))
                             (PokemonAwait (Str.toLowerCase idOrName) p ret) ->
                           forall es' s4,
                             run s3 es' = Some s4 ->
                             pokemon_call_receives s4 (S (length (tasks s) + i))
                               (Str.toLowerCase idOrName) p ret value)))
  /\ ((forall moveInfo N,
         moveDataCache s !! mi_name moveInfo = None ->
         moveFetchPromises s !! mi_name moveInfo = None ->
         exists s' p,
           run s (replicate (S N) (CallMove moveInfo)) = Some s'
           /\ requests s' = requests s ++ [ReqMove (mi_name moveInfo) (mi_url moveInfo)]
           /\ moveFetchPromises s' = <[mi_name moveInfo := p]> (moveFetchPromises s)
           /\ promises s' !! p = Some Pending
           /\ live s' (length (tasks s)) (MoveFetch (mi_name moveInfo) p)
           /\ forall i, i <= N ->
                exists ret,
                  live s' (S (length (tasks s) + i))
                    (MoveAwait (mi_name moveInfo) p ret External))
      /\ (forall moveName p,
            moveFetchPromises s !! moveName = Some p
            <-> exists tid, live s tid (MoveFetch moveName p))
      /\ (forall moveName tid1 tid2 p1 p2,
            live s tid1 (MoveFetch moveName p1) -> live s tid2 (MoveFetch moveName p2) ->
            tid1 = tid2 /\ p1 = p2)
      /\ (forall moveName p e s',
            moveFetchPromises s !! moveName = Some p -> step s e = Some s' ->
            move_requests s' moveName = move_requests s moveName
            /\ ((moveFetchPromises s' !! moveName = Some p /\ promises s' !! p = Some Pending)
                \/ (moveFetchPromises s' !! moveName = None
                    /\ exists v, promises s' !! p = Some v /\ v ≠ Pending)))
      /\ (forall tid moveName p ret o l,
            live s tid (MoveAwait moveName p ret o) ->
            promises s !! p = Some (Fulfilled (Some l)) ->
            exists m s' l' new,
              read_move (store s) l = Some m
              /\ resume s tid = Some s'
              /\ store s' = store s ++ new
              /\ promises s' !! ret = Some (Fulfilled (Some l'))
              /\ read_move (store s') l' = Some m
              /\ Forall (fun q => length (store s) <= q) (footprint (store s') l')
              /\ forall es s2,
                   run s es = Some s2 ->
                   promises s2 !! p = Some (Fulfilled (Some l))
                   /\ read_move (store s2) l = Some m)
      /\ (forall tid moveName p ret o e s',
            live s tid (MoveAwait moveName p ret o) ->
            promises s !! p = Some Pending -> step s e = Some s' ->
            live s' tid (MoveAwait moveName p ret o))
      /\ (forall tid moveName p response,
            live s tid (MoveFetch moveName p) ->
            exists s1 l,
              step s (MoveResponse tid response) = Some s1
              /\ moveFetchPromises s1 !! moveName = None
              /\ requests s1 = requests s
              /\ tasks s1 !! tid = Some None
              /\ promises s1 !! p = Some (Fulfilled (Some l))
              /\ read_move (store s1) l = Some (produced_move moveName response)
              /\ forall tid' ret o,
                   live s tid' (MoveAwait moveName p ret o) ->
                   forall es s2, run s1 es = Some s2 ->
                     move_call_receives s2 tid' moveName p ret o
                       (produced_move moveName response))
      /\ (forall moveInfo N,
          moveDataCache s !! mi_name moveInfo = None ->
          moveFetchPromises s !! mi_name moveInfo = None ->
          exists s' p,
            run s (replicate (S N) (CallMove moveInfo)) = Some s'
            /\ (forall i, i <= N ->
                  exists ret,
                    live s' (S (length (tasks s) + i)) (MoveAwait (mi_name moveInfo) p ret External))
            /\ forall es s2 response,
                 run s' es = Some s2 ->
                 live s2 (length (tasks s)) (MoveFetch (mi_name moveInfo) p) ->
                 exists s3,
                   step s2 (MoveResponse (length (tasks s)) response) = Some s3
                   /\ move_requests s3 (mi_name moveInfo) = S (move_requests s (mi_name moveInfo))
                   /\ moveFetchPromises s3 !! mi_name moveInfo = None
                   /\ forall i ret,
                        i <= N ->
                        live s' (S (length (tasks s) + i)) (MoveAwait (mi_name moveInfo) p ret External) ->
                        forall es' s4,
                          run s3 es' = Some s4 ->
                          move_call_receives s4 (S (length (tasks s) + i)) (mi_name moveInfo) p ret
                            External (produced_move (mi_name moveInfo) response))).
Proof.
  intros Hreach. pose proof (Inv_reachable s Hreach) as HI.
  split; split_and!.
  - intros idOrName N. apply concurrent_calls_pokemon.
  - apply (inv_pokemonFetch s HI).
  - intros identifier tid1 tid2 t1 t2 p1 p2. by apply one_producer_pokemon.
  - intros identifier p e s' Hp Hstep.
    by apply (frame_pokemonFetch s s' (frame_step s e s' HI Hstep)).
  - intros tid identifier p ret l. by apply resume_pokemon_fulfilled.
  - intros tid identifier p ret. by apply resume_pokemon_rejected.
  - intros tid identifier p ret e s'. by apply waiting_on_pending_pokemon.
  - intros tid identifier p data. by apply pokemon_fetch_goes_on.
  - intros tid identifier p. by apply pokemon_fetch_fails.
  - intros tid identifier p data ps. by apply pokemon_fetch_settles.
  - intros idOrName N. by apply concurrent_calls_receive_pokemon.
  - intros moveInfo N. apply concurrent_calls_move.
  - apply (inv_moveFetch s HI).
  - intros moveName tid1 tid2 p1 p2. by apply one_producer_move.
  - intros moveName p e s' Hp Hstep.
    by apply (frame_moveFetch s s' (frame_step s e s' HI Hstep)).
  - intros tid moveName p ret o l. by apply resume_move_fulfilled.
  - intros tid moveName p ret o e s'. by apply waiting_on_pending_move.
  - intros tid moveName p response. by apply move_fetch_settles.
  - intros moveInfo N. by apply concurrent_calls_receive_move.
Qed.

(** ** The move fallback *)

Lemma read_moves_lookup h ls ms i l :
  read_moves h ls = Some ms -> ls !! i = Some l -> ms !! i = read_move h l.
Proof.
  revert ms i. induction ls as [|l0 ls IH]; intros ms i; simpl; [done|].
  destruct (read_move h l0) as [m0|] eqn:Hm0; [|done].
  destruct (read_moves h ls) as [ms'|]; [|done]. intros [= <-].
  destruct i as [|i]; simpl; [intros [= <-]; done | by apply IH].
Qed.

(** On the way from a failed move request to the creature: the fallback
    move [m] has been put in the producer's promise [p]; the call
    [tidA] of [getMoveDetails] made by the creature's producer [tidP]
    hands a copy of it on through [ret], the promise number [i] of the
    producer's [moveDetailPromises]; in the end the creature is resolved
    and holds [m] as its move number [i]. *)
Section Fallback.
Context (tidP : nat) (identifier : string) (pp : nat) (data : ApiPokemon) (ps : list nat).
Context (i : nat) (ret tidA : nat) (moveName : string) (p : nat) (m : Move) (ability : string).
Hypothesis Hret : ps !! i = Some ret.
Hypothesis Hability : abilityName data = Some ability.

Definition handed_on (s : State) : Prop :=
  (live s tidA (MoveAwait moveName p ret Internal)
   /\ exists l, promises s !! p = Some (Fulfilled (Some l)) /\ good_move s l
                /\ read_move (store s) l = Some m)
  \/ exists l', promises s !! ret = Some (Fulfilled (Some l')) /\ good_move s l'
                /\ read_move (store s) l' = Some m.

Definition resolved (s : State) : Prop :=
  tasks s !! tidP = Some None
  /\ exists l pd,
       promises s !! pp = Some (Fulfilled (Some l))
       /\ pokemonDataCache s !! identifier = Some l
       /\ read_pokemon (store s) l = Some pd
       /\ pd_moves pd !! i = Some m.

Definition on_the_way (s : State) : Prop :=
  resolved s \/ (live s tidP (PokemonMoves identifier pp data ps) /\ handed_on s).

Lemma on_the_way_step s e s' :
  Inv s -> on_the_way s -> step s e = Some s' -> on_the_way s'.
Proof using Hret Hability.
  intros HI Hway Hstep.
  pose proof (Inv_step s e s' HI Hstep) as HI'.
  pose proof (frame_step s e s' HI Hstep) as [Hheap Hsettled _ Hpc _ _].
  destruct Hway as [(Hdone & l & pd & Hpp & Hc & Hr & Hm) | [HP Hhand]].
  - left. split; [exact (step_returned s e s' tidP HI Hstep Hdone)|]. exists l, pd. split_and!; try done.
    + by apply Hsettled.
    + by apply Hpc.
    + rewrite (read_pokemon_ext s s' l Hheap); [done|]. by eapply inv_pokemonDataCache.
  - destruct (decide (slot_of e = Some tidP)) as [Heq|Hne].
    + (* the producer resumes *)
      left.
      assert (resumePokemonMoves s tidP = Some s') as Hres.
      { destruct e; simpl in Heq; try done; injection Heq as ->; simpl in Hstep.
        - unfold moveResponse in Hstep. by rewrite HP in Hstep.
        - unfold pokemonResponse in Hstep. by rewrite HP in Hstep.
        - unfold resume in Hstep. by rewrite HP in Hstep. }
      destruct (promise_all_results s ps (inv_tasks s HI _ _ HP))
        as [Hall | (ls & Hall & Hls & Hvals)].
      { unfold resumePokemonMoves in Hres. by rewrite HP, Hall in Hres. }
      destruct (resumePokemonMoves_live _ _ _ _ _ _ _ _ HP Hall Hability)
        as (s'' & Heq' & Hs & He & Hps & Ht & _ & _ & _ & _ & Hpc').
      rewrite Hres in Heq'. injection Heq' as <-.
      destruct (Forall2_lookup_l _ _ _ _ _ Hvals Hret) as (l' & Hl' & Hretv).
      assert (read_move (store s) l' = Some m) as Hm.
      { destruct Hhand as [[HA _] | (l0 & Hl0 & _ & Hm0)]; [|congruence].
        pose proof (inv_pending s HI _ _ HA) as Hpend. simpl in Hpend. congruence. }
      destruct (read_moves_Some (store s) ls) as [ms Hms].
      { eapply Forall_impl; [exact Hls|]. by intros q [_ ?]. }
      split.
      * rewrite Ht. apply list_lookup_insert_eq. by eapply lookup_lt_Some.
      * exists (S (length (store s))), (with_moves (formatted identifier data ability (length (store s))) ms).
        split_and!.
        -- rewrite Hps. apply list_lookup_insert_eq.
           eapply lookup_lt_Some. apply (inv_pending s HI _ _ HP).
        -- rewrite Hpc'. by apply lookup_insert_eq.
        -- rewrite Hs. unfold read_pokemon, read_array.
           rewrite lookup_app_r by lia.
           replace (S (length (store s)) - length (store s)) with 1 by lia. simpl.
           rewrite lookup_app_r, Nat.sub_diag by lia. simpl.
           by rewrite (read_moves_app _ _ _ _ Hms).
        -- simpl. by rewrite (read_moves_lookup _ _ _ _ _ Hms Hl').
    + (* another step *)
      right. split.
      { unfold live. rewrite (step_tasks s e s' tidP HI Hstep Hne); [done|].
        by eapply lookup_lt_Some. }
      destruct Hhand as [(HA & l & Hp & Hl & Hm) | (l' & Hl' & Hgood & Hm)].
      * destruct (decide (slot_of e = Some tidA)) as [Heq|HneA].
        -- right.
           assert (resumeMoveAwait s tidA = Some s') as Hres.
           { destruct e; simpl in Heq; try done; injection Heq as ->; simpl in Hstep.
             - unfold moveResponse in Hstep. by rewrite HA in Hstep.
             - unfold pokemonResponse in Hstep. by rewrite HA in Hstep.
             - unfold resume in Hstep. by rewrite HA in Hstep. }
           assert (store s !! l = Some (CMove m)) as Hcell.
           { destruct Hl as [_ [m0 Hm0]]. unfold read_move in Hm. rewrite Hm0 in Hm. congruence. }
           destruct (resumeMoveAwait_live _ _ _ _ _ _ _ _ HA Hp Hcell)
             as (s'' & Heq' & Hs & He & Hps & _).
           rewrite Hres in Heq'. injection Heq' as <-.
           exists (length (store s)). split_and!.
           ++ rewrite Hps. apply list_lookup_insert_eq.
              eapply lookup_lt_Some. apply (inv_pending s HI _ _ HA).
           ++ split.
              ** rewrite He. simpl. intros H. apply (inv_escaped s HI) in H. lia.
              ** exists m. rewrite Hs. by rewrite lookup_app_r, Nat.sub_diag by lia.
           ++ rewrite Hs. unfold read_move. by rewrite lookup_app_r, Nat.sub_diag by lia.
        -- left. split.
           { unfold live. rewrite (step_tasks s e s' tidA HI Hstep HneA); [done|].
             by eapply lookup_lt_Some. }
           exists l. split_and!; [by apply Hsettled | by eapply good_move_ext|].
           by rewrite (read_move_ext s s' l Hheap Hl).
      * right. exists l'. split_and!; [by apply Hsettled | by eapply good_move_ext|].
        by rewrite (read_move_ext s s' l' Hheap Hgood).
Qed.

Lemma on_the_way_run s es s' :
  Inv s -> on_the_way s -> run s es = Some s' -> on_the_way s'.
Proof using Hret Hability.
  revert s. induction es as [|e es IH]; intros s HI Hway; simpl.
  - by intros [= <-].
  - destruct (step s e) as [s1|] eqn:Hstep; [|done]. intros Hrun.
    eapply (IH s1); [by eapply Inv_step | by eapply on_the_way_step | done].
Qed.

(** The producer is free to resume once none of its moves is pending. *)
Lemma producer_resumes s :
  Inv s -> live s tidP (PokemonMoves identifier pp data ps) ->
  promise_all s ps ≠ AllPending ->
  exists s', resume s tidP = Some s' /\ tasks s' !! tidP = Some None.
Proof using Hability.
  intros HI HP Hall.
  destruct (promise_all_results s ps (inv_tasks s HI _ _ HP)) as [? | (ls & Hls & _)]; [done|].
  destruct (resumePokemonMoves_live _ _ _ _ _ _ _ _ HP Hls Hability)
    as (s' & Heq & _ & _ & _ & Ht & _).
  exists s'. unfold resume. rewrite HP. split; [done|].
  rewrite Ht. apply list_lookup_insert_eq. by eapply lookup_lt_Some.
Qed.

End Fallback.

(** C2, as amended.  When the request for a move fails while a creature is
    being resolved, the producer of [getMoveDetails] fulfils its promise
    with a move that bears the move's key as it came (not formatted) and
    power 0, and caches nothing.  The creature's producer, which waits
    for this move through [getMoveDetails], is never made to fail by it:
    as long as it is suspended it is free to resume once all its moves
    are settled, and once it has returned its promise is fulfilled with
    the creature, which is cached and holds that move at its place in
    the list of moves. *)
Theorem move_fallback s tidF moveName p :
  reachable s -> live s tidF (MoveFetch moveName p) ->
  exists s1 l,
    moveResponse s tidF None = Some s1
    /\ promises s1 !! p = Some (Fulfilled (Some l))
    /\ read_move (store s1) l = Some {| move_name := moveName; move_power := JNum zero |}
    /\ moveDataCache s1 = moveDataCache s
    /\ moveFetchPromises s1 !! moveName = None
    /\ forall tidP identifier pp data ps i ret tidA ability,
         live s tidP (PokemonMoves identifier pp data ps) ->
         ps !! i = Some ret ->
         live s tidA (MoveAwait moveName p ret Internal) ->
         abilityName data = Some ability ->
         forall es s2,
           run s1 es = Some s2 ->
           (live s2 tidP (PokemonMoves identifier pp data ps)
            /\ (promise_all s2 ps ≠ AllPending ->
                exists s3, resume s2 tidP = Some s3 /\ tasks s3 !! tidP = Some None))
           \/ (tasks s2 !! tidP = Some None
               /\ exists l' pd,
                    promises s2 !! pp = Some (Fulfilled (Some l'))
                    /\ pokemonDataCache s2 !! identifier = Some l'
                    /\ read_pokemon (store s2) l' = Some pd
                    /\ pd_moves pd !! i
                       = Some {| move_name := moveName; move_power := JNum zero |}).
Proof.
  intros Hreach HF. pose proof (Inv_reachable s Hreach) as HI.
  destruct (moveResponse_live s tidF moveName p None HF)
    as (s1 & Hstep & Hs & He & Hp & Ht & _ & Hmf & _ & Hmc & _).
  assert (Inv s1) as HI1 by (by eapply Inv_moveResponse).
  assert (p < length (promises s)) as Hlt.
  { eapply lookup_lt_Some. apply (inv_pending s HI _ _ HF). }
  assert (promises s1 !! p = Some (Fulfilled (Some (length (store s))))) as Hp1.
  { rewrite Hp. by apply list_lookup_insert_eq. }
  assert (read_move (store s1) (length (store s)) = Some (fallbackMove moveName)) as Hr1.
  { rewrite Hs. unfold read_move. by rewrite lookup_app_r, Nat.sub_diag by lia. }
  exists s1, (length (store s)). split_and!; try done.
  { rewrite Hmf. apply lookup_delete_eq. }
  intros tidP identifier pp data ps i ret tidA ability HP Hret HA Hab es s2 Hrun.
  assert (forall tid t, live s tid t -> tid ≠ tidF -> live s1 tid t) as Hlive.
  { intros tid t H Hne. unfold live. rewrite Ht. by rewrite list_lookup_insert_ne. }
  assert (on_the_way tidP identifier pp data ps i ret tidA moveName p (fallbackMove moveName) s1)
    as Hway.
  { right. split.
    - apply Hlive; [done|]. intros ->. unfold live in *. congruence.
    - left. split.
      + apply Hlive; [done|]. intros ->. unfold live in *. congruence.
      + exists (length (store s)). split_and!; try done. split.
        * rewrite He. intros H. apply (inv_escaped s HI) in H. lia.
        * eexists. rewrite Hs. by rewrite lookup_app_r, Nat.sub_diag by lia. }
  pose proof (Inv_run s1 es s2 HI1 Hrun) as HI2.
  destruct (on_the_way_run tidP identifier pp data ps i ret tidA moveName p
              (fallbackMove moveName) ability Hret Hab s1 es s2 HI1 Hway Hrun)
    as [Hdone | [HP2 _]].
  - by right.
  - left. split; [done|]. intros Hall. by eapply producer_resumes.
Qed.

(** ** The example resolution *)

Section ExampleFetch.
Import Example FetchExample.

Lemma reachable_fetching : reachable fetching.
Proof. exists asked. vm_compute. reflexivity. Qed.

Lemma reachable_cached : reachable cached.
Proof. exists (asked ++ delivered). vm_compute. reflexivity. Qed.

Lemma reachable_settled : reachable settled.
Proof.
  exists (asked ++ [MoveResponse 3 (Some JNull); MoveResponse 5 (Some (JNum (of_Z 40)));
                    Resume 4; Resume 6; Resume 0]).
  vm_compute. reflexivity.
Qed.

Lemma reachable_waiting : reachable waiting.
Proof. exists [CallPokemon "129"; CallPokemon "129"]. vm_compute. reflexivity. Qed.

Lemma reachable_ready : reachable ready.
Proof.
  exists (asked ++ [MoveResponse 3 (Some JNull); MoveResponse 5 (Some (JNum (of_Z 40)));
                    Resume 4; Resume 6]).
  vm_compute. reflexivity.
Qed.

Lemma reachable_sharing : reachable sharing.
Proof. exists (asked ++ [CallMove (moveInfo "tackle")]). vm_compute. reflexivity. Qed.

(** Three calls for creature 25, which nobody has asked for, make one
    request.  Two callers wait for creature 129.  When the species
    request fails, the entry is removed and both receive [null], the
    second one also when it resumes after the first.  When the request
    and those of the two moves are answered and the producer resumes,
    the entry is removed, the creature is cached and both callers receive
    the same creature.  When the request for [tackle] fails, the entry is
    removed and the two calls that wait for the move, the producer's and
    one from outside, both receive the fallback move.  From the start:
    two calls for creature 129, then the species request fails, and both
    receive [null]; two calls, then the request and those of the moves
    are answered and the producer resumes, and both receive the one
    creature; two calls for [tackle], then the request fails, and both
    receive the fallback move; each time one request has been made. *)
Lemma coalescing_witness :
  (exists s' p,
     run settled (replicate 3 (CallPokemon "25")) = Some s'
     /\ requests s' = requests settled ++ [ReqPokemon "25"]
     /\ pokemonFetchPromises s' !! "25" = Some p
     /\ promises s' !! p = Some Pending)
  /\ (exists pd s1 l1 s2 l2,
        resume settled 1 = Some s1
        /\ promises s1 !! 1 = Some (Fulfilled (Some l1))
        /\ read_pokemon (store s1) l1 = Some pd
        /\ resume settled 2 = Some s2
        /\ promises s2 !! 2 = Some (Fulfilled (Some l2))
        /\ read_pokemon (store s2) l2 = Some pd)
  /\ (exists s1 s2,
        pokemonFetchPromises waiting !! "129" = Some 0
        /\ step waiting (PokemonResponse 0 None) = Some s1
        /\ pokemonFetchPromises s1 !! "129" = None
        /\ promises s1 !! 0 = Some Rejected
        /\ requests s1 = [ReqPokemon "129"]
        /\ pokemon_call_receives s1 1 "129" 0 1 None
        /\ pokemon_call_receives s1 2 "129" 0 2 None
        /\ run s1 [Resume 1] = Some s2
        /\ pokemon_call_receives s2 2 "129" 0 2 None)
  /\ (exists s1 l moves ms,
        pokemonFetchPromises ready !! "129" = Some 0
        /\ step ready (Resume 0) = Some s1
        /\ pokemonFetchPromises s1 !! "129" = None
        /\ pokemonDataCache s1 !! "129" = Some l
        /\ read_pokemon (store s1) l
           = Some (with_moves (formatted "129" magikarp "Swift Swim" moves) ms)
        /\ pokemon_call_receives s1 1 "129" 0 1
             (Some (with_moves (formatted "129" magikarp "Swift Swim" moves) ms))
        /\ pokemon_call_receives s1 2 "129" 0 2
             (Some (with_moves (formatted "129" magikarp "Swift Swim" moves) ms)))
  /\ (exists s1,
        moveFetchPromises sharing !! "tackle" = Some 5
        /\ step sharing (MoveResponse 5 None) = Some s1
        /\ moveFetchPromises s1 !! "tackle" = None
        /\ requests s1 = requests sharing
        /\ move_call_receives s1 6 "tackle" 5 6 Internal (fallbackMove "tackle")
        /\ move_call_receives s1 7 "tackle" 5 7 External (fallbackMove "tackle"))
  /\ (exists s3,
        run initial (replicate 2 (CallPokemon "129") ++ [PokemonResponse 0 None]) = Some s3
        /\ pokemon_requests s3 "129" = 1
        /\ pokemonFetchPromises s3 !! "129" = None
        /\ pokemon_call_receives s3 1 "129" 0 1 None
        /\ pokemon_call_receives s3 2 "129" 0 2 None)
  /\ (exists s3 moves ms,
        run initial
          (replicate 2 (CallPokemon "129")
           ++ [PokemonResponse 0 (Some magikarp); MoveResponse 3 (Some JNull);
               MoveResponse 5 (Some (JNum (of_Z 40))); Resume 4; Resume 6]
           ++ [Resume 0])
        = Some s3
        /\ pokemon_requests s3 "129" = 1
        /\ pokemonFetchPromises s3 !! "129" = None
        /\ pokemon_call_receives s3 1 "129" 0 1
             (Some (with_moves (formatted "129" magikarp "Swift Swim" moves) ms))
        /\ pokemon_call_receives s3 2 "129" 0 2
             (Some (with_moves (formatted "129" magikarp "Swift Swim" moves) ms)))
  /\ (exists s3,
        run initial (replicate 2 (CallMove (moveInfo "tackle")) ++ [MoveResponse 0 None])
        = Some s3
        /\ move_requests s3 "tackle" = 1
        /\ moveFetchPromises s3 !! "tackle" = None
        /\ move_call_receives s3 1 "tackle" 0 1 External (fallbackMove "tackle")
        /\ move_call_receives s3 2 "tackle" 0 2 External (fallbackMove "tackle")).
Proof.
  destruct (coalescing settled reachable_settled) as [(Hcalls & _ & _ & _ & Hawait & _) _].
  destruct (coalescing waiting reachable_waiting)
    as [(_ & _ & _ & _ & _ & _ & _ & _ & Hfails & _) _].
  destruct (coalescing ready reachable_ready)
    as [(_ & _ & _ & _ & _ & _ & _ & _ & _ & Hsettles & _) _].
  destruct (coalescing sharing reachable_sharing) as [_ (_ & _ & _ & _ & _ & _ & Hmove & _)].
  destruct (coalescing initial (ex_intro _ [] eq_refl))
    as [(_ & _ & _ & _ & _ & _ & _ & _ & _ & _ & Hpokemon) (_ & _ & _ & _ & _ & _ & _ & Hmoves)].
  split_and!.
  - destruct (Hcalls "25" 2) as (s' & p & Hrun & Hreq & Hmap & Hp & _);
      [vm_compute; reflexivity | vm_compute; reflexivity |].
    exists s', p. split_and!; [exact Hrun | exact Hreq | | exact Hp].
    rewrite Hmap. apply lookup_insert_eq.
  - destruct (Hawait 1 "129" 0 1 5) as (pd & s1 & l1 & new1 & Hr & Hs1 & _ & Hp1 & Hr1 & _);
      [vm_compute; reflexivity | vm_compute; reflexivity |].
    destruct (Hawait 2 "129" 0 2 5) as (pd' & s2 & l2 & new2 & Hr' & Hs2 & _ & Hp2 & Hr2 & _);
      [vm_compute; reflexivity | vm_compute; reflexivity |].
    assert (pd' = pd) as -> by congruence.
    exists pd, s1, l1, s2, l2. split_and!; assumption.
  - destruct (Hfails 0 "129" 0) as (s1 & Hstep & Hgone & _ & Hrej & Hreq & _ & Hall);
      [vm_compute; reflexivity|].
    assert (exists s2, run s1 [Resume 1] = Some s2) as [s2 Hrun].
    { vm_compute in Hstep. injection Hstep as <-. eexists. vm_compute. reflexivity. }
    exists s1, s2. split_and!; try done.
    + apply (Hall 1 1 ltac:(vm_compute; reflexivity) []). reflexivity.
    + apply (Hall 2 2 ltac:(vm_compute; reflexivity) []). reflexivity.
    + apply (Hall 2 2 ltac:(vm_compute; reflexivity) [Resume 1]). exact Hrun.
  - destruct (Hsettles 0 "129" 0 magikarp [4; 6]) as (s1 & Hstep & Hgone & _ & _ & Hout);
      [vm_compute; reflexivity | vm_compute; discriminate |].
    change (abilityName magikarp) with (Some "Swift Swim") in Hout.
    destruct Hout as (l & moves & ms & _ & Hcache & Hread & Hall).
    exists s1, l, moves, ms. split_and!; try done.
    + apply (Hall 1 1 ltac:(vm_compute; reflexivity) []). reflexivity.
    + apply (Hall 2 2 ltac:(vm_compute; reflexivity) []). reflexivity.
  - destruct (Hmove 5 "tackle" 5 None) as (s1 & l & Hstep & Hgone & Hreq & _ & _ & _ & Hall);
      [vm_compute; reflexivity|].
    exists s1. split_and!; try done.
    + apply (Hall 6 6 Internal ltac:(vm_compute; reflexivity) []). reflexivity.
    + apply (Hall 7 7 External ltac:(vm_compute; reflexivity) []). reflexivity.
  - destruct (Hpokemon "129" 1) as (s' & p & Hrun & Hcallers & Hafter);
      [vm_compute; reflexivity | vm_compute; reflexivity |].
    assert (s' = waiting) as -> by (vm_compute in Hrun; by injection Hrun as <-).
    assert (p = 0) as ->.
    { destruct (Hcallers 0) as [ret H]; [lia|]. vm_compute in H. congruence. }
    destruct (Hafter [] waiting eq_refl) as [Hfail _].
    destruct Hfail as (s3 & Hstep & Hreq & Hgone & Hall); [vm_compute; reflexivity|].
    exists s3. split_and!; try done.
    + apply (Hall 0 1 ltac:(lia) ltac:(vm_compute; reflexivity) []). reflexivity.
    + apply (Hall 1 2 ltac:(lia) ltac:(vm_compute; reflexivity) []). reflexivity.
  - destruct (Hpokemon "129" 1) as (s' & p & Hrun & Hcallers & Hafter);
      [vm_compute; reflexivity | vm_compute; reflexivity |].
    assert (s' = waiting) as -> by (vm_compute in Hrun; by injection Hrun as <-).
    assert (p = 0) as ->.
    { destruct (Hcallers 0) as [ret H]; [lia|]. vm_compute in H. congruence. }
    destruct (Hafter [PokemonResponse 0 (Some magikarp); MoveResponse 3 (Some JNull);
                      MoveResponse 5 (Some (JNum (of_Z 40))); Resume 4; Resume 6] ready)
      as [_ Hsettle]; [vm_compute; reflexivity|].
    destruct (Hsettle magikarp [4; 6]) as (s3 & value & Hstep & Hreq & Hgone & Hvalue & Hall);
      [vm_compute; reflexivity | vm_compute; discriminate |].
    change (abilityName magikarp) with (Some "Swift Swim") in Hvalue.
    destruct Hvalue as (moves & ms & ->).
    exists s3, moves, ms. split_and!; try done.
    + apply (Hall 0 1 ltac:(lia) ltac:(vm_compute; reflexivity) []). reflexivity.
    + apply (Hall 1 2 ltac:(lia) ltac:(vm_compute; reflexivity) []). reflexivity.
  - destruct (Hmoves (moveInfo "tackle") 1) as (s' & p & Hrun & Hcallers & Hafter);
      [vm_compute; reflexivity | vm_compute; reflexivity |].
    assert (p = 0) as ->.
    { destruct (Hcallers 0) as [ret H]; [lia|].
      vm_compute in Hrun. injection Hrun as <-. vm_compute in H. congruence. }
    destruct (Hafter [] s' None eq_refl) as (s3 & Hstep & Hreq & Hgone & Hall).
    { vm_compute in Hrun. injection Hrun as <-. vm_compute. reflexivity. }
    exists s3. split_and!; try done.
    + rewrite (run_app initial _ _ s' Hrun).
      simpl. change (length (tasks initial)) with 0 in Hstep. simpl in Hstep. by rewrite Hstep.
    + apply (Hall 0 1 ltac:(lia)
               ltac:(vm_compute in Hrun; injection Hrun as <-; vm_compute; reflexivity) []).
      reflexivity.
    + apply (Hall 1 2 ltac:(lia)
               ltac:(vm_compute in Hrun; injection Hrun as <-; vm_compute; reflexivity) []).
      reflexivity.
Defined.

(** A caller overwrites a move of its copy of creature 129: the cache
    entry holds what it held, and the next call returns what the call
    before the write would have returned. *)
Lemma cache_immutability_witness :
  exists s' pd,
    run cached [Mutate 6 boosted; CallPokemon "129"] = Some s'
    /\ read_move (store s') 6 = Some {| move_name := "Splash"; move_power := JNum (of_Z 999) |}
    /\ pokemonDataCache s' !! "129" = Some 5
    /\ read_pokemon (store cached) 5 = Some pd
    /\ read_pokemon (store s') 5 = Some pd
    /\ returned_pokemon cached "129" = Some pd
    /\ returned_pokemon s' "129" = Some pd.
Proof.
  destruct (cache_immutability cached reachable_cached) as (_ & Hstable & _ & _ & Hret & _).
  destruct (run cached [Mutate 6 boosted; CallPokemon "129"]) as [s'|] eqn:Hrun;
    [|vm_compute in Hrun; discriminate].
  destruct (returned_pokemon cached "129") as [pd|] eqn:Hcall;
    [|vm_compute in Hcall; discriminate].
  destruct (Hstable _ _ Hrun) as [Hp _].
  destruct (Hp "129" 5) as [Hc Hr]; [vm_compute; reflexivity|].
  exists s', pd. split_and!.
  - reflexivity.
  - vm_compute in Hrun. injection Hrun as <-. vm_compute. reflexivity.
  - exact Hc.
  - vm_compute in Hcall. injection Hcall as <-. vm_compute. reflexivity.
  - rewrite Hr. vm_compute in Hcall. injection Hcall as <-. vm_compute. reflexivity.
  - reflexivity.
  - exact (Hret "129" pd _ s' Hcall Hrun).
Defined.

(** The request for [tackle] fails while creature 129 is resolved: the
    creature is resolved all the same, with the move under its key and
    power 0. *)
Lemma move_fallback_witness :
  exists s2 l pd,
    run fetching (MoveResponse 5 None :: answered) = Some s2
    /\ promises s2 !! 0 = Some (Fulfilled (Some l))
    /\ read_pokemon (store s2) l = Some pd
    /\ pd_moves pd !! 1 = Some {| move_name := "tackle"; move_power := JNum zero |}.
Proof.
  destruct (move_fallback fetching 5 "tackle" 5 reachable_fetching)
    as (s1 & l0 & Hstep & _ & _ & _ & _ & Hall); [vm_compute; reflexivity|].
  destruct (run s1 answered) as [s2|] eqn:Hrun;
    [|vm_compute in Hstep; injection Hstep as <-; vm_compute in Hrun; discriminate].
  destruct (Hall 0 "129" 0 magikarp [4; 6] 1 6 6 "Swift Swim") with (es := answered) (s2 := s2)
    as [[Hlive _] | (_ & l & pd & Hp & _ & Hr & Hm)].
  - vm_compute. reflexivity.
  - reflexivity.
  - vm_compute. reflexivity.
  - vm_compute. reflexivity.
  - exact Hrun.
  - vm_compute in Hstep. injection Hstep as <-. vm_compute in Hrun. injection Hrun as <-.
    vm_compute in Hlive. discriminate.
  - exists s2, l, pd. split_and!; try assumption.
    change (run fetching (MoveResponse 5 None :: answered))
      with (match moveResponse fetching 5 None with
            | Some s' => run s' answered
            | None => None
            end).
    rewrite Hstep. exact Hrun.
Defined.

(** When the request for [tackle] fails, the creature the caller receives
    lists the move under its key, [tackle], next to the formatted
    [Splash]. *)
Lemma fallback_keeps_key :
  run initial (asked ++ MoveResponse 5 None :: answered ++ [Resume 1]) = Some degraded
  /\ promises degraded !! 1 = Some (Fulfilled (Some 9))
  /\ (pd_moves <$> read_pokemon (store degraded) 9)
     = Some [{| move_name := "Splash"; move_power := JNum zero |};
             {| move_name := "tackle"; move_power := JNum zero |}].
Proof. split_and!; vm_compute; reflexivity. Qed.

End ExampleFetch.

End FetchFacts.

(* ===================================================================== *)
(** * Properties of [selectTeam] *)
(* ===================================================================== *)

Module SelectFacts.
Import Num Match MatchFacts.
Local Open Scope nat_scope.

(** The record of a player of a match, as a suspended handler of
    [selectTeam] reaches it through the game object it captured. *)
Definition player_of (s : Server) (gameId sock : string) : option Player :=
  match captured_game s gameId with
  | Some game => g_players game !! sock
  | None => None
  end.

(** The names of the creatures in a player's team. *)
Definition team_names (s : Server) (gameId sock : string) : option (list string) :=
  match player_of s gameId sock with
  | Some pl => map (fun p => pd_name (base p)) <$> pl_team pl
  | None => None
  end.

Lemma typeof_number_JNum v : typeof_number v = true <-> exists x, v = JNum x.
Proof. destruct v; simpl; split; try done; eauto; by intros [? ?]. Qed.

Lemma validTeamIds_numbers teamIds :
  validTeamIds teamIds = true <-> exists a b c, teamIds = Some [JNum a; JNum b; JNum c].
Proof.
  split.
  - destruct teamIds as [[|x [|y [|z [|? ?]]]]|]; simpl; try done.
    rewrite !andb_true_iff, !typeof_number_JNum.
    intros ([a ->] & [b ->] & [c ->] & _). by exists a, b, c.
  - by intros (a & b & c & ->).
Qed.

Lemma fulfilled_values_length ps vals :
  Fetch.fulfilled_values ps = Some vals -> length vals = length ps.
Proof.
  revert vals. induction ps as [|p ps IH]; intros vals; simpl.
  - by intros [= <-].
  - destruct p as [[]|]; try done.
    destruct (Fetch.fulfilled_values ps) as [vs|]; [|done].
    intros [= <-]. simpl. by rewrite (IH vs).
Qed.

Lemma promise_all_length f ps vals :
  Fetch.promise_all f ps = Fetch.AllFulfilled vals -> length vals = length ps.
Proof.
  unfold Fetch.promise_all. destruct (existsb _ _); [done|].
  destruct (Fetch.fulfilled_values _) as [vs|] eqn:H; [|done].
  intros [= <-]. by rewrite (fulfilled_values_length _ _ H), length_map.
Qed.

Lemma non_null_all vals :
  existsb (fun data : option Heap.loc => bool_decide (data = None)) vals = false ->
  vals = map Some (Fetch.non_null vals).
Proof.
  induction vals as [|[l|] vals IH]; simpl; [done| |done].
  intros H. by rewrite <- IH.
Qed.

Lemma instantiate_length h ls team :
  instantiate h ls = Some team -> length team = length ls.
Proof.
  revert team. induction ls as [|l ls IH]; intros team; simpl.
  - by intros [= <-].
  - destruct (createPokemonInstance _); [|done].
    destruct (instantiate h ls) as [ps|]; [|done].
    intros [= <-]. simpl. by rewrite (IH ps).
Qed.

Lemma captured_update s gameId game :
  captured_game (update_captured s gameId game) gameId = Some game.
Proof.
  unfold update_captured, captured_game.
  destruct (games_lookup (activeGames s) gameId) eqn:H; simpl.
  - by rewrite games_lookup_set_eq.
  - by rewrite H, games_lookup_set_eq.
Qed.

Lemma captured_emit s sock ev gameId :
  captured_game (emit s sock ev) gameId = captured_game s gameId.
Proof. done. Qed.

Lemma captured_emit_to s room ev gameId :
  captured_game (emit_to s room ev) gameId = captured_game s gameId.
Proof. done. Qed.

Lemma captured_emit_to_opt s room ev gameId :
  captured_game (emit_to_opt s room ev) gameId = captured_game s gameId.
Proof. by destruct room. Qed.

Lemma players_startBattle game p1 p2 a1 a2 :
  g_players (startBattle game p1 p2 a1 a2) = g_players game.
Proof. done. Qed.

(** After the teams are stored the captured game keeps the players'
    records it was given. *)
Lemma afterSelection_players s sock gameId game s' :
  afterSelection s sock gameId game = Some s' ->
  exists game', captured_game s' gameId = Some game' /\ g_players game' = g_players game.
Proof.
  unfold afterSelection.
  destruct (g_players game !! (g_playerOrder game).1) as [p1|]; [|done].
  destruct (g_players game !! (g_playerOrder game).2) as [p2|]; [|done].
  destruct (pl_hasSelected p1 && pl_hasSelected p2).
  - destruct (pl_team p1) as [t1|], (pl_team p2) as [t2|];
      try (intros [= <-]; exists game; by rewrite captured_update).
    destruct (t1 !! 0) as [a1|], (t2 !! 0) as [a2|];
      try (intros [= <-]; exists game; by rewrite captured_update).
    destruct (bool_decide _).
    + intros [= <-]. exists (startBattle game p1 p2 a1 a2).
      by rewrite captured_emit_to, captured_update.
    + intros [= <-]. exists game. by rewrite captured_update.
  - intros [= <-]. exists game.
    by rewrite captured_emit, captured_emit_to_opt, captured_update.
Qed.

Lemma set_team_player game sock pl team :
  g_players game !! sock = Some pl ->
  exists pl',
    g_players (set_team game sock team) !! sock = Some pl'
    /\ pl_team pl' = Some team /\ pl_hasSelected pl' = true.
Proof.
  intros H. unfold set_team. rewrite H. simpl. eexists. by rewrite lookup_insert_eq.
Qed.

Section Submission.

Variable Number_toString : jsnum -> string.

Lemma getPokemonDetails_each_length f ids :
  length (getPokemonDetails_each Number_toString f ids).2 = length ids.
Proof.
  revert f. induction ids as [|id ids IH]; intros f; simpl; [done|].
  destruct (Fetch.getPokemonDetails f _) as [f1 ret].
  specialize (IH f1). destruct (getPokemonDetails_each _ f1 ids) as [f2 rets].
  simpl in *. by rewrite IH.
Qed.

Lemma games_get_registered gs gameId game :
  games_lookup gs gameId = Some game -> games_get gs gameId = Registered game.
Proof. unfold games_get. by intros ->. Qed.

(** What a submission does, in every state (C5 itself is settled at
    failing inputs, further down).  [selectTeam] throws when [gameId]
    names no match but a property of [Object.prototype].  It returns at
    once, with no event sent and the server as it was, when [gameId]
    names nothing at all, the socket is no player of the match, the
    player's [hasSelected] is set, or [teamIds] is not an array of three
    numbers (any three numbers pass, integers or not).  Otherwise, so
    also while an earlier submission of the same player waits for its
    creatures, the three creatures are asked for and the handler waits,
    the server still as it was.  When it resumes with a [null] among the
    three resolutions it returns with the server as it was: no team
    stored, no event sent.  Whenever it resumes, either the games are as
    they were or the player's record holds a team that has one creature
    for each of the resolutions. *)
Theorem selectTeam_atomic (w : World) (sock gameId : string) (teamIds : option (list jsval)) :
  (games_lookup (activeGames (server w)) gameId = None -> inherited gameId = true ->
   selectTeam Number_toString w sock gameId teamIds = Throws)
  /\ (games_lookup (activeGames (server w)) gameId = None -> inherited gameId = false ->
      selectTeam Number_toString w sock gameId teamIds = Returns w)
  /\ (forall game,
        games_lookup (activeGames (server w)) gameId = Some game ->
        g_players game !! sock = None ->
        selectTeam Number_toString w sock gameId teamIds = Returns w)
  /\ (forall game pl,
        games_lookup (activeGames (server w)) gameId = Some game ->
        g_players game !! sock = Some pl -> pl_hasSelected pl = true ->
        selectTeam Number_toString w sock gameId teamIds = Returns w)
  /\ (forall game,
        games_lookup (activeGames (server w)) gameId = Some game ->
        validTeamIds teamIds = false ->
        selectTeam Number_toString w sock gameId teamIds = Returns w)
  /\ (validTeamIds teamIds = true <-> exists a b c, teamIds = Some [JNum a; JNum b; JNum c])
  /\ (forall game pl,
        games_lookup (activeGames (server w)) gameId = Some game ->
        g_players game !! sock = Some pl -> pl_hasSelected pl = false ->
        validTeamIds teamIds = true ->
        exists fetchPromises,
          selectTeam Number_toString w sock gameId teamIds
          = Returns
              {| server := server w;
                 fetch :=
                   (getPokemonDetails_each Number_toString (fetch w) (default [] teamIds)).1;
                 handlers := handlers w ++ [Some (SelectTeam sock gameId fetchPromises)] |}
          /\ length fetchPromises = 3)
  /\ (forall hid fetchPromises pokemonBaseDataArray,
        handlers w !! hid = Some (Some (SelectTeam sock gameId fetchPromises)) ->
        Fetch.promise_all (fetch w) fetchPromises = Fetch.AllFulfilled pokemonBaseDataArray ->
        None ∈ pokemonBaseDataArray ->
        resumeSelectTeam w hid = Some (handler_done w hid)
        /\ server (handler_done w hid) = server w
        /\ fetch (handler_done w hid) = fetch w)
  /\ (forall hid fetchPromises w',
        handlers w !! hid = Some (Some (SelectTeam sock gameId fetchPromises)) ->
        resumeSelectTeam w hid = Some w' ->
        (activeGames (server w') = activeGames (server w)
         /\ detachedGames (server w') = detachedGames (server w))
        \/ exists ls team pl',
             Fetch.promise_all (fetch w) fetchPromises = Fetch.AllFulfilled (map Some ls)
             /\ instantiate (Fetch.store (fetch w)) ls = Some team
             /\ length team = length fetchPromises
             /\ player_of (server w') gameId sock = Some pl'
             /\ pl_team pl' = Some team
             /\ pl_hasSelected pl' = true).
Proof.
  split_and!.
  - intros H Hin. unfold selectTeam, games_get. by rewrite H, Hin.
  - intros H Hin. unfold selectTeam, games_get. by rewrite H, Hin.
  - intros game H1 H2. unfold selectTeam. by rewrite (games_get_registered _ _ _ H1), H2.
  - intros game pl H1 H2 H3. unfold selectTeam.
    by rewrite (games_get_registered _ _ _ H1), H2, H3.
  - intros game H1 H. unfold selectTeam. rewrite (games_get_registered _ _ _ H1).
    destruct (g_players _ !! _); [|done].
    destruct (pl_hasSelected _); [done|]. by rewrite H.
  - apply validTeamIds_numbers.
  - intros game pl H1 H2 H3 H4. unfold selectTeam.
    rewrite (games_get_registered _ _ _ H1), H2, H3, H4. simpl.
    pose proof (getPokemonDetails_each_length (fetch w) (default [] teamIds)) as Hlen.
    destruct (getPokemonDetails_each _ _ _) as [f ps]. exists ps. split; [done|].
    apply validTeamIds_numbers in H4 as (a & b & c & ->). exact Hlen.
  - intros hid ps vals Hh Hall Hnull. split; [|done].
    unfold resumeSelectTeam. rewrite Hh, Hall.
    assert (existsb (fun data : option Heap.loc => bool_decide (data = None)) vals = true) as ->;
      [|done].
    apply existsb_exists. exists None. split; [by apply list_elem_of_In|done].
  - intros hid ps w' Hh. unfold resumeSelectTeam. rewrite Hh.
    destruct (Fetch.promise_all (fetch w) ps) as [| |vals] eqn:Hall; [done| |].
    { intros [= <-]. by left. }
    destruct (existsb _ vals) eqn:Hnull; [intros [= <-]; by left|].
    destruct (instantiate _ _) as [team|] eqn:Hteam; [|intros [= <-]; by left].
    destruct (captured_game (server w) gameId) as [game|] eqn:Hgame; [|intros [= <-]; by left].
    destruct (g_players game !! sock) as [pl|] eqn:Hpl; [|intros [= <-]; by left].
    destruct (set_team_player game sock pl team Hpl) as (pl' & Hpl' & Ht & Hs).
    intros Hw'. right. exists (Fetch.non_null vals), team, pl'.
    rewrite <- (non_null_all vals Hnull). split_and!; try done.
    { rewrite (instantiate_length _ _ _ Hteam), <- (promise_all_length _ _ _ Hall).
      rewrite (non_null_all vals Hnull) at 2. by rewrite length_map. }
    unfold player_of.
    destruct (afterSelection _ _ _ _) as [s|] eqn:Hafter.
    + injection Hw' as <-. simpl.
      destruct (afterSelection_players _ _ _ _ _ Hafter) as (game' & -> & ->). done.
    + injection Hw' as <-. unfold selection_failed, handler_done, set_server. cbn [server].
      by rewrite captured_emit, captured_update.
Qed.

End Submission.

(** ** The example submission *)

Section ExampleSelection.
Import Example Scenario.

(** Creature 150 resolves to [null]: the handler returns, no event is
    sent, the first player has still not selected, and her next
    submission is taken up. *)
Lemma selectTeam_atomic_witness :
  resumeSelectTeam stalled 0 = Some (handler_done stalled 0)
  /\ outbox (server (handler_done stalled 0)) = outbox (server lobby)
  /\ (pl_hasSelected <$> player_of (server (handler_done stalled 0)) "g1" "alice") = Some false
  /\ (pl_team <$> player_of (server (handler_done stalled 0)) "g1" "alice") = Some None
  /\ exists w fetchPromises,
       selectTeam Number_toString (handler_done stalled 0) "alice" "g1" (ids [4; 4; 4]%Z)
       = Returns w
       /\ handlers w = [None; Some (SelectTeam "alice" "g1" fetchPromises)]
       /\ length fetchPromises = 3.
Proof.
  destruct (selectTeam_atomic Number_toString stalled "alice" "g1" (ids [4; 4; 4]%Z))
    as (_ & _ & _ & _ & _ & _ & _ & Hnull & _).
  destruct (Hnull 0 [1; 2; 4] [None; None; Some 9]) as (Hresume & _ & _);
    [reflexivity | vm_compute; reflexivity | by left |].
  destruct (selectTeam_atomic Number_toString (handler_done stalled 0) "alice" "g1"
              (ids [4; 4; 4]%Z))
    as (_ & _ & _ & _ & _ & _ & Haccept & _).
  odestruct (Haccept _ _ _ _ _ _) as (ps & Hps & Hlen);
    [vm_compute; reflexivity | vm_compute; reflexivity | reflexivity | reflexivity |].
  split_and!; [exact Hresume | vm_compute; reflexivity ..|].
  eexists _, ps. split_and!; [exact Hps | reflexivity | exact Hlen].
Defined.

(** C5 at failing inputs.  The first player submits the team 150, 150, 4
    and, before the remote API has answered, the team 50, 50, 50.
    [hasSelected] is only set when the creatures are resolved, so the
    second submission is not rejected: a second handler waits, and no
    event is sent.  The first handler resumes and stores Mewtwo, Mewtwo,
    Charmander; the second player submits, the battle starts, Mewtwo
    knocks out Magikarp and the second player has to switch.  Then the
    second handler resumes: it replaces the first player's team with three
    Digletts and, both players having selected, starts the battle again,
    in the middle of the battle: the turn goes back to the first player,
    the second player's obligation to switch is gone though the active
    Magikarp has fainted, and [battleStart] is sent a second time.
    Besides: a submission for a match that does not exist is dropped
    without any event to the sender; one whose [gameId] is [constructor]
    makes the handler throw; and three numbers that are no integers pass
    the test on [teamIds], and the creatures [1.5], [2.5] and [3.5] are
    asked for. *)
Lemma selectTeam_accepts_resubmission :
  Match.run Number_toString lobby [SelectTeamOf "alice" "g1" (ids [150; 150; 4]%Z)]
  = Some submittedOnce
  /\ (pl_hasSelected <$> player_of (server submittedOnce) "g1" "alice") = Some false
  /\ (exists w,
        selectTeam Number_toString submittedOnce "alice" "g1" (ids [50; 50; 50]%Z) = Returns w
        /\ server w = server submittedOnce
        /\ handlers w
           = [Some (SelectTeam "alice" "g1" [1; 2; 4]); Some (SelectTeam "alice" "g1" [6; 7; 8])])
  /\ Match.run Number_toString initial_world (paired ++ resubmission) = Some midBattle
  /\ handlers midBattle = [None; Some (SelectTeam "alice" "g1" [6; 7; 8]); None]
  /\ team_names (server midBattle) "g1" "alice" = Some ["Mewtwo"; "Mewtwo"; "Charmander"]
  /\ (exists game,
        games_lookup (activeGames (server midBattle)) "g1" = Some game
        /\ g_turn game = Some "bob"
        /\ g_battleState game = Some (alice, set_mustSwitch (bob 0) true)
        /\ (fainted <$> activePokemon game (bob 0)) = Some true)
  /\ (exists w game snapshot,
        resumeSelectTeam midBattle 1 = Some w
        /\ games_lookup (activeGames (server w)) "g1" = Some game
        /\ team_names (server w) "g1" "alice" = Some ["Diglett"; "Diglett"; "Diglett"]
        /\ g_turn game = Some "alice"
        /\ g_battleState game = Some (alice, bob 0)
        /\ (fainted <$> activePokemon game (bob 0)) = Some true
        /\ g_log game
           = [LogBattleStart; LogVersus "Anon_alic" "Diglett" "Anon_bob" "Magikarp";
              LogTurn "Anon_alic"]
        /\ outbox (server w)
           = outbox (server midBattle)
             ++ [("alice", EvBattleStart snapshot); ("bob", EvBattleStart snapshot)])
  /\ selectTeam Number_toString lobby "alice" "nope" (ids [150; 150; 4]%Z) = Returns lobby
  /\ selectTeam Number_toString lobby "alice" "constructor" (ids [150; 150; 4]%Z) = Throws
  /\ Match.step Number_toString lobby (SelectTeamOf "alice" "constructor" (ids [150; 150; 4]%Z))
     = None
  /\ validTeamIds fractions = true
  /\ (exists w,
        selectTeam Number_toString lobby "alice" "g1" fractions = Returns w
        /\ handlers w = [Some (SelectTeam "alice" "g1" [1; 3; 5])]
        /\ Fetch.requests (fetch w)
           = [Fetch.ReqPokemon "1.5"; Fetch.ReqPokemon "2.5"; Fetch.ReqPokemon "3.5"]).
Proof.
  split_and!; try (vm_compute; reflexivity).
  - eexists. split_and!; vm_compute; reflexivity.
  - eexists. split_and!; vm_compute; reflexivity.
  - do 3 eexists. split_and!; vm_compute; reflexivity.
  - eexists. split_and!; vm_compute; reflexivity.
Qed.

(** How the runtime prints some numbers. *)
Lemma Number_toString_examples :
  Number_toString (of_Z 150) = "150"
  /\ Number_toString (of_Z (-4)) = "-4"
  /\ Number_toString (div (of_Z 3) (of_Z 2)) = "1.5"
  /\ Number_toString c_0_15 = "0.15"
  /\ Number_toString (div one (of_Z 3)) = "0.3333333333333333"
  /\ Number_toString (of_Z (10 ^ 20)) = "100000000000000000000"
  /\ Number_toString (of_Z (10 ^ 21)) = "1e+21"
  /\ Number_toString (of_Z 9007199254740993) = "9007199254740992"
  /\ Number_toString (div one (of_Z 10000000)) = "1e-7"
  /\ Number_toString (S754_finite false 1 (-1074)) = "5e-324"
  /\ Number_toString (S754_infinity false) = "Infinity"
  /\ Number_toString (S754_zero true) = "0".
Proof. split_and!; vm_compute; reflexivity. Qed.

End ExampleSelection.

End SelectFacts.

(* ===================================================================== *)
(** ** Names of moves and abilities *)
(* ===================================================================== *)

Module StrFacts.
Import Str.
Local Open Scope nat_scope.

(** ** [split('-')] and [join(' ')] *)

Lemma split_dash_cons s : exists w ws, split_dash s = w :: ws.
Proof.
  induction s as [|c s (w & ws & IH)]; simpl; [by eauto|].
  destruct (Ascii.eqb c "-"); [by eauto|]. rewrite IH. eauto.
Qed.

Lemma length_string_append a b :
  String.length (String.append a b) = String.length a + String.length b.
Proof. induction a as [|c a IH]; simpl; [done | by rewrite IH]. Qed.

Lemma length_join_space w ws :
  String.length (join_space (w :: ws))
  = String.length w + list_sum (map (fun x => S (String.length x)) ws).
Proof.
  revert w. induction ws as [|w' ws IH]; intros w; [simpl; lia|].
  change (join_space (w :: w' :: ws))
    with (String.append w (String " " (join_space (w' :: ws)))).
  rewrite length_string_append. cbn [String.length]. rewrite (IH w'). simpl. lia.
Qed.

Lemma length_capitalize w : String.length (capitalize w) = String.length w.
Proof. by destruct w. Qed.

Lemma length_split_dash s w ws :
  split_dash s = w :: ws ->
  String.length s = String.length w + list_sum (map (fun x => S (String.length x)) ws).
Proof.
  revert w ws. induction s as [|c s IH]; intros w ws; simpl.
  - intros [= <- <-]. done.
  - destruct (Ascii.eqb c "-").
    + intros [= <- <-]. destruct (split_dash_cons s) as (w' & ws' & H).
      rewrite H. simpl. by rewrite (IH _ _ H).
    + destruct (split_dash_cons s) as (w' & ws' & H). rewrite H.
      intros [= <- <-]. simpl. by rewrite (IH _ _ H).
Qed.

(** The characters of a string. *)
Fixpoint chars (s : string) : list ascii :=
  match s with
  | EmptyString => []
  | String c rest => c :: chars rest
  end.

Lemma chars_append a b : chars (String.append a b) = chars a ++ chars b.
Proof. induction a as [|c a IH]; simpl; [done | by rewrite IH]. Qed.

Lemma split_dash_no_dash s w :
  w ∈ split_dash s -> "-"%char ∉ chars w.
Proof.
  revert w. induction s as [|c s IH]; intros w; simpl.
  - intros ->%list_elem_of_singleton. simpl. apply not_elem_of_nil.
  - destruct (Ascii.eqb c "-") eqn:Hc.
    + intros [->|H]%elem_of_cons; [simpl; apply not_elem_of_nil | by apply IH].
    + destruct (split_dash_cons s) as (w' & ws' & H). rewrite H in *.
      intros [->|Hw]%elem_of_cons.
      * simpl. intros [Heq|Hin]%elem_of_cons.
        -- subst c. by rewrite Ascii.eqb_refl in Hc.
        -- revert Hin. apply IH. by left.
      * apply IH. by right.
Qed.

Lemma toUpper_dash c : c ≠ "-"%char -> toUpper c ≠ "-"%char.
Proof.
  intros Hc. unfold toUpper. destruct (is_lower c) eqn:Hl; [|done].
  unfold is_lower in Hl. apply andb_true_iff in Hl as [H1 H2].
  apply N.leb_le in H1, H2. intros H.
  apply (f_equal Ascii.N_of_ascii) in H. rewrite Ascii.N_ascii_embedding in H by lia.
  simpl in H. lia.
Qed.

Lemma capitalize_no_dash w : "-"%char ∉ chars w -> "-"%char ∉ chars (capitalize w).
Proof.
  destruct w as [|c w]; simpl; [done|].
  intros H [Heq|Hin]%elem_of_cons.
  - symmetry in Heq. revert Heq. apply toUpper_dash. intros ->. apply H. by left.
  - apply H. by right.
Qed.

Lemma join_space_no_dash ws :
  Forall (fun w => "-"%char ∉ chars w) ws -> "-"%char ∉ chars (join_space ws).
Proof.
  induction 1 as [|w ws Hw Hws IH]; simpl; [apply not_elem_of_nil|].
  destruct ws as [|w' ws]; [done|].
  rewrite chars_append. simpl chars.
  intros [?|[Heq|?]%elem_of_cons]%elem_of_app; [done | discriminate | by apply IH].
Qed.

Lemma toUpper_ascii c :
  (Ascii.N_of_ascii c <? 128)%N = true -> (Ascii.N_of_ascii (toUpper c) <? 128)%N = true.
Proof.
  intros Hc. unfold toUpper. destruct (is_lower c) eqn:Hl; [|done].
  unfold is_lower in Hl. apply andb_true_iff in Hl as [H1 H2].
  apply N.leb_le in H1, H2. apply N.ltb_lt.
  rewrite Ascii.N_ascii_embedding by lia. lia.
Qed.

Lemma ascii_only_append a b :
  ascii_only (String.append a b) = ascii_only a && ascii_only b.
Proof. induction a as [|c a IH]; simpl; [done|]. by rewrite IH, andb_assoc. Qed.

Lemma ascii_only_capitalize w : ascii_only w = true -> ascii_only (capitalize w) = true.
Proof.
  destruct w as [|c w]; simpl; [done|].
  intros [Hc Hw]%andb_true_iff. by rewrite toUpper_ascii.
Qed.

Lemma ascii_only_split_dash s :
  ascii_only s = true -> Forall (fun w => ascii_only w = true) (split_dash s).
Proof.
  induction s as [|c s IH]; simpl; [by repeat constructor|].
  intros [Hc Hs]%andb_true_iff. specialize (IH Hs).
  destruct (Ascii.eqb c "-"); [by constructor|].
  destruct (split_dash s) as [|w ws]; [by repeat constructor; simpl; rewrite Hc|].
  inversion IH as [|? ? Hw Hws]; subst. constructor; [|done]. simpl. by rewrite Hc, Hw.
Qed.

Lemma ascii_only_join_space ws :
  Forall (fun w => ascii_only w = true) ws -> ascii_only (join_space ws) = true.
Proof.
  induction 1 as [|w ws Hw Hws IH]; simpl; [done|].
  destruct ws as [|w' ws]; [done|].
  rewrite ascii_only_append, Hw. simpl. exact IH.
Qed.

(** For a name of ASCII characters: the formatted name has the length of
    the name, is of ASCII characters too, and no hyphen is left in it;
    each hyphen has become a space. *)
Theorem formatName_shape name :
  ascii_only name = true ->
  String.length (formatName name) = String.length name
  /\ ascii_only (formatName name) = true
  /\ "-"%char ∉ chars (formatName name).
Proof.
  intros Hascii.
  unfold formatName. destruct (split_dash_cons name) as (w & ws & H). split_and!.
  - rewrite H. simpl map. rewrite length_join_space, length_capitalize.
    rewrite (length_split_dash _ _ _ H). f_equal.
    rewrite map_map. f_equal. apply map_ext. intros x. by rewrite length_capitalize.
  - apply ascii_only_join_space. apply Forall_forall. intros x Hx.
    apply list_elem_of_fmap in Hx as (y & -> & Hy).
    apply ascii_only_capitalize.
    pose proof (ascii_only_split_dash name Hascii) as Hall.
    rewrite Forall_forall in Hall. by apply Hall.
  - apply join_space_no_dash. apply Forall_forall. intros x Hx.
    apply list_elem_of_fmap in Hx as (y & -> & Hy).
    apply capitalize_no_dash. by apply split_dash_no_dash with (s := name).
Qed.

(** The move [mega-punch] is shown as [Mega Punch]. *)
Lemma formatName_shape_witness :
  formatName "mega-punch" = "Mega Punch"
  /\ String.length (formatName "mega-punch") = 10
  /\ ascii_only (formatName "mega-punch") = true
  /\ "-"%char ∉ chars (formatName "mega-punch").
Proof.
  split; [reflexivity|]. apply (formatName_shape "mega-punch"). reflexivity.
Defined.

(** ** Names with an empty word *)

Lemma split_dash_head_empty s w ws :
  split_dash s = w :: ws ->
  (w = EmptyString <-> s = EmptyString \/ exists b, s = String "-" b).
Proof.
  destruct s as [|c s]; simpl.
  - intros [= <- <-]. split; [by left | done].
  - destruct (Ascii.eqb c "-") eqn:Hc.
    + apply Ascii.eqb_eq in Hc as ->. intros [= <- _]. split; [|done]. right. by eexists.
    + destruct (split_dash_cons s) as (w' & ws' & ->). intros [= <- _].
      split; [done|]. intros [?|[b [= -> _]]]; [done|]. by rewrite Ascii.eqb_refl in Hc.
Qed.

Lemma split_dash_tail_empty s w ws :
  split_dash s = w :: ws ->
  (EmptyString ∈ ws
   <-> (exists a, s = String.append a "-") \/ exists a b, s = String.append a (String.append "--" b)).
Proof.
  revert w ws. induction s as [|c s IH]; intros w ws; simpl.
  - intros [= <- <-]. split; [by intros ?%elem_of_nil|].
    intros [[a H]|(a & b & H)]; destruct a; discriminate.
  - destruct (split_dash_cons s) as (w' & ws' & Hs). rewrite Hs.
    specialize (IH _ _ Hs). pose proof (split_dash_head_empty _ _ _ Hs) as Hhead.
    assert ((exists a, String c s = String.append a "-")
            <-> (c = "-"%char /\ s = EmptyString) \/ exists a, s = String.append a "-") as Hend.
    { split.
      - intros [[|c' a] H]; simpl in H; injection H as -> ->; [by left|]. right. by eexists.
      - intros [[-> ->]|[a ->]]; [by exists EmptyString|]. by exists (String c a). }
    assert ((exists a b, String c s = String.append a (String.append "--" b))
            <-> (c = "-"%char /\ exists b, s = String "-" b)
                \/ exists a b, s = String.append a (String.append "--" b)) as Hmid.
    { split.
      - intros ([|c' a] & b & H); simpl in H; injection H as -> ->.
        + left. split; [done|]. by eexists.
        + right. by exists a, b.
      - intros [[-> [b ->]]|(a & b & ->)]; [by exists EmptyString, b|].
        by exists (String c a), b. }
    rewrite Hend, Hmid. clear Hend Hmid.
    destruct (Ascii.eqb c "-") eqn:Hc.
    + apply Ascii.eqb_eq in Hc as ->. intros [= <- <-].
      rewrite elem_of_cons.
      assert (EmptyString = w' <-> w' = EmptyString) by (split; congruence).
      tauto.
    + intros [= <- <-].
      assert (c ≠ "-"%char) by (intros ->; by rewrite Ascii.eqb_refl in Hc). tauto.
Qed.

(** The format of an ability's name throws exactly when the name has an
    empty word: it is empty, starts or ends with a hyphen, or has two
    hyphens in a row.  When it does not throw it formats the name as
    [formatName] does. *)
Theorem formatAbility_throws name :
  (formatAbility name = None
   <-> name = EmptyString
       \/ (exists b, name = String "-" b)
       \/ (exists a, name = String.append a "-")
       \/ exists a b, name = String.append a (String.append "--" b))
  /\ (forall formatted, formatAbility name = Some formatted -> formatted = formatName name).
Proof.
  split.
  - destruct (split_dash_cons name) as (w & ws & H).
    pose proof (split_dash_tail_empty _ _ _ H) as Htail.
    pose proof (split_dash_head_empty _ _ _ H) as Hhead.
    assert (formatAbility name = None <-> EmptyString ∈ w :: ws) as Hthrows.
    { unfold formatAbility. rewrite H.
      destruct (forallb _ (w :: ws)) eqn:Hall.
      - split; [done|]. intros Hin. exfalso.
        rewrite forallb_forall in Hall. by apply list_elem_of_In, Hall in Hin.
      - split; [|done]. intros _.
        apply not_true_iff_false in Hall. rewrite forallb_forall in Hall.
        destruct (decide (EmptyString ∈ w :: ws)) as [?|Hn]; [done|].
        exfalso. apply Hall. intros x Hx%list_elem_of_In.
        destruct (String.eqb x EmptyString) eqn:E; [|done].
        by apply String.eqb_eq in E as ->. }
    rewrite Hthrows, elem_of_cons.
    assert (EmptyString = w <-> w = EmptyString) by (split; congruence).
    tauto.
  - unfold formatAbility, formatName. destruct (forallb _ _); [|done]. by intros ? [= <-].
Qed.

End StrFacts.

(* ===================================================================== *)
(** ** The selection of moves *)
(* ===================================================================== *)

Module SelectionFacts.
Import Num Heap Fetch.
Local Open Scope nat_scope.

(** ** The moves a creature is given *)

(** The moves learnt by level-up in the target version group, and the
    moves whose name is not among [names]. *)
Definition levelUpMoves (moves : list MoveInfo) : list MoveInfo :=
  filter (fun m => learnsByLevelUp m = true) moves.

Definition otherMoves (names : list string) (moves : list MoveInfo) : list MoveInfo :=
  filter (fun m => mi_name m ∉ names) moves.

Lemma selectLevelUp_take moves selected :
  length selected < MAX_MOVES_PER_POKEMON ->
  selectLevelUp moves selected
  = selected ++ take (MAX_MOVES_PER_POKEMON - length selected) (levelUpMoves moves).
Proof.
  unfold levelUpMoves. change MAX_MOVES_PER_POKEMON with 4.
  revert selected. induction moves as [|m moves IH]; intros selected Hlen;
    cbn [selectLevelUp]; change MAX_MOVES_PER_POKEMON with 4.
  - by rewrite filter_nil, take_nil, app_nil_r.
  - rewrite filter_cons. destruct (learnsByLevelUp m) eqn:Hm.
    + rewrite decide_True by done. rewrite length_app. cbn [length].
      destruct (4 <=? length selected + 1) eqn:Hfull.
      * apply Nat.leb_le in Hfull.
        replace (4 - length selected) with 1 by lia. done.
      * apply Nat.leb_gt in Hfull. rewrite IH by (rewrite length_app; simpl; lia).
        rewrite length_app. simpl. rewrite <- app_assoc. simpl.
        replace (4 - length selected) with (S (4 - (length selected + 1))) by lia. done.
    + rewrite decide_False by done.
      replace (4 <=? length selected) with false by (symmetry; apply Nat.leb_gt; lia).
      by apply IH.
Qed.

Lemma selectFill_take moves names selected :
  selectFill moves names selected
  = selected ++ take (MAX_MOVES_PER_POKEMON - length selected) (otherMoves names moves).
Proof.
  unfold otherMoves. change MAX_MOVES_PER_POKEMON with 4.
  revert selected. induction moves as [|m moves IH]; intros selected;
    cbn [selectFill]; change MAX_MOVES_PER_POKEMON with 4.
  - by rewrite filter_nil, take_nil, app_nil_r.
  - destruct (4 <=? length selected) eqn:Hfull.
    + apply Nat.leb_le in Hfull. replace (4 - length selected) with 0 by lia.
      by rewrite take_0, app_nil_r.
    + apply Nat.leb_gt in Hfull. rewrite IH, filter_cons.
      destruct (decide (mi_name m ∈ names)) as [Hin|Hin].
      * rewrite bool_decide_eq_true_2 by done. by rewrite decide_False by (intros H; by apply H).
      * rewrite bool_decide_eq_false_2 by done. rewrite decide_True by done.
        rewrite length_app. simpl. rewrite <- app_assoc. simpl.
        replace (4 - length selected) with (S (4 - (length selected + 1))) by lia. done.
Qed.

Lemma selectMoves_closed data :
  let byLevelUp := take MAX_MOVES_PER_POKEMON (levelUpMoves (api_moves data)) in
  selectMoves data
  = byLevelUp
    ++ take (MAX_MOVES_PER_POKEMON - length byLevelUp)
         (otherMoves (map mi_name byLevelUp) (api_moves data))
  /\ length (selectMoves data) <= MAX_MOVES_PER_POKEMON
  /\ forall m, m ∈ selectMoves data -> m ∈ api_moves data.
Proof.
  intros byLevelUp.
  assert (selectMoves data
          = byLevelUp
            ++ take (MAX_MOVES_PER_POKEMON - length byLevelUp)
                 (otherMoves (map mi_name byLevelUp) (api_moves data))) as Heq.
  { unfold selectMoves. rewrite selectLevelUp_take by (unfold MAX_MOVES_PER_POKEMON; simpl; lia).
    cbn [length app]. rewrite Nat.sub_0_r. fold byLevelUp.
    destruct (length byLevelUp <? MAX_MOVES_PER_POKEMON) eqn:Hlt.
    - apply selectFill_take.
    - apply Nat.ltb_ge in Hlt.
      replace (MAX_MOVES_PER_POKEMON - length byLevelUp) with 0 by lia.
      by rewrite take_0, app_nil_r. }
  split; [exact Heq|]. rewrite Heq. split.
  - rewrite length_app, length_take. subst byLevelUp. rewrite length_take. lia.
  - intros m [Hm|Hm]%elem_of_app.
    + subst byLevelUp. apply elem_of_take in Hm as (i & Hm & _).
      apply list_elem_of_lookup_2 in Hm. unfold levelUpMoves in Hm.
      by apply list_elem_of_filter in Hm as [_ ?].
    + apply elem_of_take in Hm as (i & Hm & _).
      apply list_elem_of_lookup_2 in Hm. unfold otherMoves in Hm.
      by apply list_elem_of_filter in Hm as [_ ?].
Qed.

(** The two loops of the move selection, in closed form: the first four
    moves learnt by level-up in the target version group, in the order of
    [data.moves]; when these are fewer than four, they are followed by the
    first moves of [data.moves] whose name is not among theirs, until
    there are four.  So at most four moves are selected, all of them
    moves of the species. *)
Theorem selectMoves_policy data :
  let byLevelUp := take MAX_MOVES_PER_POKEMON (levelUpMoves (api_moves data)) in
  selectMoves data
  = byLevelUp
    ++ take (MAX_MOVES_PER_POKEMON - length byLevelUp)
         (otherMoves (map mi_name byLevelUp) (api_moves data))
  /\ length (selectMoves data) <= MAX_MOVES_PER_POKEMON
  /\ forall m, m ∈ selectMoves data -> m ∈ api_moves data.
Proof. apply selectMoves_closed. Qed.


Lemma filter_agree {A} (P Q : A -> Prop) `{!forall x, Decision (P x)} `{!forall x, Decision (Q x)}
    (l : list A) :
  (forall x, x ∈ l -> P x <-> Q x) -> filter P l = filter Q l.
Proof.
  induction l as [|x l IH]; intros Hall; [done|]. rewrite !filter_cons.
  rewrite IH by (intros y Hy; apply Hall; by right).
  destruct (decide (P x)) as [HP|HP], (decide (Q x)) as [HQ|HQ]; try done.
  - destruct HQ. apply Hall; [by left | done].
  - destruct HP. apply Hall; [by left | done].
Qed.

Lemma names_agree (moves : list MoveInfo) m m' :
  NoDup (map mi_name moves) -> m ∈ moves -> m' ∈ moves -> mi_name m = mi_name m' -> m = m'.
Proof.
  induction moves as [|x moves IH]; simpl; [by intros _ ?%elem_of_nil|].
  intros [Hx Hnd]%NoDup_cons [->|Hm]%elem_of_cons [->|Hm']%elem_of_cons Heq; try done.
  - destruct Hx. rewrite Heq. by apply (list_elem_of_fmap_2 mi_name).
  - destruct Hx. rewrite <- Heq. by apply (list_elem_of_fmap_2 mi_name).
  - by apply IH.
Qed.

(** When the names of [data.moves] are distinct, the selection has no
    name twice and takes as many moves as there are, up to four: all the
    level-up moves first when these are fewer than four. *)
Theorem selectMoves_distinct data :
  NoDup (map mi_name (api_moves data)) ->
  NoDup (map mi_name (selectMoves data))
  /\ length (selectMoves data) = Nat.min MAX_MOVES_PER_POKEMON (length (api_moves data)).
Proof.
  intros Hnd. destruct (selectMoves_closed data) as (Heq & _ & _). cbv zeta in Heq.
  set (moves := api_moves data) in *. set (L := levelUpMoves moves) in *.
  assert (L `sublist_of` moves) as HL by apply sublist_filter.
  change MAX_MOVES_PER_POKEMON with 4 in *.
  destruct (decide (4 <= length L)) as [Hfull|Hfew].
  - assert (length (take 4 L) = 4) as Hlen by (rewrite length_take; lia).
    rewrite Hlen, Nat.sub_diag, take_0, app_nil_r in Heq. rewrite Heq. split.
    + eapply sublist_NoDup; [exact Hnd|]. apply fmap_sublist.
      etrans; [apply sublist_take | exact HL].
    + rewrite Hlen. apply sublist_length in HL. lia.
  - rewrite take_ge in Heq by lia.
    assert (otherMoves (map mi_name L) moves = filter (fun m => learnsByLevelUp m ≠ true) moves)
      as Hother.
    { apply filter_agree. intros m Hm. split.
      - intros Hname Hlv. apply Hname. apply (list_elem_of_fmap_2 mi_name).
        apply list_elem_of_filter. by split.
      - intros Hlv (m' & Hname & Hm')%list_elem_of_fmap.
        apply list_elem_of_filter in Hm' as [Hlv' Hm'].
        assert (m = m') as -> by (by eapply names_agree). done. }
    rewrite Hother in Heq. rewrite Heq. split.
    + rewrite fmap_app. apply NoDup_app. split_and!.
      * eapply sublist_NoDup; [exact Hnd|]. by apply fmap_sublist.
      * intros name (m & -> & Hm)%list_elem_of_fmap (m' & Hname & Hm')%list_elem_of_fmap.
        apply elem_of_take in Hm' as (i & Hm' & _). apply list_elem_of_lookup_2 in Hm'.
        apply list_elem_of_filter in Hm as [Hlv Hm].
        apply list_elem_of_filter in Hm' as [Hlv' Hm'].
        assert (m = m') as -> by (by eapply names_agree). done.
      * eapply sublist_NoDup; [exact Hnd|]. apply fmap_sublist.
        etrans; [apply sublist_take | apply sublist_filter].
    + rewrite length_app, length_take.
      pose proof (filter_app_complement (fun m => learnsByLevelUp m = true) moves) as Hperm.
      apply Permutation_length in Hperm. rewrite length_app in Hperm.
      fold (levelUpMoves moves) in Hperm. fold L in Hperm.
      assert (length (filter (fun m => learnsByLevelUp m ≠ true) moves)
              = length (filter (fun m => ¬ learnsByLevelUp m = true) moves)) as Hsame by done.
      lia.
Qed.

(** Five moves with distinct names, all learnt by level-up: the first
    four are selected. *)
Lemma selectMoves_distinct_witness :
  map mi_name
    (selectMoves
       (Example.species 6 "charizard" 78 84 78 100
          ["scratch"; "growl"; "ember"; "slash"; "inferno"] "blaze"))
  = ["scratch"; "growl"; "ember"; "slash"]
  /\ NoDup ["scratch"; "growl"; "ember"; "slash"].
Proof.
  split; [vm_compute; reflexivity|].
  pose proof (selectMoves_distinct
                (Example.species 6 "charizard" 78 84 78 100
                   ["scratch"; "growl"; "ember"; "slash"; "inferno"] "blaze")) as H.
  destruct H as [H _].
  - apply (bool_decide_unpack _). vm_compute. reflexivity.
  - exact H.
Defined.

End SelectionFacts.

(* ===================================================================== *)
(** ** Requests, failures and the creature that is built *)
(* ===================================================================== *)

Module ResolutionFacts.
Import Num Heap Fetch HeapFacts FetchFacts.
Local Open Scope nat_scope.

(** ** A move that was fetched is not fetched again *)

Lemma requests_cached_move o s moveInfo l :
  Inv s -> moveDataCache s !! mi_name moveInfo = Some l ->
  requests (getMoveDetails o s moveInfo).1 = requests s.
Proof.
  intros HI Hc. destruct (inv_moveDataCache s HI _ _ Hc) as [_ [m Hm]].
  rewrite (getMoveDetails_cached o s moveInfo l m Hc Hm). by destruct o.
Qed.

(** When the request for a move is answered, the move is stored in
    [moveDataCache] under its key, with its name formatted and a [null]
    power read as 0, and the producer's promise is fulfilled with it.
    From then on, whatever happens, a call for the key makes no request
    and returns a copy of that move at once. *)
Theorem move_fetched_once s tid moveName p power :
  reachable s -> live s tid (MoveFetch moveName p) ->
  let moveData :=
    {| move_name := Str.formatName moveName;
       move_power := match power with JNull => JNum zero | _ => power end |} in
  exists s1 l,
    moveResponse s tid (Some power) = Some s1
    /\ promises s1 !! p = Some (Fulfilled (Some l))
    /\ moveDataCache s1 !! moveName = Some l
    /\ moveFetchPromises s1 !! moveName = None
    /\ read_move (store s1) l = Some moveData
    /\ forall es s2 moveInfo,
         run s1 es = Some s2 -> mi_name moveInfo = moveName ->
         requests (getMoveDetails External s2 moveInfo).1 = requests s2
         /\ returned_move s2 moveInfo = Some moveData.
Proof.
  intros Hreach HF moveData. pose proof (Inv_reachable s Hreach) as HI.
  destruct (moveResponse_live s tid moveName p (Some power) HF)
    as (s1 & Hstep & Hs & He & Hp & Ht & _ & Hmf & _ & Hmc & _).
  assert (Inv s1) as HI1 by (by eapply Inv_moveResponse).
  assert (moveDataCache s1 !! moveName = Some (length (store s))) as Hc.
  { rewrite Hmc. apply lookup_insert_eq. }
  assert (read_move (store s1) (length (store s)) = Some moveData) as Hr.
  { rewrite Hs. unfold read_move. by rewrite lookup_app_r, Nat.sub_diag by lia. }
  exists s1, (length (store s)). split_and!; try done.
  - rewrite Hp. apply list_lookup_insert_eq.
    eapply lookup_lt_Some. apply (inv_pending s HI _ _ HF).
  - rewrite Hmf. apply lookup_delete_eq.
  - intros es s2 moveInfo Hrun Hname.
    pose proof (Inv_run s1 es s2 HI1 Hrun) as HI2.
    destruct (run_frame s1 es s2 HI1 Hrun) as (Hheap & _ & Hcache & _).
    assert (moveDataCache s2 !! mi_name moveInfo = Some (length (store s))) as Hc2.
    { rewrite Hname. by apply Hcache. }
    split; [by eapply requests_cached_move|].
    apply returned_move_cached; [done|]. exists (length (store s)). split; [done|].
    rewrite (read_move_ext s1 s2 _ Hheap); [done|]. by eapply inv_moveDataCache.
Qed.

(** ** A failed request is asked again *)

Lemma pokemonResponse_fails s tid identifier p :
  live s tid (PokemonFetch identifier p) ->
  pokemonResponse s tid None = Some (producerFails s tid identifier p).
Proof. intros H. unfold pokemonResponse. by rewrite H. Qed.

(** A failure is not remembered.  When the species request fails, the
    producer's promise is rejected, the key leaves
    [pokemonFetchPromises] and nothing is cached, so the next call for
    the creature asks the remote API again; the same holds for a move:
    nothing is cached for it and the next call asks again. *)
Theorem failed_request_retried s tid :
  reachable s ->
  (forall identifier p,
     live s tid (PokemonFetch identifier p) ->
     exists s1,
       pokemonResponse s tid None = Some s1
       /\ promises s1 !! p = Some Rejected
       /\ pokemonFetchPromises s1 !! identifier = None
       /\ pokemonDataCache s1 !! identifier = None
       /\ forall idOrName,
            Str.toLowerCase idOrName = identifier ->
            requests (getPokemonDetails s1 idOrName).1 = requests s1 ++ [ReqPokemon identifier])
  /\ (forall moveName p,
        live s tid (MoveFetch moveName p) ->
        exists s1,
          moveResponse s tid None = Some s1
          /\ moveFetchPromises s1 !! moveName = None
          /\ moveDataCache s1 !! moveName = None
          /\ forall o moveInfo,
               mi_name moveInfo = moveName ->
               requests (getMoveDetails o s1 moveInfo).1
               = requests s1 ++ [ReqMove moveName (mi_url moveInfo)]).
Proof.
  intros Hreach. pose proof (Inv_reachable s Hreach) as HI. split.
  - intros identifier p HF.
    assert (pokemonFetchPromises s !! identifier = Some p) as Hpending.
    { apply (inv_pokemonFetch s HI). exists tid, (PokemonFetch identifier p). split; [done|by left]. }
    pose proof (inv_pokemon_uncached s HI _ _ Hpending) as Huncached.
    exists (producerFails s tid identifier p). split_and!.
    + by apply pokemonResponse_fails.
    + simpl. apply list_lookup_insert_eq.
      eapply lookup_lt_Some. apply (inv_pending s HI _ _ HF).
    + simpl. apply lookup_delete_eq.
    + exact Huncached.
    + intros idOrName Hid. rewrite getPokemonDetails_fetch; rewrite Hid; simpl; try done.
      apply lookup_delete_eq.
  - intros moveName p HF.
    assert (moveFetchPromises s !! moveName = Some p) as Hpending.
    { apply (inv_moveFetch s HI). by exists tid. }
    pose proof (inv_move_uncached s HI _ _ Hpending) as Huncached.
    destruct (moveResponse_live s tid moveName p None HF)
      as (s1 & Hstep & _ & _ & _ & _ & _ & Hmf & _ & Hmc & _).
    assert (moveFetchPromises s1 !! moveName = None) as Hgone.
    { rewrite Hmf. apply lookup_delete_eq. }
    exists s1. split_and!; try done.
    + by rewrite Hmc.
    + intros o moveInfo Hname. rewrite getMoveDetails_fetch; rewrite Hname; try done.
      by rewrite Hmc.
Qed.


(** ** Calls never reject *)

Lemma waiting_pokemon_step s e s' tid identifier p ret :
  Inv s -> step s e = Some s' -> live s tid (PokemonAwait identifier p ret) ->
  live s' tid (PokemonAwait identifier p ret)
  \/ exists v, promises s' !! ret = Some (Fulfilled v).
Proof.
  intros HI Hstep Hlive.
  destruct (decide (slot_of e = Some tid)) as [Hslot|Hslot].
  - right. pose proof (resume_only s e s' tid _ Hlive Hstep Hslot) as Hres.
    specialize (Hres ltac:(done) ltac:(done)).
    assert (ret < length (promises s)) as Hlt.
    { eapply lookup_lt_Some. apply (inv_pending s HI _ _ Hlive). }
    destruct (inv_tasks s HI _ _ Hlive) as [[Hpend _] | [(l & Hl & Hgood) | Hrej]].
    + unfold resume in Hres. rewrite Hlive in Hres. unfold resumePokemonAwait in Hres.
      simpl in Hpend. by rewrite Hlive, Hpend in Hres.
    + destruct (resume_pokemon_fulfilled s tid identifier p ret l HI Hlive Hl)
        as (pd & s1 & l' & new & _ & Hres' & _ & Hret & _).
      rewrite Hres in Hres'. injection Hres' as <-. eauto.
    + unfold resume in Hres. rewrite Hlive in Hres.
      rewrite (resumePokemonAwait_rejected s tid identifier p ret Hlive Hrej) in Hres.
      injection Hres as <-. exists None. simpl. by apply list_lookup_insert_eq.
  - left. unfold live. rewrite (step_tasks s e s' tid HI Hstep Hslot); [done|].
    by eapply lookup_lt_Some.
Qed.

Lemma waiting_move_step s e s' tid moveName p ret o :
  Inv s -> step s e = Some s' -> live s tid (MoveAwait moveName p ret o) ->
  live s' tid (MoveAwait moveName p ret o)
  \/ exists l, promises s' !! ret = Some (Fulfilled (Some l)).
Proof.
  intros HI Hstep Hlive.
  destruct (decide (slot_of e = Some tid)) as [Hslot|Hslot].
  - right. pose proof (resume_only s e s' tid _ Hlive Hstep Hslot) as Hres.
    specialize (Hres ltac:(done) ltac:(done)).
    destruct (inv_tasks s HI _ _ Hlive) as [[Hpend _] | (l & Hl & Hgood)].
    + unfold resume in Hres. rewrite Hlive in Hres.
      by rewrite (resumeMoveAwait_pending s tid moveName p ret o Hlive Hpend) in Hres.
    + destruct (resume_move_fulfilled s tid moveName p ret o l HI Hlive Hl)
        as (m & s1 & l' & new & _ & Hres' & _ & Hret & _).
      rewrite Hres in Hres'. injection Hres' as <-. eauto.
  - left. unfold live. rewrite (step_tasks s e s' tid HI Hstep Hslot); [done|].
    by eapply lookup_lt_Some.
Qed.

Lemma waiting_pokemon_run s es s' tid identifier p ret :
  Inv s -> run s es = Some s' ->
  live s tid (PokemonAwait identifier p ret) \/ (exists v, promises s !! ret = Some (Fulfilled v)) ->
  live s' tid (PokemonAwait identifier p ret)
  \/ exists v, promises s' !! ret = Some (Fulfilled v).
Proof.
  revert s. induction es as [|e es IH]; intros s HI; simpl.
  - by intros [= <-].
  - destruct (step s e) as [s1|] eqn:Hstep; [|done]. intros Hrun Hs.
    apply (IH s1); [by eapply Inv_step | done |].
    destruct Hs as [Hlive | [v Hv]]; [by eapply waiting_pokemon_step|].
    right. exists v. by apply (frame_settled s s1 (frame_step s e s1 HI Hstep)).
Qed.

Lemma waiting_move_run s es s' tid moveName p ret o :
  Inv s -> run s es = Some s' ->
  live s tid (MoveAwait moveName p ret o)
  \/ (exists l, promises s !! ret = Some (Fulfilled (Some l))) ->
  live s' tid (MoveAwait moveName p ret o)
  \/ exists l, promises s' !! ret = Some (Fulfilled (Some l)).
Proof.
  revert s. induction es as [|e es IH]; intros s HI; simpl.
  - by intros [= <-].
  - destruct (step s e) as [s1|] eqn:Hstep; [|done]. intros Hrun Hs.
    apply (IH s1); [by eapply Inv_step | done |].
    destruct Hs as [Hlive | [l Hl]]; [by eapply waiting_move_step|].
    right. exists l. by apply (frame_settled s s1 (frame_step s e s1 HI Hstep)).
Qed.

Lemma pokemon_call_settles s idOrName es s2 :
  Inv s -> run (getPokemonDetails s idOrName).1 es = Some s2 ->
  promises s2 !! (getPokemonDetails s idOrName).2 = Some Pending
  \/ exists v, promises s2 !! (getPokemonDetails s idOrName).2 = Some (Fulfilled v).
Proof.
  intros HI Hrun.
  destruct (Inv_getPokemonDetails s idOrName HI) as [HI1 _].
  pose proof (Inv_run _ es s2 HI1 Hrun) as HI2.
  assert (exists tid p,
            live (getPokemonDetails s idOrName).1 tid
              (PokemonAwait (Str.toLowerCase idOrName) p (getPokemonDetails s idOrName).2)
            \/ exists v, promises (getPokemonDetails s idOrName).1
                           !! (getPokemonDetails s idOrName).2 = Some (Fulfilled v)) as Hcall.
  { destruct (pokemonDataCache s !! Str.toLowerCase idOrName) as [l|] eqn:Hc.
    - destruct (call_cached_pokemon s idOrName l HI Hc) as (pd & l' & new & _ & _ & Hret & _).
      exists 0, 0. right. eauto.
    - destruct (pokemonFetchPromises s !! Str.toLowerCase idOrName) as [p|] eqn:Hp.
      + rewrite (getPokemonDetails_pending s idOrName p Hc Hp).
        exists (length (tasks s)), p. left. unfold live, awaiting_pokemon. simpl.
        by rewrite lookup_app_r, Nat.sub_diag by lia.
      + rewrite (getPokemonDetails_fetch s idOrName Hc Hp).
        exists (S (length (tasks s))), (length (promises s)). left.
        unfold live, awaiting_pokemon, fetching_pokemon. simpl.
        rewrite (length_app (promises s)), Nat.add_1_r. simpl.
        apply lookup_app_Some. right. rewrite length_app. simpl. split; [lia|].
        by replace (S (length (tasks s)) - (length (tasks s) + 1)) with 0 by lia. }
  destruct Hcall as (tid & p & Hcall).
  destruct (waiting_pokemon_run _ es s2 tid _ p _ HI1 Hrun Hcall) as [Hlive|Hv]; [|by right].
  left. apply (inv_pending s2 HI2 _ _ Hlive).
Qed.

Lemma move_call_settles o s moveInfo es s2 :
  Inv s -> run (getMoveDetails o s moveInfo).1 es = Some s2 ->
  promises s2 !! (getMoveDetails o s moveInfo).2 = Some Pending
  \/ exists l, promises s2 !! (getMoveDetails o s moveInfo).2 = Some (Fulfilled (Some l)).
Proof.
  intros HI Hrun.
  destruct (Inv_getMoveDetails o s moveInfo HI) as [HI1 _].
  pose proof (Inv_run _ es s2 HI1 Hrun) as HI2.
  assert (exists tid p,
            live (getMoveDetails o s moveInfo).1 tid
              (MoveAwait (mi_name moveInfo) p (getMoveDetails o s moveInfo).2 o)
            \/ exists l, promises (getMoveDetails o s moveInfo).1
                           !! (getMoveDetails o s moveInfo).2 = Some (Fulfilled (Some l)))
    as Hcall.
  { destruct (moveDataCache s !! mi_name moveInfo) as [l|] eqn:Hc.
    - destruct (inv_moveDataCache s HI _ _ Hc) as [_ [m Hm]].
      rewrite (getMoveDetails_cached o s moveInfo l m Hc Hm).
      exists 0, 0. right. exists (length (store s)). simpl.
      destruct o; simpl; by rewrite lookup_app_r, Nat.sub_diag by lia.
    - destruct (moveFetchPromises s !! mi_name moveInfo) as [p|] eqn:Hp.
      + rewrite (getMoveDetails_pending o s moveInfo p Hc Hp).
        exists (length (tasks s)), p. left. unfold live, awaiting_move. simpl.
        by rewrite lookup_app_r, Nat.sub_diag by lia.
      + rewrite (getMoveDetails_fetch o s moveInfo Hc Hp).
        exists (S (length (tasks s))), (length (promises s)). left.
        unfold live, awaiting_move, fetching_move. simpl.
        rewrite (length_app (promises s)), Nat.add_1_r. simpl.
        apply lookup_app_Some. right. rewrite length_app. simpl. split; [lia|].
        by replace (S (length (tasks s)) - (length (tasks s) + 1)) with 0 by lia. }
  destruct Hcall as (tid & p & Hcall).
  destruct (waiting_move_run _ es s2 tid _ p _ o HI1 Hrun Hcall) as [Hlive|Hv]; [|by right].
  left. apply (inv_pending s2 HI2 _ _ Hlive).
Qed.

(** The promise a call returns is never rejected, whatever happens after
    the call: that of [getPokemonDetails] is pending or fulfilled (with a
    creature or with [null]); that of [getMoveDetails] is pending or
    fulfilled with a move, never with [null]. *)
Theorem calls_never_reject s :
  reachable s ->
  (forall idOrName es s2,
     run (getPokemonDetails s idOrName).1 es = Some s2 ->
     promises s2 !! (getPokemonDetails s idOrName).2 = Some Pending
     \/ exists v, promises s2 !! (getPokemonDetails s idOrName).2 = Some (Fulfilled v))
  /\ (forall o moveInfo es s2,
        run (getMoveDetails o s moveInfo).1 es = Some s2 ->
        promises s2 !! (getMoveDetails o s moveInfo).2 = Some Pending
        \/ exists l, promises s2 !! (getMoveDetails o s moveInfo).2
                     = Some (Fulfilled (Some l))).
Proof.
  intros Hreach. pose proof (Inv_reachable s Hreach) as HI. split.
  - intros idOrName es s2. by apply pokemon_call_settles.
  - intros o moveInfo es s2. by apply move_call_settles.
Qed.


(** ** From the species record to the creature *)

Lemma getMoveDetails_each_length s infos :
  length (getMoveDetails_each s infos).2 = length infos.
Proof.
  revert s. induction infos as [|moveInfo infos IH]; intros s; simpl; [done|].
  destruct (getMoveDetails Internal s moveInfo) as [s1 ret].
  specialize (IH s1). destruct (getMoveDetails_each s1 infos) as [s2 rets].
  simpl in *. by rewrite IH.
Qed.

Section Resolution.
Context (tid : nat) (identifier : string) (p : nat) (data : ApiPokemon) (ps : list nat).

(** What the producer leaves behind when it returns: the creature built
    from [data], cached and in its promise, with one move for each
    promise of [moveDetailPromises]; or, when the ability's name cannot
    be formatted, a rejected promise. *)
Definition produced (s : State) : Prop :=
  match abilityName data with
  | Some ability =>
      exists l moves ms,
        promises s !! p = Some (Fulfilled (Some l))
        /\ pokemonDataCache s !! identifier = Some l
        /\ read_pokemon (store s) l
           = Some (with_moves (formatted identifier data ability moves) ms)
        /\ length ms = length ps
  | None => promises s !! p = Some Rejected
  end.

Definition resolving (s : State) : Prop :=
  live s tid (PokemonMoves identifier p data ps)
  \/ (tasks s !! tid = Some None /\ produced s).

Lemma resolving_step s e s' :
  Inv s -> resolving s -> step s e = Some s' -> resolving s'.
Proof.
  intros HI Hres Hstep.
  pose proof (frame_step s e s' HI Hstep) as [Hheap Hsettled _ Hpc _ _].
  destruct Hres as [HP | [Hdone Hout]].
  - destruct (decide (slot_of e = Some tid)) as [Hslot|Hslot].
    + right.
      pose proof (resume_only s e s' tid _ HP Hstep Hslot ltac:(done) ltac:(done)) as Hresume.
      unfold resume in Hresume. rewrite HP in Hresume.
      assert (p < length (promises s)) as Hlt.
      { eapply lookup_lt_Some. apply (inv_pending s HI _ _ HP). }
      assert (tid < length (tasks s)) as Htid by (by eapply lookup_lt_Some).
      destruct (promise_all_results s ps (inv_tasks s HI _ _ HP))
        as [Hall | (ls & Hall & Hls & Hvals)].
      { unfold resumePokemonMoves in Hresume. by rewrite HP, Hall in Hresume. }
      unfold produced. destruct (abilityName data) as [ability|] eqn:Hab.
      * destruct (resumePokemonMoves_live _ _ _ _ _ _ _ _ HP Hall Hab)
          as (s'' & Heq' & Hs & He & Hps & Ht & _ & _ & _ & _ & Hpc').
        rewrite Hresume in Heq'. injection Heq' as <-.
        destruct (read_moves_Some (store s) ls) as [ms Hms].
        { eapply Forall_impl; [exact Hls|]. by intros q [_ ?]. }
        split; [rewrite Ht; by apply list_lookup_insert_eq|].
        exists (S (length (store s))), (length (store s)), ms. split_and!.
        -- rewrite Hps. by apply list_lookup_insert_eq.
        -- rewrite Hpc'. apply lookup_insert_eq.
        -- rewrite Hs. unfold read_pokemon, read_array.
           rewrite lookup_app_r by lia.
           replace (S (length (store s)) - length (store s)) with 1 by lia. simpl.
           rewrite lookup_app_r, Nat.sub_diag by lia. simpl.
           by rewrite (read_moves_app _ _ _ _ Hms).
        -- rewrite (read_moves_length _ _ _ Hms). symmetry. by eapply Forall2_length.
      * unfold resumePokemonMoves in Hresume. rewrite HP, Hall, Hab in Hresume.
        injection Hresume as <-. simpl. split; by apply list_lookup_insert_eq.
    + left. unfold live. rewrite (step_tasks s e s' tid HI Hstep Hslot); [done|].
      by eapply lookup_lt_Some.
  - right. split; [exact (step_returned s e s' tid HI Hstep Hdone)|].
    unfold produced in *. destruct (abilityName data) as [ability|].
    + destruct Hout as (l & moves & ms & Hp & Hc & Hr & Hlen).
      exists l, moves, ms. split_and!; [by apply Hsettled | by apply Hpc | | done].
      rewrite (read_pokemon_ext s s' l Hheap); [done|]. by eapply inv_pokemonDataCache.
    + by apply Hsettled.
Qed.

Lemma resolving_run s es s' :
  Inv s -> resolving s -> run s es = Some s' -> resolving s'.
Proof.
  revert s. induction es as [|e es IH]; intros s HI Hres; simpl.
  - by intros [= <-].
  - destruct (step s e) as [s1|] eqn:Hstep; [|done]. intros Hrun.
    eapply (IH s1); [by eapply Inv_step | by eapply resolving_step | done].
Qed.

End Resolution.

(** When the species request is answered, the producer calls
    [getMoveDetails] for each selected move and waits for them all.
    Whatever happens next, it is either still waiting or has returned; and
    when it has returned, it has cached the creature built from the
    answer (id, capitalized name, the four stats, sprite and ability)
    with exactly as many moves as were selected, none dropped, and
    fulfilled its promise with it; unless the ability's name cannot be
    formatted, in which case its promise is rejected. *)
Theorem resolution_outcome s tid identifier p data :
  reachable s -> live s tid (PokemonFetch identifier p) ->
  exists s1 moveDetailPromises,
    pokemonResponse s tid (Some data) = Some s1
    /\ live s1 tid (PokemonMoves identifier p data moveDetailPromises)
    /\ length moveDetailPromises = length (selectMoves data)
    /\ forall es s2,
         run s1 es = Some s2 ->
         live s2 tid (PokemonMoves identifier p data moveDetailPromises)
         \/ (tasks s2 !! tid = Some None
             /\ match abilityName data with
                | Some ability =>
                    exists l moves ms,
                      promises s2 !! p = Some (Fulfilled (Some l))
                      /\ pokemonDataCache s2 !! identifier = Some l
                      /\ read_pokemon (store s2) l
                         = Some (with_moves (formatted identifier data ability moves) ms)
                      /\ length ms = length (selectMoves data)
                | None => promises s2 !! p = Some Rejected
                end).
Proof.
  intros Hreach HF. pose proof (Inv_reachable s Hreach) as HI.
  pose proof (pokemonResponse_data s tid identifier p data HF) as Hstep.
  pose proof (getMoveDetails_each_length s (selectMoves data)) as Hlen.
  destruct (Inv_getMoveDetails_each s (selectMoves data) HI) as (_ & [[_ _ [new Hnew]] _ _ _ _ _] & _).
  set (s0 := (getMoveDetails_each s (selectMoves data)).1) in *.
  set (ps := (getMoveDetails_each s (selectMoves data)).2) in *.
  assert (live (suspend s0 tid (PokemonMoves identifier p data ps)) tid
            (PokemonMoves identifier p data ps)) as Hlive.
  { unfold live. simpl. apply list_lookup_insert_eq. rewrite Hnew, length_app.
    apply lookup_lt_Some in HF. lia. }
  eexists _, ps. split_and!; [exact Hstep | exact Hlive | exact Hlen |].
  intros es s2 Hrun.
  assert (Inv (suspend s0 tid (PokemonMoves identifier p data ps))) as HI1.
  { by eapply Inv_pokemonResponse. }
  destruct (resolving_run tid identifier p data ps _ es s2 HI1 (or_introl Hlive) Hrun)
    as [?|[Hdone Hout]]; [by left|].
  right. split; [done|]. unfold produced in Hout. by rewrite <- Hlen.
Qed.

(** ** Examples *)

Section ExampleResolution.
Import Example FetchExample Scenario.

Lemma reachable_calling : reachable calling.
Proof. exists [CallPokemon "129"]. vm_compute. reflexivity. Qed.

Lemma reachable_initial : reachable initial.
Proof. by exists []. Qed.

(** The request for [tackle] is answered with power 40: the move is
    cached, and the next call for it makes no request and returns it. *)
Lemma move_fetched_once_witness :
  exists s1 l,
    moveResponse fetching 5 (Some (JNum (of_Z 40))) = Some s1
    /\ moveDataCache s1 !! "tackle" = Some l
    /\ read_move (store s1) l = Some tackle
    /\ requests (getMoveDetails External s1 (moveInfo "tackle")).1 = requests s1
    /\ returned_move s1 (moveInfo "tackle") = Some tackle.
Proof.
  destruct (move_fetched_once fetching 5 "tackle" 5 (JNum (of_Z 40)) reachable_fetching)
    as (s1 & l & H1 & _ & H3 & _ & H5 & H6); [vm_compute; reflexivity|].
  destruct (H6 [] s1 (moveInfo "tackle") eq_refl eq_refl) as [Ha Hb].
  exists s1, l. split_and!; [exact H1 | exact H3 | exact H5 | exact Ha | exact Hb].
Defined.

(** The request for creature 129 fails, and so does the one for
    [tackle]: the next call for either asks again. *)
Lemma failed_request_retried_witness :
  (exists s1,
     pokemonResponse calling 0 None = Some s1
     /\ promises s1 !! 0 = Some Rejected
     /\ requests (getPokemonDetails s1 "129").1 = requests s1 ++ [ReqPokemon "129"])
  /\ exists s1,
       moveResponse fetching 5 None = Some s1
       /\ requests (getMoveDetails External s1 (moveInfo "tackle")).1
          = requests s1 ++ [ReqMove "tackle" "https://pokeapi.co/api/v2/move/tackle"].
Proof.
  split.
  - destruct (failed_request_retried calling 0 reachable_calling) as [H _].
    destruct (H "129" 0) as (s1 & H1 & H2 & _ & _ & H5); [vm_compute; reflexivity|].
    exists s1. split_and!; [exact H1 | exact H2 | apply H5; reflexivity].
  - destruct (failed_request_retried fetching 5 reachable_fetching) as [_ H].
    destruct (H "tackle" 5) as (s1 & H1 & _ & _ & H4); [vm_compute; reflexivity|].
    exists s1. split; [exact H1|]. apply (H4 External (moveInfo "tackle")). reflexivity.
Defined.

(** The request for creature 129 fails and the caller resumes: its
    promise is not rejected. *)
Lemma calls_never_reject_witness :
  exists s2,
    run (getPokemonDetails initial "129").1 [PokemonResponse 0 None; Resume 1] = Some s2
    /\ (promises s2 !! (getPokemonDetails initial "129").2 = Some Pending
        \/ exists v, promises s2 !! (getPokemonDetails initial "129").2 = Some (Fulfilled v)).
Proof.
  destruct (calls_never_reject initial reachable_initial) as [H _].
  eexists. split; [vm_compute; reflexivity|].
  apply (H "129" [PokemonResponse 0 None; Resume 1]). vm_compute. reflexivity.
Defined.

(** The species request for creature 129 is answered: the producer asks
    for the two moves, and once they are answered and it has resumed, the
    creature is cached with two moves. *)
Lemma resolution_outcome_witness :
  exists s1 moveDetailPromises s2,
    pokemonResponse calling 0 (Some magikarp) = Some s1
    /\ length moveDetailPromises = 2
    /\ run s1 resolved = Some s2
    /\ (live s2 0 (PokemonMoves "129" 0 magikarp moveDetailPromises)
        \/ tasks s2 !! 0 = Some None
           /\ exists l moves ms,
                promises s2 !! 0 = Some (Fulfilled (Some l))
                /\ pokemonDataCache s2 !! "129" = Some l
                /\ read_pokemon (store s2) l
                   = Some (with_moves (formatted "129" magikarp "Swift Swim" moves) ms)
                /\ length ms = 2).
Proof.
  destruct (resolution_outcome calling 0 "129" 0 magikarp reachable_calling)
    as (s1 & ps & H1 & _ & H3 & H4); [vm_compute; reflexivity|].
  assert (exists s2, run s1 resolved = Some s2) as [s2 Hrun].
  { vm_compute in H1. injection H1 as <-. eexists. vm_compute. reflexivity. }
  exists s1, ps, s2. split_and!; [exact H1 | exact H3 | exact Hrun |].
  exact (H4 resolved s2 Hrun).
Defined.

End ExampleResolution.

End ResolutionFacts.

(* ===================================================================== *)
(** ** Pairing and leaving *)
(* ===================================================================== *)

Module MatchmakingFacts.
Import Num Match MatchFacts.
Local Open Scope nat_scope.

(** ** Pairing *)

Lemma or_string_Some u fallback : u ≠ "" -> or_string (Some u) fallback = u.
Proof. intros H. unfold or_string. by rewrite decide_False. Qed.

Lemma room_members_rooms s x room :
  x ∈ default ∅ (rooms s !! room) -> x ∈ room_members s room.
Proof. intros H. unfold room_members. by apply elem_of_union_l. Qed.

Lemma rooms_join_elem s sock room : sock ∈ default ∅ (rooms (join s sock room) !! room).
Proof. unfold join. simpl. rewrite lookup_insert_eq. simpl. set_solver. Qed.

Lemma rooms_join_mono s sock room x r :
  x ∈ default ∅ (rooms s !! r) -> x ∈ default ∅ (rooms (join s sock room) !! r).
Proof.
  intros H. unfold join. simpl. destruct (decide (room = r)) as [->|Hne].
  - rewrite lookup_insert_eq. simpl. set_solver.
  - by rewrite lookup_insert_ne.
Qed.

Lemma findMatch_pairing s player1 sock gameId username1 username2 :
  let s' := findMatch s sock gameId in
  waitingPlayer s = Some player1 -> player1 ≠ sock ->
  sockets s !! player1 = Some username1 -> sockets s !! sock = Some username2 ->
  username1 ≠ "" -> username2 ≠ "" ->
  waitingPlayer s' = None
  /\ games_lookup (activeGames s') gameId
     = Some {| g_id := gameId;
               g_players := <[sock := new_player sock username2 false]>
                              (<[player1 := new_player player1 username1 true]> ∅);
               g_playerOrder := (player1, sock);
               g_battleState := None; g_turn := None; g_log := [LogMatchFound] |}
  /\ (forall other, other ≠ gameId ->
        games_lookup (activeGames s') other = games_lookup (activeGames s) other)
  /\ player1 ∈ room_members s' gameId /\ sock ∈ room_members s' gameId
  /\ outbox s'
     = outbox s ++ [(player1, EvMatchFound gameId username2); (sock, EvMatchFound gameId username1)]
  /\ leaderboard s' = leaderboard s /\ sockets s' = sockets s.
Proof.
  intros s' Hw Hne H1 H2 Hu1 Hu2. subst s'. unfold findMatch.
  rewrite H2, or_string_Some by done. rewrite decide_False by done.
  simpl. rewrite Hw. rewrite decide_True by done. simpl.
  rewrite H1, H2. rewrite (or_string_Some username1), (or_string_Some username2) by done.
  destruct (decide (username1 = "" ∨ username2 = "")) as [[?|?]|_]; [done..|].
  split_and!; try (simpl; done).
  - simpl. by rewrite games_lookup_set_eq.
  - intros other Hother. simpl. by rewrite games_lookup_set_ne.
  - apply room_members_rooms.
    match goal with
    | |- _ ∈ default ∅ (rooms (emit (emit (store ?x _ _) _ _) _ _) !! _) =>
        change (player1 ∈ default ∅ (rooms x !! gameId))
    end.
    apply rooms_join_mono, rooms_join_elem.
  - apply room_members_rooms.
    match goal with
    | |- _ ∈ default ∅ (rooms (emit (emit (store ?x _ _) _ _) _ _) !! _) =>
        change (sock ∈ default ∅ (rooms x !! gameId))
    end.
    apply rooms_join_elem.
  - simpl. by rewrite <- app_assoc.
Qed.

(** A socket that asks for a match while another one is waiting is paired
    with it: the waiting slot is cleared, a match with both of them (the
    one that waited as player one, no team selected, no battle) is
    registered under the new id, both join its room, and each is told the
    other's name.  No other match changes. *)
Theorem findMatch_pairs s player1 sock gameId username1 username2 :
  let s' := findMatch s sock gameId in
  waitingPlayer s = Some player1 -> player1 ≠ sock ->
  sockets s !! player1 = Some username1 -> sockets s !! sock = Some username2 ->
  username1 ≠ "" -> username2 ≠ "" ->
  waitingPlayer s' = None
  /\ games_lookup (activeGames s') gameId
     = Some {| g_id := gameId;
               g_players := <[sock := new_player sock username2 false]>
                              (<[player1 := new_player player1 username1 true]> ∅);
               g_playerOrder := (player1, sock);
               g_battleState := None; g_turn := None; g_log := [LogMatchFound] |}
  /\ (forall other, other ≠ gameId ->
        games_lookup (activeGames s') other = games_lookup (activeGames s) other)
  /\ player1 ∈ room_members s' gameId /\ sock ∈ room_members s' gameId
  /\ outbox s'
     = outbox s ++ [(player1, EvMatchFound gameId username2); (sock, EvMatchFound gameId username1)]
  /\ leaderboard s' = leaderboard s /\ sockets s' = sockets s.
Proof. apply findMatch_pairing. Qed.

Lemma findMatch_waiting s sock gameId username :
  let s' := findMatch s sock gameId in
  waitingPlayer s = None \/ waitingPlayer s = Some sock ->
  sockets s !! sock = Some username -> username ≠ "" ->
  waitingPlayer s' = Some sock
  /\ activeGames s' = activeGames s
  /\ sock ∈ room_members s' "lobby"
  /\ outbox s' = outbox s ++ [(sock, EvWaitingForOpponent)]
  /\ leaderboard s' = leaderboard s /\ sockets s' = sockets s.
Proof.
  intros s' Hw Hs Hu. subst s'. unfold findMatch.
  rewrite Hs, or_string_Some by done. rewrite decide_False by done. simpl.
  assert (sock ∈ room_members
            (emit (set_waitingPlayer (join s sock "lobby") (Some sock)) sock EvWaitingForOpponent)
            "lobby") as Hroom.
  { apply room_members_rooms. apply (rooms_join_elem s sock "lobby"). }
  destruct Hw as [-> | ->]; [by split_and!|].
  rewrite decide_False by (intros H; by apply H). by split_and!.
Qed.

(** A socket is never paired with itself: when nobody is waiting, or the
    socket itself is, it becomes (or stays) the waiting one, is told so,
    and no match is created. *)
Theorem findMatch_waits s sock gameId username :
  let s' := findMatch s sock gameId in
  waitingPlayer s = None \/ waitingPlayer s = Some sock ->
  sockets s !! sock = Some username -> username ≠ "" ->
  waitingPlayer s' = Some sock
  /\ activeGames s' = activeGames s
  /\ sock ∈ room_members s' "lobby"
  /\ outbox s' = outbox s ++ [(sock, EvWaitingForOpponent)]
  /\ leaderboard s' = leaderboard s /\ sockets s' = sockets s.
Proof. apply findMatch_waiting. Qed.

(** ** Sockets that leave *)

Lemma other_player_ne order me opp : other_player order me = Some opp -> opp ≠ me.
Proof.
  unfold other_player. destruct (decide (order.1 ≠ me)); [by intros [= <-]|].
  destruct (decide (order.2 ≠ me)); [by intros [= <-] | done].
Qed.

Lemma disconnect_waitingPlayer s sock :
  waitingPlayer (disconnect s sock)
  = if decide (waitingPlayer s = Some sock) then None else waitingPlayer s.
Proof.
  unfold disconnect. cbv zeta.
  set (s0 := drop_socket s sock).
  set (s1 := if decide (waitingPlayer s0 = Some sock) then set_waitingPlayer s0 None else s0).
  assert (waitingPlayer s1
          = if decide (waitingPlayer s = Some sock) then None else waitingPlayer s) as Hw.
  { subst s1 s0. simpl. by destruct (decide _). }
  clearbody s1. clear s0. rewrite <- Hw.
  destruct (find_game _ _); [|done]. destruct (games_lookup _ _); [|done].
  destruct (other_player _ _); [|done].
  destruct (decide (_ ∧ _)); [|done]. by destruct (battle_started _).
Qed.

Lemma disconnect_sockets s sock : sockets (disconnect s sock) = delete sock (sockets s).
Proof.
  unfold disconnect. cbv zeta.
  set (s0 := drop_socket s sock).
  set (s1 := if decide (waitingPlayer s0 = Some sock) then set_waitingPlayer s0 None else s0).
  assert (sockets s1 = delete sock (sockets s)) as Hs by (subst s1 s0; by destruct (decide _)).
  clearbody s1. clear s0. rewrite <- Hs.
  destruct (find_game _ _); [|done]. destruct (games_lookup _ _); [|done].
  destruct (other_player _ _); [|done].
  destruct (decide (_ ∧ _)); [|done]. by destruct (battle_started _).
Qed.

(** A waiting socket that disconnects frees the waiting slot: the next
    socket that asks for a match is not paired with the one that left,
    it waits. *)
Theorem waiting_socket_leaves s gone sock gameId username :
  let s1 := disconnect s gone in
  let s2 := findMatch s1 sock gameId in
  waitingPlayer s = Some gone ->
  sockets s !! sock = Some username -> username ≠ "" -> sock ≠ gone ->
  waitingPlayer s1 = None
  /\ sockets s1 !! gone = None
  /\ waitingPlayer s2 = Some sock
  /\ activeGames s2 = activeGames s1
  /\ outbox s2 = outbox s1 ++ [(sock, EvWaitingForOpponent)].
Proof.
  intros s1 s2 Hw Hs Hu Hne.
  assert (waitingPlayer s1 = None) as Hw1.
  { subst s1. rewrite disconnect_waitingPlayer. by rewrite decide_True. }
  assert (sockets s1 !! sock = Some username) as Hs1.
  { subst s1. rewrite disconnect_sockets. by rewrite lookup_delete_ne. }
  destruct (findMatch_waiting s1 sock gameId username (or_introl Hw1) Hs1 Hu)
    as (H1 & H2 & _ & H3 & _).
  split_and!; try done. subst s1. rewrite disconnect_sockets. apply lookup_delete_eq.
Qed.

(** A disconnection tells nobody and awards no win when the socket is in
    no match, and when its opponent is no longer connected; in the second
    case the match is removed all the same. *)
Theorem disconnect_silent s sock :
  let s' := disconnect s sock in
  (find_game (activeGames s) sock = None ->
   activeGames s' = activeGames s /\ leaderboard s' = leaderboard s /\ outbox s' = outbox s)
  /\ (forall gameId game opp,
        find_game (activeGames s) sock = Some gameId ->
        games_lookup (activeGames s) gameId = Some game ->
        other_player (g_playerOrder game) sock = Some opp ->
        sockets s !! opp = None ->
        games_lookup (activeGames s') gameId = None
        /\ leaderboard s' = leaderboard s /\ outbox s' = outbox s).
Proof.
  intros s'. subst s'. unfold disconnect. cbv zeta.
  set (s0 := drop_socket s sock).
  set (s1 := if decide (waitingPlayer s0 = Some sock) then set_waitingPlayer s0 None else s0).
  assert (activeGames s1 = activeGames s) as Hg by (subst s1; by destruct (decide _)).
  assert (leaderboard s1 = leaderboard s) as Hl by (subst s1; by destruct (decide _)).
  assert (outbox s1 = outbox s) as Ho by (subst s1; by destruct (decide _)).
  assert (sockets s1 = delete sock (sockets s)) as Hs by (subst s1; by destruct (decide _)).
  clearbody s1. clear s0. rewrite Hg. split.
  - intros ->. by rewrite Hg, Hl, Ho.
  - intros gameId game opp Hfind Hgame Hopp Hgone. rewrite Hfind, Hgame, Hopp.
    pose proof (other_player_ne _ _ _ Hopp) as Hne.
    rewrite decide_False; last first.
    { intros [_ [u Hu]]. simpl in Hu. rewrite Hs, lookup_delete_ne in Hu by done. congruence. }
    simpl. rewrite Hg, Hl, Ho. split; [apply games_lookup_delete_eq | done].
Qed.

(** ** Examples *)

Section ExampleMatchmaking.
Import Example Scenario.

(** The second socket asks for a match while the first one waits. *)
Lemma findMatch_pairs_witness :
  waitingPlayer (findMatch queued "bob" "g1") = None
  /\ (exists game,
        games_lookup (activeGames (findMatch queued "bob" "g1")) "g1" = Some game
        /\ g_playerOrder game = ("alice", "bob"))
  /\ outbox (findMatch queued "bob" "g1")
     = outbox queued ++ [("alice", EvMatchFound "g1" "Anon_bob");
                         ("bob", EvMatchFound "g1" "Anon_alic")].
Proof.
  destruct (findMatch_pairs queued "alice" "bob" "g1" "Anon_alic" "Anon_bob")
    as (H1 & H2 & _ & _ & _ & H3 & _);
    [reflexivity | discriminate | reflexivity | reflexivity | discriminate | discriminate |].
  split_and!; [exact H1 | | exact H3]. eexists. split; [exact H2 | reflexivity].
Defined.

(** The socket that waits asks again: it is not paired with itself. *)
Lemma findMatch_waits_witness :
  waitingPlayer (findMatch queued "alice" "g1") = Some "alice"
  /\ activeGames (findMatch queued "alice" "g1") = []
  /\ outbox (findMatch queued "alice" "g1") = outbox queued ++ [("alice", EvWaitingForOpponent)].
Proof.
  destruct (findMatch_waits queued "alice" "g1" "Anon_alic") as (H1 & H2 & _ & H3 & _);
    [right; reflexivity | reflexivity | discriminate |].
  split_and!; [exact H1 | exact H2 | exact H3].
Defined.

(** The socket that waits leaves, then the second one asks for a match. *)
Lemma waiting_socket_leaves_witness :
  waitingPlayer (disconnect queued "alice") = None
  /\ waitingPlayer (findMatch (disconnect queued "alice") "bob" "g1") = Some "bob"
  /\ activeGames (findMatch (disconnect queued "alice") "bob" "g1") = [].
Proof.
  destruct (waiting_socket_leaves queued "alice" "bob" "g1" "Anon_bob") as (H1 & _ & H2 & H3 & _);
    [reflexivity | reflexivity | discriminate | discriminate |].
  split_and!; [exact H1 | exact H2 | rewrite H3; reflexivity].
Defined.

(** A socket that is in no match leaves; and the third socket leaves the
    match its opponent has left already. *)
Lemma disconnect_silent_witness :
  (activeGames (disconnect queued "bob") = activeGames queued
   /\ outbox (disconnect queued "bob") = outbox queued)
  /\ (games_lookup (activeGames (disconnect abandoned "carol")) "g2" = None
      /\ leaderboard (disconnect abandoned "carol") = leaderboard abandoned
      /\ outbox (disconnect abandoned "carol") = outbox abandoned).
Proof.
  split.
  - destruct (disconnect_silent queued "bob") as [H _].
    destruct H as (H1 & _ & H3); [reflexivity|]. split; [exact H1 | exact H3].
  - destruct (disconnect_silent abandoned "carol") as [_ H].
    odestruct (H "g2" _ "alice") as (H1 & H2 & H3);
      [reflexivity | reflexivity | reflexivity | reflexivity |].
    split_and!; [exact H1 | exact H2 | exact H3].
Defined.

End ExampleMatchmaking.

End MatchmakingFacts.

(* ===================================================================== *)
(** ** Actions of a battle *)
(* ===================================================================== *)

Module BattleFacts.
Import Num Match MatchFacts.
Local Open Scope nat_scope.

Local Opaque Damage.calculateDamage Num.leb Num.sub.

(** ** The turn passes *)

(** The game object once the turn has passed to [opp]. *)
Definition after_turn (game : Game) (meIsP1 : bool) (me opp : Side) : Game :=
  set_sides (push_log (set_turn game (Some (sd_id opp))) (LogTurn (sd_username opp)))
    meIsP1 me opp.

(** [io.to(gameId).emit('gameStateUpdate', getSanitizedGameState(gameId))]
    once [game] is stored. *)
Definition updated (s : Server) (gameId : string) (game : Game) : Server :=
  emit_to (store s gameId game) gameId
    (EvGameStateUpdate (getSanitizedGameState (store s gameId game) gameId)).

Lemma turn_passes s gameId game meIsP1 me opp opponentPokemon :
  sd_mustSwitch opp = false ->
  turn_ended s gameId game meIsP1 me opp (Some (sd_id opp)) opponentPokemon
  = updated s gameId (after_turn game meIsP1 me opp).
Proof. intros H. unfold turn_ended. by rewrite H. Qed.

Lemma updated_registry s gameId game :
  games_lookup (activeGames (updated s gameId game)) gameId = Some game.
Proof. unfold updated. simpl. apply games_lookup_set_eq. Qed.

Lemma updated_others s gameId game other :
  other ≠ gameId ->
  games_lookup (activeGames (updated s gameId game)) other = games_lookup (activeGames s) other.
Proof. intros H. unfold updated. simpl. by apply games_lookup_set_ne. Qed.

Lemma updated_outbox s gameId game :
  outbox (updated s gameId game)
  = outbox s
    ++ map (fun sock => (sock, EvGameStateUpdate (getSanitizedGameState (updated s gameId game) gameId)))
         (elements (room_members s gameId)).
Proof. done. Qed.

Lemma sides_of_set game game' meIsP1 me opp me' opp' :
  sides_of game meIsP1 me opp ->
  g_playerOrder game' = g_playerOrder game ->
  sd_id me' = sd_id me -> sd_id opp' = sd_id opp ->
  g_battleState game' = Some (if meIsP1 then (me', opp') else (opp', me')) ->
  sides_of game' meIsP1 me' opp'.
Proof.
  intros (_ & Hord & Hne) Ho H1 H2 Hb. unfold sides_of, wf_battle.
  rewrite Ho, Hord. destruct meIsP1; rewrite Hb, H1, H2; by split_and!.
Qed.

(** ** An attack the defender survives *)

Section Lands.
Context (s : Server) (gameId : string) (game : Game) (meIsP1 : bool) (me opp : Side).
Context (playerPokemon opponentPokemon : Pokemon) (team : list Pokemon).
Context (moveName : string) (move : Move) (rnd : jsnum).
Let damage :=
  Damage.calculateDamage (Some playerPokemon) (Some opponentPokemon) (Some move) rnd.
Let hp := sub (currentHp opponentPokemon) damage.
Hypothesis Hgame : games_lookup (activeGames s) gameId = Some game.
Hypothesis Hsides : sides_of game meIsP1 me opp.
Hypothesis Hturn : g_turn game = Some (sd_id me).
Hypothesis Hfree : sd_mustSwitch me = false.
Hypothesis Hmine : activePokemon game me = Some playerPokemon.
Hypothesis Hteam : side_team game opp = Some team.
Hypothesis Htheirs : team_at team (sd_activePokemonIndex opp) = Some opponentPokemon.
Hypothesis Hstanding : fainted playerPokemon = false.
Hypothesis Hmove :
  List.find (fun m => bool_decide (move_name m = moveName)) (pd_moves (base playerPokemon))
  = Some move.
Hypothesis Hhp : leb hp zero = false.

(** The game object once the attack has been narrated and the damage
    taken. *)
Definition after_hit : Game :=
  set_team_member
    (push_log
       (push_log (set_log game [])
          (LogUsed (sd_username me) (pd_name (base playerPokemon)) (move_name move)))
       (LogEffect (sd_username opp) (pd_name (base opponentPokemon)) (move_power move) damage))
    opp (sd_activePokemonIndex opp) (set_hp opponentPokemon hp (fainted opponentPokemon)).

Lemma lands_attack :
  performAction s (sd_id me) gameId (Attack moveName) rnd
  = turn_ended s gameId after_hit meIsP1 me opp (Some (sd_id opp)) opponentPokemon.
Proof using All.
  assert (activePokemon game opp = Some opponentPokemon) as Hact.
  { unfold activePokemon. by rewrite Hteam. }
  rewrite (performAction_acting s gameId game meIsP1 me opp playerPokemon opponentPokemon
             _ _ Hgame Hsides Hturn Hmine Hact).
  rewrite Hfree. simpl. unfold attack.
  rewrite Hmove, Hstanding. fold damage. fold hp. by rewrite Hhp.
Qed.

Lemma lands_team :
  side_team after_hit opp
  = Some (<[Z.to_nat (sd_activePokemonIndex opp) :=
              set_hp opponentPokemon hp (fainted opponentPokemon)]> team).
Proof using Hteam.
  unfold after_hit. by apply side_team_set_team_member.
Qed.

Lemma lands_mine : side_team after_hit me = side_team game me.
Proof using Hsides.
  unfold after_hit. rewrite side_team_set_team_member_ne; [done|].
  apply not_eq_sym. exact (sides_of_ids _ _ _ _ Hsides).
Qed.

End Lands.

(** An attack with a move the active creature has, which leaves the
    defender's [currentHp] above 0: the defender keeps standing with its
    [currentHp] lowered by the damage, nobody else changes, the turn
    passes to the defending side, and the narration of the turn (the
    move, its effect, whose turn it is) goes with the new state to every
    socket of the match's room. *)
Theorem attack_lands s gameId game meIsP1 me opp playerPokemon opponentPokemon
    team moveName move rnd :
  let damage :=
    Damage.calculateDamage (Some playerPokemon) (Some opponentPokemon) (Some move) rnd in
  let hp := sub (currentHp opponentPokemon) damage in
  let s' := performAction s (sd_id me) gameId (Attack moveName) rnd in
  games_lookup (activeGames s) gameId = Some game ->
  sides_of game meIsP1 me opp ->
  g_turn game = Some (sd_id me) ->
  sd_mustSwitch me = false -> sd_mustSwitch opp = false ->
  activePokemon game me = Some playerPokemon ->
  side_team game opp = Some team ->
  team_at team (sd_activePokemonIndex opp) = Some opponentPokemon ->
  fainted playerPokemon = false ->
  List.find (fun m => bool_decide (move_name m = moveName)) (pd_moves (base playerPokemon))
  = Some move ->
  leb hp zero = false ->
  exists game',
    games_lookup (activeGames s') gameId = Some game'
    /\ sides_of game' meIsP1 me opp
    /\ g_turn game' = Some (sd_id opp)
    /\ side_team game' opp
       = Some (<[Z.to_nat (sd_activePokemonIndex opp) :=
                   set_hp opponentPokemon hp (fainted opponentPokemon)]> team)
    /\ activePokemon game' opp = Some (set_hp opponentPokemon hp (fainted opponentPokemon))
    /\ side_team game' me = side_team game me
    /\ g_log game'
       = [LogUsed (sd_username me) (pd_name (base playerPokemon)) (move_name move);
          LogEffect (sd_username opp) (pd_name (base opponentPokemon)) (move_power move) damage;
          LogTurn (sd_username opp)]
    /\ leaderboard s' = leaderboard s
    /\ outbox s'
       = outbox s
         ++ map (fun sock => (sock, EvGameStateUpdate (getSanitizedGameState s' gameId)))
              (elements (room_members s gameId)).
Proof.
  intros damage hp s' Hgame Hsides Hturn Hfree Hopp Hmine Hteam Htheirs Hstanding Hmove Hhp.
  pose proof (lands_attack s gameId game meIsP1 me opp playerPokemon opponentPokemon team
                moveName move rnd Hgame Hsides Hturn Hfree Hmine Hteam Htheirs Hstanding
                Hmove Hhp) as Hrun.
  fold s' in Hrun. rewrite turn_passes in Hrun by done.
  pose proof (lands_team game me opp playerPokemon opponentPokemon team move rnd Hteam)
    as Hteam'.
  pose proof (lands_mine game meIsP1 me opp playerPokemon opponentPokemon move rnd Hsides)
    as Hmine'.
  set (game1 := after_hit game me opp playerPokemon opponentPokemon move rnd) in *.
  exists (after_turn game1 meIsP1 me opp). split_and!.
  - rewrite Hrun. apply updated_registry.
  - eapply sides_of_set; [exact Hsides | | done | done | done].
    simpl. subst game1. unfold after_hit. by rewrite playerOrder_set_team_member.
  - done.
  - exact Hteam'.
  - unfold activePokemon. change (side_team (after_turn game1 meIsP1 me opp) opp)
      with (side_team game1 opp). rewrite Hteam'. by eapply team_at_insert.
  - exact Hmine'.
  - simpl. subst game1. unfold after_hit, set_team_member. simpl.
    destruct (g_players game !! sd_id opp) as [pl|]; [|done]. by destruct (pl_team pl).
  - by rewrite Hrun.
  - rewrite Hrun. apply updated_outbox.
Qed.

(** ** An attack that is not carried out *)

Lemma attack_dropped s gameId game meIsP1 me opp playerPokemon opponentPokemon moveName rnd :
  games_lookup (activeGames s) gameId = Some game ->
  sides_of game meIsP1 me opp ->
  g_turn game = Some (sd_id me) ->
  sd_mustSwitch me = false ->
  activePokemon game me = Some playerPokemon ->
  activePokemon game opp = Some opponentPokemon ->
  List.find (fun m => bool_decide (move_name m = moveName)) (pd_moves (base playerPokemon))
  = None
  \/ fainted playerPokemon = true ->
  performAction s (sd_id me) gameId (Attack moveName) rnd = store s gameId (set_log game []).
Proof.
  intros Hgame Hsides Hturn Hfree Hmine Htheirs Hbad.
  rewrite (performAction_acting s gameId game meIsP1 me opp playerPokemon opponentPokemon
             _ _ Hgame Hsides Hturn Hmine Htheirs).
  rewrite Hfree. simpl. unfold attack.
  destruct Hbad as [-> | Hf]; [done|]. rewrite Hf. by destruct (List.find _ _).
Qed.

(** An attack with a move the active creature does not have, or by an
    active creature that has fainted, is dropped: no damage, no event,
    the turn stays where it is.  The match's log is emptied all the
    same. *)
Theorem attack_refused s gameId game meIsP1 me opp playerPokemon opponentPokemon moveName rnd :
  games_lookup (activeGames s) gameId = Some game ->
  sides_of game meIsP1 me opp ->
  g_turn game = Some (sd_id me) ->
  sd_mustSwitch me = false ->
  activePokemon game me = Some playerPokemon ->
  activePokemon game opp = Some opponentPokemon ->
  List.find (fun m => bool_decide (move_name m = moveName)) (pd_moves (base playerPokemon))
  = None
  \/ fainted playerPokemon = true ->
  let s' := performAction s (sd_id me) gameId (Attack moveName) rnd in
  games_lookup (activeGames s') gameId = Some (set_log game [])
  /\ (forall other, other ≠ gameId ->
        games_lookup (activeGames s') other = games_lookup (activeGames s) other)
  /\ outbox s' = outbox s /\ leaderboard s' = leaderboard s.
Proof.
  intros Hgame Hsides Hturn Hfree Hmine Htheirs Hbad s'. subst s'.
  rewrite (attack_dropped s gameId game meIsP1 me opp playerPokemon opponentPokemon
             moveName rnd Hgame Hsides Hturn Hfree Hmine Htheirs Hbad).
  simpl. split_and!; try done; [apply games_lookup_set_eq|].
  intros other Hne. by apply games_lookup_set_ne.
Qed.

(** ** A switch that is carried out *)

Lemma switch_carried_out s gameId game meIsP1 me opp playerPokemon opponentPokemon
    team targetIndex target rnd :
  games_lookup (activeGames s) gameId = Some game ->
  sides_of game meIsP1 me opp ->
  g_turn game = Some (sd_id me) ->
  sd_mustSwitch opp = false ->
  activePokemon game me = Some playerPokemon ->
  activePokemon game opp = Some opponentPokemon ->
  side_team game me = Some team ->
  team_at team targetIndex = Some target ->
  fainted target = false ->
  pd_id (base target) ≠ pd_id (base playerPokemon) ->
  performAction s (sd_id me) gameId (Switch targetIndex) rnd
  = updated s gameId
      (after_turn
         (push_log (set_log game [])
            (LogSwitched (sd_username me) (pd_name (base playerPokemon))
               (pd_name (base target))))
         meIsP1 (set_mustSwitch (set_activePokemonIndex me targetIndex) false) opp).
Proof.
  intros Hgame Hsides Hturn Hopp Hmine Htheirs Hteam Htarget Hstanding Hspecies.
  rewrite (performAction_acting s gameId game meIsP1 me opp playerPokemon opponentPokemon
             _ _ Hgame Hsides Hturn Hmine Htheirs).
  replace (sd_mustSwitch me && negb (is_switch (Switch targetIndex))) with false
    by (by destruct (sd_mustSwitch me)).
  unfold switch.
  change (side_team (set_log game []) me) with (side_team game me). rewrite Hteam. simpl.
  rewrite Htarget, Hstanding.
  destruct (team_at_Some _ _ _ Htarget) as [Hpos Hlook].
  apply lookup_lt_Some in Hlook.
  replace (targetIndex <? 0)%Z with false by lia.
  replace (Z.of_nat (length team) <=? targetIndex)%Z with false by lia.
  rewrite bool_decide_eq_false_2 by done. simpl.
  replace (if sd_mustSwitch me
           then set_mustSwitch (set_activePokemonIndex me targetIndex) false
           else set_activePokemonIndex me targetIndex)
    with (set_mustSwitch (set_activePokemonIndex me targetIndex) false)
    by (destruct me as [? ? ? []]; done).
  by rewrite turn_passes.
Qed.

(** A switch to a teammate that has not fainted and is of another species
    than the active creature: the teammate becomes the active creature, the
    obligation to switch (if any) is lifted, the teams stay as they are,
    the turn passes to the other side, and the new state goes to every
    socket of the match's room. *)
Theorem switch_succeeds s gameId game meIsP1 me opp playerPokemon opponentPokemon
    team targetIndex target rnd :
  let s' := performAction s (sd_id me) gameId (Switch targetIndex) rnd in
  let me' := set_mustSwitch (set_activePokemonIndex me targetIndex) false in
  games_lookup (activeGames s) gameId = Some game ->
  sides_of game meIsP1 me opp ->
  g_turn game = Some (sd_id me) ->
  sd_mustSwitch opp = false ->
  activePokemon game me = Some playerPokemon ->
  activePokemon game opp = Some opponentPokemon ->
  side_team game me = Some team ->
  team_at team targetIndex = Some target ->
  fainted target = false ->
  pd_id (base target) ≠ pd_id (base playerPokemon) ->
  exists game',
    games_lookup (activeGames s') gameId = Some game'
    /\ sides_of game' meIsP1 me' opp
    /\ activePokemon game' me' = Some target
    /\ g_turn game' = Some (sd_id opp)
    /\ g_players game' = g_players game
    /\ g_log game'
       = [LogSwitched (sd_username me) (pd_name (base playerPokemon)) (pd_name (base target));
          LogTurn (sd_username opp)]
    /\ leaderboard s' = leaderboard s
    /\ outbox s'
       = outbox s
         ++ map (fun sock => (sock, EvGameStateUpdate (getSanitizedGameState s' gameId)))
              (elements (room_members s gameId)).
Proof.
  intros s' me' Hgame Hsides Hturn Hopp Hmine Htheirs Hteam Htarget Hstanding Hspecies.
  pose proof (switch_carried_out s gameId game meIsP1 me opp playerPokemon opponentPokemon
                team targetIndex target rnd Hgame Hsides Hturn Hopp Hmine Htheirs Hteam
                Htarget Hstanding Hspecies) as Hrun.
  fold s' me' in Hrun.
  eexists. split_and!.
  - rewrite Hrun. apply updated_registry.
  - eapply sides_of_set; [exact Hsides | done..].
  - unfold activePokemon.
    change (side_team (after_turn ?g meIsP1 me' opp) me') with (side_team game me).
    by rewrite Hteam.
  - done.
  - done.
  - done.
  - by rewrite Hrun.
  - rewrite Hrun. apply updated_outbox.
Qed.

(** ** What an action leaves alone *)

(** From [s] to [s'] nothing but the match [gameId], the rooms, the
    leaderboard and the outbox (which only grows) has changed. *)
Definition touches_only (gameId : string) (s s' : Server) : Prop :=
  waitingPlayer s' = waitingPlayer s
  /\ sockets s' = sockets s
  /\ (forall other, other ≠ gameId ->
        games_lookup (activeGames s') other = games_lookup (activeGames s) other)
  /\ exists new, outbox s' = outbox s ++ new.

Lemma touches_only_refl gameId s : touches_only gameId s s.
Proof. split_and!; try done. exists []. by rewrite app_nil_r. Qed.

Lemma touches_only_trans gameId s1 s2 s3 :
  touches_only gameId s1 s2 -> touches_only gameId s2 s3 -> touches_only gameId s1 s3.
Proof.
  intros (Hw1 & Hs1 & Hg1 & new1 & Ho1) (Hw2 & Hs2 & Hg2 & new2 & Ho2). split_and!.
  - congruence.
  - congruence.
  - intros other Hne. rewrite Hg2, Hg1; done.
  - exists (new1 ++ new2). by rewrite Ho2, Ho1, app_assoc.
Qed.

Lemma touches_only_store gameId s game : touches_only gameId s (store s gameId game).
Proof.
  split_and!; try done.
  - intros other Hne. simpl. by apply games_lookup_set_ne.
  - exists []. by rewrite app_nil_r.
Qed.

Lemma touches_only_emit gameId s sock ev : touches_only gameId s (emit s sock ev).
Proof. split_and!; try done. by eexists. Qed.

Lemma touches_only_emit_to gameId s room ev : touches_only gameId s (emit_to s room ev).
Proof. split_and!; try done. by eexists. Qed.

Lemma touches_only_emit_to_opt gameId s room ev : touches_only gameId s (emit_to_opt s room ev).
Proof. destruct room; [apply touches_only_emit_to | apply touches_only_refl]. Qed.

Lemma touches_only_recordWin gameId s username : touches_only gameId s (recordWin s username).
Proof. split_and!; try done. exists []. by rewrite app_nil_r. Qed.

Lemma touches_only_delete_game gameId s : touches_only gameId s (delete_game s gameId).
Proof.
  split_and!; try done.
  - intros other Hne. simpl. by apply games_lookup_delete_ne.
  - exists []. by rewrite app_nil_r.
Qed.

Lemma touches_only_leave_if_connected gameId s sock room :
  touches_only gameId s (leave_if_connected s sock room).
Proof.
  unfold leave_if_connected. destruct (decide _); [|apply touches_only_refl].
  split_and!; try done. exists []. by rewrite app_nil_r.
Qed.

Create HintDb touches discriminated.
#[local] Hint Resolve touches_only_refl touches_only_store touches_only_emit
  touches_only_emit_to touches_only_emit_to_opt touches_only_recordWin
  touches_only_delete_game touches_only_leave_if_connected : touches.

Ltac touches :=
  repeat first
    [ apply touches_only_refl
    | eapply touches_only_trans; [|solve [eauto with touches]] ].

Lemma touches_only_updated gameId s game : touches_only gameId s (updated s gameId game).
Proof. unfold updated. touches. Qed.

Lemma touches_only_turn_ended gameId s game meIsP1 me opp opponentId opponentPokemon :
  touches_only gameId s (turn_ended s gameId game meIsP1 me opp opponentId opponentPokemon).
Proof. unfold turn_ended. destruct (negb _); touches. Qed.

Lemma touches_only_action_failed gameId s sock :
  touches_only gameId s (action_failed s sock gameId).
Proof. unfold action_failed. touches. Qed.

Lemma touches_only_game_over gameId s sock game winnerId opponentId :
  touches_only gameId s (game_over s sock gameId game winnerId opponentId).
Proof.
  unfold game_over. destruct (g_players game !! winnerId); [|].
  - destruct (opponentId ≫= _); [touches|].
    eapply touches_only_trans; [apply touches_only_store | apply touches_only_action_failed].
  - eapply touches_only_trans; [apply touches_only_store | apply touches_only_action_failed].
Qed.

Lemma touches_only_attack gameId s sock game meIsP1 me opp opponentId p q moveName rnd :
  touches_only gameId s (attack s sock gameId game meIsP1 me opp opponentId p q moveName rnd).
Proof.
  unfold attack. destruct (List.find _ _); [|touches].
  destruct (fainted p); [touches|].
  destruct (leb _ _).
  - destruct (decide _); [apply touches_only_game_over | apply touches_only_turn_ended].
  - apply touches_only_turn_ended.
Qed.

Lemma touches_only_switch gameId s game meIsP1 me opp opponentId p q targetIndex :
  touches_only gameId s (switch s gameId game meIsP1 me opp opponentId p q targetIndex).
Proof.
  unfold switch. destruct (team_at _ _); [|touches].
  destruct (_ || _); [touches | apply touches_only_turn_ended].
Qed.

(** The leaderboard after a step: as before, or as [won] leaves it for
    one username (see [won] for what a win writes). *)
Definition one_win_at_most (s s' : Server) : Prop :=
  leaderboard s' = leaderboard s
  \/ exists username, leaderboard s' = won (leaderboard s) username.

Lemma leaderboard_turn_ended s gameId game meIsP1 me opp opponentId opponentPokemon :
  leaderboard (turn_ended s gameId game meIsP1 me opp opponentId opponentPokemon)
  = leaderboard s.
Proof. unfold turn_ended. destruct (negb _); [done|]. by destruct opponentId. Qed.

Lemma leaderboard_game_over s sock gameId game winnerId opponentId :
  one_win_at_most s (game_over s sock gameId game winnerId opponentId)
  /\ (leaderboard (game_over s sock gameId game winnerId opponentId) ≠ leaderboard s ->
      games_lookup (activeGames (game_over s sock gameId game winnerId opponentId)) gameId = None).
Proof.
  unfold game_over, one_win_at_most.
  destruct (g_players game !! winnerId) as [winner|]; [|by split; [left|]].
  destruct (opponentId ≫= _); [|by split; [left|]].
  rewrite !leaderboard_leave_if_connected, !activeGames_leave_if_connected. simpl. split.
  - right. by eexists.
  - intros _. apply games_lookup_delete_eq.
Qed.

Ltac unchanged :=
  split_and!;
    [ apply touches_only_refl | by left | intros H; by destruct H | intros H; by destruct H ].

Lemma performAction_effect s sock gameId action rnd :
  let s' := performAction s sock gameId action rnd in
  touches_only gameId s s'
  /\ one_win_at_most s s'
  /\ (leaderboard s' ≠ leaderboard s ->
      is_Some (games_lookup (activeGames s) gameId)
      /\ games_lookup (activeGames s') gameId = None)
  /\ (s' ≠ s ->
      exists game,
        games_lookup (activeGames s) gameId = Some game
        /\ battle_started game = true /\ g_turn game = Some sock).
Proof.
  intros s'. subst s'. unfold performAction, one_win_at_most.
  destruct (games_lookup (activeGames s) gameId) as [game|] eqn:Hgame;
    [|unchanged].
  destruct (g_battleState game) as [[player1 player2]|] eqn:Hbattle;
    [|unchanged].
  destruct (decide (g_turn game ≠ Some sock)) as [Hturn|Hturn];
    [unchanged|].
  assert (exists game0,
            Some game = Some game0
            /\ battle_started game0 = true /\ g_turn game0 = Some sock) as Hacting.
  { exists game. split_and!; [done | unfold battle_started; by rewrite Hbattle |].
    by destruct (decide (g_turn game = Some sock)). }
  destruct (activePokemon game _) as [playerPokemon|];
    [|unchanged].
  destruct (activePokemon game _) as [opponentPokemon|];
    [|unchanged].
  destruct (_ && _); [unchanged|].
  destruct action as [moveName|targetIndex|].
  - split_and!; [apply touches_only_attack | | | done].
    + unfold attack. destruct (List.find _ _); [|by left].
      destruct (fainted playerPokemon); [by left|].
      destruct (leb _ _); [|left; apply leaderboard_turn_ended].
      destruct (decide _); [apply leaderboard_game_over | left; apply leaderboard_turn_ended].
    + intros Hl. split; [done|]. revert Hl. unfold attack.
      destruct (List.find _ _); [|done].
      destruct (fainted playerPokemon); [done|].
      destruct (leb _ _); [|by rewrite leaderboard_turn_ended].
      destruct (decide _); [apply leaderboard_game_over | by rewrite leaderboard_turn_ended].
  - split_and!; [apply touches_only_switch | | | done].
    + left. unfold switch. destruct (team_at _ _); [|done].
      destruct (_ || _); [done | apply leaderboard_turn_ended].
    + intros Hl. exfalso. apply Hl. unfold switch. destruct (team_at _ _); [|done].
      destruct (_ || _); [done | apply leaderboard_turn_ended].
  - split_and!; [touches | by left | done | done].
Qed.



(** ** What every action keeps *)

(** A creature that has fainted has [currentHp] 0; one that stands fails
    the test [currentHp <= 0] by which the server decides that a creature
    faints: its [currentHp] is above 0, or is [NaN]. *)
Definition creature_ok (p : Pokemon) : Prop :=
  if fainted p then currentHp p = zero else leb (currentHp p) zero = false.

(** A side of a battle: its creatures are as they should be, its active
    creature is one of them, a fainted active creature obliges it to
    switch, and it is obliged to switch only when it is its turn. *)
Definition side_ok (game : Game) (sd : Side) : Prop :=
  (exists team p,
      side_team game sd = Some team
      /\ Forall creature_ok team
      /\ team_at team (sd_activePokemonIndex sd) = Some p
      /\ (fainted p = true -> sd_mustSwitch sd = true))
  /\ (sd_mustSwitch sd = true -> g_turn game = Some (sd_id sd)).

Definition battle_ok (game : Game) : Prop :=
  exists player1 player2,
    wf_battle game player1 player2
    /\ side_ok game player1 /\ side_ok game player2
    /\ (g_turn game = Some (sd_id player1) \/ g_turn game = Some (sd_id player2)).




Section Step.
Context (s : Server) (gameId : string) (game : Game) (meIsP1 : bool) (me opp : Side).
Hypothesis Hgame : games_lookup (activeGames s) gameId = Some game.
Hypothesis Hsides : sides_of game meIsP1 me opp.
Hypothesis Hme : side_ok game me.
Hypothesis Hopp : side_ok game opp.
Hypothesis Hturn : g_turn game = Some (sd_id me).




End Step.


(** ** Examples *)

Section ExampleBattle.
Import Example.

(** Mewtwo uses Recover, a move without power, on Magikarp: no damage,
    and the turn passes. *)
Lemma attack_lands_witness :
  let s' := performAction battling "alice" "g1" (Attack "Recover") half in
  exists game',
    games_lookup (activeGames s') "g1" = Some game'
    /\ g_turn game' = Some "bob"
    /\ g_log game'
       = [LogUsed "Anon_alic" "Mewtwo" "Recover";
          LogEffect "Anon_bob" "Magikarp" (JNum zero) zero;
          LogTurn "Anon_bob"]
    /\ leaderboard s' = leaderboard battling.
Proof.
  intros s'.
  odestruct (attack_lands battling "g1" _ true alice (bob 0) _ _ _ "Recover" _ half)
    as (game' & H1 & _ & H3 & _ & _ & _ & H7 & H8 & _).
  - reflexivity.
  - split_and!; [reflexivity | reflexivity | discriminate].
  - reflexivity.
  - reflexivity.
  - reflexivity.
  - reflexivity.
  - reflexivity.
  - reflexivity.
  - reflexivity.
  - vm_compute; reflexivity.
  - vm_compute; reflexivity.
  - exists game'. split_and!; [exact H1 | exact H3 | | exact H8].
    rewrite H7. vm_compute. reflexivity.
Defined.

(** Mewtwo is told to use Splash, which it does not know. *)
Lemma attack_refused_witness :
  let s' := performAction battling "alice" "g1" (Attack "Splash") half in
  (g_turn <$> games_lookup (activeGames s') "g1") = Some (Some "alice")
  /\ outbox s' = outbox battling /\ leaderboard s' = leaderboard battling.
Proof.
  intros s'.
  odestruct (attack_refused battling "g1" _ true alice (bob 0) _ _ "Splash" half)
    as (H1 & _ & H2 & H3).
  - reflexivity.
  - split_and!; [reflexivity | reflexivity | discriminate].
  - reflexivity.
  - reflexivity.
  - reflexivity.
  - reflexivity.
  - left. vm_compute. reflexivity.
  - split_and!; [|exact H2 | exact H3].
    change (sd_id alice) with "alice" in H1. unfold s'. rewrite H1. reflexivity.
Defined.

(** The first player withdraws Mewtwo for Charmander. *)
Lemma switch_succeeds_witness :
  let s' := performAction battling "alice" "g1" (Switch 2) half in
  exists game',
    games_lookup (activeGames s') "g1" = Some game'
    /\ (pd_name <$> (base <$> activePokemon game' (set_activePokemonIndex alice 2)))
       = Some "Charmander"
    /\ g_turn game' = Some "bob"
    /\ g_log game' = [LogSwitched "Anon_alic" "Mewtwo" "Charmander"; LogTurn "Anon_bob"].
Proof.
  intros s'.
  odestruct (switch_succeeds battling "g1" _ true alice (bob 0) _ _ _ 2 _ half)
    as (game' & H1 & _ & H3 & H4 & _ & H6 & _).
  - reflexivity.
  - split_and!; [reflexivity | reflexivity | discriminate].
  - reflexivity.
  - reflexivity.
  - reflexivity.
  - reflexivity.
  - reflexivity.
  - reflexivity.
  - reflexivity.
  - vm_compute. discriminate.
  - exists game'. split_and!; [exact H1 | | exact H4 | exact H6].
    change (set_mustSwitch (set_activePokemonIndex alice 2) false)
      with (set_activePokemonIndex alice 2) in H3.
    rewrite H3. reflexivity.
Defined.



End ExampleBattle.

End BattleFacts.

(* ===================================================================== *)
(** ** The start of a battle *)
(* ===================================================================== *)

Module StartFacts.
Import Num Match MatchFacts SelectFacts BattleFacts.
Local Open Scope nat_scope.

(** ** The teams arrive *)

(** A creature as [createPokemonInstance] makes it. *)
Definition fresh (p : Pokemon) : Prop :=
  maxHp p = pd_hp (base p) /\ currentHp p = pd_hp (base p) /\ fainted p = false.

Lemma instantiate_fresh h ls team : instantiate h ls = Some team -> Forall fresh team.
Proof.
  revert team. induction ls as [|l ls IH]; intros team; simpl.
  - intros [= <-]. constructor.
  - destruct (Heap.read_pokemon h l) as [b|]; simpl; [|done].
    destruct (instantiate h ls) as [ps|]; [|done]. intros [= <-].
    constructor; [done | by apply IH].
Qed.

(** The players of [game] are seated as [findMatch] seats them: [sock]
    and [other] are its two players ([sock] the first one when [isP1]),
    each record under its own id, the first creature of the team to be
    the active one. *)
Definition seated (game : Game) (isP1 : bool) (sock other : string) (me you : Player) : Prop :=
  g_playerOrder game = (if isP1 then (sock, other) else (other, sock))
  /\ sock ≠ other
  /\ g_players game !! sock = Some me /\ g_players game !! other = Some you
  /\ pl_id me = sock /\ pl_id you = other
  /\ pl_activePokemonIndex me = 0%Z /\ pl_activePokemonIndex you = 0%Z.

(** The record of a player whose team has been stored. *)
Definition selected (pl : Player) (team : list Pokemon) : Player :=
  {| pl_id := pl_id pl; pl_username := pl_username pl; pl_team := Some team;
     pl_activePokemonIndex := pl_activePokemonIndex pl;
     pl_hasSelected := true; pl_isPlayer1 := pl_isPlayer1 pl |}.

Lemma no_null (ls : list Heap.loc) :
  existsb (fun data : option Heap.loc => bool_decide (data = None)) (map Some ls) = false.
Proof. induction ls as [|l ls IH]; simpl; [done | by rewrite IH]. Qed.

Section Resumes.
Context (w : World) (hid : nat) (sock gameId : string) (fetchPromises : list nat).
Context (ls : list Heap.loc) (team : list Pokemon) (game : Game).
Context (isP1 : bool) (other : string) (me you : Player).
Hypothesis Hhandler : handlers w !! hid = Some (Some (SelectTeam sock gameId fetchPromises)).
Hypothesis Hall : Fetch.promise_all (fetch w) fetchPromises = Fetch.AllFulfilled (map Some ls).
Hypothesis Hteam : instantiate (Fetch.store (fetch w)) ls = Some team.
Hypothesis Hgame : games_lookup (activeGames (server w)) gameId = Some game.
Hypothesis Hseated : seated game isP1 sock other me you.

Lemma resumeSelectTeam_stores :
  resumeSelectTeam w hid
  = match afterSelection (server w) sock gameId (set_team game sock team) with
    | Some s => Some (handler_done (set_server w s) hid)
    | None =>
        Some (selection_failed
                (set_server w (update_captured (server w) gameId (set_team game sock team)))
                hid sock)
    end.
Proof using Hhandler Hall Hteam Hgame Hseated.
  destruct Hseated as (_ & _ & Hme & _).
  unfold resumeSelectTeam. rewrite Hhandler, Hall, no_null, FetchFacts.non_null_Some, Hteam.
  rewrite (captured_game_active _ _ _ Hgame). by rewrite Hme.
Qed.

Lemma set_team_players :
  g_players (set_team game sock team) = <[sock := selected me team]> (g_players game).
Proof using Hseated.
  destruct Hseated as (_ & _ & Hme & _). unfold set_team. by rewrite Hme.
Qed.

End Resumes.

(** The first team of a match.  When the handler of a submission
    resumes with three creatures while the other player has not
    selected, the team is stored (every creature at full [currentHp],
    not fainted) and the player marked, the battle does not start, the
    other player is told that the opponent is ready and the submitter
    that it has to wait; a second submission of the same player is then
    dropped. *)
Theorem first_team_waits (Number_toString : jsnum -> string) w hid sock gameId fetchPromises
    ls team game isP1 other me you :
  handlers w !! hid = Some (Some (SelectTeam sock gameId fetchPromises)) ->
  Fetch.promise_all (fetch w) fetchPromises = Fetch.AllFulfilled (map Some ls) ->
  instantiate (Fetch.store (fetch w)) ls = Some team ->
  games_lookup (activeGames (server w)) gameId = Some game ->
  seated game isP1 sock other me you ->
  pl_hasSelected you = false ->
  exists w' game',
    resumeSelectTeam w hid = Some w'
    /\ fetch w' = fetch w
    /\ handlers w' = <[hid := None]> (handlers w)
    /\ games_lookup (activeGames (server w')) gameId = Some game'
    /\ g_players game' = <[sock := selected me team]> (g_players game)
    /\ Forall fresh team
    /\ g_battleState game' = g_battleState game
    /\ outbox (server w')
       = outbox (server w)
         ++ map (fun member => (member, EvOpponentReady))
              (elements (room_members (server w) other))
         ++ [(sock, EvWaitingForOpponentSelection)]
    /\ forall teamIds, selectTeam Number_toString w' sock gameId teamIds = Returns w'.
Proof.
  intros Hhandler Hall Hteam Hgame Hseated Hyou.
  pose proof (resumeSelectTeam_stores w hid sock gameId fetchPromises ls team game isP1 other
                me you Hhandler Hall Hteam Hgame Hseated) as Hres.
  pose proof (set_team_players sock team game isP1 other me you Hseated) as Hplayers.
  destruct Hseated as (Hord & Hne & Hme & Hother & _).
  set (game1 := set_team game sock team) in *.
  assert (g_players game1 !! sock = Some (selected me team)) as Hme1.
  { rewrite Hplayers. apply lookup_insert_eq. }
  assert (g_players game1 !! other = Some you) as Hyou1.
  { rewrite Hplayers. by rewrite lookup_insert_ne. }
  assert (g_playerOrder game1 = g_playerOrder game) as Hord1.
  { subst game1. unfold set_team. by rewrite Hme. }
  assert (afterSelection (server w) sock gameId game1
          = Some (emit (emit_to (update_captured (server w) gameId game1) other EvOpponentReady)
                    sock EvWaitingForOpponentSelection)) as Hafter.
  { unfold afterSelection. rewrite Hord1, Hord.
    destruct isP1; simpl; rewrite Hme1, Hyou1; simpl; rewrite Hyou.
    - rewrite other_player_fst by done. done.
    - rewrite other_player_snd by done. done. }
  rewrite Hafter in Hres.
  assert (update_captured (server w) gameId game1 = store (server w) gameId game1) as Hupd.
  { unfold update_captured. by rewrite Hgame. }
  rewrite Hupd in Hres.
  eexists _, game1. split; [exact Hres|]. split_and!; try done.
  - simpl. apply games_lookup_set_eq.
  - by eapply instantiate_fresh.
  - subst game1. unfold set_team. by rewrite Hme.
  - simpl. by rewrite <- app_assoc.
  - intros teamIds. unfold selectTeam, games_get. simpl.
    rewrite games_lookup_set_eq, Hme1. done.
Qed.

Section Second.
Context (w : World) (hid : nat) (sock gameId : string) (fetchPromises : list nat).
Context (ls : list Heap.loc) (team : list Pokemon) (game : Game).
Context (isP1 : bool) (other : string) (me you : Player) (otherTeam : list Pokemon).
Let player1 := if isP1 then selected me team else you.
Let player2 := if isP1 then you else selected me team.
Let team1 := if isP1 then team else otherTeam.
Let team2 := if isP1 then otherTeam else team.
Hypothesis Hhandler : handlers w !! hid = Some (Some (SelectTeam sock gameId fetchPromises)).
Hypothesis Hall : Fetch.promise_all (fetch w) fetchPromises = Fetch.AllFulfilled (map Some ls).
Hypothesis Hteam : instantiate (Fetch.store (fetch w)) ls = Some team.
Hypothesis Hlen : length fetchPromises = 3%nat.
Hypothesis Hgame : games_lookup (activeGames (server w)) gameId = Some game.
Hypothesis Hseated : seated game isP1 sock other me you.
Hypothesis Hyou : pl_hasSelected you = true.
Hypothesis Hyours : pl_team you = Some otherTeam.
Hypothesis Hlen' : length otherTeam = 3%nat.

(** The game object once the battle has started. *)
Definition started (active1 active2 : Pokemon) : Game :=
  startBattle (set_team game sock team) player1 player2 active1 active2.

Lemma second_team_resumes :
  exists active1 active2,
    team1 !! 0%nat = Some active1 /\ team2 !! 0%nat = Some active2
    /\ resumeSelectTeam w hid
       = Some (handler_done
                 (set_server w
                    (emit_to (store (server w) gameId (started active1 active2)) gameId
                       (EvBattleStart
                          (getSanitizedGameState
                             (store (server w) gameId (started active1 active2)) gameId))))
                 hid).
Proof using All.
  pose proof (resumeSelectTeam_stores w hid sock gameId fetchPromises ls team game isP1 other
                me you Hhandler Hall Hteam Hgame Hseated) as Hres.
  pose proof (set_team_players sock team game isP1 other me you Hseated) as Hplayers.
  destruct Hseated as (Hord & Hne & Hme & Hother & Hid1 & Hid2 & Hidx1 & Hidx2).
  unfold started. set (game1 := set_team game sock team) in *.
  assert (g_players game1 !! sock = Some (selected me team)) as Hme1.
  { rewrite Hplayers. apply lookup_insert_eq. }
  assert (g_players game1 !! other = Some you) as Hyou1.
  { rewrite Hplayers. by rewrite lookup_insert_ne. }
  assert (g_playerOrder game1 = g_playerOrder game) as Hord1.
  { subst game1. unfold set_team. by rewrite Hme. }
  assert (length team = 3%nat) as Hlen3.
  { rewrite (instantiate_length _ _ _ Hteam), <- Hlen.
    rewrite <- (promise_all_length _ _ _ Hall). by rewrite length_map. }
  assert (exists active1, team1 !! 0%nat = Some active1) as [active1 Ha1].
  { subst team1. destruct isP1; [destruct team | destruct otherTeam]; simpl in *; eauto; lia. }
  assert (exists active2, team2 !! 0%nat = Some active2) as [active2 Ha2].
  { subst team2. destruct isP1; [destruct otherTeam | destruct team]; simpl in *; eauto; lia. }
  exists active1, active2. split; [done|]. split; [done|].
  assert (update_captured (server w) gameId
            (startBattle game1 player1 player2 active1 active2)
          = store (server w) gameId (startBattle game1 player1 player2 active1 active2))
    as Hupd.
  { unfold update_captured. by rewrite Hgame. }
  rewrite Hres. unfold afterSelection. rewrite Hord1, Hord.
  subst player1 player2 team1 team2.
  destruct isP1; simpl; rewrite Hme1, Hyou1; simpl; rewrite Hyou, Hyours, Ha1, Ha2;
    rewrite bool_decide_eq_true_2 by done; by rewrite Hupd.
Qed.

Lemma started_players active1 active2 :
  g_players (started active1 active2) = <[sock := selected me team]> (g_players game)
  /\ g_players (started active1 active2) !! pl_id player1 = Some player1
  /\ g_players (started active1 active2) !! pl_id player2 = Some player2
  /\ pl_id player1 ≠ pl_id player2
  /\ pl_team player1 = Some team1 /\ pl_team player2 = Some team2
  /\ pl_activePokemonIndex player1 = 0%Z /\ pl_activePokemonIndex player2 = 0%Z
  /\ g_playerOrder (started active1 active2) = (pl_id player1, pl_id player2).
Proof using Hseated Hyours.
  pose proof (set_team_players sock team game isP1 other me you Hseated) as Hplayers.
  destruct Hseated as (Hord & Hne & Hme & Hother & Hid1 & Hid2 & Hidx1 & Hidx2).
  unfold started.
  change (g_players (startBattle ?g _ _ _ _)) with (g_players g).
  change (g_playerOrder (startBattle ?g _ _ _ _)) with (g_playerOrder g).
  assert (g_playerOrder (set_team game sock team) = g_playerOrder game) as ->.
  { unfold set_team. by rewrite Hme. }
  rewrite Hplayers, Hord. subst player1 player2 team1 team2.
  destruct isP1; simpl; rewrite ?Hid1, ?Hid2;
    rewrite ?lookup_insert_eq, ?lookup_insert_ne by done; split_and!; congruence.
Qed.

End Second.

(** The second team of a match starts the battle.  When the handler
    resumes with three creatures while the other player's team of three
    is in place, the team is stored, each side starts with the first
    creature of its team and no obligation to switch, and the first turn
    goes to player one when its active creature is at least as fast as
    the other (so on a tie), to player two otherwise.  Every socket of
    the match's room receives the battle-start snapshot. *)
Theorem second_team_starts w hid sock gameId fetchPromises ls team game (isP1 : bool)
    other me you otherTeam :
  let player1 := if isP1 then selected me team else you in
  let player2 := if isP1 then you else selected me team in
  let team1 := if isP1 then team else otherTeam in
  let team2 := if isP1 then otherTeam else team in
  handlers w !! hid = Some (Some (SelectTeam sock gameId fetchPromises)) ->
  Fetch.promise_all (fetch w) fetchPromises = Fetch.AllFulfilled (map Some ls) ->
  instantiate (Fetch.store (fetch w)) ls = Some team ->
  length fetchPromises = 3%nat ->
  games_lookup (activeGames (server w)) gameId = Some game ->
  seated game isP1 sock other me you ->
  pl_hasSelected you = true -> pl_team you = Some otherTeam -> length otherTeam = 3%nat ->
  exists w' game' active1 active2,
    resumeSelectTeam w hid = Some w'
    /\ games_lookup (activeGames (server w')) gameId = Some game'
    /\ g_players game' = <[sock := selected me team]> (g_players game)
    /\ team1 !! 0%nat = Some active1 /\ team2 !! 0%nat = Some active2
    /\ g_battleState game' = Some (side_of player1, side_of player2)
    /\ activePokemon game' (side_of player1) = Some active1
    /\ activePokemon game' (side_of player2) = Some active2
    /\ g_turn game'
       = Some (if leb (pd_speed (base active2)) (pd_speed (base active1))
               then pl_id player1 else pl_id player2)
    /\ g_log game'
       = [LogBattleStart;
          LogVersus (pl_username player1) (pd_name (base active1))
            (pl_username player2) (pd_name (base active2));
          LogTurn (if leb (pd_speed (base active2)) (pd_speed (base active1))
                   then pl_username player1 else pl_username player2)]
    /\ outbox (server w')
       = outbox (server w)
         ++ map (fun member =>
                   (member, EvBattleStart (getSanitizedGameState (server w') gameId)))
              (elements (room_members (server w) gameId)).
Proof.
  intros player1 player2 team1 team2 Hhandler Hall Hteam Hlen Hgame Hseated
    Hyou Hyours Hlen'.
  destruct (second_team_resumes w hid sock gameId fetchPromises ls team game isP1 other
              me you otherTeam Hhandler Hall Hteam Hlen Hgame Hseated Hyou Hyours Hlen')
    as (active1 & active2 & Ha1 & Ha2 & Hres).
  destruct (started_players sock team game isP1 other me you otherTeam Hseated Hyours
              active1 active2)
    as (Hplayers & Hp1 & Hp2 & Hids & Ht1 & Ht2 & Hi1 & Hi2 & Hord).
  fold player1 player2 team1 team2 in Ha1, Ha2, Hp1, Hp2, Hids, Ht1, Ht2, Hi1, Hi2, Hord.
  set (game' := started sock team game isP1 me you active1 active2) in *.
  eexists _, game', active1, active2.
  split; [exact Hres|]. split_and!; try done.
  - simpl. apply games_lookup_set_eq.
  - unfold activePokemon, side_team.
    change (sd_id (side_of player1)) with (pl_id player1).
    change (sd_activePokemonIndex (side_of player1)) with (pl_activePokemonIndex player1).
    rewrite Hp1, Ht1, Hi1. exact Ha1.
  - unfold activePokemon, side_team.
    change (sd_id (side_of player2)) with (pl_id player2).
    change (sd_activePokemonIndex (side_of player2)) with (pl_activePokemonIndex player2).
    rewrite Hp2, Ht2, Hi2. exact Ha2.
  - subst game'. unfold started, startBattle. simpl. f_equal. f_equal.
    fold player1 player2.
    destruct (leb (pd_speed (base active2)) (pd_speed (base active1))).
    + change (g_players (set_turn ?g _)) with (g_players g).
      change (g_players (set_battleState ?g _)) with (g_players g).
      change (g_players (set_team game sock team))
        with (g_players (started sock team game isP1 me you active1 active2)).
      rewrite Hp1. simpl. unfold or_string. by destruct (decide _) as [->|].
    + change (g_players (set_turn ?g _)) with (g_players g).
      change (g_players (set_battleState ?g _)) with (g_players g).
      change (g_players (set_team game sock team))
        with (g_players (started sock team game isP1 me you active1 active2)).
      rewrite Hp2. simpl. unfold or_string. by destruct (decide _) as [->|].
Qed.

(** A battle starts in order: when every creature of the two teams is
    as [createPokemonInstance] makes it, with [hp] above 0, the match
    satisfies what every action keeps. *)
Theorem battle_starts_ok w hid sock gameId fetchPromises ls team game (isP1 : bool)
    other me you otherTeam :
  handlers w !! hid = Some (Some (SelectTeam sock gameId fetchPromises)) ->
  Fetch.promise_all (fetch w) fetchPromises = Fetch.AllFulfilled (map Some ls) ->
  instantiate (Fetch.store (fetch w)) ls = Some team ->
  length fetchPromises = 3%nat ->
  games_lookup (activeGames (server w)) gameId = Some game ->
  seated game isP1 sock other me you ->
  pl_hasSelected you = true -> pl_team you = Some otherTeam -> length otherTeam = 3%nat ->
  Forall fresh otherTeam ->
  Forall (fun p => leb (pd_hp (base p)) zero = false) (team ++ otherTeam) ->
  exists w' game',
    resumeSelectTeam w hid = Some w'
    /\ games_lookup (activeGames (server w')) gameId = Some game'
    /\ battle_ok game'.
Proof.
  intros Hhandler Hall Hteam Hlen Hgame Hseated Hyou Hyours Hlen' Hfresh' Hhp.
  destruct (second_team_resumes w hid sock gameId fetchPromises ls team game isP1 other
              me you otherTeam Hhandler Hall Hteam Hlen Hgame Hseated Hyou Hyours Hlen')
    as (active1 & active2 & Ha1 & Ha2 & Hres).
  destruct (started_players sock team game isP1 other me you otherTeam Hseated Hyours
              active1 active2)
    as (Hplayers & Hp1 & Hp2 & Hids & Ht1 & Ht2 & Hi1 & Hi2 & Hord).
  pose proof (instantiate_fresh _ _ _ Hteam) as Hfresh.
  apply Forall_app in Hhp as [Hhp Hhp'].
  assert (forall t, Forall fresh t -> Forall (fun p => leb (pd_hp (base p)) zero = false) t ->
                    Forall creature_ok t /\ Forall (fun p => fainted p = false) t) as Hok.
  { intros t Hf Hpos. split.
    - apply Forall_forall. intros p Hp.
      rewrite Forall_forall in Hf, Hpos. destruct (Hf p Hp) as (_ & Hc & Hs).
      unfold creature_ok. rewrite Hs, Hc. by apply Hpos.
    - eapply Forall_impl; [exact Hf|]. by intros p (_ & _ & ?). }
  destruct (Hok team Hfresh Hhp) as [Hc Hs]. destruct (Hok otherTeam Hfresh' Hhp') as [Hc' Hs'].
  set (player1 := if isP1 then selected me team else you) in *.
  set (player2 := if isP1 then you else selected me team) in *.
  set (team1 := if isP1 then team else otherTeam) in *.
  set (team2 := if isP1 then otherTeam else team) in *.
  assert (Forall creature_ok team1 /\ Forall creature_ok team2
          /\ Forall (fun p => fainted p = false) team1
          /\ Forall (fun p => fainted p = false) team2) as (Hc1 & Hc2 & Hs1 & Hs2).
  { subst team1 team2. by destruct isP1. }
  set (game' := started sock team game isP1 me you active1 active2) in *.
  eexists _, game'. split; [exact Hres|]. split; [simpl; apply games_lookup_set_eq|].
  exists (side_of player1), (side_of player2). split_and!.
  - split_and!; done.
  - split; [|done]. exists team1, active1. split_and!; try done.
    + unfold side_team. change (sd_id (side_of player1)) with (pl_id player1).
      by rewrite Hp1.
    + change (sd_activePokemonIndex (side_of player1)) with (pl_activePokemonIndex player1).
      by rewrite Hi1.
    + intros Hf. rewrite Forall_forall in Hs1.
      apply list_elem_of_lookup_2 in Ha1. rewrite (Hs1 _ Ha1) in Hf. done.
  - split; [|done]. exists team2, active2. split_and!; try done.
    + unfold side_team. change (sd_id (side_of player2)) with (pl_id player2).
      by rewrite Hp2.
    + change (sd_activePokemonIndex (side_of player2)) with (pl_activePokemonIndex player2).
      by rewrite Hi2.
    + intros Hf. rewrite Forall_forall in Hs2.
      apply list_elem_of_lookup_2 in Ha2. rewrite (Hs2 _ Ha2) in Hf. done.
  - subst game'. unfold started, startBattle. simpl.
    destruct (leb _ _); [by left | by right].
Qed.

(** ** Examples *)

Section ExampleStart.
Import Example Scenario.

(** The first player's team arrives while the second player has not
    selected. *)
Lemma first_team_waits_witness :
  exists w' game',
    resumeSelectTeam aliceReady 0 = Some w'
    /\ games_lookup (activeGames (server w')) "g1" = Some game'
    /\ g_battleState game' = None
    /\ outbox (server w')
       = outbox (server aliceReady)
         ++ [("bob", EvOpponentReady); ("alice", EvWaitingForOpponentSelection)]
    /\ selectTeam Number_toString w' "alice" "g1" (ids [1; 4; 7]%Z) = Returns w'.
Proof.
  odestruct (first_team_waits Number_toString aliceReady 0 "alice" "g1" _ [9; 13; 23] _ _
               true "bob" _ _)
    as (w' & game' & H1 & _ & _ & H4 & _ & _ & H7 & H8 & H9).
  - reflexivity.
  - vm_compute. reflexivity.
  - vm_compute. reflexivity.
  - reflexivity.
  - split_and!; [reflexivity | discriminate | reflexivity..].
  - reflexivity.
  - exists w', game'. split_and!; [exact H1 | exact H4 | rewrite H7; reflexivity | | apply H9].
    rewrite H8. vm_compute. reflexivity.
Defined.

(** The second player's team arrives: Mewtwo (speed 130) faces Magikarp
    (speed 80), the first player moves first. *)
Lemma second_team_starts_witness :
  exists w' game',
    resumeSelectTeam bobReady 1 = Some w'
    /\ games_lookup (activeGames (server w')) "g1" = Some game'
    /\ g_battleState game' = Some (alice, bob 0)
    /\ g_turn game' = Some "alice"
    /\ g_log game'
       = [LogBattleStart; LogVersus "Anon_alic" "Mewtwo" "Anon_bob" "Magikarp";
          LogTurn "Anon_alic"].
Proof.
  odestruct (second_team_starts bobReady 1 "bob" "g1" _ [42; 46; 50] _ _ false "alice" _ _ _)
    as (w' & game' & active1 & active2 & H1 & H2 & _ & Ha1 & Ha2 & H5 & _ & _ & H8 & H9 & _).
  - reflexivity.
  - vm_compute. reflexivity.
  - vm_compute. reflexivity.
  - reflexivity.
  - reflexivity.
  - split_and!; [reflexivity | discriminate | reflexivity..].
  - reflexivity.
  - reflexivity.
  - reflexivity.
  - vm_compute in Ha1, Ha2. injection Ha1 as <-. injection Ha2 as <-.
    exists w', game'. split_and!; [exact H1 | exact H2 | | |].
    + rewrite H5. reflexivity.
    + rewrite H8. vm_compute. reflexivity.
    + rewrite H9. vm_compute. reflexivity.
Defined.

(** The same start: the battle is in order. *)
Lemma battle_starts_ok_witness :
  exists w' game',
    resumeSelectTeam bobReady 1 = Some w'
    /\ games_lookup (activeGames (server w')) "g1" = Some game'
    /\ battle_ok game'.
Proof.
  odestruct (battle_starts_ok bobReady 1 "bob" "g1" _ [42; 46; 50] _ _ false "alice" _ _ _)
    as (w' & game' & H).
  - reflexivity.
  - vm_compute. reflexivity.
  - vm_compute. reflexivity.
  - reflexivity.
  - reflexivity.
  - split_and!; [reflexivity | discriminate | reflexivity..].
  - reflexivity.
  - reflexivity.
  - reflexivity.
  - repeat constructor.
  - repeat constructor; vm_compute; reflexivity.
  - exists w', game'. exact H.
Defined.

End ExampleStart.

End StartFacts.

(* ===================================================================== *)
(** ** The leaderboard *)
(* ===================================================================== *)

Module LeaderboardFacts.
Import Num Match MatchFacts BattleFacts CountFacts.
Local Open Scope nat_scope.

(** ** The leaderboard only grows *)

Lemma one_win_connection s sock : leaderboard (connection s sock) = leaderboard s.
Proof. done. Qed.

Lemma one_win_findMatch s sock gameId : leaderboard (findMatch s sock gameId) = leaderboard s.
Proof.
  unfold findMatch. destruct (decide _); [done|]. simpl.
  destruct (waitingPlayer s); [|done].
  destruct (decide _); [|done]. by destruct (decide _).
Qed.

Lemma one_win_disconnect s sock : one_win_at_most s (disconnect s sock).
Proof.
  unfold disconnect, one_win_at_most. cbv zeta.
  set (s0 := drop_socket s sock).
  set (s1 := if decide (waitingPlayer s0 = Some sock) then set_waitingPlayer s0 None else s0).
  assert (leaderboard s1 = leaderboard s) as Hl by (subst s1; by destruct (decide _)).
  clearbody s1. clear s0. rewrite <- Hl.
  destruct (find_game _ _); [|by left]. destruct (games_lookup _ _); [|by left].
  destruct (other_player _ _); [|by left].
  destruct (decide (_ ∧ _)); [|by left].
  destruct (battle_started _); simpl; [right; by eexists | by left].
Qed.

Lemma leaderboard_update_captured s gameId game :
  leaderboard (update_captured s gameId game) = leaderboard s.
Proof. unfold update_captured. by destruct (games_lookup _ _). Qed.

Lemma leaderboard_afterSelection s sock gameId game s' :
  afterSelection s sock gameId game = Some s' -> leaderboard s' = leaderboard s.
Proof.
  unfold afterSelection.
  destruct (g_players game !! _) as [p1|]; [|done].
  destruct (g_players game !! _) as [p2|]; [|done].
  destruct (_ && _).
  - destruct (pl_team p1) as [t1|], (pl_team p2) as [t2|];
      try (intros [= <-]; apply leaderboard_update_captured).
    destruct (t1 !! 0%nat), (t2 !! 0%nat);
      try (intros [= <-]; apply leaderboard_update_captured).
    destruct (bool_decide _); intros [= <-]; simpl; apply leaderboard_update_captured.
  - intros [= <-]. simpl. destruct (other_player _ _); simpl; apply leaderboard_update_captured.
Qed.

Lemma leaderboard_resumeSelectTeam w hid w' :
  resumeSelectTeam w hid = Some w' -> leaderboard (server w') = leaderboard (server w).
Proof.
  unfold resumeSelectTeam.
  destruct (handlers w !! hid) as [[[sock gameId ps]|]|]; try done.
  destruct (Fetch.promise_all _ _); [done | by intros [= <-] |].
  destruct (existsb _ _); [by intros [= <-]|].
  destruct (instantiate _ _); [|by intros [= <-]].
  destruct (captured_game _ _); [|by intros [= <-]].
  destruct (g_players _ !! _); [|by intros [= <-]].
  destruct (afterSelection _ _ _ _) eqn:Hafter; intros [= <-]; simpl.
  - by eapply leaderboard_afterSelection.
  - apply leaderboard_update_captured.
Qed.

Section Steps.
Variable Number_toString : jsnum -> string.

Lemma server_selectTeam w sock gameId teamIds w' :
  selectTeam Number_toString w sock gameId teamIds = Returns w' -> server w' = server w.
Proof.
  unfold selectTeam. destruct (games_get _ _); [|done|by intros [= <-]].
  destruct (_ !! _); [|by intros [= <-]]. destruct (pl_hasSelected _); [by intros [= <-]|].
  destruct (negb _); [by intros [= <-]|].
  destruct (getPokemonDetails_each _ _ _). by intros [= <-].
Qed.

Lemma one_win_step w e w' :
  step Number_toString w e = Some w' -> one_win_at_most (server w) (server w').
Proof.
  destruct e; simpl.
  - intros [= <-]. by left.
  - intros [= <-]. left. apply one_win_findMatch.
  - destruct (selectTeam _ _ _ _ _) as [w1|] eqn:Hsel; [|done].
    intros [= <-]. left. by rewrite (server_selectTeam _ _ _ _ _ Hsel).
  - intros [= <-]. apply performAction_effect.
  - intros [= <-]. apply one_win_disconnect.
  - destruct (Fetch.step _ _); [|done]. intros [= <-]. by left.
  - intros H. left. by eapply leaderboard_resumeSelectTeam.
Qed.

(** The leaderboard holds integer counts from 1 to [bound]; under the
    names of the functions of [Object.prototype] it may hold texts
    instead. *)
Definition counted (bound : Z) (lb : gmap string score) : Prop :=
  forall username v,
    lb !! username = Some v ->
    (exists k, v = Wins (of_Z k) /\ (1 <= k <= bound)%Z)
    \/ (exists function ones, v = Text function ones /\ username ∈ prototype_functions).

Lemma counted_mono bound bound' lb :
  (bound <= bound')%Z -> counted bound lb -> counted bound' lb.
Proof.
  intros Hle Hlb username v Hv.
  destruct (Hlb username v Hv) as [(k & -> & Hk) | H]; [|by right].
  left. exists k. split; [done | lia].
Qed.

Lemma counted_insert bound lb username v :
  counted bound lb ->
  ((exists k, v = Wins (of_Z k) /\ (1 <= k <= bound)%Z)
   \/ (exists function ones, v = Text function ones /\ username ∈ prototype_functions)) ->
  counted bound (<[username := v]> lb).
Proof.
  intros Hlb Hv other v'. destruct (decide (other = username)) as [->|Hne].
  - rewrite lookup_insert_eq. by intros [= <-].
  - rewrite lookup_insert_ne by done. apply Hlb.
Qed.

(** What one win does to a leaderboard of integer counts. *)
Lemma counted_won bound lb username :
  (0 <= bound)%Z -> (bound + 1 < 9007199254740992)%Z -> counted bound lb ->
  counted (bound + 1) (won lb username)
  /\ (forall other, is_Some (lb !! other) -> is_Some (won lb username !! other))
  /\ forall other k,
       lb !! other = Some (Wins (of_Z k)) -> (1 <= k <= bound)%Z ->
       exists k', won lb username !! other = Some (Wins (of_Z k')) /\ (k <= k' <= k + 1)%Z.
Proof.
  intros Hbound Hlt Hlb.
  pose proof (counted_mono bound (bound + 1) lb ltac:(lia) Hlb) as Hlb1.
  destruct (lb !! username) as [v|] eqn:Hu.
  - destruct (Hlb username v Hu) as [(k & -> & Hk) | (f & ones & -> & Hin)].
    + rewrite (won_count lb username k Hu) by lia. split_and!.
      * apply counted_insert; [done|]. left. exists (k + 1)%Z. split; [done | lia].
      * intros other Hother. destruct (decide (other = username)) as [->|Hne].
        -- rewrite lookup_insert_eq. by eexists.
        -- by rewrite lookup_insert_ne.
      * intros other k0 Hother Hk0. destruct (decide (other = username)) as [->|Hne].
        -- rewrite lookup_insert_eq. rewrite Hu in Hother. injection Hother as Heq.
           exists (k + 1)%Z. split; [done|].
           assert (k0 = k) as ->; [|lia].
           rewrite <- (to_Z_of_Z k0), <- (to_Z_of_Z k) by lia. by rewrite Heq.
        -- rewrite lookup_insert_ne by done. exists k0. split; [done | lia].
    + unfold won. rewrite Hu. split_and!.
      * apply counted_insert; [done|]. right. by exists f, (S ones).
      * intros other Hother. destruct (decide (other = username)) as [->|Hne].
        -- rewrite lookup_insert_eq. by eexists.
        -- by rewrite lookup_insert_ne.
      * intros other k0 Hother Hk0. destruct (decide (other = username)) as [->|Hne].
        -- congruence.
        -- rewrite lookup_insert_ne by done. exists k0. split; [done | lia].
  - assert (forall v,
              ((exists k, v = Wins (of_Z k) /\ (1 <= k <= bound + 1)%Z)
               \/ (exists function ones,
                     v = Text function ones /\ username ∈ prototype_functions)) ->
              counted (bound + 1) (<[username := v]> lb)
              /\ (forall other, is_Some (lb !! other) -> is_Some (<[username := v]> lb !! other))
              /\ forall other k,
                   lb !! other = Some (Wins (of_Z k)) -> (1 <= k <= bound)%Z ->
                   exists k', <[username := v]> lb !! other = Some (Wins (of_Z k'))
                              /\ (k <= k' <= k + 1)%Z) as Hfresh.
    { intros v Hv. split_and!.
      - by apply counted_insert.
      - intros other Hother. destruct (decide (other = username)) as [->|Hne].
        + rewrite lookup_insert_eq. by eexists.
        + by rewrite lookup_insert_ne.
      - intros other k0 Hother Hk0. destruct (decide (other = username)) as [->|Hne].
        + congruence.
        + rewrite lookup_insert_ne by done. exists k0. split; [done | lia]. }
    unfold won. rewrite Hu.
    destruct (decide (username = "__proto__")) as [->|Hproto].
    { split_and!; [done | done |]. intros other k0 Hother Hk0. exists k0. split; [done | lia]. }
    destruct (decide (username ∈ prototype_functions)) as [Hin|Hout].
    + apply Hfresh. right. by eexists _, _.
    + apply Hfresh. left. exists 1%Z. split; [done | lia].
Qed.

Lemma counted_step bound s s' :
  (0 <= bound)%Z -> (bound + 1 < 9007199254740992)%Z ->
  one_win_at_most s s' -> counted bound (leaderboard s) ->
  counted (bound + 1) (leaderboard s')
  /\ (forall other, is_Some (leaderboard s !! other) -> is_Some (leaderboard s' !! other))
  /\ forall other k,
       leaderboard s !! other = Some (Wins (of_Z k)) -> (1 <= k <= bound)%Z ->
       exists k', leaderboard s' !! other = Some (Wins (of_Z k')) /\ (k <= k' <= k + 1)%Z.
Proof.
  intros Hbound Hlt [-> | [username ->]] Hlb.
  - split_and!; [by eapply counted_mono; [|done]; lia | done |].
    intros other k Hother Hk. exists k. split; [done | lia].
  - by apply counted_won.
Qed.

(** Whatever the clients and the remote API do, the leaderboard never
    loses an entry, and a single event changes it as one win does, for
    one username at most.  When it holds integer counts up to [bound]
    (and texts under the names of the functions of [Object.prototype]),
    then after [n] events, with [bound + n] below [2^53], it holds
    integer counts up to [bound + n], and no count has decreased: a count
    [k] has become a count between [k] and [k + n]. *)
Theorem leaderboard_grows w es w' :
  run Number_toString w es = Some w' ->
  (forall username,
     is_Some (leaderboard (server w) !! username) ->
     is_Some (leaderboard (server w') !! username))
  /\ (forall e, es = [e] -> one_win_at_most (server w) (server w'))
  /\ (forall bound,
        (0 <= bound)%Z -> (bound + Z.of_nat (length es) < 9007199254740992)%Z ->
        counted bound (leaderboard (server w)) ->
        counted (bound + Z.of_nat (length es)) (leaderboard (server w'))
        /\ forall username k,
             leaderboard (server w) !! username = Some (Wins (of_Z k)) ->
             (1 <= k <= bound)%Z ->
             exists k',
               leaderboard (server w') !! username = Some (Wins (of_Z k'))
               /\ (k <= k' <= k + Z.of_nat (length es))%Z).
Proof.
  intros Hrun. split_and!.
  - revert w Hrun. induction es as [|e es IH]; intros w; simpl.
    + by intros [= <-].
    + destruct (step Number_toString w e) as [w1|] eqn:Hstep; [|done]. intros Hrun username Hin.
      apply (IH w1 Hrun). 
      destruct (one_win_step _ _ _ Hstep) as [-> | [u ->]]; [done|].
      destruct (decide (username = u)) as [->|Hne].
      * unfold won. destruct Hin as [v Hv]. rewrite Hv.
        destruct v; rewrite lookup_insert_eq; by eexists.
      * by rewrite won_other.
  - intros e ->. simpl in Hrun.
    destruct (step Number_toString w e) as [w1|] eqn:Hstep; [|done].
    injection Hrun as <-. by eapply one_win_step.
  - revert w Hrun. induction es as [|e es IH]; intros w Hrun bound; simpl in Hrun.
    + injection Hrun as <-. intros Hbound Hlt Hlb. simpl. rewrite Z.add_0_r. split; [done|].
      intros username k Hk Hrange. exists k. split; [done | lia].
    + destruct (step Number_toString w e) as [w1|] eqn:Hstep; [|done].
      replace (Z.of_nat (length (e :: es))) with (1 + Z.of_nat (length es))%Z
        by (simpl length; lia).
      intros Hbound Hlt Hlb.
      destruct (counted_step bound (server w) (server w1) Hbound ltac:(lia)
                  (one_win_step _ _ _ Hstep) Hlb) as (Hlb1 & _ & Hmono1).
      destruct (IH w1 Hrun (bound + 1)%Z ltac:(lia) ltac:(lia) Hlb1) as [Hlb' Hmono'].
      split.
      * by replace (bound + (1 + Z.of_nat (length es)))%Z
          with (bound + 1 + Z.of_nat (length es))%Z by lia.
      * intros username k Hk Hrange.
        destruct (Hmono1 username k Hk Hrange) as (k1 & Hk1 & Hrange1).
        destruct (Hmono' username k1 Hk1 ltac:(lia)) as (k' & Hk' & Hrange').
        exists k'. split; [done | lia].
Qed.

End Steps.

(** ** Example *)

Section ExampleLeaderboard.
Import Example Scenario.

(** The example battle is played to its end on an empty leaderboard: the
    winner has one win, and the leaderboard holds integer counts. *)
Lemma leaderboard_grows_witness :
  exists w',
    run Number_toString fighting knockout = Some w'
    /\ leaderboard (server fighting) = ∅
    /\ leaderboard (server w') !! "Anon_alic" = Some (Wins (of_Z 1))
    /\ counted (0 + Z.of_nat (length knockout)) (leaderboard (server w')).
Proof.
  assert (exists w', run Number_toString fighting knockout = Some w') as [w' Hrun].
  { eexists. vm_compute. reflexivity. }
  destruct (leaderboard_grows Number_toString fighting knockout w' Hrun) as (_ & _ & H).
  destruct (H 0%Z) as [Hcounted _]; [lia | vm_compute; reflexivity | |].
  { intros username v Hv.
    assert (leaderboard (server fighting) = ∅) as Hempty by reflexivity.
    by rewrite Hempty, lookup_empty in Hv. }
  exists w'. split_and!; [exact Hrun | reflexivity | | exact Hcounted].
  vm_compute in Hrun. injection Hrun as <-. vm_compute. reflexivity.
Defined.

End ExampleLeaderboard.

End LeaderboardFacts.

(* ===================================================================== *)
(** ** Names of the players *)
(* ===================================================================== *)

Module LobbyFacts.
Import Num Match MatchFacts MatchmakingFacts BattleFacts LeaderboardFacts Lobby.
Local Open Scope nat_scope.

(** ** Names *)

Lemma trimStart_head s :
  trimStart s = EmptyString \/ exists c rest, trimStart s = String c rest /\ is_space c = false.
Proof.
  induction s as [|c s IH]; simpl; [by left|].
  destruct (is_space c) eqn:Hc; [done|]. right. by exists c, s.
Qed.

Lemma trimEnd_head c rest :
  is_space c = false -> exists rest', trimEnd (String c rest) = String c rest'.
Proof. intros Hc. simpl. rewrite Hc. destruct (trimEnd rest); eauto. Qed.

Lemma trimEnd_empty : trimEnd EmptyString = EmptyString.
Proof. done. Qed.

Lemma trim_head s :
  trim s = EmptyString \/ exists c rest, trim s = String c rest /\ is_space c = false.
Proof.
  unfold trim. destruct (trimStart_head s) as [-> | (c & rest & -> & Hc)]; [by left|].
  right. destruct (trimEnd_head c rest Hc) as [rest' ->]. by exists c, rest'.
Qed.

Lemma length_substring_0 n s :
  String.length (String.substring 0 n s) = Nat.min n (String.length s).
Proof.
  revert s. induction n as [|n IH]; intros [|c s]; simpl; try done. by rewrite IH.
Qed.

Lemma substring_0_all n s :
  (String.length s <= n)%nat -> String.substring 0 n s = s.
Proof.
  revert s. induction n as [|n IH]; intros [|c s]; simpl; try done; [lia|].
  intros H. rewrite IH; [done|lia].
Qed.

Lemma length_append_string a b :
  String.length (String.append a b) = (String.length a + String.length b)%nat.
Proof. induction a as [|c a IH]; simpl; [done | by rewrite IH]. Qed.

Lemma trimStart_id c rest : is_space c = false -> trimStart (String c rest) = String c rest.
Proof. intros H. simpl. by rewrite H. Qed.

Lemma cleanUsername_nonempty sock username : cleanUsername sock username ≠ EmptyString.
Proof. unfold cleanUsername, or_string. by destruct (decide _). Qed.

(** The name a socket ends up with is never empty, has 16 characters at
    most and does not begin with white space: the name sent is trimmed
    and cut, and an empty result is replaced by [Anon_] and the first
    four characters of the socket's id.  A name that needs neither
    trimming nor cutting is kept as it is.  (A cut name may end with
    white space.) *)
Theorem cleanUsername_shape sock username :
  let clean := cleanUsername sock username in
  clean ≠ EmptyString
  /\ (String.length clean <= 16)%nat
  /\ (forall c rest, clean = String c rest -> is_space c = false)
  /\ (trim username = username -> username ≠ EmptyString ->
      (String.length username <= 16)%nat -> clean = username).
Proof.
  intros clean. subst clean. unfold cleanUsername, or_string.
  set (cut := String.substring 0 16 (trim username)).
  assert ((String.length cut <= 16)%nat) as Hlen.
  { subst cut. rewrite length_substring_0. lia. }
  assert (forall c rest, cut = String c rest -> is_space c = false) as Hhead.
  { subst cut. destruct (trim_head username) as [-> | (c0 & rest0 & -> & Hc0)]; [done|].
    simpl. by intros c rest [= <- _]. }
  destruct (decide (cut = "")) as [Hcut|Hcut].
  - split_and!.
    + done.
    + rewrite length_append_string. simpl. rewrite length_substring_0. lia.
    + simpl. by intros c rest [= <- _].
    + intros Htrim Hne Hshort. exfalso. subst cut. rewrite Htrim in Hcut.
      rewrite substring_0_all in Hcut by done. done.
  - split_and!; try done.
    intros Htrim Hne Hshort. subst cut. rewrite Htrim. by apply substring_0_all.
Qed.

(** ** Every connected socket has a name *)

(** Every connected socket has a non-empty name, and the waiting socket
    is connected. *)
Definition lobby_ok (s : Server) : Prop :=
  (forall sock username, sockets s !! sock = Some username -> username ≠ EmptyString)
  /\ (forall sock, waitingPlayer s = Some sock -> is_Some (sockets s !! sock)).

(** What [lobby_ok] reads of a server. *)
Definition lobby_of (s : Server) : gmap string string * option string :=
  (sockets s, waitingPlayer s).

Lemma lobby_ok_same s s' : lobby_of s' = lobby_of s -> lobby_ok s -> lobby_ok s'.
Proof. unfold lobby_of, lobby_ok. intros [= -> ->]. done. Qed.

Lemma lobby_update_captured s gameId game : lobby_of (update_captured s gameId game) = lobby_of s.
Proof. unfold update_captured. by destruct (games_lookup _ _). Qed.

Lemma lobby_afterSelection s sock gameId game s' :
  afterSelection s sock gameId game = Some s' -> lobby_of s' = lobby_of s.
Proof.
  unfold afterSelection.
  destruct (g_players game !! _) as [p1|]; [|done].
  destruct (g_players game !! _) as [p2|]; [|done].
  destruct (_ && _).
  - destruct (pl_team p1) as [t1|], (pl_team p2) as [t2|];
      try (intros [= <-]; apply lobby_update_captured).
    destruct (t1 !! 0%nat), (t2 !! 0%nat);
      try (intros [= <-]; apply lobby_update_captured).
    destruct (bool_decide _); intros [= <-]; [|apply lobby_update_captured].
    unfold emit_to.
    match goal with
    | |- lobby_of (emit_to ?x _ _) = _ => change (lobby_of x = lobby_of s)
    | |- _ => idtac
    end. apply lobby_update_captured.
  - intros [= <-]. destruct (other_player _ _).
    + match goal with
      | |- lobby_of (emit ?x _ _) = _ => change (lobby_of x = lobby_of s)
      end. apply lobby_update_captured.
    + apply lobby_update_captured.
Qed.

Lemma lobby_resumeSelectTeam w hid w' :
  resumeSelectTeam w hid = Some w' -> lobby_of (server w') = lobby_of (server w).
Proof.
  unfold resumeSelectTeam.
  destruct (handlers w !! hid) as [[[sock gameId ps]|]|]; try done.
  destruct (Fetch.promise_all _ _); [done | by intros [= <-] |].
  destruct (existsb _ _); [by intros [= <-]|].
  destruct (instantiate _ _); [|by intros [= <-]].
  destruct (captured_game _ _); [|by intros [= <-]].
  destruct (g_players _ !! _); [|by intros [= <-]].
  destruct (afterSelection _ _ _ _) eqn:Hafter; intros [= <-]; simpl.
  - by eapply lobby_afterSelection.
  - apply lobby_update_captured.
Qed.

Lemma lobby_findMatch s sock gameId :
  sockets (findMatch s sock gameId) = sockets s
  /\ (waitingPlayer (findMatch s sock gameId) = waitingPlayer s
      \/ waitingPlayer (findMatch s sock gameId) = None
      \/ waitingPlayer (findMatch s sock gameId) = Some sock
         /\ or_string (sockets s !! sock) "" ≠ EmptyString).
Proof.
  unfold findMatch. destruct (decide _) as [|Hname]; [by split; [|left]|]. simpl.
  destruct (waitingPlayer s) as [player1|] eqn:Hw.
  - destruct (decide _); [|by split; [|right; right]].
    destruct (decide _); [by split; [|left]|]. by split; [|right; left].
  - by split; [|right; right].
Qed.

Lemma lobby_ok_findMatch s sock gameId : lobby_ok s -> lobby_ok (findMatch s sock gameId).
Proof.
  intros [Hnames Hwaits]. destruct (lobby_findMatch s sock gameId) as [Hs Hw].
  split; rewrite Hs; [done|]. intros a Ha.
  destruct Hw as [Hw | [Hw | [Hw Hname]]]; rewrite Hw in Ha.
  - by apply Hwaits.
  - done.
  - injection Ha as <-. destruct (sockets s !! sock); [by eexists|].
    exfalso. by apply Hname.
Qed.

Lemma lobby_ok_disconnect s sock : lobby_ok s -> lobby_ok (disconnect s sock).
Proof.
  intros [Hnames Hwaits]. split.
  - intros a u. rewrite disconnect_sockets. intros Hl.
    apply lookup_delete_Some in Hl as [_ Hl]. by eapply Hnames.
  - intros a. rewrite disconnect_waitingPlayer, disconnect_sockets.
    destruct (decide _) as [Heq|Hne]; [done|]. intros Ha.
    rewrite lookup_delete_ne by congruence. by apply Hwaits.
Qed.

Lemma lobby_ok_insert s s' sock username :
  username ≠ EmptyString ->
  sockets s' = <[sock := username]> (sockets s) -> waitingPlayer s' = waitingPlayer s ->
  lobby_ok s -> lobby_ok s'.
Proof.
  intros Hu Hs Hw [Hnames Hwaits]. split.
  - intros a u. rewrite Hs. destruct (decide (sock = a)) as [->|Hne].
    + rewrite lookup_insert_eq. by intros [= <-].
    + rewrite lookup_insert_ne by done. apply Hnames.
  - intros a. rewrite Hs, Hw. intros Ha. destruct (decide (sock = a)) as [->|Hne].
    + rewrite lookup_insert_eq. by eexists.
    + rewrite lookup_insert_ne by done. by apply Hwaits.
Qed.

Section Names.

Variable Number_toString : jsnum -> string.

Lemma lobby_ok_step w e w' :
  Lobby.step Number_toString w e = Some w' -> lobby_ok (server w) -> lobby_ok (server w').
Proof.
  destruct e as [e|sock username]; simpl.
  - destruct e; simpl.
    + intros [= <-]. by apply (lobby_ok_insert _ _ sock (String.append "Anon_" (String.substring 0 4 sock))).
    + intros [= <-]. apply lobby_ok_findMatch.
    + destruct (selectTeam _ _ _ _ _) as [w1|] eqn:Hsel; [|done].
      intros [= <-]. by rewrite (server_selectTeam _ _ _ _ _ _ Hsel).
    + intros [= <-]. simpl. apply lobby_ok_same.
      destruct (performAction_effect (server w) sock gameId action rnd) as ((Hw & Hs & _) & _).
      unfold lobby_of. by rewrite Hw, Hs.
    + intros [= <-]. apply lobby_ok_disconnect.
    + destruct (Fetch.step _ _); [|done]. by intros [= <-].
    + intros H. apply lobby_ok_same. by eapply lobby_resumeSelectTeam.
  - destruct (sockets (server w) !! sock); [|done]. intros [= <-]. simpl.
    apply (lobby_ok_insert _ _ sock (cleanUsername sock username)); [apply cleanUsername_nonempty|done..].
Qed.

Lemma lobby_ok_run w es w' :
  Lobby.run Number_toString w es = Some w' -> lobby_ok (server w) -> lobby_ok (server w').
Proof.
  revert w. induction es as [|e es IH]; intros w; simpl; [by intros [= <-]|].
  destruct (Lobby.step Number_toString w e) as [w1|] eqn:Hstep; [|done].
  intros Hrun Hok. apply (IH w1 Hrun). by eapply lobby_ok_step.
Qed.

(** A connected socket always has a name, so [findMatch] never answers it
    with the request to set one, and never drops its request: after any
    sequence of events the socket that asks either becomes (or stays) the
    waiting one, or is paired with the socket that waited, in a new match
    announced to both. *)
Theorem findMatch_served w es sock username gameId :
  Lobby.run Number_toString initial_world es = Some w ->
  sockets (server w) !! sock = Some username ->
  let s := server w in
  let s' := findMatch s sock gameId in
  username ≠ EmptyString
  /\ ((waitingPlayer s = None \/ waitingPlayer s = Some sock)
      /\ waitingPlayer s' = Some sock
      /\ activeGames s' = activeGames s
      /\ outbox s' = outbox s ++ [(sock, EvWaitingForOpponent)]
      \/ exists player1 username1,
           waitingPlayer s = Some player1 /\ player1 ≠ sock
           /\ sockets s !! player1 = Some username1
           /\ waitingPlayer s' = None
           /\ (exists game,
                 games_lookup (activeGames s') gameId = Some game
                 /\ g_playerOrder game = (player1, sock))
           /\ outbox s'
              = outbox s ++ [(player1, EvMatchFound gameId username);
                             (sock, EvMatchFound gameId username1)]).
Proof.
  intros Hrun Hsock s s'.
  assert (lobby_ok s) as [Hnames Hwaits].
  { eapply lobby_ok_run; [exact Hrun|]. split; [|done].
    intros a u. simpl. by rewrite lookup_empty. }
  pose proof (Hnames sock username Hsock) as Hname. split; [done|].
  destruct (waitingPlayer s) as [player1|] eqn:Hw.
  - destruct (decide (player1 = sock)) as [->|Hne].
    + left. subst s'.
      destruct (findMatch_waiting s sock gameId username) as (? & ? & _ & ? & _); auto.
    + right. destruct (Hwaits player1 eq_refl) as [username1 H1].
      pose proof (Hnames player1 username1 H1) as Hname1.
      exists player1, username1. subst s'.
      destruct (findMatch_pairing s player1 sock gameId username1 username)
        as (? & ? & _ & _ & _ & ? & _); try done.
      split_and!; try done. by eexists.
  - left. subst s'.
    destruct (findMatch_waiting s sock gameId username) as (? & ? & _ & ? & _); auto.
Qed.

End Names.

(** ** Example *)

Section ExampleLobby.
Import Example Scenario.

(** The second socket asks for a match while the first one, which has
    named itself, waits: they are paired, each told the other's name. *)
Lemma findMatch_served_witness :
  exists w,
    Lobby.run Number_toString initial_world named = Some w
    /\ sockets (server w) !! "alice" = Some "Ash"
    /\ waitingPlayer (findMatch (server w) "bob" "g1") = None
    /\ outbox (findMatch (server w) "bob" "g1")
       = outbox (server w) ++ [("alice", EvMatchFound "g1" "Anon_bob");
                               ("bob", EvMatchFound "g1" "Ash")].
Proof.
  assert (exists w, Lobby.run Number_toString initial_world named = Some w) as [w Hrun].
  { eexists. vm_compute. reflexivity. }
  destruct (findMatch_served Number_toString w named "bob" "Anon_bob" "g1" Hrun) as [_ H].
  { vm_compute in Hrun. injection Hrun as <-. vm_compute. reflexivity. }
  exists w. split; [exact Hrun|].
  assert (waitingPlayer (server w) = Some "alice" /\ sockets (server w) !! "alice" = Some "Ash")
    as [Hw Ha].
  { vm_compute in Hrun. injection Hrun as <-. split; vm_compute; reflexivity. }
  split; [exact Ha|].
  destruct H as [([Hn | Hb] & _) | (player1 & username1 & H1 & _ & H3 & H4 & _ & H6)];
    [congruence | congruence |].
  assert (player1 = "alice") as -> by congruence.
  assert (username1 = "Ash") as -> by congruence.
  split; [exact H4 | exact H6].
Defined.

(** A long name is trimmed and cut, a blank one is replaced, a short one
    is kept. *)
Lemma cleanUsername_shape_witness :
  cleanUsername "abcd1234" "  Ash Ketchum of Pallet Town  " = "Ash Ketchum of P"
  /\ cleanUsername "abcd1234" "   " = "Anon_abcd"
  /\ cleanUsername "abcd1234" "Misty" = "Misty".
Proof.
  destruct (cleanUsername_shape "abcd1234" "Misty") as (_ & _ & _ & H).
  split_and!; [reflexivity | reflexivity |].
  apply H; [reflexivity | discriminate | vm_compute; lia].
Defined.

End ExampleLobby.

End LobbyFacts.

(* ===================================================================== *)
(** ** The leaderboard that is sent *)
(* ===================================================================== *)

Module RankingFacts.
Import Num Match Lobby CountFacts.
Local Open Scope nat_scope.

(** ** The leaderboard that is sent *)

(** The entry holds an integer count. *)
Definition integer_count (entry : string * score) : Prop :=
  exists k, snd entry = Wins (of_Z k) /\ (1 <= k < 9007199254740992)%Z.

(** The integer a value of the leaderboard holds. *)
Definition count (v : score) : Z := to_Z (to_number v).

(** [next] may follow [entry] in the list that is sent. *)
Definition falling (entry next : string * score) : Prop :=
  (count (snd next) <= count (snd entry))%Z.

(** The comparator is above 0 exactly when the first entry has fewer wins. *)
Lemma byWins_sign a b :
  integer_count a -> integer_count b ->
  ltb zero (byWins a b) = (count (snd a) <? count (snd b))%Z.
Proof.
  intros (ka & Ha & Hka) (kb & Hb & Hkb). unfold byWins, count. rewrite Ha, Hb. simpl.
  rewrite sub_of_Z, ltb_zero_of_Z, !to_Z_of_Z by lia.
  destruct (Z.ltb_spec 0 (kb - ka)), (Z.ltb_spec ka kb); try done; lia.
Qed.

Lemma integer_count_sortable entries : Forall integer_count entries -> sortable entries = true.
Proof.
  induction 1 as [|entry rest (k & Hk & Hrange) _ IH]; [done|].
  unfold sortable in *. simpl. rewrite Hk, IH. by rewrite of_Z_pos by lia.
Qed.

Lemma insertByWins_perm entry sorted : insertByWins entry sorted ≡ₚ entry :: sorted.
Proof.
  induction sorted as [|next rest IH]; simpl; [done|].
  destruct (ltb zero (byWins entry next)); [|done].
  rewrite IH. apply Permutation_swap.
Qed.

Lemma sortByWins_perm entries : sortByWins entries ≡ₚ entries.
Proof.
  induction entries as [|entry rest IH]; simpl; [done|].
  by rewrite insertByWins_perm, IH.
Qed.

Lemma sortByWins_counts entries :
  Forall integer_count entries -> Forall integer_count (sortByWins entries).
Proof. intros H. by rewrite sortByWins_perm. Qed.

Lemma insertByWins_sorted entry sorted :
  integer_count entry -> Forall integer_count sorted ->
  StronglySorted falling sorted -> StronglySorted falling (insertByWins entry sorted).
Proof.
  intros Hentry Hcounts Hsorted.
  induction Hsorted as [|next rest Hrest IH Hall]; simpl.
  - by repeat constructor.
  - apply Forall_cons in Hcounts as [Hnext Hcounts].
    rewrite (byWins_sign entry next Hentry Hnext).
    destruct (Z.ltb_spec (count (snd entry)) (count (snd next))) as [Hlt|Hge].
    + constructor; [by apply IH|]. rewrite insertByWins_perm. constructor; [|done].
      unfold falling. lia.
    + constructor; [by constructor|]. constructor; [done|].
      eapply Forall_impl; [exact Hall|]. unfold falling. intros x Hx. lia.
Qed.

Lemma sortByWins_sorted entries :
  Forall integer_count entries -> StronglySorted falling (sortByWins entries).
Proof.
  induction 1 as [|entry rest Hentry Hrest IH]; simpl; [constructor|].
  apply insertByWins_sorted; [done | by apply sortByWins_counts | done].
Qed.

Lemma insertByWins_stable n entry sorted :
  integer_count entry -> Forall integer_count sorted ->
  filter (fun e => count (snd e) = n) (insertByWins entry sorted)
  = filter (fun e => count (snd e) = n) (entry :: sorted).
Proof.
  intros Hentry Hcounts.
  induction sorted as [|next rest IH]; simpl; [done|].
  apply Forall_cons in Hcounts as [Hnext Hcounts].
  rewrite (byWins_sign entry next Hentry Hnext).
  destruct (Z.ltb_spec (count (snd entry)) (count (snd next))) as [Hlt|Hge]; [|done].
  rewrite !filter_cons in *. rewrite IH by done.
  destruct (decide (count (snd next) = n)), (decide (count (snd entry) = n)); try done. lia.
Qed.

Lemma sortByWins_stable n entries :
  Forall integer_count entries ->
  filter (fun e => count (snd e) = n) (sortByWins entries)
  = filter (fun e => count (snd e) = n) entries.
Proof.
  induction 1 as [|entry rest Hentry Hrest IH]; simpl; [done|].
  rewrite insertByWins_stable by (done || by apply sortByWins_counts).
  rewrite !filter_cons. by rewrite IH.
Qed.

Lemma sorted_lookup (l : list (string * score)) i j a b :
  StronglySorted falling l -> (i <= j)%nat -> l !! i = Some a -> l !! j = Some b -> falling a b.
Proof.
  intros Hl. revert i j. induction Hl as [|x l Hl IH Hall]; intros i j Hij Ha Hb; [done|].
  destruct i as [|i].
  - injection Ha as ->. destruct j as [|j].
    + injection Hb as ->. unfold falling. lia.
    + rewrite Forall_forall in Hall. apply Hall. by eapply list_elem_of_lookup_2.
  - destruct j as [|j]; [lia|]. apply (IH i j); [lia|done..].
Qed.

(** The entry a row was made from. *)
Definition entry_of (row : LeaderboardRow) : string * score := (lr_username row, lr_wins row).

Lemma toRows_lookup sorted i :
  toRows sorted !! i
  = (fun entry => {| lr_rank := Z.of_nat i + 1; lr_username := fst entry; lr_wins := snd entry |})
      <$> sorted !! i.
Proof. unfold toRows. by rewrite list_lookup_imap. Qed.

Lemma toRows_entries sorted : map entry_of (toRows sorted) = sorted.
Proof.
  apply list_eq. intros i. change (map entry_of) with (fmap (M := list) entry_of).
  rewrite list_lookup_fmap, toRows_lookup.
  destruct (sorted !! i) as [[u n]|]; done.
Qed.

(** When every entry of the leaderboard holds an integer count below
    [2^53], the list sent for [getLeaderboard] has the ten first entries
    of the leaderboard at most (all of them when there are fewer), ranked
    from 1 in the order of the list, with wins that never increase down
    the list.  The entries left out have no more wins than any entry
    listed, and entries with the same number of wins keep the order the
    leaderboard lists them in.  With an entry that holds a text instead of
    a count the embedding gives no list. *)
Theorem getLeaderboard_ranking entries :
  (Forall integer_count entries ->
   exists rows,
     getLeaderboard entries = Some rows
     /\ length rows = Nat.min 10 (length entries)
     /\ (forall i row, rows !! i = Some row -> lr_rank row = (Z.of_nat i + 1)%Z)
     /\ (forall i j above below,
           (i <= j)%nat -> rows !! i = Some above -> rows !! j = Some below ->
           (count (lr_wins below) <= count (lr_wins above))%Z)
     /\ (exists rest,
           map entry_of rows ++ rest ≡ₚ entries
           /\ forall entry row,
                entry ∈ rest -> row ∈ rows -> (count (snd entry) <= count (lr_wins row))%Z)
     /\ (forall n,
           filter (fun e => count (snd e) = n) (map entry_of rows)
           `prefix_of` filter (fun e => count (snd e) = n) entries))
  /\ (forall username function ones,
        (username, Text function ones) ∈ entries -> getLeaderboard entries = None).
Proof.
  split.
  - intros Hcounts. unfold getLeaderboard. rewrite (integer_count_sortable _ Hcounts).
    eexists. split; [done|]. rewrite toRows_entries.
    pose proof (sortByWins_sorted entries Hcounts) as Hsorted.
    pose proof (sortByWins_perm entries) as Hperm.
    split_and!.
    + unfold toRows. rewrite length_imap, length_take.
      by rewrite (Permutation_length Hperm).
    + intros i row. rewrite toRows_lookup. destruct (take 10 _ !! i); [|done].
      by intros [= <-].
    + intros i j above below Hij. rewrite !toRows_lookup.
      destruct (take 10 _ !! i) as [a|] eqn:Ha; [|done].
      destruct (take 10 _ !! j) as [b|] eqn:Hb; [|done].
      intros [= <-] [= <-]. simpl.
      apply lookup_take_Some in Ha as [Ha _]. apply lookup_take_Some in Hb as [Hb _].
      exact (sorted_lookup _ i j a b Hsorted Hij Ha Hb).
    + exists (drop 10 (sortByWins entries)). split; [by rewrite take_drop|].
      intros entry row Hentry Hrow.
      apply list_elem_of_lookup in Hentry as [k Hk]. rewrite lookup_drop in Hk.
      apply list_elem_of_lookup in Hrow as [i Hi]. rewrite toRows_lookup in Hi.
      destruct (take 10 _ !! i) as [a|] eqn:Ha; [|done]. injection Hi as <-. simpl.
      apply lookup_take_Some in Ha as [Ha Hlt].
      apply (sorted_lookup _ i (10 + k) a entry Hsorted); [lia|done..].
    + intros n. rewrite <- (sortByWins_stable n entries Hcounts).
      rewrite <- (take_drop 10 (sortByWins entries)) at 2. rewrite filter_app.
      by eexists.
  - intros username function ones Hin. unfold getLeaderboard.
    assert (sortable entries = false) as ->; [|done].
    apply not_true_iff_false. unfold sortable. rewrite forallb_forall.
    intros Hall. by apply list_elem_of_In, Hall in Hin.
Qed.

(** ** Example *)

(** Two players with three wins each and one with a single win; and a
    leaderboard with a winner named [constructor]. *)
Lemma getLeaderboard_ranking_witness :
  getLeaderboard [("ash", Wins (of_Z 1)); ("misty", Wins (of_Z 3)); ("brock", Wins (of_Z 3))]
  = Some [{| lr_rank := 1; lr_username := "misty"; lr_wins := Wins (of_Z 3) |};
          {| lr_rank := 2; lr_username := "brock"; lr_wins := Wins (of_Z 3) |};
          {| lr_rank := 3; lr_username := "ash"; lr_wins := Wins (of_Z 1) |}]
  /\ (exists rows,
        getLeaderboard
          [("ash", Wins (of_Z 1)); ("misty", Wins (of_Z 3)); ("brock", Wins (of_Z 3))]
        = Some rows
        /\ length rows = 3)
  /\ getLeaderboard [("ash", Wins (of_Z 1)); ("constructor", Text "Object" 1)] = None.
Proof.
  split; [reflexivity|]. split.
  - destruct (getLeaderboard_ranking
                [("ash", Wins (of_Z 1)); ("misty", Wins (of_Z 3)); ("brock", Wins (of_Z 3))])
      as [H _].
    destruct H as (rows & Hrows & Hlen & _).
    + repeat constructor; [exists 1%Z | exists 3%Z | exists 3%Z]; (split; [reflexivity | lia]).
    + by exists rows.
  - destruct (getLeaderboard_ranking [("ash", Wins (of_Z 1)); ("constructor", Text "Object" 1)])
      as [_ H].
    apply (H "constructor" "Object" 1). apply list_elem_of_further, list_elem_of_here.
Defined.

End RankingFacts.

(* ===================================================================== *)
(** ** Start-up *)
(* ===================================================================== *)

Module StartupFacts.
Import Num Heap Fetch HeapFacts FetchFacts ResolutionFacts.
Local Open Scope nat_scope.

(** ** The list of creatures built when the server starts *)

Lemma run_calls s es1 es2 : run s (es1 ++ es2) = s1 ← run s es1; run s1 es2.
Proof.
  revert s. induction es1 as [|e es1 IH]; intros s; simpl; [done|].
  destruct (step s e); [apply IH | done].
Qed.

Section Startup.

Variable Number_toString : jsnum -> string.

(** The calls [ids.map(id => getPokemonDetails(id))] makes, as events. *)
Definition calls (ids : list jsval) : list Fetch.event :=
  map (fun id => CallPokemon (Match.String_ Number_toString id)) ids.

Lemma getPokemonDetails_each_run f ids :
  run f (calls ids) = Some (Match.getPokemonDetails_each Number_toString f ids).1.
Proof.
  revert f. induction ids as [|id ids IH]; intros f; simpl; [done|].
  specialize (IH (getPokemonDetails f (Match.String_ Number_toString id)).1).
  destruct (getPokemonDetails f _) as [f1 ret]. simpl in *.
  by destruct (Match.getPokemonDetails_each _ f1 ids) as [f2 rets].
Qed.

(** A promise that is pending or fulfilled. *)
Definition unrejected (s : State) (pid : nat) : Prop :=
  promises s !! pid = Some Pending \/ exists v, promises s !! pid = Some (Fulfilled v).

Lemma getPokemonDetails_each_settles f ids es s2 :
  Inv f -> run (Match.getPokemonDetails_each Number_toString f ids).1 es = Some s2 ->
  Forall (unrejected s2) (Match.getPokemonDetails_each Number_toString f ids).2.
Proof.
  revert f. induction ids as [|id ids IH]; intros f HI; simpl; [by constructor|].
  pose proof (pokemon_call_settles f (Match.String_ Number_toString id)) as Hfirst.
  destruct (Inv_getPokemonDetails f (Match.String_ Number_toString id) HI) as [HI1 _].
  pose proof (getPokemonDetails_each_run (getPokemonDetails f (Match.String_ Number_toString id)).1 ids)
    as Hcalls.
  specialize (IH (getPokemonDetails f (Match.String_ Number_toString id)).1).
  destruct (getPokemonDetails f _) as [f1 ret]. simpl in *.
  destruct (Match.getPokemonDetails_each _ f1 ids) as [f2 rets]. simpl in *.
  intros Hrun. constructor; [|by apply IH].
  apply (Hfirst (calls ids ++ es) s2 HI). rewrite run_calls, Hcalls. done.
Qed.

Lemma promise_all_unrejected s pids :
  Forall (unrejected s) pids ->
  promise_all s pids = AllPending
  \/ exists results, promise_all s pids = AllFulfilled results /\ length results = length pids.
Proof.
  unfold promise_all. intros Hall.
  assert (existsb is_rejected (map (fun pid => promises s !! pid) pids) = false) as ->.
  { induction Hall as [|pid pids Hpid _ IH]; simpl; [done|].
    unfold unrejected in Hpid. destruct Hpid as [Hp | [v Hp]]; by rewrite Hp. }
  assert (forall values,
            fulfilled_values (map (fun pid => promises s !! pid) pids) = Some values ->
            length values = length pids) as Hlen.
  { clear Hall. induction pids as [|pid pids IH]; simpl; [by intros ? [= <-]|].
    destruct (promises s !! pid) as [[]|]; try done.
    destruct (fulfilled_values _) as [vs|]; [|done]. intros ? [= <-]. simpl.
    by rewrite (IH vs). }
  destruct (fulfilled_values _) as [values|]; [|by left]. right. eauto.
Qed.

Lemma length_omap_le {A B} (g : A -> option B) (l : list A) :
  (length (omap g l) <= length l)%nat.
Proof.
  induction l as [|x l IH]; simpl; [lia|].
  change (list_omap A B g l) with (omap g l). destruct (g x); simpl; lia.
Qed.

Lemma length_available h results : (length (Lobby.available h results) <= length results)%nat.
Proof.
  unfold Lobby.available, non_null.
  etransitivity; [apply length_omap_le|]. apply length_omap_le.
Qed.

(** [initializeAvailablePokemon] never throws: it asks for the six
    creatures of the selection screen, and whatever the remote API answers
    and whatever else the server does meanwhile, the six promises it waits
    for are never rejected.  It is either still waiting, or resumes with
    six results and builds a list of six entries at most. *)
Theorem initialization_never_throws f es f2 :
  reachable f ->
  run (Lobby.initializeAvailablePokemon Number_toString f).1 es = Some f2 ->
  let waited := (Lobby.initializeAvailablePokemon Number_toString f).2 in
  length waited = 6%nat
  /\ promise_all f2 waited ≠ AllRejected
  /\ (Lobby.resumeInitialize f2 waited = None /\ promise_all f2 waited = AllPending
      \/ exists results list,
           promise_all f2 waited = AllFulfilled results /\ length results = 6%nat
           /\ Lobby.resumeInitialize f2 waited = Some list /\ (length list <= 6)%nat).
Proof.
  intros Hreach Hrun waited. subst waited.
  pose proof (Inv_reachable f Hreach) as HI.
  unfold Lobby.initializeAvailablePokemon in *.
  assert (length (Match.getPokemonDetails_each Number_toString f
                    (map (fun id => JNum (of_Z id)) Lobby.AVAILABLE_POKEMON_IDS)).2 = 6%nat) as Hsix.
  { by rewrite SelectFacts.getPokemonDetails_each_length. }
  pose proof (getPokemonDetails_each_settles f _ es f2 HI Hrun) as Hall.
  destruct (promise_all_unrejected f2 _ Hall) as [Hp | (results & Hp & Hlen)].
  - split_and!; [done | by rewrite Hp |]. left. unfold Lobby.resumeInitialize. by rewrite Hp.
  - split_and!; [done | by rewrite Hp |]. right.
    exists results, (Lobby.available (store f2) results). unfold Lobby.resumeInitialize. rewrite Hp.
    split_and!; try done; [congruence|].
    etransitivity; [apply length_available|]. lia.
Qed.

End Startup.

(** ** Example *)

Section ExampleStartup.
Import Example.

(** The server starts and the first of the six requests fails: the
    initialization goes on waiting for the others. *)
Lemma initialization_never_throws_witness :
  exists f2,
    run (Lobby.initializeAvailablePokemon Number_toString initial).1
      [PokemonResponse 0 None; Resume 1] = Some f2
    /\ length (Lobby.initializeAvailablePokemon Number_toString initial).2 = 6%nat
    /\ promise_all f2 (Lobby.initializeAvailablePokemon Number_toString initial).2 ≠ AllRejected.
Proof.
  eexists. split; [vm_compute; reflexivity|].
  odestruct (initialization_never_throws Number_toString initial
               [PokemonResponse 0 None; Resume 1] _) as (H1 & H2 & _).
  - exists []. reflexivity.
  - vm_compute. reflexivity.
  - split; [exact H1 | exact H2].
Defined.

End ExampleStartup.

End StartupFacts.
